(** * js-draw: the image tree behind [EditorImage]

    A shallow embedding of [EditorImage] and [ImageNode] (the bounding-box
    tree that stores the components of a drawing), together with the
    properties of the tree that the design document states.

    The object graph of the TypeScript code (nodes that point to their
    children and back to their parent) is modelled as a store of node
    records addressed by reference; every assignment of the source is an
    update of that store.  Loops and recursive methods take a [fuel]
    argument; [None] stands for a call that does not return. *)

From Stdlib Require Import ZArith Lia.
From stdpp Require Import base option list gmap strings pretty relations sorting.

Local Open Scope Z_scope.

(** ** JavaScript numbers

    Finite values are kept exact (no rounding); the three special values
    of IEEE arithmetic are kept apart because the code tests for [NaN]. *)

Inductive number : Type :=
  | Num (z : Z)
  | Infinity
  | NegInfinity
  | NaN.

#[global] Instance number_eq_dec : EqDecision number.
Proof. solve_decision. Defined.

Module Number.

Definition isNaN (a : number) : bool :=
  match a with NaN => true | _ => false end.

Definition neg (a : number) : number :=
  match a with
  | Num z => Num (- z)
  | Infinity => NegInfinity
  | NegInfinity => Infinity
  | NaN => NaN
  end.

Definition add (a b : number) : number :=
  match a, b with
  | NaN, _ | _, NaN => NaN
  | Num x, Num y => Num (x + y)
  | Infinity, NegInfinity | NegInfinity, Infinity => NaN
  | Infinity, _ | _, Infinity => Infinity
  | NegInfinity, _ | _, NegInfinity => NegInfinity
  end.

Definition sub (a b : number) : number := add a (neg b).

(** Sign of a number that is not [NaN]: [-1], [0] or [1]. *)
Definition sgn (a : number) : Z :=
  match a with
  | Num z => Z.sgn z
  | Infinity => 1
  | NegInfinity => -1
  | NaN => 0
  end.

Definition mul (a b : number) : number :=
  match a, b with
  | NaN, _ | _, NaN => NaN
  | Num x, Num y => Num (x * y)
  | _, _ =>
      match sgn a * sgn b with
      | Z0 => NaN
      | Zpos _ => Infinity
      | Zneg _ => NegInfinity
      end
  end.

(** [a < b]; every comparison with [NaN] is false. *)
Definition ltb (a b : number) : bool :=
  match a, b with
  | NaN, _ | _, NaN => false
  | Num x, Num y => x <? y
  | NegInfinity, NegInfinity => false
  | NegInfinity, _ => true
  | _, NegInfinity => false
  | Infinity, _ => false
  | _, Infinity => true
  end.

Definition leb (a b : number) : bool :=
  match a, b with
  | NaN, _ | _, NaN => false
  | _, _ => negb (ltb b a)
  end.

(** [Math.max] and [Math.min]: [NaN] as soon as one argument is. *)
Definition max (a b : number) : number :=
  match a, b with
  | NaN, _ | _, NaN => NaN
  | _, _ => if ltb a b then b else a
  end.

Definition min (a b : number) : number :=
  match a, b with
  | NaN, _ | _, NaN => NaN
  | _, _ => if ltb b a then b else a
  end.

Definition abs (a : number) : number :=
  match a with
  | Num z => Num (Z.abs z)
  | Infinity | NegInfinity => Infinity
  | NaN => NaN
  end.


End Number.

(** ** [Array.prototype.sort]

    The sort of the language is stable; a comparator result that is
    positive moves the first argument behind the second, and [NaN] counts
    as zero. *)

Section JsSort.
Context {A : Type} (cmp : A → A → number).

Definition comesAfter (a b : A) : bool := Number.ltb (Num 0) (cmp a b).

Fixpoint sortInsert (x : A) (l : list A) : list A :=
  match l with
  | [] => [x]
  | y :: l' => if comesAfter x y then y :: sortInsert x l' else x :: l
  end.

Definition jsSort (l : list A) : list A := foldr sortInsert [] l.

End JsSort.

(** ** The rectangle library

    [Rect2] is imported by the image tree from the geometry library; the
    tree uses the seven members below and nothing else. *)

Class Rect2 (R : Type) : Type := {
  rect_eq_dec :: EqDecision R;
  rect_empty : R;                          (* Rect2.empty *)
  rect_union : R → R → R;                  (* a.union(b) *)
  rect_intersects : R → R → bool;          (* a.intersects(b) *)
  rect_intersection : R → R → option R;    (* a.intersection(b), null = None *)
  rect_containsRect : R → R → bool;        (* a.containsRect(b) *)
  rect_area : R → number;                  (* a.area *)
  rect_eq : R → R → bool;                  (* a.eq(b) *)
}.

(** What the tree expects of rectangles. *)
Class Rect2Laws (R : Type) `{Rect2 R} : Prop := {
  containsRect_refl (a : R) : rect_containsRect a a = true;
  containsRect_trans (a b c : R) :
    rect_containsRect a b = true → rect_containsRect b c = true →
    rect_containsRect a c = true;
  union_contains_l (a b : R) : rect_containsRect (rect_union a b) a = true;
  union_contains_r (a b : R) : rect_containsRect (rect_union a b) b = true;
  intersects_contains (a b r : R) :
    rect_containsRect a b = true → rect_intersects b r = true →
    rect_intersects a r = true;
  intersects_refl (a : R) : rect_intersects a a = true;
  intersection_is_Some (a r : R) :
    is_Some (rect_intersection a r) ↔ rect_intersects a r = true;
  rect_eq_true (a b : R) : rect_eq a b = true → a = b;
}.

(** Modelled from the spec: [Rect2] over exact integer coordinates (the
    source of the geometry library is not part of the sources read here).
    The spec lists union, intersects, intersection (a nullable overlap
    rectangle), contains-rect, area and equality.  Rectangles are closed:
    two rectangles that share only an edge or a corner intersect, and their
    overlap is a rectangle of area zero.  A size is never negative. *)
Record ZRect : Type := mkZRect { zx : Z; zy : Z; zw : N; zh : N }.

#[global] Instance ZRect_eq_dec : EqDecision ZRect.
Proof. solve_decision. Defined.

Module ZRect.

Definition right (a : ZRect) : Z := zx a + Z.of_N (zw a).
Definition bottom (a : ZRect) : Z := zy a + Z.of_N (zh a).

Definition fromCorners (x1 y1 x2 y2 : Z) : ZRect :=
  mkZRect (Z.min x1 x2) (Z.min y1 y2)
          (Z.to_N (Z.abs (x2 - x1))) (Z.to_N (Z.abs (y2 - y1))).

Definition empty : ZRect := mkZRect 0 0 0 0.

Definition union (a b : ZRect) : ZRect :=
  fromCorners (Z.min (zx a) (zx b)) (Z.min (zy a) (zy b))
              (Z.max (right a) (right b)) (Z.max (bottom a) (bottom b)).

Definition intersects (a b : ZRect) : bool :=
  negb ((right a <? zx b) || (right b <? zx a))
  && negb ((bottom a <? zy b) || (bottom b <? zy a)).

Definition intersection (a b : ZRect) : option ZRect :=
  if intersects a b then
    Some (fromCorners (Z.max (zx a) (zx b)) (Z.max (zy a) (zy b))
                      (Z.min (right a) (right b)) (Z.min (bottom a) (bottom b)))
  else None.

Definition containsRect (a b : ZRect) : bool :=
  (zx a <=? zx b) && (zy a <=? zy b)
  && (right b <=? right a) && (bottom b <=? bottom a).

Definition area (a : ZRect) : number := Num (Z.of_N (zw a) * Z.of_N (zh a)).

Definition eq (a b : ZRect) : bool := bool_decide (a = b).

End ZRect.

#[global] Instance ZRect_Rect2 : Rect2 ZRect := {|
  rect_empty := ZRect.empty;
  rect_union := ZRect.union;
  rect_intersects := ZRect.intersects;
  rect_intersection := ZRect.intersection;
  rect_containsRect := ZRect.containsRect;
  rect_area := ZRect.area;
  rect_eq := ZRect.eq;
|}.


(** Modelled from the spec: the same rectangles over JavaScript numbers,
    for boxes with a coordinate that is infinite or [NaN].  The area is the
    product of the two sizes. *)
Record FRect : Type := mkFRect { fx : number; fy : number; fw : number; fh : number }.

#[global] Instance FRect_eq_dec : EqDecision FRect.
Proof. solve_decision. Defined.

Module FRect.
Import Number.

Definition eqb (a b : number) : bool :=
  negb (isNaN a) && negb (isNaN b) && bool_decide (a = b).

Definition right (a : FRect) : number := add (fx a) (fw a).
Definition bottom (a : FRect) : number := add (fy a) (fh a).

Definition fromCorners (x1 y1 x2 y2 : number) : FRect :=
  mkFRect (min x1 x2) (min y1 y2) (abs (sub x2 x1)) (abs (sub y2 y1)).

Definition empty : FRect := mkFRect (Num 0) (Num 0) (Num 0) (Num 0).

Definition union (a b : FRect) : FRect :=
  fromCorners (min (fx a) (fx b)) (min (fy a) (fy b))
              (max (right a) (right b)) (max (bottom a) (bottom b)).

Definition intersects (a b : FRect) : bool :=
  negb (ltb (right a) (fx b) || ltb (right b) (fx a))
  && negb (ltb (bottom a) (fy b) || ltb (bottom b) (fy a)).

Definition intersection (a b : FRect) : option FRect :=
  if intersects a b then
    Some (fromCorners (max (fx a) (fx b)) (max (fy a) (fy b))
                      (min (right a) (right b)) (min (bottom a) (bottom b)))
  else None.

Definition containsRect (a b : FRect) : bool :=
  leb (fx a) (fx b) && leb (fy a) (fy b)
  && leb (right b) (right a) && leb (bottom b) (bottom a).

Definition area (a : FRect) : number := mul (fw a) (fh a).

Definition eq (a b : FRect) : bool :=
  eqb (fx a) (fx b) && eqb (fy a) (fy b)
  && eqb (fw a) (fw b) && eqb (fh a) (fh b).


End FRect.

#[global] Instance FRect_Rect2 : Rect2 FRect := {|
  rect_empty := FRect.empty;
  rect_union := FRect.union;
  rect_intersects := FRect.intersects;
  rect_intersection := FRect.intersection;
  rect_containsRect := FRect.containsRect;
  rect_area := FRect.area;
  rect_eq := FRect.eq;
|}.

(** ** Components, nodes and the store *)

Local Open Scope nat_scope.

(** A reference to an [ImageNode] object. *)
Abbreviation ref := nat (only parsing).

(** The soft cap on the number of children of a node
    ([ImageNode.targetChildCount]). *)
Definition targetChildCount : nat := 30.

Section ImageTree.
Context {R : Type} `{Rect2 R}.

(** What the tree reads of an [AbstractComponent]: its id, its bounding
    box and its z-index.  A component is a value here: two components
    are the same object when they agree on the three. *)
Record AbstractComponent : Type := mkComponent {
  getId : string;
  getBBox : R;
  getZIndex : Z;
}.

#[global] Instance AbstractComponent_eq_dec : EqDecision AbstractComponent.
Proof. solve_decision. Defined.

(** The fields of an [ImageNode] object. *)
Record ImageNode : Type := mkImageNode {
  content : option AbstractComponent;
  bbox : R;
  children : list ref;
  parent : option ref;
  node_id : nat;
}.

(** The objects allocated so far and the static [ImageNode.idCounter]. *)
Record Store : Type := mkStore {
  nodes : list ImageNode;
  idCounter : nat;
}.

Definition emptyStore : Store := mkStore [] 0.

Definition set_content (c : option AbstractComponent) (nd : ImageNode) : ImageNode :=
  mkImageNode c (bbox nd) (children nd) (parent nd) (node_id nd).
Definition set_bbox (b : R) (nd : ImageNode) : ImageNode :=
  mkImageNode (content nd) b (children nd) (parent nd) (node_id nd).
Definition set_children (cs : list ref) (nd : ImageNode) : ImageNode :=
  mkImageNode (content nd) (bbox nd) cs (parent nd) (node_id nd).
Definition set_parent (p : option ref) (nd : ImageNode) : ImageNode :=
  mkImageNode (content nd) (bbox nd) (children nd) p (node_id nd).
Definition set_node_id (i : nat) (nd : ImageNode) : ImageNode :=
  mkImageNode (content nd) (bbox nd) (children nd) (parent nd) i.

(** A field assignment [n.f = v]. *)
Definition update (n : ref) (f : ImageNode → ImageNode) (st : Store) : Store :=
  mkStore (alter f n (nodes st)) (idCounter st).

(** [new ImageNode(parent)]. *)
Definition new_ImageNode (p : option ref) (st : Store) : ref * Store :=
  (length (nodes st),
   mkStore (nodes st ++ [mkImageNode None rect_empty [] p (idCounter st)])
           (S (idCounter st))).

Definition onContentChange (this : ref) (st : Store) : Store :=
  mkStore (alter (set_node_id (idCounter st)) this (nodes st))
          (S (idCounter st)).

(** [this.children.push(c)]. *)
Definition pushChild (this c : ref) (st : Store) : Store :=
  update this (λ nd, set_children (children nd ++ [c]) nd) st.

(** Keep the nodes of [cs] that satisfy [p], in order
    ([Array.prototype.filter] with a test on the node). *)
Fixpoint filterNodes (st : Store) (p : ImageNode → bool) (cs : list ref)
  : option (list ref) :=
  match cs with
  | [] => Some []
  | c :: cs' =>
      nd ← nodes st !! c;
      r ← filterNodes st p cs';
      Some (if p nd then c :: r else r)
  end.

Definition getChildrenIntersectingRegion (st : Store) (this : ref) (region : R)
  : option (list ref) :=
  nd ← nodes st !! this;
  filterNodes st (λ child, rect_intersects (bbox child) region) (children nd).

Definition getChildrenOrSelfIntersectingRegion (st : Store) (this : ref) (region : R)
  : option (list ref) :=
  nd ← nodes st !! this;
  match content nd with
  | Some _ => Some [this]
  | None => getChildrenIntersectingRegion st this region
  end.

Definition isTooSmallCheck (isTooSmall : option (R → bool)) (b : R) : bool :=
  match isTooSmall with
  | Some f => f b
  | None => false
  end.

(** The loop of [getLeavesIntersectingRegion].  The work list is a
    stack; its top (the last element of the array) is the head of
    [workList] here, so that the children pushed in order appear
    reversed in front of the rest. *)
Fixpoint getLeavesIntersectingRegion_loop (fuel : nat) (st : Store) (region : R)
    (isTooSmall : option (R → bool)) (workList result : list ref)
  : option (list ref) :=
  match workList with
  | [] => Some result
  | next :: rest =>
      match fuel with
      | O => None
      | S fuel' =>
          nd ← nodes st !! next;
          if isTooSmallCheck isTooSmall (bbox nd) then
            getLeavesIntersectingRegion_loop fuel' st region isTooSmall rest result
          else
            let result' :=
              if bool_decide (content nd ≠ None)
                 && bool_decide (is_Some (rect_intersection (bbox nd) region))
              then result ++ [next] else result in
            cs ← getChildrenIntersectingRegion st next region;
            getLeavesIntersectingRegion_loop fuel' st region isTooSmall
              (reverse cs ++ rest) result'
      end
  end.

Definition getLeavesIntersectingRegion (fuel : nat) (st : Store) (this : ref)
    (region : R) (isTooSmall : option (R → bool)) : option (list ref) :=
  getLeavesIntersectingRegion_loop fuel st region isTooSmall [this] [].

Fixpoint getLeaves (fuel : nat) (st : Store) (this : ref) : option (list ref) :=
  match fuel with
  | O => None
  | S fuel' =>
      nd ← nodes st !! this;
      match content nd with
      | Some _ => Some [this]
      | None => mjoin <$> mapM (getLeaves fuel' st) (children nd)
      end
  end.

(** The box of a node without content: the box of the first child
    joined with the boxes of the others, [Rect2.empty] without
    children. *)
Definition unionAll (bs : list R) : R :=
  match bs with
  | [] => rect_empty
  | b :: bs' => foldl rect_union b bs'
  end.

Definition computeBBox (st : Store) (nd : ImageNode) : option R :=
  match content nd with
  | Some c => Some (getBBox c)
  | None => unionAll <$> mapM (λ c, bbox <$> nodes st !! c) (children nd)
  end.

Fixpoint recomputeBBox (fuel : nat) (this : ref) (bubbleUp : bool) (st : Store)
  : option Store :=
  match fuel with
  | O => None
  | S fuel' =>
      nd ← nodes st !! this;
      newBBox ← computeBBox st nd;
      let st1 := update this (set_bbox newBBox) st in
      if bubbleUp && negb (rect_eq (bbox nd) newBBox) then
        match parent nd with
        | Some p => recomputeBBox fuel' p true st1
        | None => Some st1
        end
      else Some st1
  end.

(** [updateParents()]; every call of the source leaves [recursive] at
    its default, [false]. *)
Definition updateParents (this : ref) (st : Store) : option Store :=
  nd ← nodes st !! this;
  Some (foldl (λ s child, update child (set_parent (Some this)) s) st (children nd)).

Definition rebalance (this : ref) (st : Store) : option Store :=
  nd ← nodes st !! this;
  match parent nd with
  | None => Some st
  | Some oldParent =>
      pnd ← nodes st !! oldParent;
      if bool_decide (length (children pnd) = 1) then
        match parent pnd with
        | Some grandParent =>
            let st := update oldParent (set_children []) st in
            let st := update this (set_parent (Some grandParent)) st in
            let st := pushChild grandParent this st in
            let st := update oldParent (set_parent None) st in
            recomputeBBox 1 grandParent false st
        | None =>
            match content nd with
            | None =>
                let st := update oldParent (set_children (children nd)) st in
                st ← updateParents oldParent st;
                Some (update this (set_parent None) st)
            | Some _ => Some st
            end
        end
      else Some st
  end.

(** Area of the box of a node, for the comparator of [addLeaf]. *)
Definition nodeArea (st : Store) (n : ref) : number :=
  match nodes st !! n with
  | Some nd => rect_area (bbox nd)
  | None => NaN
  end.

(** [this.content === null && this.children.length === 0]. *)
Definition isEmptyNode (nd : ImageNode) : bool :=
  bool_decide (content nd = None) && bool_decide (length (children nd) = 0).

(** The block of [addLeaf] under [if (this.content !== null)]: the
    content of [this] moves into a new child. *)
Definition pushDownContent (fuel : nat) (this : ref) (nd : ImageNode) (st : Store)
  : option Store :=
  match content nd with
  | Some c =>
      let '(contentNode, st) := new_ImageNode (Some this) st in
      let st := update contentNode (set_content (Some c)) st in
      let st := update this (set_content None) st in
      let st := pushChild this contentNode st in
      recomputeBBox fuel contentNode false st
  | None => Some st
  end.

(** The block of [addLeaf] under [if (leafBBox.containsRect(this.getBBox()))],
    up to the recursive call: a new child [nodeForNewLeaf] of [this],
    beside the children of [this] or beside one new node that takes them
    all. *)
Definition makeRoomForLeaf (fuel : nat) (this : ref) (nd : ImageNode) (st : Store)
  : option (ref * Store) :=
  let '(nodeForNewLeaf, st) := new_ImageNode (Some this) st in
  st ← (if bool_decide (length (children nd) < targetChildCount) then
          Some (pushChild this nodeForNewLeaf st)
        else
          let '(nodeForChildren, st) := new_ImageNode (Some this) st in
          let st := update nodeForChildren (set_children (children nd)) st in
          let st := update this (set_children [nodeForNewLeaf; nodeForChildren]) st in
          st ← recomputeBBox fuel nodeForChildren true st;
          updateParents nodeForChildren st);
  Some (nodeForNewLeaf, st).

(** The last block of [addLeaf]: a new child of [this] holds the leaf. *)
Definition appendLeaf (fuel : nat) (this : ref) (leaf : AbstractComponent) (st : Store)
  : option (ref * Store) :=
  let '(newNode, st) := new_ImageNode (Some this) st in
  let st := pushChild this newNode st in
  let st := update newNode (set_content (Some leaf)) st in
  st ← recomputeBBox fuel newNode true st;
  Some (newNode, st).

(** The children of [this] whose box contains that of the leaf. *)
Definition containingNodes (st : Store) (nd : ImageNode) (leaf : AbstractComponent)
  : option (list ref) :=
  filterNodes st (λ child, rect_containsRect (bbox child) (getBBox leaf)) (children nd).

(** [containingNodes.sort((a, b) => a.getBBox().area - b.getBBox().area)]. *)
Definition sortByArea (st : Store) (l : list ref) : list ref :=
  jsSort (λ a b, Number.sub (nodeArea st a) (nodeArea st b)) l.

Fixpoint addLeaf (fuel : nat) (this : ref) (leaf : AbstractComponent) (st : Store)
  : option (ref * Store) :=
  match fuel with
  | O => None
  | S fuel' =>
      let st := onContentChange this st in
      nd ← nodes st !! this;
      if isEmptyNode nd then
        st ← recomputeBBox fuel' this true (update this (set_content (Some leaf)) st);
        Some (this, st)
      else
        st ← pushDownContent fuel' this nd st;
        nd ← nodes st !! this;
        if rect_containsRect (getBBox leaf) (bbox nd) then
          '(nodeForNewLeaf, st) ← makeRoomForLeaf fuel' this nd st;
          addLeaf fuel' nodeForNewLeaf leaf st
        else
          containing ← containingNodes st nd leaf;
          if bool_decide (0 < length containing)
             && bool_decide (targetChildCount ≤ length (children nd))
          then
            first ← head (sortByArea st containing);
            '(result, st) ← addLeaf fuel' first leaf st;
            st ← rebalance result st;
            Some (result, st)
          else appendLeaf fuel' this leaf st
  end.

Definition remove (fuel : nat) (this : ref) (st : Store) : option Store :=
  nd ← nodes st !! this;
  match parent nd with
  | None =>
      Some (update this (set_children []) (update this (set_content None) st))
  | Some p =>
      pnd ← nodes st !! p;
      let remaining := filter (λ node, node ≠ this) (children pnd) in
      let st := update p (set_children remaining) st in
      st ← foldl (λ s child, (s ← s; rebalance child s)) (Some st) remaining;
      nd' ← nodes st !! this;
      st ← match parent nd' with
           | Some p' => recomputeBBox fuel p' true st
           | None => None
           end;
      let st := update this (set_content None) st in
      let st := update this (set_parent None) st in
      Some (update this (set_children []) st)
  end.

(** ** [EditorImage] *)

(** *** The object behind [componentsById]

    [componentsById] is created as [{}] and is read, written and cleared
    with [obj[key]], [obj[key] = elem] and [delete obj[key]]: a plain
    object, with the properties of its own and a prototype.  The
    prototype is [Object.prototype] until an assignment to the key
    [__proto__] makes an element the prototype. *)

Inductive Prototype : Type :=
  | ObjectPrototype
  | ElementPrototype (e : AbstractComponent).

Record PlainObject : Type := mkPlainObject {
  ownProperties : gmap string AbstractComponent;
  prototype : Prototype;
}.

(** [{}]. *)
Definition emptyObject : PlainObject := mkPlainObject ∅ ObjectPrototype.

(** The name under which [Object.prototype] holds the accessor of the
    prototype of an object. *)
Definition protoKey : string := "__proto__".

(** The names of the other properties of [Object.prototype], all of them
    functions. *)
Definition objectPrototypeMembers : list string :=
  [ "constructor"; "hasOwnProperty"; "isPrototypeOf"; "propertyIsEnumerable";
    "toLocaleString"; "toString"; "valueOf";
    "__defineGetter__"; "__defineSetter__"; "__lookupGetter__"; "__lookupSetter__" ].

(** What [obj[key] ?? null] evaluates to. *)
Inductive Looked : Type :=
  | FoundElement (e : AbstractComponent)
      (* an element: a property of the object itself, or its prototype *)
  | FoundBuiltin (name : string)
      (* the function [Object.prototype[name]]; [Object.prototype] itself
         when [name] is [__proto__] *)
  | ThroughElement (e : AbstractComponent) (name : string)
      (* [e[name] ?? null] for the element [e] that is the prototype: a
         member of [e] or of its class, a function of [Object.prototype],
         or [null] *)
  | NotFound.
      (* [null] *)

(** [obj[key] ?? null].  A property of the object itself comes first;
    the other keys are looked up along the prototype chain, at the end
    of which [Object.prototype] answers [__proto__] with the prototype
    of the object. *)
Definition getProperty (obj : PlainObject) (key : string) : Looked :=
  match ownProperties obj !! key with
  | Some e => FoundElement e
  | None =>
      match prototype obj with
      | ObjectPrototype =>
          if bool_decide (key ∈ protoKey :: objectPrototypeMembers)
          then FoundBuiltin key else NotFound
      | ElementPrototype e =>
          if bool_decide (key = protoKey) then FoundElement e
          else ThroughElement e key
      end
  end.

(** [obj[key] = elem].  The key [__proto__] reaches the setter of
    [Object.prototype], which makes [elem] the prototype of the object
    and adds no property; every other key becomes a property of the
    object itself.  An element is taken to have fields and methods
    only, as the classes [ImageComponent] and [Text] that extend
    [AbstractComponent] have, so that an element that has become the
    prototype brings no setter and no read-only member that would
    intercept a later assignment. *)
Definition setProperty (key : string) (elem : AbstractComponent) (obj : PlainObject)
  : PlainObject :=
  if bool_decide (key = protoKey)
  then mkPlainObject (ownProperties obj) (ElementPrototype elem)
  else mkPlainObject (<[key := elem]> (ownProperties obj)) (prototype obj).

(** [delete obj[key]]: only a property of the object itself is
    removed. *)
Definition deleteProperty (key : string) (obj : PlainObject) : PlainObject :=
  mkPlainObject (delete key (ownProperties obj)) (prototype obj).

Record EditorImage : Type := mkEditorImage {
  root : ref;
  componentsById : PlainObject;
}.

(** [new EditorImage()]. *)
Definition new_EditorImage (st : Store) : EditorImage * Store :=
  let '(r, st) := new_ImageNode None st in
  (mkEditorImage r emptyObject, st).

(** The comparator of [sortLeavesByZIndex]; a leaf without content
    would make the dereference fail. *)
Definition leafZIndex (st : Store) (n : ref) : option Z :=
  nd ← nodes st !! n;
  c ← content nd;
  Some (getZIndex c).

Definition zIndexOrZero (st : Store) (n : ref) : Z :=
  default 0%Z (leafZIndex st n).

Definition sortLeavesByZIndex (st : Store) (leaves : list ref) : option (list ref) :=
  _ ← mapM (leafZIndex st) leaves;
  Some (jsSort (λ a b, Num (zIndexOrZero st a - zIndexOrZero st b)) leaves).

Definition leafContent (st : Store) (n : ref) : option AbstractComponent :=
  nd ← nodes st !! n;
  content nd.

Definition getElementsIntersectingRegion (fuel : nat) (st : Store)
    (img : EditorImage) (region : R) : option (list AbstractComponent) :=
  leaves ← getLeavesIntersectingRegion fuel st (root img) region None;
  leaves ← sortLeavesByZIndex st leaves;
  mapM (leafContent st) leaves.

(** [findParent]: [Some None] is the result [null]. *)
Definition findParent (fuel : nat) (st : Store) (img : EditorImage)
    (elem : AbstractComponent) : option (option ref) :=
  candidates ← getLeavesIntersectingRegion fuel st (root img) (getBBox elem) None;
  Some (head (filter (λ candidate, leafContent st candidate = Some elem) candidates)).

Definition onDestroyElement (img : EditorImage) (elem : AbstractComponent) : EditorImage :=
  mkEditorImage (root img) (deleteProperty (getId elem) (componentsById img)).

Definition lookupElement (img : EditorImage) (i : string) : Looked :=
  getProperty (componentsById img) i.

Definition addElementDirectly (fuel : nat) (elem : AbstractComponent)
    (st : Store) (img : EditorImage) : option (ref * Store * EditorImage) :=
  let img' := mkEditorImage (root img)
                (setProperty (getId elem) elem (componentsById img)) in
  '(leaf, st') ← addLeaf fuel (root img') elem st;
  Some (leaf, st', img').

(** *** [EditorImage.AddElementCommand] *)

Inductive Thrown : Type :=
  | NaNBoundingBox.   (* 'Elements in the image cannot have NaN bounding boxes' *)

Record AddElementCommand : Type := mkAddElementCommand {
  element : AbstractComponent;
}.

(** The constructor; [inl] is the exception it throws. *)
Definition new_AddElementCommand (elem : AbstractComponent)
  : Thrown + AddElementCommand :=
  if Number.isNaN (rect_area (getBBox elem)) then inl NaNBoundingBox
  else inr (mkAddElementCommand elem).

Definition AddElementCommand_apply (fuel : nat) (cmd : AddElementCommand) (st : Store)
    (img : EditorImage) : option (Store * EditorImage) :=
  '(_, st', img') ← addElementDirectly fuel (element cmd) st img;
  Some (st', img').

Definition AddElementCommand_unapply (fuel : nat) (cmd : AddElementCommand) (st : Store)
    (img : EditorImage) : option (Store * EditorImage) :=
  container ← findParent fuel st img (element cmd);
  match container with
  | Some c => st' ← remove fuel c st; Some (st', img)
  | None => Some (st, img)
  end.

(** *** The two public operations on an image

    An element is added by dispatching the command that
    [EditorImage.addElement] builds, which applies it; it is removed by
    unapplying that command.  A command that cannot be built leaves the
    store and the image as they are. *)

Definition insert (fuel : nat) (elem : AbstractComponent) (st : Store)
    (img : EditorImage) : option ((Thrown + unit) * Store * EditorImage) :=
  match new_AddElementCommand elem with
  | inl t => Some (inl t, st, img)
  | inr cmd =>
      '(st', img') ← AddElementCommand_apply fuel cmd st img;
      Some (inr (), st', img')
  end.

Definition removeElement (fuel : nat) (elem : AbstractComponent) (st : Store)
    (img : EditorImage) : option (Store * EditorImage) :=
  AddElementCommand_unapply fuel (mkAddElementCommand elem) st img.

(** The states of a store that holds one image and of that image, from
    its creation on. *)
Inductive reachable : Store → EditorImage → Prop :=
  | reachable_new :
      reachable (new_EditorImage emptyStore).2 (new_EditorImage emptyStore).1
  | reachable_insert fuel elem st img r st' img' :
      reachable st img →
      insert fuel elem st img = Some (r, st', img') →
      reachable st' img'
  | reachable_remove fuel elem st img st' img' :
      reachable st img →
      removeElement fuel elem st img = Some (st', img') →
      reachable st' img'
  | reachable_destroy elem st img :
      reachable st img →
      reachable st (onDestroyElement img elem).

(** *** Reading the tree *)

Definition child (st : Store) (p c : ref) : Prop :=
  ∃ nd, nodes st !! p = Some nd ∧ c ∈ children nd.

(** [inTree st r n]: [n] is [r] or below it. *)
Definition inTree (st : Store) (r n : ref) : Prop := rtc (child st) r n.

(** [n] is a leaf that holds [elem]. *)
Definition holds (st : Store) (n : ref) (elem : AbstractComponent) : Prop :=
  ∃ nd, nodes st !! n = Some nd ∧ content nd = Some elem.

Definition hasContent (st : Store) (n : ref) : Prop :=
  ∃ nd, nodes st !! n = Some nd ∧ content nd ≠ None.

Definition nodeBBox (st : Store) (n : ref) : option R :=
  bbox <$> nodes st !! n.

(** The box a node should cache: that of its content, or the union of
    the boxes its children cache. *)
Definition bboxUpToDate (st : Store) (n : ref) : bool :=
  match nodes st !! n with
  | Some nd => bool_decide (computeBBox st nd = Some (bbox nd))
  | None => false
  end.

(** [c.parent == p] and [p.children] contains [c]. *)
Definition parentIs (st : Store) (c p : ref) : bool :=
  match nodes st !! c with
  | Some nd => bool_decide (parent nd = Some p)
  | None => false
  end.

Definition hasChild (st : Store) (p c : ref) : bool :=
  match nodes st !! p with
  | Some nd => bool_decide (c ∈ children nd)
  | None => false
  end.

(** The children of a node that are not leaves. *)
Definition internalChildren (st : Store) (n : ref) : list ref :=
  match nodes st !! n with
  | Some nd =>
      filter (λ c, leafContent st c = None) (children nd)
  | None => []
  end.

Definition leafChildren (st : Store) (n : ref) : list ref :=
  match nodes st !! n with
  | Some nd =>
      filter (λ c, leafContent st c ≠ None) (children nd)
  | None => []
  end.

(** *** Well-formed stores

    What holds of every node of a store between two public operations
    and, for all nodes but those of [ex], in the middle of one.  [rk]
    is a rank that decreases from a node to its children: no node is
    below itself.  [ex] lists nodes whose parent field is not up to date
    yet. *)

Record nodeOK (rk : ref → nat) (ex : list ref) (st : Store)
    (n : ref) (nd : ImageNode) : Prop := mkNodeOK {
  (* the children exist and are of lower rank *)
  ok_children : ∀ c, c ∈ children nd → c < length (nodes st) ∧ rk c < rk n;
  (* the parent exists and has this node among its children *)
  ok_parent : ∀ q, parent nd = Some q →
    q < length (nodes st) ∧
    (n ∉ ex → ∃ qnd, nodes st !! q = Some qnd ∧ n ∈ children qnd);
  (* a node with content has no children *)
  ok_leaf : content nd ≠ None → children nd = [];
}.

Definition WFr (rk : ref → nat) (ex : list ref) (st : Store) : Prop :=
  ∀ n nd, nodes st !! n = Some nd → nodeOK rk ex st n nd.

Definition WF (st : Store) : Prop := ∃ rk, WFr rk [] st.

(** A node in the middle of its own removal is a leaf that still names
    the parent it is leaving. *)
Definition leavingParent (rk : ref → nat) (ex : list ref) (st : Store) : Prop :=
  ∀ x nd, x ∈ ex → nodes st !! x = Some nd →
    children nd = [] ∧ ∃ q, parent nd = Some q ∧ rk x < rk q.

(** Two nodes that differ at most in their box and their stamp. *)
Definition sameShape (nd nd' : ImageNode) : Prop :=
  content nd' = content nd ∧ children nd' = children nd ∧ parent nd' = parent nd.

Definition shapeEq (st st' : Store) : Prop :=
  length (nodes st') = length (nodes st) ∧
  ∀ n nd', nodes st' !! n = Some nd' →
    ∃ nd, nodes st !! n = Some nd ∧ sameShape nd nd'.

(** *** The tree of an image

    A node that left the tree keeps some of its fields: an only child
    that was merged into its parent keeps its list of children, and a
    node whose only child was lifted stays in the list of its own parent.
    [G] lists the nodes that left the tree for good.  Of the others,
    each is a child of at most one node; the root is a child of none. *)
Record TreeInv (G : list ref) (st : Store) (r : ref) : Prop := mkTreeInv {
  t_root : r ∉ G;
  t_rootchild : ∀ p, ¬ child st p r;
  t_closed : ∀ p c, p ∉ G → child st p c → c ∉ G;
  t_parent : ∀ c cd q, c ∉ G → nodes st !! c = Some cd → parent cd = Some q → q ∉ G;
  t_unique : ∀ p1 p2 c, p1 ∉ G → p2 ∉ G → child st p1 c → child st p2 c → p1 = p2;
  t_valid : ∀ n, n ∈ G → n < length (nodes st);
}.

(** Every node above [L], the root apart, caches a box that contains
    [B]. *)
Definition coverOf (G : list ref) (st : Store) (r L : ref) (B : R) : Prop :=
  ∀ N ndN, N ∉ G → N ≠ r → rtc (child st) N L → nodes st !! N = Some ndN →
    rect_containsRect (bbox ndN) B = true.

(** A leaf caches the box of its element, and every node above it, the
    root apart, caches a box that contains that box. *)
Record BoxInv (G : list ref) (st : Store) (r : ref) : Prop := mkBoxInv {
  b_leaf : ∀ n nd e, nodes st !! n = Some nd → content nd = Some e →
    bbox nd = getBBox e;
  b_cover : ∀ L e, holds st L e → coverOf G st r L (getBBox e);
}.

(** In the middle of [addLeaf]: a node strictly above [t], the root
    apart, contains [B] already, or its box is up to date and the child
    through which it reaches [t] names it as parent, so that a change
    of the box of that child will reach it. *)
Definition coversAbove (G : list ref) (st : Store) (r t : ref) (B : R) : Prop :=
  ∀ N ndN, N ∉ G → N ≠ r → N ≠ t → rtc (child st) N t →
    nodes st !! N = Some ndN →
    rect_containsRect (bbox ndN) B = true ∨
    (computeBBox st ndN = Some (bbox ndN) ∧
     ∃ c cd, child st N c ∧ rtc (child st) c t ∧
       nodes st !! c = Some cd ∧ parent cd = Some N).

Definition Sound (st : Store) (r : ref) : Prop :=
  ∃ rk G, WFr rk [] st ∧ TreeInv G st r ∧ BoxInv G st r.

(** What the query follows: a step from a node to a child whose box
    intersects the region. *)
Definition descends (st : Store) (region : R) (a b : ref) : Prop :=
  child st a b ∧
  ∃ bd, nodes st !! b = Some bd ∧ rect_intersects (bbox bd) region = true.

(** A node with content whose box has an overlap with the region. *)
Definition overlaps (st : Store) (region : R) (n : ref) : Prop :=
  ∃ nd, nodes st !! n = Some nd ∧ content nd ≠ None ∧
    is_Some (rect_intersection (bbox nd) region).

(** The criterion of the design document: the boxes intersect and the
    overlap has an area that is not zero. *)
Definition intersectsWithArea (a region : R) : bool :=
  rect_intersects a region &&
  match rect_intersection a region with
  | Some overlap => bool_decide (rect_area overlap ≠ Num 0)
  | None => false
  end.

(** *** Where an insertion puts the nodes that were there

    [movedUnderNew st st' c g]: the node [c], which the state [st] has,
    is in the state [st'] a child of the node [g], which [st] has not. *)
Definition movedUnderNew (st st' : Store) (c g : ref) : Prop :=
  c < length (nodes st) ∧ length (nodes st) ≤ g ∧ child st' g c.

(** [c] is a child of a node that has [targetChildCount] children or
    more and whose box the box of [leaf] contains. *)
Definition underFullNodeWithin (st : Store) (leaf : AbstractComponent) (c : ref) : Prop :=
  ∃ x xd, nodes st !! x = Some xd ∧ c ∈ children xd ∧
    targetChildCount ≤ length (children xd) ∧
    rect_containsRect (getBBox leaf) (bbox xd) = true.

(** *** Rendering

    A renderer is read through [isTooSmallToRender]; what it is asked to
    draw is the list of the calls [content.render(renderer, rect)] it
    receives, in order. *)
Record AbstractRenderer : Type := mkRenderer {
  isTooSmallToRender : R → bool;
}.

Definition RenderCall : Type := AbstractComponent * R.

(** [ImageNode.render]. *)
Definition ImageNode_render (fuel : nat) (st : Store) (this : ref)
    (renderer : AbstractRenderer) (visibleRect : R) : option (list RenderCall) :=
  leaves ← getLeavesIntersectingRegion fuel st this visibleRect
             (Some (isTooSmallToRender renderer));
  leaves ← sortLeavesByZIndex st leaves;
  mapM (λ leaf, c ← leafContent st leaf; Some (c, visibleRect)) leaves.

(** [EditorImage.render]; of the viewport only [visibleRect] is read. *)
Definition render (fuel : nat) (st : Store) (img : EditorImage)
    (renderer : AbstractRenderer) (visibleRect : R) : option (list RenderCall) :=
  ImageNode_render fuel st (root img) renderer visibleRect.

(** [EditorImage.renderAll]: every leaf is drawn with its own box. *)
Definition renderAll (fuel : nat) (st : Store) (img : EditorImage)
    (renderer : AbstractRenderer) : option (list RenderCall) :=
  leaves ← getLeaves fuel st (root img);
  leaves ← sortLeavesByZIndex st leaves;
  mapM (λ leaf, nd ← nodes st !! leaf; c ← content nd; Some (c, bbox nd)) leaves.

(** [ImageNode.getId]: the version stamp of a node. *)
Definition ImageNode_getId (st : Store) (n : ref) : option nat :=
  node_id <$> nodes st !! n.

(** What the query with a size test follows: a step from a node that is
    not too small to a child whose box intersects the region. *)
Definition descendsVisible (st : Store) (region : R) (isTooSmall : R → bool)
    (a b : ref) : Prop :=
  (∃ ad, nodes st !! a = Some ad ∧ isTooSmall (bbox ad) = false) ∧
  descends st region a b.

(** An element held by a leaf of the tree under [r]. *)
Definition stored (st : Store) (r : ref) (elem : AbstractComponent) : Prop :=
  ∃ n, inTree st r n ∧ holds st n elem.

(** *** The nodes of the tree

    Every node that has not left the tree, the root apart, is among the
    children of a node that has not left it, and no node is listed twice
    among the children of a node. *)
Record LinkInv (G : list ref) (st : Store) (r : ref) : Prop := mkLinkInv {
  l_attached : ∀ n, n < length (nodes st) → n ∉ G → n ≠ r →
    ∃ q, (q ∉ G) ∧ child st q n;
  l_nodup : ∀ n nd, nodes st !! n = Some nd → NoDup (children nd);
}.

(** The contents of the nodes that have not left the tree, in the order
    of their allocation. *)
Definition contentsOf (G : list ref) (st : Store) : list AbstractComponent :=
  omap (λ n, if decide (n ∈ G) then None else leafContent st n)
       (seq 0 (length (nodes st))).

(** The version stamps in use are below the counter and differ from node
    to node. *)
Record StampInv (st : Store) : Prop := mkStampInv {
  s_below : ∀ n nd, nodes st !! n = Some nd → node_id nd < idCounter st;
  s_distinct : ∀ n m nd md, nodes st !! n = Some nd → nodes st !! m = Some md →
    node_id nd = node_id md → n = m;
}.

(** Two stores with the same counter in which every node carries the
    same stamp. *)
Definition sameStamps (st st' : Store) : Prop :=
  idCounter st' = idCounter st ∧
  ∀ n, ImageNode_getId st' n = ImageNode_getId st n.

(** From [st] to [st'] every node keeps its stamp or takes one that the
    counter had not given out in [st]. *)
Definition stampsAdvance (st st' : Store) : Prop :=
  idCounter st ≤ idCounter st' ∧
  ∀ n i, ImageNode_getId st n = Some i →
    ∃ i', ImageNode_getId st' n = Some i' ∧ (i' = i ∨ idCounter st ≤ i').

(** A step that keeps the stamps in order. *)
Definition stampStep (st st' : Store) : Prop :=
  (StampInv st → StampInv st') ∧ stampsAdvance st st'.

(** Insert the elements of a list one after the other. *)
Fixpoint insertAll (fuel : nat) (elems : list AbstractComponent) (st : Store)
    (img : EditorImage) : option (Store * EditorImage) :=
  match elems with
  | [] => Some (st, img)
  | e :: elems' =>
      '(_, st', img') ← insert fuel e st img;
      insertAll fuel elems' st' img'
  end.

End ImageTree.

Arguments AbstractComponent R : clear implicits.
Arguments ImageNode R : clear implicits.
Arguments Store R : clear implicits.
Arguments EditorImage R : clear implicits.
Arguments PlainObject R : clear implicits.
Arguments Prototype R : clear implicits.
Arguments Looked R : clear implicits.
Arguments AddElementCommand R : clear implicits.
Arguments AbstractRenderer R : clear implicits.
Arguments RenderCall R : clear implicits.

(** ** The scenarios of the design document, over integer rectangles *)

Definition freshImage : Store ZRect * EditorImage ZRect :=
  let '(img, st) := new_EditorImage emptyStore in (st, img).

(** A unit square at [(i, 0)], with z-index [i]. *)
Definition unitSquareAt (i : nat) : AbstractComponent ZRect :=
  mkComponent ("sq" +:+ pretty i) (mkZRect (Z.of_nat i) 0 1 1) (Z.of_nat i).

(** The first [n] unit squares, at [x = 0 .. n - 1], inserted in order
    into an empty image. *)
Definition squaresInserted (n : nat) : option (Store ZRect * EditorImage ZRect) :=
  insertAll 64 (unitSquareAt <$> seq 0 n) freshImage.1 freshImage.2.

(** A large element, twenty-nine unit squares away from it, and a small
    element inside the large one: thirty-one insertions. *)
Definition largeElement : AbstractComponent ZRect :=
  mkComponent "large" (mkZRect 100 100 10 10) 100.

Definition nestedElement : AbstractComponent ZRect :=
  mkComponent "nested" (mkZRect 102 102 1 1) 101.

Definition nestedInserted : option (Store ZRect * EditorImage ZRect) :=
  insertAll 64 (largeElement :: (unitSquareAt <$> seq 1 29) ++ [nestedElement])
    freshImage.1 freshImage.2.

(** ... and then the large element removed. *)
Definition largeRemoved : option (Store ZRect * EditorImage ZRect) :=
  '(st, img) ← nestedInserted;
  removeElement 64 largeElement st img.

(** Thirty unit squares, and then an element whose box contains them
    all. *)
Definition thirtySquares : Store ZRect * EditorImage ZRect :=
  default freshImage (squaresInserted 30).

Definition coveringElement : AbstractComponent ZRect :=
  mkComponent "cover" (mkZRect 0 0 40 40) 200.

Definition coveringInserted : Store ZRect * EditorImage ZRect :=
  default thirtySquares
    ((λ x, (x.1.2, x.2)) <$> insert 64 coveringElement thirtySquares.1 thirtySquares.2).

(** Two elements whose ids are names that every object answers to. *)
Definition namedToString : AbstractComponent ZRect :=
  mkComponent "toString" (mkZRect 0 0 1 1) 0.

Definition namedProto : AbstractComponent ZRect :=
  mkComponent "__proto__" (mkZRect 0 0 1 1) 0.

(** One element inserted into an empty image and removed again. *)
Definition loneElement : AbstractComponent ZRect :=
  mkComponent "lone" (mkZRect 5 5 1 1) 0.

Definition loneInsertedRemoved : option (Store ZRect * EditorImage ZRect) :=
  '(_, st, img) ← insert 8 loneElement freshImage.1 freshImage.2;
  removeElement 8 loneElement st img.

(** Three unit squares in an image, and one element in an image. *)
Definition threeSquares : Store ZRect * EditorImage ZRect :=
  default freshImage (squaresInserted 3).

Definition loneInserted : Store ZRect * EditorImage ZRect :=
  default freshImage
    ('(_, st, img) ← insert 8 loneElement freshImage.1 freshImage.2; Some (st, img)).

(** An element without extent at the origin, inserted after the lone
    element. *)
Definition dotElement : AbstractComponent ZRect :=
  mkComponent "dot" (mkZRect 0 0 0 0) 1.

Definition dotInserted : Store ZRect * EditorImage ZRect :=
  default freshImage
    ('(_, st, img) ← insert 8 dotElement loneInserted.1 loneInserted.2; Some (st, img)).

(** A renderer that finds a box without extent too small. *)
Definition pointSkippingRenderer : AbstractRenderer ZRect :=
  mkRenderer (λ b, (zw b =? 0)%N && (zh b =? 0)%N).

(** The root of the image of the three squares, and the state of that
    image after the removal of the second square. *)
Definition threeSquaresRoot : ImageNode ZRect :=
  default (mkImageNode None rect_empty [] None 0)
          (nodes threeSquares.1 !! root threeSquares.2).

(** The leaf of the second square. *)
Definition threeSquaresSecondLeaf : ImageNode ZRect :=
  default (mkImageNode None rect_empty [] None 0) (nodes threeSquares.1 !! 2).

Definition secondSquareRemoved : Store ZRect * EditorImage ZRect :=
  default threeSquares (removeElement 8 (unitSquareAt 1) threeSquares.1 threeSquares.2).

(** Two images in one store. *)
Definition twoImages : Store ZRect * EditorImage ZRect * EditorImage ZRect :=
  let '(img1, st) := new_EditorImage emptyStore in
  let '(img2, st) := new_EditorImage st in
  (st, img1, img2).

(** The version stamp of the root of the second image after an element
    was inserted into it, when nothing happened on the first image ... *)
Definition secondImageStampAlone : option nat :=
  let '(st, img1, img2) := twoImages in
  '(_, st, img2) ← insert 8 loneElement st img2;
  node_id <$> nodes st !! root img2.

(** ... and when an element was inserted into the first image before. *)
Definition secondImageStampAfterOther : option nat :=
  let '(st, img1, img2) := twoImages in
  '(_, st, img1) ← insert 8 largeElement st img1;
  '(_, st, img2) ← insert 8 loneElement st img2;
  node_id <$> nodes st !! root img2.

(** ** A box with an infinite coordinate, and one whose area is [NaN] *)




(** * Properties *)

(** ** Sorting *)

Section JsSortFacts.
Context {A : Type} (cmp : A → A → number).

Lemma sortInsert_Permutation x l : sortInsert cmp x l ≡ₚ x :: l.
Proof.
  induction l as [|y l IH]; simpl; [done|].
  destruct (comesAfter cmp x y); [|done].
  rewrite IH. apply Permutation_swap.
Qed.

Lemma jsSort_Permutation l : jsSort cmp l ≡ₚ l.
Proof.
  induction l as [|x l IH]; simpl; [done|].
  rewrite sortInsert_Permutation. by f_equiv.
Qed.

Lemma jsSort_elem_of x l : x ∈ jsSort cmp l ↔ x ∈ l.
Proof. by rewrite jsSort_Permutation. Qed.

Lemma jsSort_length l : length (jsSort cmp l) = length l.
Proof. by rewrite jsSort_Permutation. Qed.

End JsSortFacts.

(** ** Integer rectangles satisfy the laws *)

#[global] Instance ZRect_Rect2Laws : Rect2Laws ZRect.
Proof.
  split; simpl.
  - intros [x y w h]. unfold ZRect.containsRect, ZRect.right, ZRect.bottom.
    simpl. rewrite !andb_true_iff, !Z.leb_le. lia.
  - intros [x y w h] [x' y' w' h'] [x'' y'' w'' h''].
    unfold ZRect.containsRect, ZRect.right, ZRect.bottom. simpl.
    rewrite !andb_true_iff, !Z.leb_le. lia.
  - intros [x y w h] [x' y' w' h'].
    unfold ZRect.containsRect, ZRect.union, ZRect.fromCorners,
      ZRect.right, ZRect.bottom. simpl.
    rewrite !andb_true_iff, !Z.leb_le. lia.
  - intros [x y w h] [x' y' w' h'].
    unfold ZRect.containsRect, ZRect.union, ZRect.fromCorners,
      ZRect.right, ZRect.bottom. simpl.
    rewrite !andb_true_iff, !Z.leb_le. lia.
  - intros [x y w h] [x' y' w' h'] [x'' y'' w'' h''].
    unfold ZRect.containsRect, ZRect.intersects, ZRect.right, ZRect.bottom.
    simpl.
    rewrite !andb_true_iff, !negb_true_iff, !orb_false_iff, !Z.leb_le,
      !Z.ltb_ge. lia.
  - intros [x y w h]. unfold ZRect.intersects, ZRect.right, ZRect.bottom.
    simpl. rewrite !andb_true_iff, !negb_true_iff, !orb_false_iff, !Z.ltb_ge.
    lia.
  - intros a r. unfold ZRect.intersection.
    destruct (ZRect.intersects a r).
    + split; [done | by eexists].
    + split; [by intros [? ?] | done].
  - intros a b. unfold ZRect.eq. by intros ?%bool_decide_eq_true.
Qed.

(** ** The scenarios, evaluated *)

(** C5, as stated, fails: after the thirty-first unit square the root
    has no child that is an internal node. *)
Lemma squares_31_root_not_split :
  ∃ st img,
    squaresInserted 31 = Some (st, img) ∧
    ¬ 2 ≤ length (internalChildren st (root img)).
Proof.
  eexists _, _. split; [vm_compute; reflexivity|].
  vm_compute. lia.
Qed.

(** The squares lie side by side, none contains another, and every one
    of them becomes a leaf directly under the root: 31 leaf children
    after the thirty-first insertion and 40 after the last, with no
    internal node below the root. *)
Lemma squares_flat_after_31_and_40 :
  (∃ st img,
     squaresInserted 31 = Some (st, img) ∧
     length (leafChildren st (root img)) = 31 ∧
     internalChildren st (root img) = []) ∧
  (∃ st img,
     squaresInserted 40 = Some (st, img) ∧
     length (leafChildren st (root img)) = 40 ∧
     internalChildren st (root img) = []).
Proof.
  split; eexists _, _; (split; [vm_compute; reflexivity|]);
    split; vm_compute; reflexivity.
Qed.

(** C3 at the input where the code fails it: thirty-one insertions, then
    the large element removed.  The node that held the large and the
    nested element stays among the children of the root, emptied, and the
    box the root caches is no longer the union of the boxes of its
    children. *)
Theorem root_bbox_stale_after_remove :
  ∃ st img rootNode,
    largeRemoved = Some (st, img) ∧
    nodes st !! root img = Some rootNode ∧
    bbox rootNode = mkZRect 1 0 109 110 ∧
    computeBBox st rootNode = Some (mkZRect 0 0 103 103) ∧
    bboxUpToDate st (root img) = false.
Proof.
  eexists _, _, _. split; [vm_compute; reflexivity|].
  split; [vm_compute; reflexivity|].
  repeat split; vm_compute; reflexivity.
Qed.

(** The box of a root whose only element was removed is the box of that
    element, not the empty rectangle. *)
Lemma root_bbox_stale_after_last_remove :
  ∃ st img,
    loneInsertedRemoved = Some (st, img) ∧
    leafContent st (root img) = None ∧
    nodeBBox st (root img) = Some (getBBox loneElement) ∧
    bboxUpToDate st (root img) = false.
Proof.
  eexists _, _. split; [vm_compute; reflexivity|].
  repeat split; vm_compute; reflexivity.
Qed.

(** C4 at the input where the code fails it: after the same thirty-one
    insertions and one removal, node 1 is a child of the root and its
    parent field is [null]. *)
Theorem stale_child_without_parent :
  ∃ st img staleNode,
    largeRemoved = Some (st, img) ∧
    hasChild st (root img) 1 = true ∧
    nodes st !! 1 = Some staleNode ∧
    parent staleNode = None ∧
    parentIs st 1 (root img) = false.
Proof.
  eexists _, _, _. split; [vm_compute; reflexivity|].
  split; [vm_compute; reflexivity|].
  split; [vm_compute; reflexivity|].
  split; vm_compute; reflexivity.
Qed.

(** C8 at the input where the code fails it: an element inserted into an
    empty image and removed at once.  No leaf is left, as before, but the
    root keeps the box of the element where it had the empty rectangle. *)
Theorem insert_remove_changes_root_bbox :
  ∃ st img,
    nodeBBox freshImage.1 (root freshImage.2) = Some rect_empty ∧
    getLeaves 8 freshImage.1 (root freshImage.2) = Some [] ∧
    loneInsertedRemoved = Some (st, img) ∧
    getLeaves 8 st (root img) = Some [] ∧
    nodeBBox st (root img) = Some (mkZRect 5 5 1 1).
Proof.
  eexists _, _.
  split; [vm_compute; reflexivity|].
  split; [vm_compute; reflexivity|].
  split; [vm_compute; reflexivity|].
  split; vm_compute; reflexivity.
Qed.

(** C9, as stated, fails: the stamp that the root of the second image
    receives depends on what was inserted into the first image. *)
Lemma stamps_depend_on_other_image :
  secondImageStampAlone = Some 2 ∧ secondImageStampAfterOther = Some 3.
Proof. split; vm_compute; reflexivity. Qed.


(** The registry object answers for names it was never given, and goes
    on answering for them after [onDestroyElement]; an element whose id
    is [__proto__] becomes its prototype, through which the names that
    the object does not hold are then looked up. *)
Lemma registry_answers_from_prototype :
  lookupElement freshImage.2 "toString" = FoundBuiltin "toString" ∧
  lookupElement freshImage.2 "sq1" = NotFound ∧
  (∃ st img,
     insert 8 namedToString freshImage.1 freshImage.2 = Some (inr (), st, img) ∧
     lookupElement img "toString" = FoundElement namedToString ∧
     lookupElement (onDestroyElement img namedToString) "toString"
     = FoundBuiltin "toString") ∧
  (∃ st img,
     insert 8 namedProto freshImage.1 freshImage.2 = Some (inr (), st, img) ∧
     lookupElement img "__proto__" = FoundElement namedProto ∧
     lookupElement img "sq1" = ThroughElement namedProto "sq1" ∧
     lookupElement (onDestroyElement img namedProto) "__proto__"
     = FoundElement namedProto).
Proof.
  split; [vm_compute; reflexivity|]. split; [vm_compute; reflexivity|].
  split; eexists _, _; (split; [vm_compute; reflexivity|]);
    repeat split; vm_compute; reflexivity.
Qed.

(** C7, as stated, fails: after an element was inserted and removed
    again, the registry still knows it. *)
Lemma removed_element_still_registered :
  ∃ st img,
    loneInsertedRemoved = Some (st, img) ∧
    lookupElement img (getId loneElement) = FoundElement loneElement.
Proof.
  eexists _, _. split; [vm_compute; reflexivity|].
  vm_compute; reflexivity.
Qed.

(** C1, as stated, fails.  A region that only touches the box of the
    lone element along an edge gets that element, though the overlap has
    area zero.  And an element without extent at the origin is stored
    under a root whose box does not reach the origin; a region around the
    origin gets it, though the box of the root does not intersect the
    region. *)
Lemma zero_area_overlap_returned :
  (∃ res,
     getElementsIntersectingRegion 8 loneInserted.1 loneInserted.2 (mkZRect 6 5 1 1)
     = Some res ∧
     loneElement ∈ res ∧
     intersectsWithArea (getBBox loneElement) (mkZRect 6 5 1 1) = false) ∧
  (∃ res rootNode,
     getElementsIntersectingRegion 8 dotInserted.1 dotInserted.2 (mkZRect (-1) (-1) 2 2)
     = Some res ∧
     dotElement ∈ res ∧
     nodes dotInserted.1 !! root dotInserted.2 = Some rootNode ∧
     rect_intersects (bbox rootNode) (mkZRect (-1) (-1) 2 2) = false).
Proof.
  split.
  - exists [loneElement]. split; [vm_compute; reflexivity|].
    split; [set_solver|vm_compute; reflexivity].
  - eexists [dotElement], _. split; [vm_compute; reflexivity|].
    split; [set_solver|]. split; vm_compute; reflexivity.
Qed.

(** ** General theory *)

Set Warnings "-clear-no-such-hyp".

Section StoreFacts.
Context {R : Type} `{Rect2 R}.
Implicit Types (st : Store R) (nd : ImageNode R) (n m this c p : ref).

Lemma lookup_update st n f m :
  nodes (update n f st) !! m
  = if decide (m = n) then f <$> nodes st !! m else nodes st !! m.
Proof.
  unfold update; simpl. case_decide; subst.
  - apply list_lookup_alter_eq.
  - by apply list_lookup_alter_ne.
Qed.

Lemma length_update st n f : length (nodes (update n f st)) = length (nodes st).
Proof. apply length_alter. Qed.

Lemma idCounter_update st n f : idCounter (update n f st) = idCounter st.
Proof. done. Qed.

Lemma lookup_onContentChange st this m :
  nodes (onContentChange this st) !! m
  = if decide (m = this) then set_node_id (idCounter st) <$> nodes st !! m
    else nodes st !! m.
Proof.
  unfold onContentChange; simpl. case_decide; subst.
  - apply list_lookup_alter_eq.
  - by apply list_lookup_alter_ne.
Qed.

Lemma length_onContentChange st this :
  length (nodes (onContentChange this st)) = length (nodes st).
Proof. apply length_alter. Qed.

Lemma lookup_new_ImageNode st (par : option ref) m :
  nodes (new_ImageNode par st).2 !! m
  = if decide (m = length (nodes st))
    then Some (mkImageNode None rect_empty [] par (idCounter st))
    else nodes st !! m.
Proof.
  simpl. case_decide; subst.
  - by rewrite lookup_app_r, Nat.sub_diag.
  - destruct (decide (m < length (nodes st))).
    + by rewrite lookup_app_l.
    + rewrite !lookup_ge_None_2; [done|lia|rewrite length_app; simpl; lia].
Qed.

Lemma length_new_ImageNode st (par : option ref) :
  length (nodes (new_ImageNode par st).2) = S (length (nodes st)).
Proof. simpl. rewrite length_app. simpl. lia. Qed.

Lemma new_ImageNode_fst st (par : option ref) : (new_ImageNode par st).1 = length (nodes st).
Proof. done. Qed.

Lemma lookup_pushChild st this c m :
  nodes (pushChild this c st) !! m
  = if decide (m = this)
    then (λ nd, set_children (children nd ++ [c]) nd) <$> nodes st !! m
    else nodes st !! m.
Proof. apply lookup_update. Qed.

Lemma length_pushChild st this c :
  length (nodes (pushChild this c st)) = length (nodes st).
Proof. apply length_update. Qed.

Lemma idCounter_pushChild st this c : idCounter (pushChild this c st) = idCounter st.
Proof. done. Qed.

Lemma idCounter_new_ImageNode st (par : option ref) :
  idCounter (new_ImageNode par st).2 = S (idCounter st).
Proof. done. Qed.

Lemma idCounter_onContentChange st this :
  idCounter (onContentChange this st) = S (idCounter st).
Proof. done. Qed.

Lemma lookup_set_parents st p cs m :
  nodes (foldl (λ s child, update child (set_parent (Some p)) s) st cs) !! m
  = if decide (m ∈ cs) then set_parent (Some p) <$> nodes st !! m
    else nodes st !! m.
Proof.
  revert st. induction cs as [|c cs IH]; intros st.
  - destruct (decide (m ∈ [])) as [Hin|Hin]; [set_solver|done].
  - change (foldl ?f st (c :: cs)) with (foldl f (f st c) cs).
    rewrite IH, lookup_update.
    destruct (decide (m ∈ cs)) as [Hcs|Hcs], (decide (m = c)) as [Hc|Hc],
      (decide (m ∈ c :: cs)) as [Hin|Hin];
      try done; try (exfalso; set_solver).
    by destruct (nodes st !! m).
Qed.

Lemma length_set_parents st p cs :
  length (nodes (foldl (λ s child, update child (set_parent (Some p)) s) st cs))
  = length (nodes st).
Proof.
  revert st. induction cs as [|c cs IH]; intros st; simpl; [done|].
  by rewrite IH, length_update.
Qed.

Lemma idCounter_set_parents st p cs :
  idCounter (foldl (λ s child, update child (set_parent (Some p)) s) st cs)
  = idCounter st.
Proof.
  revert st. induction cs as [|c cs IH]; intros st; simpl; [done|].
  by rewrite IH.
Qed.

(** Shape equality *)

Lemma shapeEq_refl st : shapeEq st st.
Proof. split; [done|]. intros n nd Hn. exists nd. by repeat split. Qed.

Lemma shapeEq_trans st1 st2 st3 : shapeEq st1 st2 → shapeEq st2 st3 → shapeEq st1 st3.
Proof.
  intros [Hl1 H1] [Hl2 H2]. split; [congruence|].
  intros n nd3 Hn3. destruct (H2 _ _ Hn3) as (nd2 & Hn2 & ? & ? & ?).
  destruct (H1 _ _ Hn2) as (nd1 & Hn1 & ? & ? & ?).
  exists nd1. repeat split; congruence.
Qed.

Lemma shapeEq_lookup st st' n nd :
  shapeEq st st' → nodes st !! n = Some nd →
  ∃ nd', nodes st' !! n = Some nd' ∧ sameShape nd nd'.
Proof.
  intros [Hl Hs] Hn.
  destruct (nodes st' !! n) as [nd'|] eqn:Hn'.
  - destruct (Hs _ _ Hn') as (nd0 & Hn0 & Hsh). exists nd'. split; [done|].
    by assert (nd0 = nd) as -> by congruence.
  - apply lookup_ge_None in Hn'. apply lookup_lt_Some in Hn. lia.
Qed.

Lemma shapeEq_sym st st' : shapeEq st st' → shapeEq st' st.
Proof.
  intros Hs. split; [by destruct Hs|].
  intros n nd Hn. destruct (shapeEq_lookup _ _ _ _ Hs Hn) as (nd' & Hn' & ? & ? & ?).
  exists nd'. repeat split; congruence.
Qed.

Lemma shapeEq_set_bbox st n b : shapeEq st (update n (set_bbox b) st).
Proof.
  split; [apply length_update|]. intros m nd'. rewrite lookup_update.
  case_decide; subst.
  - destruct (nodes st !! n) as [nd|]; [|done]. intros [= <-].
    exists nd. by repeat split.
  - intros Hm. exists nd'. by repeat split.
Qed.

Lemma shapeEq_onContentChange st this : shapeEq st (onContentChange this st).
Proof.
  split; [apply length_onContentChange|]. intros m nd'.
  rewrite lookup_onContentChange. case_decide; subst.
  - destruct (nodes st !! this) as [nd|]; [|done]. intros [= <-].
    exists nd. by repeat split.
  - intros Hm. exists nd'. by repeat split.
Qed.

Lemma recomputeBBox_shapeEq fuel this b st st' :
  recomputeBBox fuel this b st = Some st' →
  shapeEq st st' ∧ idCounter st' = idCounter st.
Proof.
  revert this b st st'. induction fuel as [|fuel IH]; intros this b st st'; [done|].
  simpl. intros Hr.
  destruct (nodes st !! this) as [nd|]; [|done]. simpl in Hr.
  destruct (computeBBox st nd) as [newBBox|]; [|done]. simpl in Hr.
  pose proof (shapeEq_set_bbox st this newBBox) as Hs.
  destruct (b && negb (rect_eq (bbox nd) newBBox)).
  - destruct (parent nd) as [p|].
    + destruct (IH _ _ _ _ Hr) as [Hs' Hi]. split; [by eapply shapeEq_trans|done].
    + by injection Hr as <-.
  - by injection Hr as <-.
Qed.

Lemma WFr_shapeEq rk ex st st' : shapeEq st st' → WFr rk ex st → WFr rk ex st'.
Proof.
  intros Hse Hwf n nd' Hn'. pose proof Hse as [Hl Hs].
  destruct (Hs _ _ Hn') as (nd & Hn & Hct & Hch & Hp).
  destruct (Hwf n nd Hn) as [H1 H2 H3]. split.
  - intros c Hc. rewrite Hl. apply H1. by rewrite <- Hch.
  - intros q Hq. rewrite Hl. rewrite Hp in Hq. destruct (H2 q Hq) as [Hlt Hk].
    split; [done|]. intros Hex. destruct (Hk Hex) as (qnd & Hqn & Hin).
    destruct (shapeEq_lookup _ _ _ _ Hse Hqn) as (qnd' & Hqn' & _ & Hch' & _).
    exists qnd'. split; [done|]. by rewrite Hch'.
  - by rewrite Hct, Hch.
Qed.

Lemma leavingParent_shapeEq rk ex st st' :
  shapeEq st st' → leavingParent rk ex st → leavingParent rk ex st'.
Proof.
  intros [Hl Hs] Hm x nd' Hx Hn'.
  destruct (Hs _ _ Hn') as (nd & Hn & Hct & Hch & Hp).
  rewrite Hch, Hp. by eapply Hm.
Qed.

Lemma leavingParent_nil rk st : leavingParent rk [] st.
Proof. intros x nd Hx. set_solver. Qed.

(** A node that an update leaves alone stays in order when its parent
    keeps it as a child. *)
Lemma nodeOK_frame rk ex st st' n nd :
  nodeOK rk ex st n nd →
  length (nodes st) ≤ length (nodes st') →
  (∀ q qnd, parent nd = Some q → nodes st !! q = Some qnd → n ∈ children qnd →
     ∃ qnd', nodes st' !! q = Some qnd' ∧ n ∈ children qnd') →
  nodeOK rk ex st' n nd.
Proof.
  intros [H1 H2 H3] Hl Hk. split; [| |done].
  - intros c Hc. destruct (H1 c Hc). split; [lia|done].
  - intros q Hq. destruct (H2 q Hq) as [Hlt Hq']. split; [lia|].
    intros Hex. destruct (Hq' Hex) as (qnd & Hqn & Hin). by eapply Hk.
Qed.

Lemma computeBBox_is_Some rk ex st n nd :
  WFr rk ex st → nodes st !! n = Some nd → is_Some (computeBBox st nd).
Proof.
  intros Hc Hn. unfold computeBBox. destruct (content nd); [by eexists|].
  apply fmap_is_Some, mapM_is_Some, Forall_forall. intros c Hin. simpl.
  apply fmap_is_Some, lookup_lt_is_Some.
  by destruct (ok_children _ _ _ _ _ (Hc _ _ Hn) c Hin).
Qed.

Lemma rank_le_max (rk : ref → nat) (len n : nat) :
  n < len → rk n ≤ max_list (rk <$> seq 0 len).
Proof.
  intros Hn. apply max_list_elem_of_le, list_elem_of_fmap.
  exists n. split; [done|]. apply elem_of_seq. lia.
Qed.

(** More fuel does not change a result. *)
Lemma recomputeBBox_mono fuel fuel' this b st st' :
  recomputeBBox fuel this b st = Some st' → fuel ≤ fuel' →
  recomputeBBox fuel' this b st = Some st'.
Proof.
  revert fuel' this b st. induction fuel as [|fuel IH]; intros fuel' this b st; [done|].
  destruct fuel' as [|fuel']; [lia|]. simpl. intros Hr Hle.
  destruct (nodes st !! this) as [nd|]; [|done]. simpl in *.
  destruct (computeBBox st nd) as [bb|]; [|done]. simpl in *.
  destruct (b && negb (rect_eq (bbox nd) bb)); [|done].
  destruct (parent nd); [|done]. apply IH; [done|lia].
Qed.

(** Going up from a node, the parents are followed for at most as many
    steps as there are ranks above it. *)
Lemma recomputeBBox_total rk ex st this b fuel :
  WFr rk ex st →
  (∀ x, x ∈ ex → rk x < rk this) →
  this < length (nodes st) →
  max_list (rk <$> seq 0 (length (nodes st))) - rk this < fuel →
  is_Some (recomputeBBox fuel this b st).
Proof.
  intros Hwf Hex Hthis Hfuel.
  remember (max_list (rk <$> seq 0 (length (nodes st)))) as M eqn:HM.
  assert (Hlen : length (nodes st) = length (nodes st)) by done.
  revert Hlen HM. generalize (length (nodes st)) at 2 3 as len. intros len Hlen HM.
  revert this b st Hwf Hex Hthis Hlen Hfuel.
  induction fuel as [|fuel IH]; intros this b st Hwf Hex Hthis Hlen Hfuel; [lia|].
  simpl.
  destruct (lookup_lt_is_Some_2 _ _ Hthis) as [nd Hnd]. rewrite Hnd. simpl.
  destruct (computeBBox_is_Some _ _ st this nd Hwf Hnd) as [bb Hbb].
  rewrite Hbb. simpl.
  destruct (b && negb (rect_eq (bbox nd) bb)); [|by eexists].
  destruct (parent nd) as [p|] eqn:Hp; [|by eexists].
  assert (this ∉ ex) as Hnex.
  { intros Hin. specialize (Hex _ Hin). lia. }
  destruct (ok_parent _ _ _ _ _ (Hwf _ _ Hnd) p Hp) as [Hpl Hk].
  destruct (Hk Hnex) as (pnd & Hpnd & Hin).
  destruct (ok_children _ _ _ _ _ (Hwf _ _ Hpnd) this Hin) as [_ Hrk].
  pose proof (rank_le_max rk len p) as Hmax.
  apply IH.
  - eapply WFr_shapeEq; [apply shapeEq_set_bbox|done].
  - intros x Hx. specialize (Hex _ Hx). lia.
  - by rewrite length_update.
  - by rewrite length_update.
  - subst M. lia.
Qed.

Lemma recomputeBBox_returns rk ex st this b :
  WFr rk ex st →
  (∀ x, x ∈ ex → rk x < rk this) →
  this < length (nodes st) →
  ∃ fuel st', recomputeBBox fuel this b st = Some st' ∧
    shapeEq st st' ∧ idCounter st' = idCounter st.
Proof.
  intros Hwf Hex Hthis.
  destruct (recomputeBBox_total rk ex st this b _ Hwf Hex Hthis (Nat.lt_succ_diag_r _))
    as [st' Hst'].
  eexists _, st'. split; [done|]. by eapply recomputeBBox_shapeEq.
Qed.

End StoreFacts.

(** Lookups in a store after a sequence of assignments. *)
Ltac store_lookup :=
  repeat first
    [ rewrite lookup_update | rewrite lookup_pushChild
    | rewrite lookup_onContentChange | rewrite lookup_new_ImageNode
    | rewrite lookup_set_parents | rewrite length_update
    | rewrite length_pushChild | rewrite length_onContentChange
    | rewrite length_new_ImageNode | rewrite length_set_parents ].
#[local] Arguments recomputeBBox : simpl never.

Section Rebalance.
Context {R : Type} `{Rect2 R}.
Local Opaque update pushChild onContentChange new_ImageNode.
Implicit Types (st : Store R) (nd : ImageNode R) (n m this c p : ref).

Lemma singleton_of_length_1 {A} (x : A) (l : list A) :
  x ∈ l → length l = 1 → l = [x].
Proof.
  destruct l as [|y [|z l]]; simpl; intros Hin Hl; try done.
  apply list_elem_of_singleton in Hin. by subst.
Qed.

Lemma rebalance_lift_WFr rk ex st this nd p pnd gp gpnd :
  WFr rk ex st → leavingParent rk ex st → this ∉ ex →
  nodes st !! this = Some nd → parent nd = Some p →
  nodes st !! p = Some pnd → children pnd = [this] → parent pnd = Some gp →
  nodes st !! gp = Some gpnd → p ∈ children gpnd →
  let st' := update p (set_parent None)
       (pushChild gp this
          (update this (set_parent (Some gp))
             (update p (set_children []) st))) in
  WFr rk ex st' ∧ leavingParent rk ex st'.
Proof.
  intros Hwf Hlv Hnex Hnd Hpar Hpnd Hch Hgp Hgpnd Hin st'.
  pose proof (Hwf _ _ Hnd) as [Ht1 Ht2 Ht3].
  pose proof (Hwf _ _ Hpnd) as [Hp1 Hp2 Hp3].
  pose proof (Hwf _ _ Hgpnd) as [Hg1 Hg2 Hg3].
  pose proof (Hlv p pnd) as Hp4. pose proof (Hlv gp gpnd) as Hg4.
  destruct (Hp1 this) as [_ Hr1]; [rewrite Hch; set_solver|].
  destruct (Hg1 p Hin) as [_ Hr2].
  assert (this ≠ p) by (intros ->; lia).
  assert (this ≠ gp) by (intros ->; lia).
  assert (p ≠ gp) by (intros ->; lia).
  assert (p ∉ ex) as Hpex.
  { intros Hx. destruct (Hp4 Hx Hpnd) as [Hnil _]. congruence. }
  assert (gp ∉ ex) as Hgex.
  { intros Hx. destruct (Hg4 Hx Hgpnd) as [Hnil _]. rewrite Hnil in Hin. set_solver. }
  assert (content gpnd = None) as Hgc.
  { destruct (content gpnd) eqn:Hc; [|done].
    rewrite Hg3 in Hin; [set_solver|done]. }
  assert (Hlen : length (nodes st') = length (nodes st)).
  { unfold st'. by rewrite length_update, length_pushChild, !length_update. }
  assert (Hlook : ∀ m, nodes st' !! m =
     if decide (m = p) then Some (set_parent None (set_children [] pnd))
     else if decide (m = this) then Some (set_parent (Some gp) nd)
     else if decide (m = gp) then Some (set_children (children gpnd ++ [this]) gpnd)
     else nodes st !! m).
  { intros m. unfold st'. rewrite lookup_update, lookup_pushChild, !lookup_update.
    repeat case_decide; simplify_eq; rewrite ?Hnd, ?Hpnd, ?Hgpnd; done. }
  clearbody st'. split; [|intros x xd Hx; rewrite Hlook;
    repeat case_decide; simplify_eq; by apply Hlv].
  intros n nd'. rewrite Hlook. repeat case_decide; subst.
  - intros [= <-]. split; simpl; [set_solver|done|done].
  - intros [= <-]. split; simpl; [by rewrite Hlen| |done].
    intros q [= <-]. rewrite Hlen. split; [by eapply lookup_lt_Some|].
    intros _. rewrite Hlook. repeat case_decide; try done.
    eexists; split; [done|]. simpl. set_solver.
  - intros [= <-]. split; simpl; [| |by rewrite Hgc].
    + intros c [Hc| ->%list_elem_of_singleton]%elem_of_app; rewrite Hlen.
      * by apply Hg1.
      * split; [by eapply lookup_lt_Some|lia].
    + intros q Hq. rewrite Hlen. destruct (Hg2 q Hq) as [Hql Hk]. split; [done|].
      intros _. destruct (Hk Hgex) as (qnd & Hqn & Hqin).
      rewrite Hlook. repeat case_decide; simplify_eq.
      * rewrite Hch in Hqin. set_solver.
      * by eexists.
      * destruct (Hg1 _ Hqin). lia.
      * by eexists.
  - intros Hn. eapply nodeOK_frame; [by apply Hwf|lia|].
    intros q qnd Hq Hqn Hqin. rewrite Hlook. repeat case_decide; simplify_eq.
    + rewrite Hch in Hqin. set_solver.
    + by eexists.
    + eexists; split; [done|]. simpl. set_solver.
    + by eexists.
Qed.

Lemma rebalance_absorb_WFr rk ex st this nd p pnd :
  WFr rk ex st → leavingParent rk ex st → this ∉ ex →
  nodes st !! this = Some nd → parent nd = Some p →
  nodes st !! p = Some pnd → children pnd = [this] →
  let st' := update this (set_parent None)
       (foldl (λ s child, update child (set_parent (Some p)) s)
          (update p (set_children (children nd)) st) (children nd)) in
  WFr rk ex st' ∧ leavingParent rk ex st'.
Proof.
  intros Hwf Hlv Hnex Hnd Hpar Hpnd Hch st'.
  pose proof (Hwf _ _ Hnd) as [Ht1 Ht2 Ht3].
  pose proof (Hwf _ _ Hpnd) as [Hp1 Hp2 Hp3].
  pose proof (Hlv p pnd) as Hp4.
  destruct (Hp1 this) as [_ Hr1]; [rewrite Hch; set_solver|].
  assert (this ≠ p) by (intros ->; lia).
  assert (this ∉ children nd) as Hself.
  { intros Hin. destruct (Ht1 _ Hin). lia. }
  assert (p ∉ children nd) as Hpself.
  { intros Hin. destruct (Ht1 _ Hin). lia. }
  assert (p ∉ ex) as Hpex.
  { intros Hx. destruct (Hp4 Hx Hpnd) as [Hnil _]. congruence. }
  assert (content pnd = None) as Hpc.
  { destruct (content pnd) eqn:Hc; [|done]. rewrite Hp3 in Hch; done. }
  assert (Hlen : length (nodes st') = length (nodes st)).
  { unfold st'. by rewrite length_update, length_set_parents, length_update. }
  assert (Hlook : ∀ m, nodes st' !! m =
     if decide (m = this) then Some (set_parent None nd)
     else if decide (m ∈ children nd) then set_parent (Some p) <$> nodes st !! m
     else if decide (m = p) then Some (set_children (children nd) pnd)
     else nodes st !! m).
  { intros m. unfold st'. rewrite lookup_update, lookup_set_parents, lookup_update.
    repeat case_decide; simplify_eq; rewrite ?Hnd, ?Hpnd; done. }
  clearbody st'. split.
  2:{ intros x xd Hx. rewrite Hlook. repeat case_decide; subst.
      - done.
      - intros (md & Hmd & ->)%fmap_Some. destruct (Hlv _ _ Hx Hmd) as [Hnil _].
        split; [done|]. exists p. split; [done|].
        destruct (Ht1 x) as [_ Hr2]; [done|]. lia.
      - done.
      - by apply Hlv. }
  intros n nd'. rewrite Hlook. repeat case_decide; subst.
  - intros [= <-]. split; simpl; [by rewrite Hlen|done|done].
  - intros (md & Hmd & ->)%fmap_Some.
    pose proof (Hwf _ _ Hmd) as [Hm1 Hm2 Hm3].
    destruct (Ht1 _ ltac:(done)) as [_ Hr2].
    split; simpl; [by rewrite Hlen| |done].
    intros q [= <-]. rewrite Hlen. split; [by eapply lookup_lt_Some|].
    intros _. rewrite Hlook. repeat case_decide; try done.
    eexists; split; [done|done].
  - intros [= <-]. split; simpl; [| |by rewrite Hpc].
    + intros c Hc. rewrite Hlen. destruct (Ht1 _ Hc). split; [done|lia].
    + intros q Hq. rewrite Hlen. destruct (Hp2 q Hq) as [Hql Hk]. split; [done|].
      intros _. destruct (Hk Hpex) as (qnd & Hqn & Hqin).
      rewrite Hlook. repeat case_decide; simplify_eq.
      * eexists. split; [by rewrite Hqn|done].
      * destruct (Hp1 _ Hqin). lia.
      * by eexists.
  - intros Hn. eapply nodeOK_frame; [by apply Hwf|lia|].
    intros q qnd Hq Hqn Hqin. rewrite Hlook. repeat case_decide; simplify_eq.
    + eexists. split; [by rewrite Hqn|done].
    + rewrite Hch in Hqin. set_solver.
    + by eexists.
Qed.

Lemma recomputeBBox_once fuel st n :
  recomputeBBox (S fuel) n false st
  = (nd ← nodes st !! n; bb ← computeBBox st nd; Some (update n (set_bbox bb) st)).
Proof. done. Qed.

(** [rebalance] returns, and leaves the store well formed. *)
Lemma rebalance_WFr rk ex st this :
  WFr rk ex st → leavingParent rk ex st → this ∉ ex → this < length (nodes st) →
  ∃ st', rebalance this st = Some st' ∧ WFr rk ex st' ∧ leavingParent rk ex st' ∧
    length (nodes st') = length (nodes st) ∧ idCounter st' = idCounter st.
Proof.
  intros Hwf Hlv Hnex Hthis. unfold rebalance.
  destruct (lookup_lt_is_Some_2 _ _ Hthis) as [nd Hnd]. rewrite Hnd. simpl.
  destruct (parent nd) as [p|] eqn:Hpar; [|by eexists].
  destruct (ok_parent _ _ _ _ _ (Hwf _ _ Hnd) p Hpar) as [Hpl Hk].
  destruct (Hk Hnex) as (pnd & Hpnd & Hin). rewrite Hpnd. simpl.
  case_bool_decide as Hlen1; [|by eexists].
  pose proof (singleton_of_length_1 _ _ Hin Hlen1) as Hch.
  destruct (parent pnd) as [gp|] eqn:Hgp.
  - assert (p ∉ ex) as Hpex.
    { intros Hx. destruct (Hlv _ _ Hx Hpnd) as [Hnil _]. congruence. }
    destruct (ok_parent _ _ _ _ _ (Hwf _ _ Hpnd) gp Hgp) as [Hgl Hgk].
    destruct (Hgk Hpex) as (gpnd & Hgpnd & Hpin).
    pose proof (rebalance_lift_WFr rk ex st this nd p pnd gp gpnd
                  Hwf Hlv Hnex Hnd Hpar Hpnd Hch Hgp Hgpnd Hpin) as Hwf'.
    simpl in Hwf'.
    set (st' := update p _ _) in *.
    assert (length (nodes st') = length (nodes st)) as Hl'.
    { unfold st'. by rewrite length_update, length_pushChild, !length_update. }
    assert (idCounter st' = idCounter st) as Hi'.
    { unfold st'. by rewrite idCounter_update, idCounter_pushChild, !idCounter_update. }
    clearbody st'. destruct Hwf' as [Hwf' Hlv'].
    assert (gp < length (nodes st')) as Hgl' by lia.
    destruct (lookup_lt_is_Some_2 _ _ Hgl') as [gnd' Hgnd'].
    rewrite recomputeBBox_once, Hgnd'. simpl.
    destruct (computeBBox_is_Some _ _ _ _ _ Hwf' Hgnd') as [bb Hbb].
    rewrite Hbb. simpl. eexists. split; [done|].
    split; [eapply WFr_shapeEq; [apply shapeEq_set_bbox|done]|].
    split; [eapply leavingParent_shapeEq; [apply shapeEq_set_bbox|done]|].
    rewrite length_update. by split.
  - destruct (content nd) eqn:Hc; [by eexists|].
    unfold updateParents. rewrite lookup_update.
    rewrite decide_True by done. rewrite Hpnd. simpl.
    eexists. split; [done|].
    destruct (rebalance_absorb_WFr rk ex st this nd p pnd) as [Hwf' Hlv']; try done.
    split; [done|]. split; [done|].
    rewrite length_update, length_set_parents, length_update.
    split; [done|]. by rewrite idCounter_update, idCounter_set_parents, idCounter_update.
Qed.

End Rebalance.

Section AddLeafBlocks.
Context {R : Type} `{Rect2 R}.
Local Opaque update pushChild onContentChange new_ImageNode.
Implicit Types (st : Store R) (nd : ImageNode R) (n m this c p : ref).

(** A node without content and without children may take content. *)
Lemma set_content_WFr rk ex st this nd leaf :
  WFr rk ex st → nodes st !! this = Some nd → children nd = [] →
  WFr rk ex (update this (set_content leaf) st).
Proof.
  intros Hwf Hnd Hch n nd'. rewrite lookup_update. case_decide; subst.
  - rewrite Hnd. intros [= <-]. destruct (Hwf _ _ Hnd) as [H1 H2 H3].
    split; rewrite ?length_update; simpl; [done| |by rewrite Hch].
    intros q Hq. destruct (H2 q Hq) as [Hql Hk]. split; [done|].
    intros Hex. destruct (Hk Hex) as (qnd & Hqn & Hqin).
    rewrite lookup_update. case_decide; simplify_eq; [|by eexists].
    rewrite Hch in Hqin. set_solver.
  - intros Hn. eapply nodeOK_frame; [by apply Hwf|by rewrite length_update|].
    intros q qnd Hq Hqn Hqin. rewrite lookup_update.
    case_decide; simplify_eq; [|by eexists].
    rewrite Hch in Hqin. set_solver.
Qed.

(** A new node, without children, attached as the last child of a node
    that has no content (any more). *)
Lemma attach_WFr rk st st' this nd copt :
  WFr rk [] st → nodes st !! this = Some nd →
  length (nodes st') = S (length (nodes st)) →
  (∀ m nd', nodes st' !! m = Some nd' →
     if decide (m = length (nodes st)) then
       content nd' = copt ∧ children nd' = [] ∧ parent nd' = Some this
     else if decide (m = this) then
       content nd' = None ∧ children nd' = children nd ++ [length (nodes st)]
       ∧ parent nd' = parent nd
     else ∃ md, nodes st !! m = Some md ∧ sameShape md nd') →
  WFr (λ x, if decide (x = length (nodes st)) then 0 else S (rk x)) [] st'.
Proof.
  intros Hwf Hnd Hlen Hst' n nd' Hn'.
  assert (this < length (nodes st)) as Hthis by by eapply lookup_lt_Some.
  assert (∀ q qnd x, nodes st !! q = Some qnd → x ∈ children qnd →
            ∃ qnd', nodes st' !! q = Some qnd' ∧ x ∈ children qnd') as Hkeep.
  { intros q qnd x Hq Hx.
    assert (q < length (nodes st')) as Hql.
    { apply lookup_lt_Some in Hq. lia. }
    destruct (lookup_lt_is_Some_2 _ _ Hql) as [qnd' Hq'].
    exists qnd'. split; [done|].
    specialize (Hst' _ _ Hq'). apply lookup_lt_Some in Hq as Hqlt.
    rewrite decide_False in Hst' by lia.
    case_decide; subst.
    - destruct Hst' as (_ & -> & _). simplify_eq. set_solver.
    - destruct Hst' as (md & Hmd & _ & -> & _). by simplify_eq. }
  pose proof (Hst' _ _ Hn') as Hcase.
  case_decide as Hf; [|case_decide as Ht]; subst.
  - destruct Hcase as (Hc & Hch & Hp). split.
    + rewrite Hch. set_solver.
    + rewrite Hp. intros q [= <-]. split; [lia|]. intros _.
      assert (this < length (nodes st')) as Htl by lia.
      destruct (lookup_lt_is_Some_2 _ _ Htl) as [tnd' Htnd'].
      exists tnd'. split; [done|].
      specialize (Hst' _ _ Htnd'). rewrite decide_False in Hst' by lia.
      rewrite decide_True in Hst' by done.
      destruct Hst' as (_ & -> & _). set_solver.
    + done.
  - destruct Hcase as (Hc & Hch & Hp).
    destruct (Hwf _ _ Hnd) as [H1 H2 H3]. split.
    + rewrite Hch. intros c [Hin| ->%list_elem_of_singleton]%elem_of_app.
      * destruct (H1 _ Hin). rewrite decide_False by lia.
        rewrite decide_False by lia. split; lia.
      * rewrite decide_True by done. rewrite decide_False by lia. split; lia.
    + rewrite Hp. intros q Hq. destruct (H2 q Hq) as [Hql Hk]. split; [lia|].
      intros _. destruct (Hk ltac:(set_solver)) as (qnd & Hqn & Hqin).
      by eapply Hkeep.
    + by rewrite Hc.
  - destruct Hcase as (md & Hmd & Hc & Hch & Hp).
    destruct (Hwf _ _ Hmd) as [H1 H2 H3]. split.
    + rewrite Hch. intros c Hin. destruct (H1 _ Hin).
      rewrite !decide_False by lia. split; lia.
    + rewrite Hp. intros q Hq. destruct (H2 q Hq) as [Hql Hk]. split; [lia|].
      intros _. destruct (Hk ltac:(set_solver)) as (qnd & Hqn & Hqin).
      by eapply Hkeep.
    + by rewrite Hc, Hch.
Qed.

(** When the parent fields of the children of a node are set, no child
    of that node needs to be excepted any more. *)
Lemma updateParents_WFr rk ex st g gnd :
  WFr rk ex st → nodes st !! g = Some gnd →
  (∀ x, x ∈ ex → x ∈ children gnd) →
  WFr rk [] (foldl (λ s child, update child (set_parent (Some g)) s) st (children gnd)).
Proof.
  intros Hwf Hg Hex.
  set (st' := foldl _ _ _).
  assert (Hlen : length (nodes st') = length (nodes st)) by apply length_set_parents.
  assert (Hlook : ∀ m, nodes st' !! m =
     if decide (m ∈ children gnd) then set_parent (Some g) <$> nodes st !! m
     else nodes st !! m) by (intros; apply lookup_set_parents).
  clearbody st'.
  assert (∀ q qnd x, nodes st !! q = Some qnd → x ∈ children qnd →
            ∃ qnd', nodes st' !! q = Some qnd' ∧ x ∈ children qnd') as Hkeep.
  { intros q qnd x Hq Hx. rewrite Hlook, Hq. case_decide; by eexists. }
  intros n nd'. rewrite Hlook. case_decide as Hn.
  - intros (md & Hmd & ->)%fmap_Some. destruct (Hwf _ _ Hmd) as [H1 H2 H3].
    split; simpl; [by rewrite Hlen| |done].
    intros q [= <-]. rewrite Hlen. split; [by eapply lookup_lt_Some|].
    intros _. by eapply Hkeep.
  - intros Hmd. destruct (Hwf _ _ Hmd) as [H1 H2 H3].
    split; [by rewrite Hlen| |done].
    intros q Hq. rewrite Hlen. destruct (H2 q Hq) as [Hql Hk]. split; [done|].
    intros _. destruct Hk as (qnd & Hqn & Hqin); [naive_solver|].
    by eapply Hkeep.
Qed.

(** The children of a node move under a new node [g], which becomes
    the second child of that node, after a new node [f]; the parent
    fields of the children are not set yet. *)
Lemma split_WFr rk st this nd :
  WFr rk [] st → nodes st !! this = Some nd → content nd = None →
  let f := length (nodes st) in
  let g := S (length (nodes st)) in
  let st1 := (new_ImageNode (Some this) st).2 in
  let st2 := (new_ImageNode (Some this) st1).2 in
  let st' := update this (set_children [f; g])
               (update g (set_children (children nd)) st2) in
  WFr (λ x, if decide (x = f) then 0
            else if decide (x = g) then 2 * rk this else 2 * rk x + 1)
      (children nd) st'.
Proof.
  intros Hwf Hnd Hc f g st1 st2 st'.
  assert (this < length (nodes st)) as Hthis by by eapply lookup_lt_Some.
  destruct (Hwf _ _ Hnd) as [Ht1 Ht2 Ht3].
  assert (Hlen : length (nodes st') = S (S (length (nodes st)))).
  { unfold st', st2, st1. by rewrite !length_update, !length_new_ImageNode. }
  assert (Hlook : ∀ m, nodes st' !! m =
     if decide (m = this) then Some (set_children [f; g] nd)
     else if decide (m = g) then
       Some (mkImageNode None rect_empty (children nd) (Some this) (S (idCounter st)))
     else if decide (m = f) then
       Some (mkImageNode None rect_empty [] (Some this) (idCounter st))
     else nodes st !! m).
  { intros m. unfold st', st2, st1.
    rewrite !lookup_update, !lookup_new_ImageNode, !length_new_ImageNode.
    fold f g. repeat case_decide; simplify_eq; try lia; rewrite ?Hnd; done. }
  clearbody st'.
  intros n nd'. rewrite Hlook. repeat case_decide; subst.
  - intros [= <-]. split; simpl; [| |done].
    + intros c Hin. rewrite Hlen.
      assert (c = f ∨ c = g) as [-> | ->] by set_solver;
        repeat case_decide; lia.
    + intros q Hq. rewrite Hlen. destruct (Ht2 q Hq) as [Hql Hk]. split; [lia|].
      intros _. destruct Hk as (qnd & Hqn & Hqin); [set_solver|].
      rewrite Hlook. repeat case_decide; simplify_eq; try lia.
      * destruct (Ht1 _ Hqin). lia.
      * by eexists.
  - intros [= <-]. split; simpl; [| |by intros []].
    + intros c Hin. rewrite Hlen. destruct (Ht1 _ Hin).
      repeat case_decide; lia.
    + intros q [= <-]. rewrite Hlen. split; [lia|]. intros _.
      rewrite Hlook. rewrite decide_True by done. eexists. split; [done|].
      simpl. set_solver.
  - intros [= <-]. split; simpl; [set_solver| |by intros []].
    intros q [= <-]. rewrite Hlen. split; [lia|]. intros _.
    rewrite Hlook. rewrite decide_True by done. eexists. split; [done|].
    simpl. set_solver.
  - intros Hn. destruct (Hwf _ _ Hn) as [Hn1 Hn2 Hn3].
    apply lookup_lt_Some in Hn as Hnl.
    split; [| |done].
    + intros c Hin. rewrite Hlen. destruct (Hn1 _ Hin).
      repeat case_decide; lia.
    + intros q Hq. rewrite Hlen. destruct (Hn2 q Hq) as [Hql Hk]. split; [lia|].
      intros Hex. destruct Hk as (qnd & Hqn & Hqin); [set_solver|].
      rewrite Hlook. repeat case_decide; simplify_eq; try lia.
      by eexists.
Qed.

End AddLeafBlocks.

Section AddLeafTotal.
Context {R : Type} `{Rect2 R}.
Local Opaque update pushChild onContentChange new_ImageNode.
Implicit Types (st : Store R) (nd : ImageNode R) (n m this c p : ref).

Lemma recomputeBBox_returns_from rk ex st this b :
  WFr rk ex st →
  (∀ x, x ∈ ex → rk x < rk this) →
  this < length (nodes st) →
  ∃ fuel0 st',
    (∀ fuel, fuel0 ≤ fuel → recomputeBBox fuel this b st = Some st') ∧
    shapeEq st st' ∧ idCounter st' = idCounter st.
Proof.
  intros Hwf Hex Hthis.
  destruct (recomputeBBox_returns rk ex st this b Hwf Hex Hthis)
    as (fuel0 & st' & Hr & Hs).
  exists fuel0, st'. split; [|done].
  intros fuel Hle. by eapply recomputeBBox_mono.
Qed.

Lemma WFr_onContentChange rk ex st this :
  WFr rk ex st → WFr rk ex (onContentChange this st).
Proof. apply WFr_shapeEq, shapeEq_onContentChange. Qed.

Lemma isEmptyNode_true nd :
  isEmptyNode nd = true ↔ content nd = None ∧ children nd = [].
Proof.
  unfold isEmptyNode. rewrite andb_true_iff, !bool_decide_eq_true.
  split; intros [? Hl]; (split; [done|]).
  - by apply nil_length_inv.
  - by rewrite Hl.
Qed.

Lemma isEmptyNode_set_node_id i nd : isEmptyNode (set_node_id i nd) = isEmptyNode nd.
Proof. done. Qed.

(** [addLeaf] on a node without content and without children. *)
Lemma addLeaf_empty_returns rk st this nd leaf :
  WFr rk [] st → nodes st !! this = Some nd →
  content nd = None → children nd = [] →
  ∃ fuel0 st',
    (∀ fuel, fuel0 ≤ fuel → addLeaf fuel this leaf st = Some (this, st')) ∧
    WFr rk [] st' ∧ length (nodes st') = length (nodes st).
Proof.
  intros Hwf Hnd Hc Hch.
  set (st1 := onContentChange this st).
  assert (nodes st1 !! this = Some (set_node_id (idCounter st) nd)) as Hnd1.
  { unfold st1. rewrite lookup_onContentChange, decide_True by done. by rewrite Hnd. }
  assert (WFr rk [] (update this (set_content (Some leaf)) st1)) as Hwf2.
  { eapply set_content_WFr; [by apply WFr_onContentChange|done|done]. }
  destruct (recomputeBBox_returns_from rk [] _ this true Hwf2)
    as (fuel0 & st' & Hr & Hs & _).
  { set_solver. }
  { rewrite length_update. unfold st1. rewrite length_onContentChange.
    by eapply lookup_lt_Some. }
  exists (S fuel0), st'. split; [|split].
  - intros [|fuel] Hle; [lia|]. simpl. fold st1. rewrite Hnd1. simpl.
    rewrite isEmptyNode_set_node_id.
    rewrite (proj2 (isEmptyNode_true nd)) by done.
    rewrite Hr by lia. done.
  - by eapply WFr_shapeEq.
  - destruct Hs as [-> _]. rewrite length_update. apply length_onContentChange.
Qed.


Lemma new_ImageNode_eq st (par : option ref) :
  new_ImageNode par st = (length (nodes st), (new_ImageNode par st).2).
Proof. done. Qed.



(** The content of a leaf moves into a new child. *)
Lemma pushDownContent_returns rk st this nd :
  WFr rk [] st → nodes st !! this = Some nd →
  ∃ st' rk' nd',
    (∀ fuel, 1 ≤ fuel → pushDownContent fuel this nd st = Some st') ∧
    WFr rk' [] st' ∧ length (nodes st) ≤ length (nodes st') ∧
    nodes st' !! this = Some nd' ∧ content nd' = None ∧
    (content nd = None → st' = st ∧ rk' = rk) ∧
    (content nd ≠ None → length (children nd') = 1).
Proof.
  intros Hwf Hnd. unfold pushDownContent.
  assert (this < length (nodes st)) as Hthis by by eapply lookup_lt_Some.
  destruct (content nd) as [c|] eqn:Hc.
  2:{ exists st, rk, nd. split; [done|]. split; [done|]. split; [done|].
      split; [done|]. split; [done|]. split; [done|]. by intros []. }
  assert (children nd = []) as Hch.
  { apply (ok_leaf _ _ _ _ _ (Hwf _ _ Hnd)). by rewrite Hc. }
  rewrite new_ImageNode_eq.
  set (cn := length (nodes st)).
  set (st4 := pushChild this cn _).
  assert (nodes st4 !! cn
          = Some (mkImageNode (Some c) rect_empty [] (Some this) (idCounter st))) as Hcn.
  { unfold st4. store_lookup. fold cn. rewrite decide_False by lia.
    rewrite decide_False by lia. by rewrite !decide_True by done. }
  set (st' := update cn (set_bbox (getBBox c)) st4).
  assert (length (nodes st') = S (length (nodes st))) as Hlen.
  { unfold st', st4. by store_lookup. }
  assert (nodes st' !! this
          = Some (set_children (children nd ++ [cn]) (set_content None nd))) as Hthis'.
  { unfold st', st4. store_lookup. fold cn. rewrite decide_False by lia.
    rewrite decide_True by done. rewrite decide_True by done.
    rewrite decide_False by lia. rewrite decide_False by lia. by rewrite Hnd. }
  eexists st', _, _. split; [|split; [|split; [lia|split; [exact Hthis'|]]]].
  - intros [|fuel] Hle; [lia|]. rewrite recomputeBBox_once, Hcn. done.
  - eapply (attach_WFr rk st st' this nd (Some c)); [done|done|done|].
    intros m nd'. unfold st', st4. store_lookup. fold cn.
    repeat case_decide; simplify_eq; try lia.
    + intros [= <-]. done.
    + rewrite Hnd. intros [= <-]. done.
    + intros Hm. exists nd'. by repeat split.
  - simpl. split; [done|]. split; [done|]. intros _. by rewrite Hch.
Qed.

(** A new last child that holds the leaf. *)
Lemma appendLeaf_returns rk st this nd leaf :
  WFr rk [] st → nodes st !! this = Some nd → content nd = None →
  ∃ fuel0 st' rk',
    (∀ fuel, fuel0 ≤ fuel →
       appendLeaf fuel this leaf st = Some (length (nodes st), st')) ∧
    WFr rk' [] st' ∧ length (nodes st') = S (length (nodes st)).
Proof.
  intros Hwf Hnd Hc. unfold appendLeaf.
  assert (this < length (nodes st)) as Hthis by by eapply lookup_lt_Some.
  rewrite new_ImageNode_eq.
  set (f := length (nodes st)).
  set (st3 := update f _ _).
  assert (length (nodes st3) = S (length (nodes st))) as Hlen.
  { unfold st3. by store_lookup. }
  assert (WFr (λ x, if decide (x = f) then 0 else S (rk x)) [] st3) as Hwf3.
  { eapply (attach_WFr rk st st3 this nd (Some leaf)); [done|done|done|].
    intros m nd'. unfold st3. store_lookup. fold f.
    repeat case_decide; simplify_eq; try lia.
    + intros [= <-]. done.
    + rewrite Hnd. intros [= <-]. done.
    + intros Hm. exists nd'. by repeat split. }
  destruct (recomputeBBox_returns_from _ [] st3 f true Hwf3)
    as (fuel0 & st' & Hr & Hs & _); [set_solver|lia|].
  eexists fuel0, st', _. split; [|split].
  - intros fuel Hle. by rewrite Hr.
  - by eapply WFr_shapeEq.
  - destruct Hs as [-> _]. done.
Qed.

(** A new child for the leaf, beside the children of the node or beside
    one new node that takes them all. *)
Lemma makeRoomForLeaf_returns rk st this nd :
  WFr rk [] st → nodes st !! this = Some nd → content nd = None →
  ∃ fuel0 st' rk' fd,
    (∀ fuel, fuel0 ≤ fuel →
       makeRoomForLeaf fuel this nd st = Some (length (nodes st), st')) ∧
    WFr rk' [] st' ∧ length (nodes st) < length (nodes st') ∧
    nodes st' !! length (nodes st) = Some fd ∧
    content fd = None ∧ children fd = [].
Proof.
  intros Hwf Hnd Hc. unfold makeRoomForLeaf.
  assert (this < length (nodes st)) as Hthis by by eapply lookup_lt_Some.
  rewrite new_ImageNode_eq.
  set (f := length (nodes st)).
  case_bool_decide as Hfew.
  - set (st' := pushChild this f _).
    assert (length (nodes st') = S (length (nodes st))) as Hlen.
    { unfold st'. by store_lookup. }
    eexists 0, st', _, (mkImageNode None rect_empty [] (Some this) (idCounter st)).
    split; [done|]. split; [|split; [lia|split; [|done]]].
    + eapply (attach_WFr rk st st' this nd None); [done|done|done|].
      intros m nd'. unfold st'. store_lookup. fold f.
      repeat case_decide; simplify_eq; try lia.
      * rewrite Hnd. intros [= <-]. simpl. by rewrite Hc.
      * intros [= <-]. done.
      * intros Hm. exists nd'. by repeat split.
    + unfold st'. store_lookup. fold f. rewrite decide_False by lia.
      by rewrite decide_True.
  - rewrite new_ImageNode_eq. rewrite length_new_ImageNode. fold f.
    set (g := S f).
    pose proof (split_WFr rk st this nd Hwf Hnd Hc) as Hwf2. simpl in Hwf2.
    fold f g in Hwf2.
    set (st2 := update this _ _) in *.
    assert (length (nodes st2) = S (S (length (nodes st)))) as Hlen2.
    { unfold st2. by store_lookup. }
    destruct (recomputeBBox_returns_from _ _ st2 g true Hwf2)
      as (fuel0 & st3 & Hr & Hs & _).
    { intros x Hx. destruct (ok_children _ _ _ _ _ (Hwf _ _ Hnd) x Hx).
      repeat case_decide; lia. }
    { unfold g, f. lia. }
    assert (nodes st2 !! g = Some (mkImageNode None rect_empty (children nd)
                                     (Some this) (S (idCounter st)))) as Hg2.
    { unfold st2. store_lookup. fold f g.
      repeat case_decide; try (unfold f, g in *; lia); done. }
    destruct (shapeEq_lookup _ _ _ _ Hs Hg2) as (gnd & Hg3 & _ & Hgch & _).
    simpl in Hgch.
    assert (nodes st2 !! f = Some (mkImageNode None rect_empty []
                                     (Some this) (idCounter st))) as Hf2.
    { unfold st2. store_lookup. fold f g.
      repeat case_decide; try (unfold f, g in *; lia); done. }
    destruct (shapeEq_lookup _ _ _ _ Hs Hf2) as (fd & Hf3 & Hfc & Hfch & _).
    simpl in Hfc, Hfch.
    pose proof (WFr_shapeEq _ _ _ _ Hs Hwf2) as Hwf3.
    pose proof (updateParents_WFr _ _ st3 g gnd Hwf3 Hg3) as Hwf4.
    rewrite Hgch in Hwf4. specialize (Hwf4 ltac:(done)).
    eexists fuel0, _, _, fd. split; [|split; [exact Hwf4|split; [|split; [|done]]]].
    + intros fuel Hle. rewrite Hr by done. simpl. unfold updateParents.
      rewrite Hg3. simpl. by rewrite Hgch.
    + rewrite length_set_parents. destruct Hs as [-> _]. lia.
    + rewrite lookup_set_parents. rewrite decide_False; [done|].
      intros Hin. destruct (ok_children _ _ _ _ _ (Hwf _ _ Hnd) f Hin). unfold f in *. lia.
Qed.


Lemma filterNodes_Some st (pr : ImageNode R → bool) cs l :
  filterNodes st pr cs = Some l →
  ∀ x, x ∈ l ↔ x ∈ cs ∧ ∃ nd, nodes st !! x = Some nd ∧ pr nd = true.
Proof.
  revert l. induction cs as [|c cs IH]; intros l; simpl.
  - intros [= <-] x. set_solver.
  - destruct (nodes st !! c) as [nd|] eqn:Hc; [|done]. simpl.
    destruct (filterNodes st pr cs) as [r|]; [|done]. simpl.
    intros [= <-] x. specialize (IH r eq_refl x).
    destruct (pr nd) eqn:Hp.
    + rewrite elem_of_cons, IH, elem_of_cons. split.
      * intros [-> | [? ?]]; [|by auto]. split; [by left|]. by exists nd.
      * intros [[-> | ?] ?]; [by left|right; by auto].
    + rewrite IH, elem_of_cons. split.
      * intros [? ?]. by auto.
      * intros [[-> | ?] (nd' & Hnd' & Hp')]; [|by eauto].
        rewrite Hc in Hnd'. injection Hnd' as <-. congruence.
Qed.

Lemma filterNodes_is_Some st (pr : ImageNode R → bool) cs :
  (∀ c, c ∈ cs → c < length (nodes st)) → is_Some (filterNodes st pr cs).
Proof.
  induction cs as [|c cs IH]; intros Hcs; simpl; [by eexists|].
  destruct (lookup_lt_is_Some_2 (nodes st) c) as [nd ->]; [apply Hcs; by left|].
  simpl. destruct IH as [r ->]; [intros; apply Hcs; by right|].
  by eexists.
Qed.

Lemma head_jsSort_is_Some {A} (cmp : A → A → number) (l : list A) :
  0 < length l → ∃ x, head (jsSort cmp l) = Some x ∧ x ∈ l.
Proof.
  intros Hl. rewrite <- (jsSort_length cmp) in Hl.
  destruct (jsSort cmp l) as [|x l'] eqn:Hs; simpl in Hl; [lia|].
  exists x. split; [done|]. apply (jsSort_elem_of cmp). rewrite Hs. by left.
Qed.

(** [addLeaf] returns, and leaves the store well formed. *)
Lemma addLeaf_returns k rk st this leaf :
  WFr rk [] st → this < length (nodes st) → rk this ≤ k →
  ∃ fuel0 r st',
    (∀ fuel, fuel0 ≤ fuel → addLeaf fuel this leaf st = Some (r, st')) ∧
    WF st' ∧ length (nodes st) ≤ length (nodes st') ∧ r < length (nodes st').
Proof.
  revert rk st this. induction k as [k IH] using lt_wf_ind.
  intros rk st this Hwf Hthis Hrk.
  destruct (lookup_lt_is_Some_2 _ _ Hthis) as [nd Hnd].
  destruct (isEmptyNode nd) eqn:Hempty.
  { apply isEmptyNode_true in Hempty as [Hc Hch].
    destruct (addLeaf_empty_returns rk st this nd leaf Hwf Hnd Hc Hch)
      as (fuel0 & st' & Hr & Hwf' & Hlen).
    exists fuel0, this, st'. split; [done|]. split; [by exists rk|]. lia. }
  set (st1 := onContentChange this st).
  assert (nodes st1 !! this = Some (set_node_id (idCounter st) nd)) as Hnd1.
  { unfold st1. rewrite lookup_onContentChange, decide_True by done. by rewrite Hnd. }
  assert (length (nodes st1) = length (nodes st)) as Hlen1
    by apply length_onContentChange.
  pose proof (WFr_onContentChange rk [] st this Hwf) as Hwf1. fold st1 in Hwf1.
  destruct (pushDownContent_returns rk st1 this _ Hwf1 Hnd1)
    as (st2 & rk2 & nd2 & Hpd & Hwf2 & Hlen2 & Hnd2 & Hc2 & Hsame & Hone).
  destruct (rect_containsRect (getBBox leaf) (bbox nd2)) eqn:Hcontains.
  { destruct (makeRoomForLeaf_returns rk2 st2 this nd2 Hwf2 Hnd2 Hc2)
      as (fuel_a & st4 & rk4 & fd & Hmr & Hwf4 & Hlen4 & Hfd & Hfc & Hfch).
    destruct (addLeaf_empty_returns rk4 st4 _ fd leaf Hwf4 Hfd Hfc Hfch)
      as (fuel_b & st5 & Hal & Hwf5 & Hlen5).
    exists (S (S (fuel_a + fuel_b))), (length (nodes st2)), st5.
    split; [|split; [by exists rk4|lia]].
    intros [|fuel] Hle; [lia|]. simpl. fold st1. rewrite Hnd1. simpl.
    rewrite isEmptyNode_set_node_id, Hempty.
    rewrite Hpd by lia. simpl. rewrite Hnd2. simpl. rewrite Hcontains.
    rewrite Hmr by lia. simpl. apply Hal. lia. }
  assert (is_Some (containingNodes st2 nd2 leaf)) as [containing Hcont].
  { apply filterNodes_is_Some. intros c Hc.
    by destruct (ok_children _ _ _ _ _ (Hwf2 _ _ Hnd2) c Hc). }
  destruct (bool_decide (0 < length containing)
            && bool_decide (targetChildCount ≤ length (children nd2))) eqn:Hcond.
  - apply andb_true_iff in Hcond as [Hpos Hmany].
    apply bool_decide_eq_true in Hpos. apply bool_decide_eq_true in Hmany.
    assert (content nd = None) as Hc.
    { destruct (content nd) eqn:Hc; [|done].
      rewrite Hone in Hmany; [unfold targetChildCount in Hmany; lia|].
      simpl. by rewrite Hc. }
    destruct Hsame as [-> ->]; [done|].
    destruct (head_jsSort_is_Some
                (λ a b, Number.sub (nodeArea st1 a) (nodeArea st1 b)) containing Hpos)
      as (first & Hhead & Hin).
    apply (filterNodes_Some _ _ _ _ Hcont) in Hin as [Hin _].
    destruct (ok_children _ _ _ _ _ (Hwf1 _ _ Hnd2) first Hin) as [Hfl Hfr].
    destruct (IH (rk first) ltac:(lia) rk st1 first Hwf1 Hfl ltac:(lia))
      as (fuel1 & r & st3 & Hal & [rk3 Hwf3] & Hlen3 & Hr3).
    destruct (rebalance_WFr rk3 [] st3 r Hwf3 (leavingParent_nil _ _)
                ltac:(set_solver) Hr3)
      as (st4 & Hreb & Hwf4 & _ & Hlen4 & _).
    exists (S (S fuel1)), r, st4. split; [|split; [by exists rk3|lia]].
    intros [|fuel] Hle; [lia|]. simpl. fold st1. rewrite Hnd1. simpl.
    rewrite isEmptyNode_set_node_id, Hempty.
    rewrite Hpd by lia. simpl. rewrite Hnd2. simpl. rewrite Hcontains.
    rewrite Hcont. simpl.
    rewrite (bool_decide_eq_true_2 _ Hpos), (bool_decide_eq_true_2 _ Hmany). simpl.
    unfold sortByArea. rewrite Hhead. simpl.
    rewrite Hal by lia. simpl. rewrite Hreb. done.
  - destruct (appendLeaf_returns rk2 st2 this nd2 leaf Hwf2 Hnd2 Hc2)
      as (fuel_a & st3 & rk3 & Hap & Hwf3 & Hlen3).
    exists (S (S fuel_a)), (length (nodes st2)), st3.
    split; [|split; [by exists rk3|lia]].
    intros [|fuel] Hle; [lia|]. simpl. fold st1. rewrite Hnd1. simpl.
    rewrite isEmptyNode_set_node_id, Hempty.
    rewrite Hpd by lia. simpl. rewrite Hnd2. simpl. rewrite Hcontains.
    rewrite Hcont. simpl. rewrite Hcond. apply Hap. lia.
Qed.

End AddLeafTotal.

Section Traversal.
Context {R : Type} `{Rect2 R}.
Local Opaque update pushChild onContentChange new_ImageNode.
Implicit Types (st : Store R) (nd : ImageNode R) (n m this c p : ref).

Lemma getChildrenIntersectingRegion_Some st this region cs :
  getChildrenIntersectingRegion st this region = Some cs →
  ∃ nd, nodes st !! this = Some nd ∧
    ∀ x, x ∈ cs ↔ x ∈ children nd ∧
      ∃ xd, nodes st !! x = Some xd ∧ rect_intersects (bbox xd) region = true.
Proof.
  unfold getChildrenIntersectingRegion.
  destruct (nodes st !! this) as [nd|]; [|done]. simpl. intros Hf.
  exists nd. split; [done|]. by apply filterNodes_Some.
Qed.

Lemma getChildrenIntersectingRegion_is_Some rk ex st this region :
  WFr rk ex st → this < length (nodes st) →
  is_Some (getChildrenIntersectingRegion st this region).
Proof.
  intros Hwf Hthis. unfold getChildrenIntersectingRegion.
  destruct (lookup_lt_is_Some_2 _ _ Hthis) as [nd Hnd]. rewrite Hnd. simpl.
  apply filterNodes_is_Some. intros c Hc.
  by destruct (ok_children _ _ _ _ _ (Hwf _ _ Hnd) c Hc).
Qed.

(** The loop of [getLeavesIntersectingRegion] comes to an end: below
    every node of the work list there are finitely many nodes. *)
Lemma getLeavesIntersectingRegion_loop_returns rk ex st region isTooSmall :
  WFr rk ex st →
  ∀ workList, (∀ w, w ∈ workList → w < length (nodes st)) →
  ∀ result, ∃ fuel0 res, ∀ fuel, fuel0 ≤ fuel →
    getLeavesIntersectingRegion_loop fuel st region isTooSmall workList result
    = Some res.
Proof.
  intros Hwf.
  set (ends := λ workList : list ref,
    ∀ result, ∃ fuel0 res, ∀ fuel, fuel0 ≤ fuel →
      getLeavesIntersectingRegion_loop fuel st region isTooSmall workList result
      = Some res).
  assert (∀ k n, rk n ≤ k → n < length (nodes st) →
            ∀ rest, ends rest → ends (n :: rest)) as Hnode.
  { induction k as [k IH] using lt_wf_ind. intros n Hk Hn rest Hrest result.
    destruct (lookup_lt_is_Some_2 _ _ Hn) as [nd Hnd].
    destruct (isTooSmallCheck isTooSmall (bbox nd)) eqn:Hsmall.
    - destruct (Hrest result) as (fuel0 & res & Hres).
      exists (S fuel0), res. intros [|fuel] Hle; [lia|]. simpl.
      rewrite Hnd. simpl. rewrite Hsmall. apply Hres. lia.
    - destruct (getChildrenIntersectingRegion_is_Some rk ex st n region Hwf Hn)
        as [cs Hcs].
      destruct (getChildrenIntersectingRegion_Some _ _ _ _ Hcs) as (nd' & Hnd' & Hin).
      assert (nd' = nd) as -> by congruence.
      assert (ends (reverse cs ++ rest)) as Hends.
      { assert (∀ c, c ∈ reverse cs → c ∈ children nd) as Hsub.
        { intros c Hc. rewrite elem_of_reverse in Hc. apply Hin in Hc. by destruct Hc. }
        revert Hsub. generalize (reverse cs) as l.
        induction l as [|c l IHl]; intros Hsub; [exact Hrest|]. simpl.
        destruct (ok_children _ _ _ _ _ (Hwf _ _ Hnd) c) as [Hcl Hcr];
          [apply Hsub; by left|].
        apply (IH (rk c)); [lia|done|done|].
        apply IHl. intros; apply Hsub; by right. }
      set (result' :=
        if bool_decide (content nd ≠ None)
           && bool_decide (is_Some (rect_intersection (bbox nd) region))
        then result ++ [n] else result).
      destruct (Hends result') as (fuel0 & res & Hres).
      exists (S fuel0), res. intros [|fuel] Hle; [lia|]. simpl.
      rewrite Hnd. simpl. rewrite Hsmall, Hcs. simpl. apply Hres. lia. }
  intros workList. induction workList as [|w workList IHw]; intros Hvalid.
  - intros result. exists 0, result. by intros [|fuel].
  - apply (Hnode (rk w)); [done|apply Hvalid; by left|].
    intros result. apply IHw. intros; apply Hvalid; by right.
Qed.

(** Every node that the loop adds to the result has content. *)
Lemma getLeavesIntersectingRegion_loop_hasContent fuel st region isTooSmall
    workList result res :
  getLeavesIntersectingRegion_loop fuel st region isTooSmall workList result
  = Some res →
  Forall (hasContent st) result → Forall (hasContent st) res.
Proof.
  revert workList result. induction fuel as [|fuel IH]; intros workList result.
  - destruct workList; simpl; [|done]. by intros [= <-].
  - destruct workList as [|n rest]; simpl; [by intros [= <-]|].
    destruct (nodes st !! n) as [nd|] eqn:Hnd; [|done]. simpl.
    destruct (isTooSmallCheck isTooSmall (bbox nd)); [by apply IH|].
    destruct (getChildrenIntersectingRegion st n region) as [cs|]; [|done]. simpl.
    intros Hloop Hres. eapply IH; [done|].
    case_bool_decide as Hc; simpl; [|done].
    case_bool_decide; [|done].
    apply Forall_app. split; [done|]. apply Forall_singleton.
    by exists nd.
Qed.

Lemma getLeaves_hasContent fuel st this leaves :
  getLeaves fuel st this = Some leaves → Forall (hasContent st) leaves.
Proof.
  revert this leaves. induction fuel as [|fuel IH]; intros this leaves; [done|].
  simpl. destruct (nodes st !! this) as [nd|] eqn:Hnd; [|done]. simpl.
  destruct (content nd) as [c|] eqn:Hc.
  - intros [= <-]. apply Forall_singleton. exists nd. split; [done|]. by rewrite Hc.
  - intros (ls & Hls & ->)%fmap_Some. apply mapM_Some in Hls.
    apply Forall_forall. intros x (l & Hx & Hl)%list_elem_of_join.
    apply list_elem_of_lookup in Hl as [i Hi].
    destruct (Forall2_lookup_r _ _ _ _ _ Hls Hi) as (c & _ & Hc').
    apply IH in Hc'. by eapply Forall_forall in Hc'.
Qed.

Lemma getLeaves_returns rk ex st this :
  WFr rk ex st → this < length (nodes st) →
  ∃ fuel0 leaves, ∀ fuel, fuel0 ≤ fuel → getLeaves fuel st this = Some leaves.
Proof.
  intros Hwf. remember (rk this) as k eqn:Hk.
  assert (rk this ≤ k) as Hle by lia. clear Hk. revert this Hle.
  induction k as [k IH] using lt_wf_ind. intros this Hk Hthis.
  destruct (lookup_lt_is_Some_2 _ _ Hthis) as [nd Hnd].
  destruct (content nd) as [c|] eqn:Hc.
  { exists 1, [this]. intros [|fuel] Hle; [lia|]. simpl. rewrite Hnd. simpl.
    by rewrite Hc. }
  assert (∀ cs, (∀ c, c ∈ cs → c ∈ children nd) →
     ∃ fuel0 ls, ∀ fuel, fuel0 ≤ fuel → mapM (getLeaves fuel st) cs = Some ls)
    as Hall.
  { induction cs as [|c cs IHcs]; intros Hsub.
    - exists 0, []. done.
    - destruct (ok_children _ _ _ _ _ (Hwf _ _ Hnd) c) as [Hcl Hcr];
        [apply Hsub; by left|].
      destruct (IH (rk c) ltac:(lia) c ltac:(lia) Hcl) as (f1 & l1 & H1).
      destruct IHcs as (f2 & l2 & H2); [intros; apply Hsub; by right|].
      exists (f1 + f2), (l1 :: l2). intros fuel Hle. simpl.
      rewrite H1 by lia. simpl. rewrite H2 by lia. done. }
  destruct (Hall (children nd)) as (fuel0 & ls & Hls); [done|].
  exists (S fuel0), (mjoin ls). intros [|fuel] Hle; [lia|]. simpl.
  rewrite Hnd. simpl. rewrite Hc. rewrite Hls by lia. done.
Qed.

End Traversal.
#[local] Arguments rebalance : simpl never.

Section Remove.
Context {R : Type} `{Rect2 R}.
Local Opaque update pushChild onContentChange new_ImageNode.
Implicit Types (st : Store R) (nd : ImageNode R) (n m this c p : ref).

(** A leaf taken out of the children of its parent. *)
Lemma removeChild_WFr rk st this nd p pnd :
  WFr rk [] st → nodes st !! this = Some nd → children nd = [] →
  parent nd = Some p → nodes st !! p = Some pnd → this ∈ children pnd →
  let st1 := update p (set_children (filter (λ node, node ≠ this) (children pnd))) st in
  WFr rk [this] st1 ∧ leavingParent rk [this] st1.
Proof.
  intros Hwf Hnd Hch Hpar Hpnd Hin st1.
  destruct (ok_children _ _ _ _ _ (Hwf _ _ Hpnd) this Hin) as [_ Hrk].
  assert (this ≠ p) as Hne by (intros ->; lia).
  assert (Hlen : length (nodes st1) = length (nodes st)) by apply length_update.
  assert (Hlook : ∀ m, nodes st1 !! m =
     if decide (m = p)
     then Some (set_children (filter (λ node, node ≠ this) (children pnd)) pnd)
     else nodes st !! m).
  { intros m. unfold st1. rewrite lookup_update. case_decide; subst; [|done].
    by rewrite Hpnd. }
  clearbody st1. split.
  - intros n nd'. rewrite Hlook. case_decide; subst.
    + intros [= <-]. destruct (Hwf _ _ Hpnd) as [Hp1 Hp2 Hp3].
      split; simpl; rewrite ?Hlen.
      * intros c [_ Hc]%list_elem_of_filter. by apply Hp1.
      * intros q Hq. destruct (Hp2 q Hq) as [Hql Hk]. split; [done|].
        intros _. destruct Hk as (qnd & Hqn & Hqin); [set_solver|].
        rewrite Hlook. case_decide; simplify_eq; [|by eexists].
        destruct (Hp1 _ Hqin). lia.
      * intros Hc. rewrite Hp3 in Hin by done. set_solver.
    + intros Hn. destruct (Hwf _ _ Hn) as [Hn1 Hn2 Hn3].
      split; rewrite ?Hlen; [done| |done].
      intros q Hq. destruct (Hn2 q Hq) as [Hql Hk]. split; [done|].
      intros Hex. destruct Hk as (qnd & Hqn & Hqin); [set_solver|].
      rewrite Hlook. case_decide; simplify_eq; [|by eexists].
      eexists. split; [done|]. simpl. apply list_elem_of_filter. set_solver.
  - intros x xd Hx. apply list_elem_of_singleton in Hx as ->.
    rewrite Hlook, decide_False by done. rewrite Hnd. intros [= <-].
    split; [done|]. by exists p.
Qed.

Lemma rebalance_all_WFr rk ex l :
  ∀ st, WFr rk ex st → leavingParent rk ex st →
  (∀ c, c ∈ l → (c ∉ ex) ∧ c < length (nodes st)) →
  ∃ st', foldl (λ s child, (s ← s; rebalance child s)) (Some st) l = Some st' ∧
    WFr rk ex st' ∧ leavingParent rk ex st' ∧
    length (nodes st') = length (nodes st) ∧ idCounter st' = idCounter st.
Proof.
  induction l as [|c l IH]; intros st Hwf Hlv Hl; simpl.
  - by exists st.
  - destruct (Hl c) as [Hcex Hcl]; [by left|].
    destruct (rebalance_WFr rk ex st c Hwf Hlv Hcex Hcl)
      as (st1 & Hreb & Hwf1 & Hlv1 & Hlen1 & Hid1).
    rewrite Hreb.
    destruct (IH st1 Hwf1 Hlv1) as (st' & Hfold & Hwf' & Hlv' & Hlen' & Hid').
    { intros c' Hc'. rewrite Hlen1. apply Hl. by right. }
    exists st'. split; [done|]. split; [done|]. split; [done|].
    split; congruence.
Qed.

(** The removed leaf is disconnected at the end. *)
Lemma detach_WFr rk st this :
  WFr rk [this] st → leavingParent rk [this] st →
  WFr rk []
    (update this (set_children [])
       (update this (set_parent None) (update this (set_content None) st))).
Proof.
  intros Hwf Hlv.
  set (st' := update this _ _).
  assert (Hlen : length (nodes st') = length (nodes st)).
  { unfold st'. by rewrite !length_update. }
  assert (Hlook : ∀ m, nodes st' !! m =
     if decide (m = this)
     then (λ nd, set_children [] (set_parent None (set_content None nd)))
            <$> nodes st !! m
     else nodes st !! m).
  { intros m. unfold st'. rewrite !lookup_update. case_decide; [|done].
    by destruct (nodes st !! m). }
  clearbody st'.
  intros n nd'. rewrite Hlook. case_decide; subst.
  - intros (nd & Hnd & ->)%fmap_Some. split; simpl; [set_solver|done|done].
  - intros Hn. destruct (Hwf _ _ Hn) as [Hn1 Hn2 Hn3].
    split; rewrite ?Hlen; [done| |done].
    intros q Hq. destruct (Hn2 q Hq) as [Hql Hk]. split; [done|].
    intros _. destruct Hk as (qnd & Hqn & Hqin); [set_solver|].
    rewrite Hlook. case_decide; simplify_eq; [|by eexists].
    destruct (Hlv this qnd) as [Hnil _]; [set_solver|done|].
    rewrite Hnil in Hqin. set_solver.
Qed.

(** [remove], called on a leaf, returns and leaves the store well
    formed; the leaf ends without content, parent and children. *)
Lemma remove_returns rk st this nd :
  WFr rk [] st → nodes st !! this = Some nd → content nd ≠ None →
  ∃ fuel0 st' nd',
    (∀ fuel, fuel0 ≤ fuel → remove fuel this st = Some st') ∧
    WF st' ∧ length (nodes st') = length (nodes st) ∧
    idCounter st' = idCounter st ∧
    nodes st' !! this = Some nd' ∧
    content nd' = None ∧ parent nd' = None ∧ children nd' = [].
Proof.
  intros Hwf Hnd Hc. unfold remove.
  assert (this < length (nodes st)) as Hthis by by eapply lookup_lt_Some.
  assert (children nd = []) as Hch by by apply (ok_leaf _ _ _ _ _ (Hwf _ _ Hnd)).
  destruct (parent nd) as [p|] eqn:Hpar.
  - destruct (ok_parent _ _ _ _ _ (Hwf _ _ Hnd) p Hpar) as [Hpl Hk].
    destruct Hk as (pnd & Hpnd & Hin); [set_solver|].
    destruct (removeChild_WFr rk st this nd p pnd Hwf Hnd Hch Hpar Hpnd Hin)
      as [Hwf1 Hlv1].
    set (remaining := filter (λ node, node ≠ this) (children pnd)) in *.
    set (st1 := update p (set_children remaining) st) in *.
    assert (Hlen1 : length (nodes st1) = length (nodes st)) by apply length_update.
    destruct (rebalance_all_WFr rk [this] remaining st1 Hwf1 Hlv1)
      as (st2 & Hfold & Hwf2 & Hlv2 & Hlen2 & Hid2).
    { intros c [Hne Hc']%list_elem_of_filter. split; [set_solver|].
      rewrite Hlen1. by destruct (ok_children _ _ _ _ _ (Hwf _ _ Hpnd) c Hc'). }
    assert (this < length (nodes st2)) as Hthis2 by lia.
    destruct (lookup_lt_is_Some_2 _ _ Hthis2) as [nd2 Hnd2].
    destruct (Hlv2 this nd2) as (Hch2 & p' & Hpar2 & Hrk2); [set_solver|done|].
    destruct (ok_parent _ _ _ _ _ (Hwf2 _ _ Hnd2) p' Hpar2) as [Hpl' _].
    destruct (recomputeBBox_returns_from rk [this] st2 p' true Hwf2)
      as (fuel0 & st3 & Hr & Hs & Hid3); [|done|].
    { intros x ->%list_elem_of_singleton. done. }
    pose proof (WFr_shapeEq _ _ _ _ Hs Hwf2) as Hwf3.
    pose proof (leavingParent_shapeEq _ _ _ _ Hs Hlv2) as Hlv3.
    pose proof (detach_WFr rk st3 this Hwf3 Hlv3) as Hwf4.
    destruct (shapeEq_lookup _ _ _ _ Hs Hnd2) as (nd3 & Hnd3 & _).
    eexists fuel0, _, _. split; [|split; [by exists rk|]].
    + intros fuel Hle. rewrite Hnd. simpl. rewrite Hpar, Hpnd. simpl.
      fold remaining st1. rewrite Hfold. simpl. rewrite Hnd2. simpl.
      rewrite Hpar2. rewrite Hr by done. done.
    + rewrite !length_update. destruct Hs as [-> _].
      split; [lia|]. rewrite !idCounter_update. split; [by rewrite Hid3, Hid2|].
      rewrite !lookup_update, !decide_True by done. rewrite Hnd3. done.
  - eexists 0, _, _. split; [|split].
    + intros fuel _. rewrite Hnd. simpl. rewrite Hpar. done.
    + exists rk. intros n nd'. rewrite !lookup_update. case_decide; subst.
      * rewrite Hnd. intros [= <-]. destruct (Hwf _ _ Hnd) as [Hn1 Hn2 Hn3].
        split; rewrite ?length_update; simpl; [set_solver| |done].
        intros q Hq. congruence.
      * intros Hn. eapply nodeOK_frame; [by apply Hwf|by rewrite !length_update|].
        intros q qnd Hq Hqn Hqin. rewrite !lookup_update.
        case_decide; simplify_eq; [|by eexists].
        rewrite Hch in Hqin. set_solver.
    + rewrite !length_update. split; [done|]. rewrite !idCounter_update.
      split; [done|]. rewrite !lookup_update, !decide_True by done.
      rewrite Hnd. done.
Qed.

End Remove.

Section Mono.
Context {R : Type} `{Rect2 R}.
Local Opaque update pushChild onContentChange new_ImageNode.
Implicit Types (st : Store R) (nd : ImageNode R) (n m this c p : ref).

Lemma pushDownContent_mono fuel fuel' this nd st st' :
  pushDownContent fuel this nd st = Some st' → fuel ≤ fuel' →
  pushDownContent fuel' this nd st = Some st'.
Proof.
  unfold pushDownContent. destruct (content nd); [|done].
  rewrite new_ImageNode_eq. apply recomputeBBox_mono.
Qed.

Lemma makeRoomForLeaf_mono fuel fuel' this nd st x :
  makeRoomForLeaf fuel this nd st = Some x → fuel ≤ fuel' →
  makeRoomForLeaf fuel' this nd st = Some x.
Proof.
  unfold makeRoomForLeaf. rewrite new_ImageNode_eq.
  case_bool_decide; [done|]. rewrite new_ImageNode_eq.
  intros Hm Hle.
  destruct (recomputeBBox fuel _ true _) as [st3|] eqn:Hr; [|done].
  by rewrite (recomputeBBox_mono _ _ _ _ _ _ Hr Hle).
Qed.

Lemma appendLeaf_mono fuel fuel' this leaf st x :
  appendLeaf fuel this leaf st = Some x → fuel ≤ fuel' →
  appendLeaf fuel' this leaf st = Some x.
Proof.
  unfold appendLeaf. rewrite new_ImageNode_eq. intros Hm Hle.
  destruct (recomputeBBox fuel _ true _) as [st3|] eqn:Hr; [|done].
  by rewrite (recomputeBBox_mono _ _ _ _ _ _ Hr Hle).
Qed.

Lemma addLeaf_mono fuel fuel' this leaf st x :
  addLeaf fuel this leaf st = Some x → fuel ≤ fuel' →
  addLeaf fuel' this leaf st = Some x.
Proof.
  revert fuel' this st x. induction fuel as [|fuel IH]; intros fuel' this st x; [done|].
  destruct fuel' as [|fuel']; [lia|]. simpl. intros Ha Hle.
  assert (fuel ≤ fuel') as Hle' by lia.
  destruct (nodes (onContentChange this st) !! this) as [nd|]; [|done]. simpl in *.
  destruct (isEmptyNode nd).
  { destruct (recomputeBBox fuel this true _) as [st1|] eqn:Hr; [|done].
    by rewrite (recomputeBBox_mono _ _ _ _ _ _ Hr Hle'). }
  destruct (pushDownContent fuel this nd _) as [st2|] eqn:Hpd; [|done].
  rewrite (pushDownContent_mono _ _ _ _ _ _ Hpd Hle'). simpl in *.
  destruct (nodes st2 !! this) as [nd2|]; [|done]. simpl in *.
  destruct (rect_containsRect (getBBox leaf) (bbox nd2)).
  { destruct (makeRoomForLeaf fuel this nd2 st2) as [[f st4]|] eqn:Hmr; [|done].
    rewrite (makeRoomForLeaf_mono _ _ _ _ _ _ Hmr Hle'). simpl in *. by apply IH. }
  destruct (containingNodes st2 nd2 leaf) as [containing|]; [|done]. simpl in *.
  destruct (bool_decide (0 < length containing)
            && bool_decide (targetChildCount ≤ length (children nd2))).
  - destruct (head (sortByArea st2 containing)) as [first|]; [|done]. simpl in *.
    destruct (addLeaf fuel first leaf st2) as [[r st3]|] eqn:Hal; [|done].
    by rewrite (IH _ _ _ _ Hal Hle').
  - by eapply appendLeaf_mono.
Qed.

Lemma remove_mono fuel fuel' this st st' :
  remove fuel this st = Some st' → fuel ≤ fuel' → remove fuel' this st = Some st'.
Proof.
  unfold remove. intros Hr Hle.
  destruct (nodes st !! this) as [nd|]; [|done]. simpl in *.
  destruct (parent nd) as [p|]; [|done].
  destruct (nodes st !! p) as [pnd|]; [|done]. simpl in *.
  destruct (foldl _ _ _) as [st2|]; [|done]. simpl in *.
  destruct (nodes st2 !! this) as [nd2|]; [|done]. simpl in *.
  destruct (parent nd2) as [p'|]; [|done].
  destruct (recomputeBBox fuel p' true st2) as [st3|] eqn:Hrec; [|done].
  by rewrite (recomputeBBox_mono _ _ _ _ _ _ Hrec Hle).
Qed.

Lemma getLeavesIntersectingRegion_loop_mono fuel fuel' st region isTooSmall
    workList result res :
  getLeavesIntersectingRegion_loop fuel st region isTooSmall workList result
  = Some res →
  fuel ≤ fuel' →
  getLeavesIntersectingRegion_loop fuel' st region isTooSmall workList result
  = Some res.
Proof.
  revert fuel' workList result. induction fuel as [|fuel IH];
    intros fuel' workList result.
  - destruct workList; simpl; [|done]. intros [= <-] _. by destruct fuel'.
  - destruct workList as [|n rest]; simpl.
    { intros [= <-] _. by destruct fuel'. }
    destruct fuel' as [|fuel']; [lia|]. simpl. intros Hl Hle.
    destruct (nodes st !! n) as [nd|]; [|done]. simpl in *.
    destruct (isTooSmallCheck isTooSmall (bbox nd)); [apply IH; [done|lia]|].
    destruct (getChildrenIntersectingRegion st n region); [|done]. simpl in *.
    apply IH; [done|lia].
Qed.

Lemma getLeaves_mono fuel fuel' st this leaves :
  getLeaves fuel st this = Some leaves → fuel ≤ fuel' →
  getLeaves fuel' st this = Some leaves.
Proof.
  revert fuel' this leaves. induction fuel as [|fuel IH]; intros fuel' this leaves;
    [done|].
  destruct fuel' as [|fuel']; [lia|]. simpl. intros Hg Hle.
  destruct (nodes st !! this) as [nd|]; [|done]. simpl in *.
  destruct (content nd); [done|].
  apply fmap_Some in Hg as (ls & Hls & ->). apply fmap_Some. exists ls.
  split; [|done]. apply mapM_Some. apply mapM_Some in Hls.
  eapply Forall2_impl; [done|]. intros c l Hc. simpl in Hc. apply IH; [done|lia].
Qed.

End Mono.
#[local] Arguments addLeaf : simpl never.
#[local] Arguments remove : simpl never.

Section SortByKey.
Context {A : Type} (key : A → Z).

Lemma sortInsert_by_key_sorted x l :
  StronglySorted (λ a b, (key a ≤ key b)%Z) l →
  StronglySorted (λ a b, (key a ≤ key b)%Z)
    (sortInsert (λ a b, Num (key a - key b)) x l).
Proof.
  induction 1 as [|y l Hl IH Hy]; simpl.
  - repeat constructor.
  - unfold comesAfter. simpl. destruct (0 <? key x - key y)%Z eqn:Hlt.
    + apply Z.ltb_lt in Hlt. constructor; [done|].
      apply Forall_forall. intros z Hz.
      rewrite sortInsert_Permutation in Hz.
      apply elem_of_cons in Hz as [-> | Hz]; [lia|].
      by eapply Forall_forall in Hy.
    + apply Z.ltb_ge in Hlt. constructor; [by constructor|].
      constructor; [lia|]. eapply Forall_impl; [done|]. simpl. intros; lia.
Qed.

Lemma jsSort_by_key_sorted l :
  StronglySorted (λ a b, (key a ≤ key b)%Z) (jsSort (λ a b, Num (key a - key b)) l).
Proof.
  induction l as [|x l IH]; simpl; [constructor|].
  by apply sortInsert_by_key_sorted.
Qed.
End SortByKey.

Section Reachable.
Context {R : Type} `{Rect2 R}.
Local Opaque update pushChild onContentChange new_ImageNode.
Implicit Types (st : Store R) (nd : ImageNode R) (n m this c p : ref).
Implicit Types (img : EditorImage R) (elem : AbstractComponent R).

Lemma WF_new_EditorImage :
  WF (new_EditorImage (R:=R) emptyStore).2 ∧
  root (new_EditorImage (R:=R) emptyStore).1 < length (nodes (new_EditorImage (R:=R) emptyStore).2).
Proof.
  unfold new_EditorImage. rewrite new_ImageNode_eq. simpl. split.
  - exists (λ _, 0). intros n nd. rewrite lookup_new_ImageNode. simpl.
    case_decide; [|done]. intros [= <-]. split; simpl; [set_solver|done|done].
  - rewrite length_new_ImageNode. simpl. lia.
Qed.

Lemma addElementDirectly_WF fuel elem st img leaf st' img' :
  WF st → root img < length (nodes st) →
  addElementDirectly fuel elem st img = Some (leaf, st', img') →
  WF st' ∧ root img' = root img ∧ length (nodes st) ≤ length (nodes st') ∧
  componentsById img' = setProperty (getId elem) elem (componentsById img).
Proof.
  intros [rk Hwf] Hroot. unfold addElementDirectly. simpl.
  destruct (addLeaf fuel (root img) elem st) as [[l s]|] eqn:Ha; [|done].
  simpl. intros [= <- <- <-].
  destruct (addLeaf_returns (rk (root img)) rk st (root img) elem Hwf Hroot)
    as (fuel0 & r & st0 & Hr & Hwf0 & Hlen & _); [done|].
  pose proof (Hr (fuel `max` fuel0) ltac:(lia)) as Hr'.
  rewrite (addLeaf_mono _ (fuel `max` fuel0) _ _ _ _ Ha) in Hr' by lia.
  injection Hr' as -> ->. done.
Qed.

Lemma findParent_Some fuel st img elem c :
  findParent fuel st img elem = Some (Some c) →
  ∃ nd, nodes st !! c = Some nd ∧ content nd = Some elem.
Proof.
  unfold findParent.
  destruct (getLeavesIntersectingRegion _ _ _ _ _) as [candidates|]; [|done].
  simpl. intros [= Hhead].
  apply head_Some_elem_of, list_elem_of_filter in Hhead as [Hc _].
  unfold leafContent in Hc. destruct (nodes st !! c) as [nd|]; [|done].
  by exists nd.
Qed.

Lemma findParent_returns st img elem :
  WF st → root img < length (nodes st) →
  ∃ fuel0 container, ∀ fuel, fuel0 ≤ fuel →
    findParent fuel st img elem = Some container.
Proof.
  intros [rk Hwf] Hroot.
  destruct (getLeavesIntersectingRegion_loop_returns rk [] st (getBBox elem) None
              Hwf [root img] ltac:(set_solver) [])
    as (fuel0 & res & Hres).
  eexists fuel0, _. intros fuel Hle. unfold findParent, getLeavesIntersectingRegion.
  rewrite Hres by done. done.
Qed.

Lemma findParent_mono fuel fuel' st img elem x :
  findParent fuel st img elem = Some x → fuel ≤ fuel' →
  findParent fuel' st img elem = Some x.
Proof.
  unfold findParent, getLeavesIntersectingRegion. intros Hf Hle.
  destruct (getLeavesIntersectingRegion_loop fuel _ _ _ _ _) as [cands|] eqn:Hl;
    [|done].
  by rewrite (getLeavesIntersectingRegion_loop_mono _ _ _ _ _ _ _ _ Hl Hle).
Qed.

(** Removing an element: what [unapply] returns on a well-formed store. *)
Lemma AddElementCommand_unapply_returns st img elem :
  WF st → root img < length (nodes st) →
  ∃ fuel0 st',
    (∀ fuel, fuel0 ≤ fuel →
       AddElementCommand_unapply fuel (mkAddElementCommand elem) st img
       = Some (st', img)) ∧
    WF st' ∧ length (nodes st') = length (nodes st) ∧
    (∀ fuel c, findParent fuel st img elem = Some (Some c) →
       ∃ nd', nodes st' !! c = Some nd' ∧
         content nd' = None ∧ parent nd' = None ∧ children nd' = []).
Proof.
  intros Hwf Hroot.
  destruct (findParent_returns st img elem Hwf Hroot) as (fuel0 & container & Hfp).
  destruct container as [c|].
  - destruct (findParent_Some _ _ _ _ _ (Hfp fuel0 ltac:(done))) as (nd & Hnd & Hc).
    destruct Hwf as [rk Hwf].
    destruct (remove_returns rk st c nd Hwf Hnd) as
      (fuel1 & st' & nd' & Hrm & Hwf' & Hlen & _ & Hnd' & Hdis); [by rewrite Hc|].
    exists (fuel0 + fuel1), st'. split; [|split; [done|split; [done|]]].
    + intros fuel Hle. unfold AddElementCommand_unapply. simpl.
      rewrite Hfp by lia. simpl. rewrite Hrm by lia. done.
    + intros fuel c' Hfp'.
      pose proof (findParent_mono _ (fuel `max` fuel0) _ _ _ _ Hfp' ltac:(lia)) as H1.
      rewrite Hfp in H1 by lia. injection H1 as ->. by exists nd'.
  - exists fuel0, st. split; [|split; [done|split; [done|]]].
    + intros fuel Hle. unfold AddElementCommand_unapply. simpl.
      by rewrite Hfp.
    + intros fuel c' Hfp'.
      pose proof (findParent_mono _ (fuel `max` fuel0) _ _ _ _ Hfp' ltac:(lia)) as H1.
      rewrite Hfp in H1 by lia. done.
Qed.

Lemma AddElementCommand_unapply_mono fuel fuel' cmd st img x :
  AddElementCommand_unapply fuel cmd st img = Some x → fuel ≤ fuel' →
  AddElementCommand_unapply fuel' cmd st img = Some x.
Proof.
  unfold AddElementCommand_unapply. intros Hu Hle.
  destruct (findParent fuel st img (element cmd)) as [container|] eqn:Hfp; [|done].
  rewrite (findParent_mono _ _ _ _ _ _ Hfp Hle). simpl in *.
  destruct container as [c|]; [|done].
  destruct (remove fuel c st) as [st'|] eqn:Hr; [|done].
  by rewrite (remove_mono _ _ _ _ _ Hr Hle).
Qed.

(** Every state that can be reached is well formed. *)
Lemma reachable_WF st img :
  reachable st img → WF st ∧ root img < length (nodes st).
Proof.
  induction 1 as [|fuel elem st img r st' img' _ [Hwf Hroot] Hins
                  |fuel elem st img st' img' _ [Hwf Hroot] Hrm
                  |elem st img _ IH].
  - apply WF_new_EditorImage.
  - unfold insert in Hins. destruct (new_AddElementCommand elem) as [t|cmd].
    { by injection Hins as <- <- <-. }
    unfold AddElementCommand_apply in Hins.
    destruct (addElementDirectly fuel (element cmd) st img) as [[[l s] i]|] eqn:Ha;
      [|done].
    simpl in Hins. injection Hins as <- <- <-.
    destruct (addElementDirectly_WF _ _ _ _ _ _ _ Hwf Hroot Ha) as (? & -> & ? & _).
    split; [done|lia].
  - unfold removeElement in Hrm.
    destruct (AddElementCommand_unapply_returns st img elem Hwf Hroot)
      as (fuel0 & st0 & Hu & Hwf0 & Hlen & _).
    pose proof (Hu (fuel `max` fuel0) ltac:(lia)) as Hu'.
    rewrite (AddElementCommand_unapply_mono _ (fuel `max` fuel0) _ _ _ _ Hrm) in Hu'
      by lia.
    injection Hu' as -> ->. split; [done|lia].
  - done.
Qed.

End Reachable.

Section Claims.
Context {R : Type} `{Rect2 R}.
Local Opaque update pushChild onContentChange new_ImageNode.
Implicit Types (st : Store R) (nd : ImageNode R) (n m this c p : ref).
Implicit Types (img : EditorImage R) (elem : AbstractComponent R).

Lemma insertAll_reachable fuel elems st img st' img' :
  reachable st img → insertAll fuel elems st img = Some (st', img') →
  reachable st' img'.
Proof.
  revert st img. induction elems as [|e elems IH]; intros st img Hr; simpl.
  - by intros [= <- <-].
  - destruct (insert fuel e st img) as [[[r s] i]|] eqn:Hi; [|done]. simpl.
    apply IH. by eapply reachable_insert.
Qed.

Lemma hasContent_leafZIndex st leaves :
  Forall (hasContent st) leaves → is_Some (mapM (leafZIndex st) leaves).
Proof.
  intros Hl. apply mapM_is_Some. eapply Forall_impl; [done|].
  intros n (nd & Hnd & Hc). simpl. unfold leafZIndex. rewrite Hnd. simpl.
  destruct (content nd); [by eexists|done].
Qed.

Lemma hasContent_leafContent st leaves :
  Forall (hasContent st) leaves → is_Some (mapM (leafContent st) leaves).
Proof.
  intros Hl. apply mapM_is_Some. eapply Forall_impl; [done|].
  intros n (nd & Hnd & Hc). simpl. unfold leafContent. rewrite Hnd. simpl.
  destruct (content nd); [by eexists|done].
Qed.

Lemma sortLeavesByZIndex_Some st leaves sorted :
  sortLeavesByZIndex st leaves = Some sorted →
  sorted ≡ₚ leaves ∧
  StronglySorted (λ a b, (zIndexOrZero st a ≤ zIndexOrZero st b)%Z) sorted.
Proof.
  unfold sortLeavesByZIndex. destruct (mapM _ _); [|done]. simpl.
  intros [= <-]. split; [apply jsSort_Permutation|].
  apply (jsSort_by_key_sorted (zIndexOrZero st)).
Qed.

Lemma StronglySorted_Forall2 {A B} (R1 : A → A → Prop) (R2 : B → B → Prop)
    (P : A → B → Prop) l l' :
  (∀ a b a' b', P a a' → P b b' → R1 a b → R2 a' b') →
  Forall2 P l l' → StronglySorted R1 l → StronglySorted R2 l'.
Proof.
  intros HP HF. induction HF as [|a a' l l' Ha HF IH]; intros Hs; [constructor|].
  apply StronglySorted_inv in Hs as [Hs Hall]. constructor; [by apply IH|].
  apply Forall_forall. intros b' Hb'.
  apply list_elem_of_lookup in Hb' as [i Hi].
  destruct (Forall2_lookup_r _ _ _ _ _ HF Hi) as (b & Hb & Hbb').
  eapply HP; [done|done|]. eapply Forall_forall in Hall; [done|].
  by eapply list_elem_of_lookup_2.
Qed.

Lemma getElementsIntersectingRegion_mono fuel fuel' st img region res :
  getElementsIntersectingRegion fuel st img region = Some res → fuel ≤ fuel' →
  getElementsIntersectingRegion fuel' st img region = Some res.
Proof.
  unfold getElementsIntersectingRegion, getLeavesIntersectingRegion. intros Hg Hle.
  destruct (getLeavesIntersectingRegion_loop fuel _ _ _ _ _) as [leaves|] eqn:Hl;
    [|done].
  by rewrite (getLeavesIntersectingRegion_loop_mono _ _ _ _ _ _ _ _ Hl Hle).
Qed.

(** C2: whatever the region and the state of the image, the query
    returns, and the elements it returns are in ascending order of
    z-index; every run of the query on that state returns this same
    list. *)
Theorem query_sorted_by_zIndex st img region :
  reachable st img →
  ∃ fuel0 res,
    (∀ fuel, fuel0 ≤ fuel →
       getElementsIntersectingRegion fuel st img region = Some res) ∧
    StronglySorted (λ a b, (getZIndex a ≤ getZIndex b)%Z) res ∧
    (∀ fuel res',
       getElementsIntersectingRegion fuel st img region = Some res' → res' = res).
Proof.
  intros [[rk Hwf] Hroot]%reachable_WF.
  destruct (getLeavesIntersectingRegion_loop_returns rk [] st region None
              Hwf [root img] ltac:(set_solver) [])
    as (fuel0 & leaves & Hleaves).
  pose proof (getLeavesIntersectingRegion_loop_hasContent _ _ _ _ _ _ _
                (Hleaves fuel0 ltac:(done)) ltac:(constructor)) as Hcontent.
  destruct (hasContent_leafZIndex _ _ Hcontent) as [zs Hzs].
  set (sorted := jsSort (λ a b, Num (zIndexOrZero st a - zIndexOrZero st b)) leaves).
  assert (sortLeavesByZIndex st leaves = Some sorted) as Hsort.
  { unfold sortLeavesByZIndex. by rewrite Hzs. }
  destruct (sortLeavesByZIndex_Some _ _ _ Hsort) as [Hperm Hsorted].
  assert (Forall (hasContent st) sorted) as Hcontent' by by rewrite Hperm.
  destruct (hasContent_leafContent _ _ Hcontent') as [res Hres].
  assert (∀ fuel, fuel0 ≤ fuel →
            getElementsIntersectingRegion fuel st img region = Some res) as Hret.
  { intros fuel Hle. unfold getElementsIntersectingRegion, getLeavesIntersectingRegion.
    rewrite Hleaves by done. simpl. rewrite Hsort. done. }
  exists fuel0, res. split; [done|]. split.
  - apply mapM_Some in Hres.
    eapply (StronglySorted_Forall2 _ _ _ _ _ _ Hres Hsorted).
  - intros fuel res' Hres'.
    pose proof (getElementsIntersectingRegion_mono _ (fuel `max` fuel0) _ _ _ _ Hres'
                  ltac:(lia)) as H1.
    rewrite Hret in H1 by lia. by injection H1.
  Unshelve.
  intros a b a' b' Ha Hb Hab. simpl in *.
  unfold zIndexOrZero, leafZIndex in Hab. unfold leafContent in Ha, Hb.
  destruct (nodes st !! a) as [and|]; [|done].
  destruct (nodes st !! b) as [bnd|]; [|done]. simpl in *.
  by rewrite Ha, Hb in Hab.
Qed.

(** C10: every node in the list that [getLeavesIntersectingRegion] or
    [getLeaves] returns has content; sorting the list by z-index and
    reading the content of its nodes cannot fail. *)
Theorem returned_leaves_have_content fuel st this region isTooSmall leaves :
  getLeavesIntersectingRegion fuel st this region isTooSmall = Some leaves ∨
  getLeaves fuel st this = Some leaves →
  Forall (hasContent st) leaves ∧
  ∃ sorted, sortLeavesByZIndex st leaves = Some sorted ∧
    is_Some (mapM (leafContent st) sorted) ∧
    is_Some (mapM (leafContent st) leaves).
Proof.
  intros Hl.
  assert (Forall (hasContent st) leaves) as Hcontent.
  { destruct Hl as [Hl|Hl].
    - by eapply getLeavesIntersectingRegion_loop_hasContent.
    - by eapply getLeaves_hasContent. }
  split; [done|].
  destruct (hasContent_leafZIndex _ _ Hcontent) as [zs Hzs].
  eexists. split; [unfold sortLeavesByZIndex; by rewrite Hzs|].
  split; [|by apply hasContent_leafContent].
  apply hasContent_leafContent. by rewrite jsSort_Permutation.
Qed.

(** The two traversals return on every state that can be reached. *)
Lemma traversals_return st img region isTooSmall :
  reachable st img →
  ∃ fuel0 leaves allLeaves, ∀ fuel, fuel0 ≤ fuel →
    getLeavesIntersectingRegion fuel st (root img) region isTooSmall = Some leaves ∧
    getLeaves fuel st (root img) = Some allLeaves.
Proof.
  intros [[rk Hwf] Hroot]%reachable_WF.
  destruct (getLeavesIntersectingRegion_loop_returns rk [] st region isTooSmall
              Hwf [root img] ltac:(set_solver) [])
    as (fuel0 & leaves & Hleaves).
  destruct (getLeaves_returns rk [] st (root img) Hwf Hroot) as (fuel1 & all & Hall).
  exists (fuel0 + fuel1), leaves, all. intros fuel Hle. split.
  - apply Hleaves. lia.
  - apply Hall. lia.
Qed.

(** *** The counter of version stamps *)

Lemma rebalance_idCounter this st st' :
  rebalance this st = Some st' → idCounter st' = idCounter st.
Proof.
  unfold rebalance. intros Hr.
  destruct (nodes st !! this) as [nd|]; [|done]. simpl in *.
  destruct (parent nd) as [p|]; [|by injection Hr as <-].
  destruct (nodes st !! p) as [pnd|]; [|done]. simpl in *.
  case_bool_decide; [|by injection Hr as <-].
  destruct (parent pnd) as [gp|].
  - apply recomputeBBox_shapeEq in Hr as [_ ->].
    by rewrite idCounter_update, idCounter_pushChild, !idCounter_update.
  - destruct (content nd); [by injection Hr as <-|].
    unfold updateParents in Hr.
    destruct (nodes _ !! p) as [pnd'|]; [|done]. simpl in Hr.
    injection Hr as <-.
    by rewrite idCounter_update, idCounter_set_parents, idCounter_update.
Qed.

Lemma pushDownContent_idCounter fuel this nd st st' :
  pushDownContent fuel this nd st = Some st' → idCounter st ≤ idCounter st'.
Proof.
  unfold pushDownContent. destruct (content nd); [|by intros [= <-]].
  rewrite new_ImageNode_eq. intros [_ ->]%recomputeBBox_shapeEq.
  rewrite idCounter_pushChild, !idCounter_update, idCounter_new_ImageNode. lia.
Qed.

Lemma makeRoomForLeaf_idCounter fuel this nd st x :
  makeRoomForLeaf fuel this nd st = Some x → idCounter st < idCounter x.2.
Proof.
  unfold makeRoomForLeaf. rewrite new_ImageNode_eq. case_bool_decide.
  - simpl. intros [= <-]. simpl.
    rewrite idCounter_pushChild, idCounter_new_ImageNode. lia.
  - rewrite new_ImageNode_eq. intros Hm.
    destruct (recomputeBBox fuel _ true _) as [st3|] eqn:Hr; [|done].
    apply recomputeBBox_shapeEq in Hr as [_ Hid]. simpl in Hm.
    unfold updateParents in Hm. destruct (nodes st3 !! _); [|done]. simpl in Hm.
    injection Hm as <-. simpl. rewrite idCounter_set_parents, Hid.
    rewrite !idCounter_update, !idCounter_new_ImageNode. lia.
Qed.

Lemma appendLeaf_idCounter fuel this leaf st x :
  appendLeaf fuel this leaf st = Some x → idCounter st < idCounter x.2.
Proof.
  unfold appendLeaf. rewrite new_ImageNode_eq. intros Hm.
  destruct (recomputeBBox fuel _ true _) as [st3|] eqn:Hr; [|done].
  apply recomputeBBox_shapeEq in Hr as [_ Hid]. injection Hm as <-. simpl.
  rewrite Hid, idCounter_update, idCounter_pushChild, idCounter_new_ImageNode. lia.
Qed.

(** C9, amended: there is one counter in the store, whichever image a
    node belongs to; every call of [addLeaf] advances it, and so does
    every insertion into any image of the store. *)
Theorem addLeaf_advances_shared_counter fuel this leaf st r st' :
  addLeaf fuel this leaf st = Some (r, st') → idCounter st < idCounter st'.
Proof.
  revert this st r st'. induction fuel as [|fuel IH]; intros this st r st'; [done|].
  unfold addLeaf; fold (addLeaf (R:=R)). intros Ha.
  pose proof (idCounter_onContentChange st this) as Hid1.
  destruct (nodes (onContentChange this st) !! this) as [nd|]; [|done]. simpl in *.
  destruct (isEmptyNode nd).
  { destruct (recomputeBBox fuel this true _) as [st1|] eqn:Hr; [|done].
    apply recomputeBBox_shapeEq in Hr as [_ Hid]. injection Ha as <- <-.
    rewrite Hid, idCounter_update. lia. }
  destruct (pushDownContent fuel this nd _) as [st2|] eqn:Hpd; [|done].
  apply pushDownContent_idCounter in Hpd. simpl in *.
  destruct (nodes st2 !! this) as [nd2|]; [|done]. simpl in *.
  destruct (rect_containsRect (getBBox leaf) (bbox nd2)).
  { destruct (makeRoomForLeaf fuel this nd2 st2) as [[f st4]|] eqn:Hmr; [|done].
    apply makeRoomForLeaf_idCounter in Hmr. simpl in *. apply IH in Ha. lia. }
  destruct (containingNodes st2 nd2 leaf) as [containing|]; [|done]. simpl in *.
  destruct (bool_decide (0 < length containing)
            && bool_decide (targetChildCount ≤ length (children nd2))).
  - destruct (head (sortByArea st2 containing)) as [first|]; [|done]. simpl in *.
    destruct (addLeaf fuel first leaf st2) as [[r3 st3]|] eqn:Hal; [|done].
    apply IH in Hal. simpl in Ha.
    destruct (rebalance r3 st3) as [st4|] eqn:Hreb; [|done].
    apply rebalance_idCounter in Hreb. injection Ha as <- <-. lia.
  - apply appendLeaf_idCounter in Ha. simpl in Ha. lia.
Qed.

End Claims.

Section TreeFacts.

(** *** Paths in the tree, and what [recomputeBBox] leaves alone *)

Context {R : Type} `{Rect2 R}.
Local Opaque update pushChild onContentChange new_ImageNode.
Implicit Types (st : Store R) (nd : ImageNode R) (n m this c p : ref).
Implicit Types (G : list ref).

(** Paths of one store mapped to paths of another. *)
Lemma rtc_child_map st st' (φ : ref → ref) a b :
  (∀ x y, child st' x y → rtc (child st) (φ x) (φ y)) →
  rtc (child st') a b → rtc (child st) (φ a) (φ b).
Proof.
  intros Hs. induction 1 as [|x y z Hxy _ IH]; [done|].
  etrans; [by apply Hs|done].
Qed.

Lemma rtc_child_sub st st' a b :
  (∀ x y, child st' x y → rtc (child st) x y) →
  rtc (child st') a b → rtc (child st) a b.
Proof. apply (rtc_child_map st st' id). Qed.

Lemma child_rank rk ex st a b :
  WFr rk ex st → child st a b → b < length (nodes st) ∧ rk b < rk a.
Proof.
  intros Hwf (nd & Hnd & Hin). by apply (ok_children _ _ _ _ _ (Hwf _ _ Hnd)).
Qed.

Lemma rtc_child_rank rk ex st a b :
  WFr rk ex st → rtc (child st) a b → a = b ∨ rk b < rk a.
Proof.
  intros Hwf. induction 1 as [|x y z Hxy _ IH]; [by left|].
  destruct (child_rank _ _ _ _ _ Hwf Hxy) as [_ Hr]. right.
  destruct IH as [-> | ?]; lia.
Qed.

Lemma rtc_child_valid rk ex st a b :
  WFr rk ex st → rtc (child st) a b → a < length (nodes st) → b < length (nodes st).
Proof.
  intros Hwf. induction 1 as [|x y z Hxy _ IH]; [done|]. intros _.
  apply IH. by destruct (child_rank _ _ _ _ _ Hwf Hxy).
Qed.

Lemma child_shapeEq st st' a b : shapeEq st st' → child st a b ↔ child st' a b.
Proof.
  intros Hs. split.
  - intros (nd & Hnd & Hin).
    destruct (shapeEq_lookup _ _ _ _ Hs Hnd) as (nd' & Hnd' & _ & Hch & _).
    exists nd'. split; [done|]. by rewrite Hch.
  - intros (nd' & Hnd' & Hin). destruct Hs as [_ Hs].
    destruct (Hs _ _ Hnd') as (nd & Hnd & _ & Hch & _).
    exists nd. split; [done|]. by rewrite <- Hch.
Qed.

Lemma rtc_child_shapeEq st st' a b :
  shapeEq st st' → rtc (child st) a b ↔ rtc (child st') a b.
Proof.
  intros Hs. split; apply rtc_child_sub; intros x y Hxy; apply rtc_once;
    by apply (child_shapeEq _ _ _ _ Hs).
Qed.

Lemma TreeInv_shapeEq G st st' r : shapeEq st st' → TreeInv G st r → TreeInv G st' r.
Proof.
  intros Hs [H1 H2 H3 H4 H5 H6]. split.
  - done.
  - intros p Hp. apply (H2 p). by eapply child_shapeEq.
  - intros p c Hp Hc. apply (H3 p c Hp). by eapply child_shapeEq.
  - intros c cd' q Hc Hcd' Hq. destruct Hs as [_ Hs].
    destruct (Hs _ _ Hcd') as (cd & Hcd & _ & _ & Hpar).
    apply (H4 c cd q Hc Hcd). congruence.
  - intros p1 p2 c Hp1 Hp2 Hc1 Hc2.
    apply (H5 p1 p2 c Hp1 Hp2); by eapply child_shapeEq.
  - intros n Hn. destruct Hs as [-> _]. by apply H6.
Qed.

Lemma rtc_to_root G st r N : TreeInv G st r → rtc (child st) N r → N = r.
Proof.
  intros Ht [-> | (q & _ & Hq)]%rtc_inv_r; [done|].
  by destruct (t_rootchild _ _ _ Ht q).
Qed.

Lemma rtc_notin G st r N L :
  TreeInv G st r → N ∉ G → rtc (child st) N L → L ∉ G.
Proof.
  intros Ht HN Hp. revert HN. induction Hp as [|x y z Hxy _ IH]; [done|].
  intros Hx. apply IH. by eapply (t_closed _ _ _ Ht).
Qed.

Lemma child_not_root G st r p c : TreeInv G st r → child st p c → c ≠ r.
Proof. intros Ht Hc ->. by destruct (t_rootchild _ _ _ Ht p). Qed.

(** The path from a node above [x] to [x] ends with the step from the
    parent of [x]. *)
Lemma rtc_parent_edge G st r N p x :
  TreeInv G st r → N ∉ G → p ∉ G → child st p x →
  rtc (child st) N x → N ≠ x → rtc (child st) N p.
Proof.
  intros Ht HN Hp Hpx [-> | (q & HNq & Hqx)]%rtc_inv_r Hne; [done|].
  assert (q ∉ G) as Hq by apply (rtc_notin _ _ _ _ _ Ht HN HNq).
  by rewrite <- (t_unique _ _ _ Ht q p x Hq Hp Hqx Hpx).
Qed.

Lemma holds_inj st n e e' : holds st n e → holds st n e' → e = e'.
Proof. intros (nd & Hn & Hc) (nd' & Hn' & Hc'). congruence. Qed.

Lemma mapM_ext_in {A B} (f g : A → option B) (l : list A) :
  (∀ x, x ∈ l → f x = g x) → mapM f l = mapM g l.
Proof.
  induction l as [|x l IH]; intros Hfg; simpl; [done|].
  rewrite (Hfg x) by by left. rewrite IH; [done|].
  intros y Hy. apply Hfg. by right.
Qed.

Lemma computeBBox_ext st st' nd :
  (∀ c, c ∈ children nd → bbox <$> nodes st' !! c = bbox <$> nodes st !! c) →
  computeBBox st' nd = computeBBox st nd.
Proof.
  intros Hc. unfold computeBBox. destruct (content nd); [done|].
  f_equal. by apply mapM_ext_in.
Qed.

Lemma computeBBox_children st nd nd' :
  content nd' = content nd → children nd' = children nd →
  computeBBox st nd' = computeBBox st nd.
Proof. unfold computeBBox. by intros -> ->. Qed.

Lemma computeBBox_content st nd e bb :
  content nd = Some e → computeBBox st nd = Some bb → bb = getBBox e.
Proof. unfold computeBBox. intros ->. congruence. Qed.

(** One step of [recomputeBBox] and what follows it. *)
Lemma recomputeBBox_step fuel this st st' :
  recomputeBBox fuel this true st = Some st' →
  ∃ fuel' nd bb, fuel = S fuel' ∧ nodes st !! this = Some nd ∧
    computeBBox st nd = Some bb ∧
    let st1 := update this (set_bbox bb) st in
    ((rect_eq (bbox nd) bb = true ∨ parent nd = None) ∧ st' = st1) ∨
    (∃ p, parent nd = Some p ∧ rect_eq (bbox nd) bb = false ∧
       recomputeBBox fuel' p true st1 = Some st').
Proof.
  destruct fuel as [|fuel]; [intros Hr; discriminate Hr|].
  unfold recomputeBBox; fold (@recomputeBBox R _). intros Hr.
  destruct (nodes st !! this) as [nd|] eqn:Hx; [|done]. simpl in Hr.
  destruct (computeBBox st nd) as [bb|] eqn:Hbb; [|done]. simpl in Hr.
  exists fuel, nd, bb. split; [done|]. split; [done|]. split; [done|].
  destruct (rect_eq (bbox nd) bb) eqn:Heq; simpl in Hr.
  - left. split; [by left|congruence].
  - destruct (parent nd) as [p|] eqn:Hp.
    + right. by exists p.
    + left. split; [by right|congruence].
Qed.

Lemma lookup_set_bbox st x bb n nd :
  nodes st !! x = Some nd →
  nodes (update x (set_bbox bb) st) !! n
  = if decide (n = x) then Some (set_bbox bb nd) else nodes st !! n.
Proof. intros Hx. rewrite lookup_update. case_decide; subst; [by rewrite Hx|done]. Qed.

(** The parent of a node that is not excepted has it as a child. *)
Lemma parent_child rk ex st x nd p :
  WFr rk ex st → x ∉ ex → nodes st !! x = Some nd → parent nd = Some p →
  child st p x ∧ rk x < rk p.
Proof.
  intros Hwf Hex Hx Hp.
  destruct (ok_parent _ _ _ _ _ (Hwf _ _ Hx) p Hp) as [_ Hk].
  destruct (Hk Hex) as (pnd & Hpnd & Hin).
  assert (child st p x) as Hc by by exists pnd.
  split; [done|]. by destruct (child_rank _ _ _ _ _ Hwf Hc).
Qed.

Lemma not_ex_of_rank (rk : ref → nat) (ex : list ref) x :
  (∀ e, e ∈ ex → rk e < rk x) → x ∉ ex.
Proof. intros Hex Hin. specialize (Hex _ Hin). lia. Qed.

(** [recomputeBBox] called on [x] leaves the nodes of lower rank alone,
    and leaves in [x] the box it computed first. *)
Lemma recomputeBBox_frame rk ex st x fuel st' n :
  WFr rk ex st → (∀ e, e ∈ ex → rk e < rk x) →
  recomputeBBox fuel x true st = Some st' → rk n < rk x →
  nodes st' !! n = nodes st !! n.
Proof.
  revert st x. induction fuel as [|fuel IH]; intros st x Hwf Hex Hr Hn; [done|].
  destruct (recomputeBBox_step _ _ _ _ Hr)
    as (fuel' & nd & bb & [= <-] & Hx & Hbb & [[_ ->] | (p & Hp & _ & Hr')]).
  - rewrite (lookup_set_bbox _ _ _ _ _ Hx). case_decide; [subst; lia|done].
  - destruct (parent_child _ _ _ _ _ _ Hwf (not_ex_of_rank _ _ _ Hex) Hx Hp) as [_ Hrk].
    rewrite (IH _ p (WFr_shapeEq _ _ _ _ (shapeEq_set_bbox st x bb) Hwf)
               ltac:(intros e He; specialize (Hex _ He); lia) Hr' ltac:(lia)).
    rewrite (lookup_set_bbox _ _ _ _ _ Hx). case_decide; [subst; lia|done].
Qed.

Lemma recomputeBBox_start rk ex st x fuel st' nd bb :
  WFr rk ex st → (∀ e, e ∈ ex → rk e < rk x) →
  recomputeBBox fuel x true st = Some st' →
  nodes st !! x = Some nd → computeBBox st nd = Some bb →
  nodes st' !! x = Some (set_bbox bb nd).
Proof.
  intros Hwf Hex Hr Hx Hbb.
  destruct (recomputeBBox_step _ _ _ _ Hr)
    as (fuel' & nd0 & bb0 & -> & Hx0 & Hbb0 & [[_ ->] | (p & Hp & _ & Hr')]);
    simplify_eq.
  - rewrite (lookup_set_bbox _ _ _ _ _ Hx). by rewrite decide_True.
  - destruct (parent_child _ _ _ _ _ _ Hwf (not_ex_of_rank _ _ _ Hex) Hx Hp) as [_ Hrk].
    rewrite (recomputeBBox_frame rk ex _ p fuel' st' x
               (WFr_shapeEq _ _ _ _ (shapeEq_set_bbox st x bb) Hwf)
               ltac:(intros e He; specialize (Hex _ He); lia) Hr' ltac:(lia)).
    rewrite (lookup_set_bbox _ _ _ _ _ Hx). by rewrite decide_True.
Qed.

End TreeFacts.

Section BoxFacts.

(** *** Boxes that contain the boxes below them *)

Context {R : Type} `{Rect2 R} `{!Rect2Laws R}.
Local Opaque update pushChild onContentChange new_ImageNode.
Implicit Types (st : Store R) (nd : ImageNode R) (n m this c p : ref).
Implicit Types (G : list ref).

Lemma foldl_union_contains_acc (a : R) bs :
  rect_containsRect (foldl rect_union a bs) a = true.
Proof.
  revert a. induction bs as [|b bs IH]; intros a; simpl; [apply containsRect_refl|].
  eapply containsRect_trans; [apply IH|apply union_contains_l].
Qed.

Lemma foldl_union_contains (a : R) bs b :
  b ∈ bs → rect_containsRect (foldl rect_union a bs) b = true.
Proof.
  revert a. induction bs as [|b' bs IH]; intros a Hin; [set_solver|]. simpl.
  apply elem_of_cons in Hin as [-> | Hin].
  - eapply containsRect_trans; [apply foldl_union_contains_acc|apply union_contains_r].
  - by apply IH.
Qed.

Lemma unionAll_contains bs b : b ∈ bs → rect_containsRect (unionAll bs) b = true.
Proof.
  destruct bs as [|a bs]; [set_solver|]. simpl. intros [-> | Hin]%elem_of_cons.
  - apply foldl_union_contains_acc.
  - by apply foldl_union_contains.
Qed.

(** The box computed for a node without content contains the box of
    each of its children. *)
Lemma computeBBox_contains_child st nd bb c cd :
  content nd = None → computeBBox st nd = Some bb →
  c ∈ children nd → nodes st !! c = Some cd →
  rect_containsRect bb (bbox cd) = true.
Proof.
  unfold computeBBox. intros -> (bs & Hbs & ->)%fmap_Some Hin Hc.
  apply unionAll_contains. apply mapM_Some in Hbs.
  apply list_elem_of_lookup in Hin as [i Hi].
  destruct (Forall2_lookup_l _ _ _ _ _ Hbs Hi) as (b & Hb & Hf).
  rewrite Hc in Hf. simpl in Hf. injection Hf as <-.
  by eapply list_elem_of_lookup_2.
Qed.

Lemma content_None_of_child rk ex st x nd c :
  WFr rk ex st → nodes st !! x = Some nd → c ∈ children nd → content nd = None.
Proof.
  intros Hwf Hx Hin. destruct (content nd) eqn:Hc; [|done].
  rewrite (ok_leaf _ _ _ _ _ (Hwf _ _ Hx)) in Hin by (by rewrite Hc). set_solver.
Qed.

Lemma holds_shapeEq st st' L e : shapeEq st st' → holds st L e ↔ holds st' L e.
Proof.
  intros Hs. split.
  - intros (nd & Hnd & Hc).
    destruct (shapeEq_lookup _ _ _ _ Hs Hnd) as (nd' & Hnd' & Hct & _).
    exists nd'. split; [done|]. congruence.
  - intros (nd' & Hnd' & Hc). destruct Hs as [_ Hs].
    destruct (Hs _ _ Hnd') as (nd & Hnd & Hct & _).
    exists nd. split; [done|]. congruence.
Qed.

Lemma recomputeBBox_false fuel x st st' :
  recomputeBBox fuel x false st = Some st' →
  ∃ nd bb, nodes st !! x = Some nd ∧ computeBBox st nd = Some bb ∧
    st' = update x (set_bbox bb) st.
Proof.
  destruct fuel as [|fuel]; [intros Hr; discriminate Hr|].
  rewrite recomputeBBox_once. intros Hr.
  destruct (nodes st !! x) as [nd|] eqn:Hx; [|done]. simpl in Hr.
  destruct (computeBBox st nd) as [bb|] eqn:Hbb; [|done]. simpl in Hr.
  exists nd, bb. split; [done|]. split; [done|]. congruence.
Qed.

(** The box of a node brought up to date: the nodes above a leaf keep
    containing the box of its element. *)
Lemma own_step_coverOf rk ex G st r x nd bb L e :
  WFr rk ex st → TreeInv G st r →
  nodes st !! x = Some nd → computeBBox st nd = Some bb →
  holds st L e → coverOf G st r L (getBBox e) →
  coverOf G (update x (set_bbox bb) st) r L (getBBox e).
Proof.
  intros Hwf Ht Hx Hbb Hl Hcov N ndN' HN HNr Hpath.
  apply (rtc_child_shapeEq _ _ _ _ (shapeEq_set_bbox st x bb)) in Hpath.
  rewrite (lookup_set_bbox _ _ _ _ _ Hx). case_decide as HNx; [subst N|by apply Hcov].
  intros [= <-]. simpl.
  apply rtc_inv in Hpath as [-> | (c & Hxc & HcL)].
  - destruct Hl as (nd' & Hx' & Hc). simplify_eq.
    rewrite (computeBBox_content _ _ _ _ Hc Hbb). apply containsRect_refl.
  - pose proof Hxc as (nd' & Hx' & Hin). simplify_eq.
    pose proof (content_None_of_child _ _ _ _ _ _ Hwf Hx Hin) as Hcn.
    destruct (ok_children _ _ _ _ _ (Hwf _ _ Hx) c Hin) as [Hcl _].
    destruct (lookup_lt_is_Some_2 _ _ Hcl) as [cd Hcd].
    eapply containsRect_trans; [by eapply computeBBox_contains_child|].
    apply (Hcov c cd); [| |done|done].
    + by apply (t_closed _ _ _ Ht x c HN).
    + by eapply child_not_root.
Qed.

Lemma recomputeBBox_coverOf rk ex G r L e fuel st x b st' :
  WFr rk ex st → TreeInv G st r →
  recomputeBBox fuel x b st = Some st' →
  holds st L e → coverOf G st r L (getBBox e) → coverOf G st' r L (getBBox e).
Proof.
  destruct b.
  2:{ intros Hwf Ht (nd & bb & Hx & Hbb & ->)%recomputeBBox_false Hl Hcov.
      by eapply own_step_coverOf. }
  revert st x. induction fuel as [|fuel IH]; intros st x Hwf Ht Hr Hl Hcov;
    [discriminate Hr|].
  destruct (recomputeBBox_step _ _ _ _ Hr)
    as (fuel' & nd & bb & [= <-] & Hx & Hbb & [[_ ->] | (p & Hp & _ & Hr')]).
  - by eapply own_step_coverOf.
  - pose proof (shapeEq_set_bbox st x bb) as Hs1.
    eapply (IH _ p); [by eapply WFr_shapeEq|by eapply TreeInv_shapeEq|exact Hr'| |].
    + by apply (holds_shapeEq _ _ _ _ Hs1).
    + by eapply own_step_coverOf.
Qed.

Lemma own_step_b_leaf st x nd bb :
  nodes st !! x = Some nd → computeBBox st nd = Some bb →
  (∀ n nd e, n ≠ x → nodes st !! n = Some nd → content nd = Some e →
     bbox nd = getBBox e) →
  ∀ n nd' e, nodes (update x (set_bbox bb) st) !! n = Some nd' →
    content nd' = Some e → bbox nd' = getBBox e.
Proof.
  intros Hx Hbb Hb n nd' e. rewrite (lookup_set_bbox _ _ _ _ _ Hx).
  case_decide; subst.
  - intros [= <-]. simpl. intros Hc. by eapply computeBBox_content.
  - by apply Hb.
Qed.

Lemma recomputeBBox_b_leaf fuel st x b st' :
  recomputeBBox fuel x b st = Some st' →
  (∀ n nd e, n ≠ x → nodes st !! n = Some nd → content nd = Some e →
     bbox nd = getBBox e) →
  ∀ n nd' e, nodes st' !! n = Some nd' → content nd' = Some e → bbox nd' = getBBox e.
Proof.
  destruct b.
  2:{ intros (nd & bb & Hx & Hbb & ->)%recomputeBBox_false Hb.
      by eapply own_step_b_leaf. }
  revert st x. induction fuel as [|fuel IH]; intros st x Hr Hb; [discriminate Hr|].
  destruct (recomputeBBox_step _ _ _ _ Hr)
    as (fuel' & nd & bb & [= <-] & Hx & Hbb & [[_ ->] | (p & Hp & _ & Hr')]).
  - by eapply own_step_b_leaf.
  - eapply (IH _ p); [exact Hr'|]. intros n nd' e _. by eapply own_step_b_leaf.
Qed.

(** [recomputeBBox] keeps the boxes in order. *)
Lemma recomputeBBox_BoxInv rk ex G r fuel st x b st' :
  WFr rk ex st → TreeInv G st r → BoxInv G st r →
  recomputeBBox fuel x b st = Some st' → BoxInv G st' r.
Proof.
  intros Hwf Ht [Hb1 Hb2] Hr. split.
  - eapply recomputeBBox_b_leaf; [done|]. intros n nd e _. apply Hb1.
  - intros L e Hl. destruct (recomputeBBox_shapeEq _ _ _ _ _ Hr) as [Hs _].
    apply (holds_shapeEq _ _ _ _ Hs) in Hl.
    eapply recomputeBBox_coverOf; [done|done|done|done|]. by apply Hb2.
Qed.

End BoxFacts.

Section Bubbling.

(** *** How far [recomputeBBox] goes up *)

Context {R : Type} `{Rect2 R} `{!Rect2Laws R}.
Local Opaque update pushChild onContentChange new_ImageNode.
Implicit Types (st : Store R) (nd : ImageNode R) (n m this c p : ref).
Implicit Types (G : list ref).

(** After [recomputeBBox] went up from [x], a node above [x] has the
    box it had, or a box that is up to date. *)
Lemma recomputeBBox_coversAbove rk ex G r B fuel st x st' :
  WFr rk ex st → (∀ e, e ∈ ex → rk e < rk x) → TreeInv G st r → x ∉ G →
  recomputeBBox fuel x true st = Some st' →
  (∀ N ndN, N ∉ G → N ≠ r → N ≠ x → rtc (child st) N x →
     nodes st !! N = Some ndN → rect_containsRect (bbox ndN) B = true) →
  coversAbove G st' r x B.
Proof.
  revert st x. induction fuel as [|fuel IH]; intros st x Hwf Hex Ht HxG Hr Hpre;
    [discriminate Hr|].
  destruct (recomputeBBox_step _ _ _ _ Hr)
    as (fuel' & nd & bb & [= <-] & Hx & Hbb & Hcase).
  pose proof (shapeEq_set_bbox st x bb) as Hs1.
  destruct Hcase as [[_ ->] | (p & Hp & _ & Hr')].
  - intros N ndN' HN HNr HNx Hpath.
    rewrite (lookup_set_bbox _ _ _ _ _ Hx), decide_False by done.
    intros HlN. left. apply (Hpre N); try done.
    by apply (rtc_child_shapeEq _ _ _ _ Hs1).
  - destruct (parent_child _ _ _ _ _ _ Hwf (not_ex_of_rank _ _ _ Hex) Hx Hp)
      as [Hpx Hrk].
    assert (p ∉ G) as HpG by by eapply (t_parent _ _ _ Ht x nd p).
    set (st1 := update x (set_bbox bb) st) in *.
    assert (WFr rk ex st1) as Hwf1 by by eapply WFr_shapeEq.
    assert (TreeInv G st1 r) as Ht1 by by eapply TreeInv_shapeEq.
    destruct (recomputeBBox_shapeEq _ _ _ _ _ Hr') as [Hs' _].
    assert (shapeEq st st') as Hss by by eapply shapeEq_trans.
    assert (∀ e, e ∈ ex → rk e < rk p) as Hex1.
    { intros e He. specialize (Hex _ He). lia. }
    assert (coversAbove G st' r p B) as Hcp.
    { apply (IH st1 p Hwf1 Hex1 Ht1 HpG Hr'). intros N ndN HN HNr HNp Hpath.
      apply (rtc_child_shapeEq _ _ _ _ Hs1) in Hpath.
      destruct (rtc_child_rank _ _ _ _ _ Hwf Hpath) as [-> | HrkN]; [done|].
      assert (N ≠ x) as HNx by (intros ->; lia).
      unfold st1. rewrite (lookup_set_bbox _ _ _ _ _ Hx), decide_False by done.
      intros HlN. apply (Hpre N); try done.
      etrans; [done|]. by apply rtc_once. }
    intros N ndN' HN HNr HNx Hpath HlN.
    assert (rtc (child st) N x) as Hpath0 by by apply (rtc_child_shapeEq _ _ _ _ Hss).
    pose proof (rtc_parent_edge _ _ _ _ _ _ Ht HN HpG Hpx Hpath0 HNx) as HNp.
    assert (child st' p x) as Hpx' by by apply (child_shapeEq _ _ _ _ Hss).
    destruct (decide (N = p)) as [-> | Hne].
    + right. destruct Hpx as (pd & Hpd & Hin).
      assert (p ≠ x) as Hpne by (intros ->; lia).
      assert (nodes st1 !! p = Some pd) as Hpd1.
      { unfold st1. by rewrite (lookup_set_bbox _ _ _ _ _ Hx), decide_False. }
      destruct (computeBBox_is_Some _ _ _ _ _ Hwf1 Hpd1) as [bbp Hbbp].
      pose proof (recomputeBBox_start _ _ _ _ _ _ _ _ Hwf1 Hex1 Hr' Hpd1 Hbbp) as Hp'.
      rewrite Hp' in HlN. injection HlN as <-. simpl. split.
      * rewrite <- Hbbp.
        rewrite (computeBBox_children st' pd (set_bbox bbp pd)) by done.
        apply computeBBox_ext. intros c Hc. f_equal.
        apply (recomputeBBox_frame rk ex st1 p fuel st' c Hwf1 Hex1 Hr').
        by destruct (ok_children _ _ _ _ _ (Hwf _ _ Hpd) c Hc).
      * exists x, (set_bbox bb nd). split; [done|]. split; [done|]. split; [|done].
        rewrite (recomputeBBox_frame rk ex st1 p fuel st' x Hwf1 Hex1 Hr' Hrk).
        unfold st1. by rewrite (lookup_set_bbox _ _ _ _ _ Hx), decide_True.
    + destruct (Hcp N ndN' HN HNr Hne) as [Hl | (Hex' & c & cd & Hc1 & Hc2 & Hc3 & Hc4)].
      * by apply (rtc_child_shapeEq _ _ _ _ Hss).
      * done.
      * by left.
      * right. split; [done|]. exists c, cd. split; [done|]. split; [|done].
        etrans; [exact Hc2|]. by apply rtc_once.
Qed.

(** When [recomputeBBox] goes up from a node whose new box contains
    [B], every node above it contains [B] in the end. *)
Lemma recomputeBBox_covers rk ex G r B fuel st x st' nd bb :
  WFr rk ex st → (∀ e, e ∈ ex → rk e < rk x) → TreeInv G st r → x ∉ G →
  recomputeBBox fuel x true st = Some st' →
  nodes st !! x = Some nd → computeBBox st nd = Some bb →
  rect_containsRect bb B = true →
  coversAbove G st r x B →
  ∀ N ndN', N ∉ G → N ≠ r → rtc (child st') N x → nodes st' !! N = Some ndN' →
    rect_containsRect (bbox ndN') B = true.
Proof.
  revert st x nd bb.
  induction fuel as [|fuel IH]; intros st x nd bb Hwf Hex Ht HxG Hr Hx Hbb HbbB Hcov;
    [discriminate Hr|].
  destruct (recomputeBBox_step _ _ _ _ Hr)
    as (fuel' & nd0 & bb0 & [= <-] & Hx0 & Hbb0 & Hcase). simplify_eq.
  pose proof (shapeEq_set_bbox st x bb) as Hs1.
  set (st1 := update x (set_bbox bb) st) in *.
  destruct Hcase as [[Hstop ->] | (p & Hp & _ & Hr')].
  - assert (∀ k N ndN', rk N ≤ k → N ∉ G → N ≠ r → rtc (child st1) N x →
              nodes st1 !! N = Some ndN' → rect_containsRect (bbox ndN') B = true)
      as Hall; [|by intros N ndN'; apply (Hall (rk N))].
    induction k as [k IHk] using lt_wf_ind.
    intros N ndN' Hk HN HNr Hpath. unfold st1.
    rewrite (lookup_set_bbox _ _ _ _ _ Hx). case_decide as HNx.
    { by intros [= <-]. }
    intros HlN. apply (rtc_child_shapeEq _ _ _ _ Hs1) in Hpath.
    destruct (Hcov N ndN' HN HNr HNx Hpath HlN)
      as [Hl | (Hexact & c & cd & Hc1 & Hc2 & Hc3 & Hc4)]; [done|].
    pose proof Hc1 as (ndN0 & HlN0 & Hin). simplify_eq.
    pose proof (content_None_of_child _ _ _ _ _ _ Hwf HlN Hin) as Hcn.
    eapply containsRect_trans; [by eapply computeBBox_contains_child|].
    destruct (decide (c = x)) as [-> | Hcx].
    + simplify_eq. destruct Hstop as [Heq | Hnone]; [|congruence].
      apply rect_eq_true in Heq. by rewrite Heq.
    + destruct (child_rank _ _ _ _ _ Hwf Hc1) as [_ Hrkc].
      apply (IHk (rk c) ltac:(lia) c cd); [done| | | |].
      * by apply (t_closed _ _ _ Ht N c HN).
      * by eapply child_not_root.
      * by apply (rtc_child_shapeEq _ _ _ _ Hs1).
      * unfold st1. by rewrite (lookup_set_bbox _ _ _ _ _ Hx), decide_False.
  - destruct (parent_child _ _ _ _ _ _ Hwf (not_ex_of_rank _ _ _ Hex) Hx Hp)
      as [Hpx Hrk].
    assert (p ∉ G) as HpG by by eapply (t_parent _ _ _ Ht x nd p).
    assert (WFr rk ex st1) as Hwf1 by by eapply WFr_shapeEq.
    assert (TreeInv G st1 r) as Ht1 by by eapply TreeInv_shapeEq.
    destruct (recomputeBBox_shapeEq _ _ _ _ _ Hr') as [Hs' _].
    assert (shapeEq st st') as Hss by by eapply shapeEq_trans.
    assert (∀ e, e ∈ ex → rk e < rk p) as Hex1.
    { intros e He. specialize (Hex _ He). lia. }
    assert (p ≠ x) as Hpne by (intros ->; lia).
    pose proof Hpx as (pd & Hpd & Hin).
    assert (nodes st1 !! p = Some pd) as Hpd1.
    { unfold st1. by rewrite (lookup_set_bbox _ _ _ _ _ Hx), decide_False. }
    assert (nodes st1 !! x = Some (set_bbox bb nd)) as Hx1.
    { unfold st1. by rewrite (lookup_set_bbox _ _ _ _ _ Hx), decide_True. }
    destruct (computeBBox_is_Some _ _ _ _ _ Hwf1 Hpd1) as [bbp Hbbp].
    pose proof (content_None_of_child _ _ _ _ _ _ Hwf Hpd Hin) as Hpc.
    pose proof (computeBBox_contains_child _ _ _ _ _ Hpc Hbbp Hin Hx1) as Hsub.
    simpl in Hsub.
    assert (coversAbove G st1 r p B) as Hcov1.
    { intros N ndN HN HNr HNp Hpath.
      apply (rtc_child_shapeEq _ _ _ _ Hs1) in Hpath.
      destruct (rtc_child_rank _ _ _ _ _ Hwf Hpath) as [-> | HrkN]; [done|].
      assert (N ≠ x) as HNx by (intros ->; lia).
      unfold st1. rewrite (lookup_set_bbox _ _ _ _ _ Hx), decide_False by done.
      intros HlN.
      assert (rtc (child st) N x) as HpathX.
      { etrans; [done|]. by apply rtc_once. }
      destruct (Hcov N ndN HN HNr HNx HpathX HlN)
        as [Hl | (Hexact & c & cd & Hc1 & Hc2 & Hc3 & Hc4)]; [by left|].
      right. split.
      - rewrite <- Hexact. apply computeBBox_ext. intros c' Hc'.
        rewrite (lookup_set_bbox _ _ _ _ _ Hx). case_decide; [subst c'|done].
        exfalso. apply HNp.
        apply (t_unique _ _ _ Ht N p x HN HpG); [by exists ndN|done].
      - assert (c ≠ x) as Hcx.
        { intros ->. simplify_eq. }
        exists c, cd. split; [by apply (child_shapeEq _ _ _ _ Hs1)|].
        split; [|split; [|done]].
        + apply (rtc_child_shapeEq _ _ _ _ Hs1).
          eapply rtc_parent_edge; [done| |done|done|done|done].
          by apply (t_closed _ _ _ Ht N c HN).
        + by rewrite (lookup_set_bbox _ _ _ _ _ Hx), decide_False. }
    pose proof (IH st1 p pd bbp Hwf1 Hex1 Ht1 HpG Hr' Hpd1 Hbbp
                  (containsRect_trans _ _ _ Hsub HbbB) Hcov1) as Hall.
    intros N ndN' HN HNr Hpath HlN.
    destruct (decide (N = x)) as [-> | HNx].
    + rewrite (recomputeBBox_frame rk ex st1 p fuel st' x Hwf1 Hex1 Hr' Hrk) in HlN.
      rewrite Hx1 in HlN. by injection HlN as <-.
    + apply (Hall N ndN' HN HNr); [|done].
      apply (rtc_child_shapeEq _ _ _ _ Hs').
      apply (rtc_child_shapeEq _ _ _ _ Hs1).
      apply (rtc_child_shapeEq _ _ _ _ Hss) in Hpath.
      by eapply rtc_parent_edge.
Qed.

End Bubbling.

Section TreeSteps.

(** *** The tree and its boxes when nodes are moved or taken out *)

Context {R : Type} `{Rect2 R} `{!Rect2Laws R}.
Local Opaque update pushChild onContentChange new_ImageNode.
Implicit Types (st : Store R) (nd : ImageNode R) (n m this c p : ref).
Implicit Types (G : list ref).

(** Assignments that keep the lists of children, and keep or clear the
    parent fields. *)
Lemma TreeInv_links G st st' r :
  length (nodes st') = length (nodes st) →
  (∀ n nd', nodes st' !! n = Some nd' →
     ∃ nd, nodes st !! n = Some nd ∧ children nd' = children nd ∧
       (parent nd' = parent nd ∨ parent nd' = None)) →
  TreeInv G st r → TreeInv G st' r.
Proof.
  intros Hlen Hl [H1 H2 H3 H4 H5 H6].
  assert (∀ a b, child st' a b → child st a b) as Hsub.
  { intros a b (nd' & Hnd' & Hin). destruct (Hl _ _ Hnd') as (nd & Hnd & Hch & _).
    exists nd. split; [done|]. by rewrite <- Hch. }
  split.
  - done.
  - intros p Hp. by apply (H2 p), Hsub.
  - intros p c Hp Hc. by apply (H3 p c Hp), Hsub.
  - intros c cd' q Hc Hcd' Hq. destruct (Hl _ _ Hcd') as (cd & Hcd & _ & [Hp | Hp]).
    + apply (H4 c cd q Hc Hcd). congruence.
    + congruence.
  - intros p1 p2 c Hp1 Hp2 Hc1 Hc2. apply (H5 p1 p2 c Hp1 Hp2); by apply Hsub.
  - intros n Hn. rewrite Hlen. by apply H6.
Qed.

(** Fewer nodes in the tree, steps that were paths before, the same
    boxes and no new content. *)
Lemma BoxInv_sub G G' st st' r :
  (∀ n, n ∉ G' → n ∉ G) →
  (∀ x y, child st' x y → rtc (child st) x y) →
  (∀ n nd', nodes st' !! n = Some nd' →
     ∃ nd, nodes st !! n = Some nd ∧ bbox nd' = bbox nd ∧
       (content nd' = content nd ∨ content nd' = None)) →
  BoxInv G st r → BoxInv G' st' r.
Proof.
  intros HG Hsub Hl [Hb1 Hb2]. split.
  - intros n nd' e Hn' Hc. destruct (Hl _ _ Hn') as (nd & Hn & Hbb & [Hct | Hct]);
      [|congruence].
    rewrite Hbb. apply (Hb1 n nd e Hn). congruence.
  - intros L e (nd' & Hn' & Hc) N ndN' HN HNr Hpath HlN.
    destruct (Hl _ _ Hn') as (nd & Hn & _ & [Hct | Hct]); [|congruence].
    destruct (Hl _ _ HlN) as (ndN & HlN0 & Hbb & _). rewrite Hbb.
    assert (holds st L e) as Hh.
    { exists nd. split; [done|congruence]. }
    apply (Hb2 L e Hh N ndN); [by apply HG|done|by eapply rtc_child_sub|done].
Qed.

(** A leaf taken out of the children of its parent leaves the tree. *)
Lemma removeChild_Inv rk G st r this nd p pnd :
  WFr rk [] st → TreeInv G st r → BoxInv G st r → this ∉ G →
  nodes st !! this = Some nd → children nd = [] →
  parent nd = Some p → nodes st !! p = Some pnd → this ∈ children pnd →
  let st1 := update p (set_children (filter (λ node, node ≠ this) (children pnd))) st in
  TreeInv (this :: G) st1 r ∧ BoxInv (this :: G) st1 r.
Proof.
  intros Hwf Ht Hb HG Hnd Hch Hpar Hpnd Hin st1.
  assert (child st p this) as Hpt by by exists pnd.
  destruct (child_rank _ _ _ _ _ Hwf Hpt) as [Hthis Hrk].
  assert (this ≠ p) as Hne by (intros ->; lia).
  assert (p ∉ G) as HpG by by eapply (t_parent _ _ _ Ht this nd p).
  assert (Hlen : length (nodes st1) = length (nodes st)) by apply length_update.
  assert (Hlook : ∀ m, nodes st1 !! m =
     if decide (m = p)
     then Some (set_children (filter (λ node, node ≠ this) (children pnd)) pnd)
     else nodes st !! m).
  { intros m. unfold st1. rewrite lookup_update. case_decide; subst; [|done].
    by rewrite Hpnd. }
  clearbody st1.
  assert (∀ a b, child st1 a b → child st a b) as Hsub.
  { intros a b (nd' & Hnd' & Hb'). rewrite Hlook in Hnd'. case_decide; simplify_eq.
    - simpl in Hb'. apply list_elem_of_filter in Hb' as [? ?]. by exists pnd.
    - by exists nd'. }
  assert (∀ a, a ∉ G → ¬ child st1 a this) as Hgone.
  { intros a Ha Hc. pose proof (Hsub _ _ Hc) as Hc0.
    pose proof (t_unique _ _ _ Ht a p this Ha HpG Hc0 Hpt) as ->.
    destruct Hc as (nd' & Hnd' & Hb'). rewrite Hlook, decide_True in Hnd' by done.
    simplify_eq. simpl in Hb'. apply list_elem_of_filter in Hb' as [? ?]. done. }
  destruct Ht as [H1 H2 H3 H4 H5 H6]. split; [split|].
  - apply not_elem_of_cons. split; [|done]. intros ->. by apply (H2 p).
  - intros q Hq. by apply (H2 q), Hsub.
  - intros q c [Hq1 Hq2]%not_elem_of_cons Hc. apply not_elem_of_cons. split.
    + intros ->. by apply (Hgone q).
    + by apply (H3 q c Hq2), Hsub.
  - intros c cd q [Hc1 Hc2]%not_elem_of_cons Hcd Hq.
    assert (∃ cd0, nodes st !! c = Some cd0 ∧ parent cd0 = Some q) as (cd0 & Hcd0 & Hq0).
    { rewrite Hlook in Hcd. case_decide; simplify_eq; eauto. }
    apply not_elem_of_cons. split; [|by eapply H4].
    intros ->.
    destruct (parent_child _ _ _ _ _ _ Hwf (not_elem_of_nil _) Hcd0 Hq0)
      as [(nd' & Hnd' & Hin') _].
    simplify_eq. rewrite Hch in Hin'. set_solver.
  - intros p1 p2 c [_ Hp1]%not_elem_of_cons [_ Hp2]%not_elem_of_cons Hc1 Hc2.
    apply (H5 p1 p2 c Hp1 Hp2); by apply Hsub.
  - intros n [-> | Hn]%elem_of_cons; rewrite Hlen; [done|by apply H6].
  - eapply (BoxInv_sub G); [| | |done].
    + by intros n [_ ?]%not_elem_of_cons.
    + intros x y Hxy. by apply rtc_once, Hsub.
    + intros n nd'. rewrite Hlook. case_decide; simplify_eq.
      * intros [= <-]. exists pnd. split; [done|]. split; [done|by left].
      * intros Hn. exists nd'. split; [done|]. split; [done|by left].
Qed.

(** An only child lifted to its grandparent. *)
Lemma rebalance_lift_Inv rk ex G st r this nd p pnd gp gpnd :
  WFr rk ex st → TreeInv G st r → BoxInv G st r → this ∉ G →
  nodes st !! this = Some nd → parent nd = Some p →
  nodes st !! p = Some pnd → children pnd = [this] → parent pnd = Some gp →
  nodes st !! gp = Some gpnd → p ∈ children gpnd →
  let st' := update p (set_parent None)
       (pushChild gp this
          (update this (set_parent (Some gp))
             (update p (set_children []) st))) in
  TreeInv G st' r ∧ BoxInv G st' r.
Proof.
  intros Hwf Ht Hb HG Hnd Hpar Hpnd Hch Hgp Hgpnd Hin st'.
  assert (child st p this) as Hpt.
  { exists pnd. split; [done|]. rewrite Hch. set_solver. }
  assert (child st gp p) as Hgpp by by exists gpnd.
  destruct (child_rank _ _ _ _ _ Hwf Hpt) as [_ Hr1].
  destruct (child_rank _ _ _ _ _ Hwf Hgpp) as [_ Hr2].
  assert (this ≠ p) as Hne1 by (intros ->; lia).
  assert (this ≠ gp) as Hne2 by (intros ->; lia).
  assert (p ≠ gp) as Hne3 by (intros ->; lia).
  assert (p ∉ G) as HpG by by eapply (t_parent _ _ _ Ht this nd p).
  assert (gp ∉ G) as HgG by by eapply (t_parent _ _ _ Ht p pnd gp).
  assert (Hlen : length (nodes st') = length (nodes st)).
  { unfold st'. by rewrite length_update, length_pushChild, !length_update. }
  assert (Hlook : ∀ m, nodes st' !! m =
     if decide (m = p) then Some (set_parent None (set_children [] pnd))
     else if decide (m = this) then Some (set_parent (Some gp) nd)
     else if decide (m = gp) then Some (set_children (children gpnd ++ [this]) gpnd)
     else nodes st !! m).
  { intros m. unfold st'. rewrite lookup_update, lookup_pushChild, !lookup_update.
    repeat case_decide; simplify_eq; rewrite ?Hnd, ?Hpnd, ?Hgpnd; done. }
  clearbody st'.
  assert (∀ a b, child st' a b →
            (a ≠ p ∧ child st a b) ∨ (a = gp ∧ b = this)) as Hch'.
  { intros a b (nd' & Hnd' & Hb'). rewrite Hlook in Hnd'.
    repeat case_decide; simplify_eq; simpl in Hb'.
    - set_solver.
    - left. split; [done|]. by exists nd.
    - apply elem_of_app in Hb' as [Hb' | ->%list_elem_of_singleton]; [|by right].
      left. split; [done|]. by exists gpnd.
    - left. split; [done|]. by exists nd'. }
  destruct Ht as [H1 H2 H3 H4 H5 H6]. split; [split|].
  - done.
  - intros q [[_ Hq] | [_ ->]]%Hch'; [by apply (H2 q)|by apply (H2 p)].
  - intros q c Hq [[_ Hc] | [_ ->]]%Hch'; [by apply (H3 q c)|done].
  - intros c cd q Hc. rewrite Hlook. repeat case_decide; simplify_eq.
    + by intros [= <-].
    + intros [= <-]. simpl. by intros [= <-].
    + intros [= <-]. simpl. by apply (H4 gp gpnd).
    + by apply (H4 c cd).
  - intros p1 p2 c Hp1 Hp2 [[Hn1 Hc1] | [-> ->]]%Hch' [[Hn2 Hc2] | [-> ?]]%Hch';
      simplify_eq; [by apply (H5 p1 p2 c)| | |done].
    + destruct Hn1. by apply (H5 p1 p this).
    + destruct Hn2. by apply (H5 p2 p this).
  - intros n Hn. rewrite Hlen. by apply H6.
  - eapply (BoxInv_sub G); [done| | |exact Hb].
    + intros x y [[_ Hxy] | [-> ->]]%Hch'; [by apply rtc_once|].
      eapply rtc_l; [exact Hgpp|]. by apply rtc_once.
    + intros n nd'. rewrite Hlook. repeat case_decide; simplify_eq.
      * intros [= <-]. exists pnd. split; [done|]. split; [done|by left].
      * intros [= <-]. exists nd. split; [done|]. split; [done|by left].
      * intros [= <-]. exists gpnd. split; [done|]. split; [done|by left].
      * intros Hn. exists nd'. split; [done|]. split; [done|by left].
Qed.

(** An only child without content merged into its parent; the child
    leaves the tree. *)
Lemma rebalance_absorb_Inv rk ex G st r this nd p pnd :
  WFr rk ex st → (∀ e, e ∈ ex → e ∈ G) →
  TreeInv G st r → BoxInv G st r → this ∉ G →
  nodes st !! this = Some nd → parent nd = Some p →
  nodes st !! p = Some pnd → children pnd = [this] →
  let st' := update this (set_parent None)
       (foldl (λ s child, update child (set_parent (Some p)) s)
          (update p (set_children (children nd)) st) (children nd)) in
  TreeInv (this :: G) st' r ∧ BoxInv (this :: G) st' r.
Proof.
  intros Hwf HexG Ht Hb HG Hnd Hpar Hpnd Hch st'.
  assert (child st p this) as Hpt.
  { exists pnd. split; [done|]. rewrite Hch. set_solver. }
  destruct (child_rank _ _ _ _ _ Hwf Hpt) as [Hthis Hr1].
  assert (this ≠ p) as Hne1 by (intros ->; lia).
  assert (∀ c, c ∈ children nd → child st this c) as Htc by (intros c Hc; by exists nd).
  assert (this ∉ children nd) as Hself.
  { intros Hin. destruct (child_rank _ _ _ _ _ Hwf (Htc _ Hin)). lia. }
  assert (p ∉ children nd) as Hpself.
  { intros Hin. destruct (child_rank _ _ _ _ _ Hwf (Htc _ Hin)). lia. }
  assert (p ∉ G) as HpG by by eapply (t_parent _ _ _ Ht this nd p).
  assert (Hlen : length (nodes st') = length (nodes st)).
  { unfold st'. by rewrite length_update, length_set_parents, length_update. }
  assert (Hlook : ∀ m, nodes st' !! m =
     if decide (m = this) then Some (set_parent None nd)
     else if decide (m ∈ children nd) then set_parent (Some p) <$> nodes st !! m
     else if decide (m = p) then Some (set_children (children nd) pnd)
     else nodes st !! m).
  { intros m. unfold st'. rewrite lookup_update, lookup_set_parents, lookup_update.
    repeat case_decide; simplify_eq; rewrite ?Hnd, ?Hpnd; done. }
  clearbody st'.
  assert (∀ a b, child st' a b →
            (a = p ∧ b ∈ children nd) ∨ (a ≠ p ∧ child st a b)) as Hch'.
  { intros a b (nd' & Hnd' & Hb'). rewrite Hlook in Hnd'.
    repeat case_decide; simplify_eq; simpl in Hb'.
    - right. split; [done|]. by exists nd.
    - apply fmap_Some in Hnd' as (md & Hmd & ->). right.
      split; [by intros ->|]. by exists md.
    - by left.
    - right. split; [done|]. by exists nd'. }
  destruct Ht as [H1 H2 H3 H4 H5 H6]. split; [split|].
  - apply not_elem_of_cons. split; [|done]. intros ->. by apply (H2 p).
  - intros q [[_ Hq] | [_ Hq]]%Hch'; [by apply (H2 this), Htc|by apply (H2 q)].
  - intros q c [Hq1 Hq2]%not_elem_of_cons [[-> Hc] | [Hn Hc]]%Hch';
      apply not_elem_of_cons.
    + split; [by intros ->|]. by apply (H3 this c HG), Htc.
    + split; [|by apply (H3 q c)]. intros ->. destruct Hn.
      by apply (H5 q p this).
  - intros c cd q [Hc1 Hc2]%not_elem_of_cons. rewrite Hlook.
    repeat case_decide; simplify_eq.
    + intros (md & Hmd & ->)%fmap_Some. simpl. intros [= <-].
      by apply not_elem_of_cons.
    + intros [= <-]. simpl. intros Hq. apply not_elem_of_cons.
      split; [|by apply (H4 p pnd)]. intros ->.
      assert (p ∉ ex) as Hpex by (intros Hx; by apply HpG, HexG).
      destruct (parent_child _ _ _ _ _ _ Hwf Hpex Hpnd Hq) as [_ Hrk]. lia.
    + intros Hcd Hq. apply not_elem_of_cons. split; [|by apply (H4 c cd)].
      intros ->.
      assert (c ∉ ex) as Hcex by (intros Hx; by apply Hc2, HexG).
      destruct (parent_child _ _ _ _ _ _ Hwf Hcex Hcd Hq) as [(nd' & Hnd' & Hin') _].
      by simplify_eq.
  - intros p1 p2 c [Hp1 Hp1']%not_elem_of_cons [Hp2 Hp2']%not_elem_of_cons
      [[-> Hc1] | [Hn1 Hc1]]%Hch' [[-> Hc2] | [Hn2 Hc2]]%Hch'; [done| | |].
    + destruct Hp2. symmetry. apply (H5 this p2 c HG Hp2'); [by apply Htc|done].
    + destruct Hp1. symmetry. apply (H5 this p1 c HG Hp1'); [by apply Htc|done].
    + by apply (H5 p1 p2 c).
  - intros n [-> | Hn]%elem_of_cons; rewrite Hlen; [done|by apply H6].
  - eapply (BoxInv_sub G); [| | |exact Hb].
    + by intros n [_ ?]%not_elem_of_cons.
    + intros x y [[-> Hy] | [_ Hxy]]%Hch'; [|by apply rtc_once].
      eapply rtc_l; [exact Hpt|]. by apply rtc_once, Htc.
    + intros n nd'. rewrite Hlook. repeat case_decide; simplify_eq.
      * intros [= <-]. exists nd. split; [done|]. split; [done|by left].
      * intros (md & Hmd & ->)%fmap_Some. exists md. split; [done|].
        split; [done|by left].
      * intros [= <-]. exists pnd. split; [done|]. split; [done|by left].
      * intros Hn. exists nd'. split; [done|]. split; [done|by left].
Qed.

End TreeSteps.

Section TreeGrowth.

(** *** The tree and its boxes when nodes are added *)

Context {R : Type} `{Rect2 R} `{!Rect2Laws R}.
Local Opaque update pushChild onContentChange new_ImageNode.
Implicit Types (st : Store R) (nd : ImageNode R) (n m this c p : ref).
Implicit Types (G : list ref).

Lemma child_valid rk ex st a b :
  WFr rk ex st → child st a b → a < length (nodes st) ∧ b < length (nodes st).
Proof.
  intros Hwf Hc. split; [|by destruct (child_rank _ _ _ _ _ Hwf Hc)].
  destruct Hc as (nd & Hnd & _). by eapply lookup_lt_Some.
Qed.

Lemma rtc_from_childless st a b : (∀ c, ¬ child st a c) → rtc (child st) a b → a = b.
Proof. intros Hno [-> | (c & Hc & _)]%rtc_inv; [done|]. by destruct (Hno c). Qed.

(** A new node without children becomes the last child of [this]; its
    content, if it has one, has a box that every node above [this]
    contains. *)
Lemma attach_Inv rk G st st' r this nd copt :
  WFr rk [] st → TreeInv G st r → BoxInv G st r → r < length (nodes st) →
  this ∉ G → nodes st !! this = Some nd →
  length (nodes st') = S (length (nodes st)) →
  (∀ m nd', nodes st' !! m = Some nd' →
     if decide (m = length (nodes st)) then
       content nd' = copt ∧ children nd' = [] ∧ parent nd' = Some this ∧
       (∀ e, copt = Some e → bbox nd' = getBBox e)
     else ∃ md, nodes st !! m = Some md ∧ bbox nd' = bbox md ∧
       parent nd' = parent md ∧
       if decide (m = this)
       then content nd' = None ∧ children nd' = children md ++ [length (nodes st)]
       else content nd' = content md ∧ children nd' = children md) →
  (∀ e, copt = Some e → coverOf G st r this (getBBox e)) →
  TreeInv G st' r ∧ BoxInv G st' r ∧
  (∀ t B, t ≠ length (nodes st) → coverOf G st r t B → coverOf G st' r t B) ∧
  (∀ N, N ≠ length (nodes st) → rtc (child st') N (length (nodes st)) →
     rtc (child st) N this).
Proof.
  intros Hwf Ht Hb Hr HG Hnd Hlen Hst' Hpre.
  set (f := length (nodes st)) in *.
  assert (this < f) as Hthis by by eapply lookup_lt_Some.
  assert (∀ a b, child st a b → a ≠ f ∧ b ≠ f) as Hold.
  { intros a b Hab. destruct (child_valid _ _ _ _ _ Hwf Hab). unfold f. lia. }
  assert (∀ a b, child st' a b → child st a b ∨ (a = this ∧ b = f)) as Hch'.
  { intros a b (nd' & Hnd' & Hb'). specialize (Hst' _ _ Hnd').
    case_decide as Haf.
    - destruct Hst' as (_ & Hch & _). rewrite Hch in Hb'. set_solver.
    - destruct Hst' as (md & Hmd & _ & _ & Hcase). case_decide; subst.
      + destruct Hcase as [_ Hch]. rewrite Hch in Hb'.
        apply elem_of_app in Hb' as [Hb' | ->%list_elem_of_singleton]; [|by right].
        left. by exists md.
      + destruct Hcase as [_ Hch]. rewrite Hch in Hb'. left. by exists md. }
  assert (∀ c, ¬ child st' f c) as Hfno.
  { intros c [Hc | [-> _]]%Hch'; [|lia]. by destruct (Hold _ _ Hc). }
  set (φ := λ x : ref, if decide (x = f) then this else x).
  assert (∀ a b, child st' a b → rtc (child st) (φ a) (φ b)) as Hφ.
  { intros a b [Hab | [-> ->]]%Hch'; unfold φ.
    - destruct (Hold _ _ Hab). rewrite !decide_False by done. by apply rtc_once.
    - rewrite decide_False by lia. by rewrite decide_True. }
  pose proof Ht as [H1 H2 H3 H4 H5 H6].
  assert (f ∉ G) as HfG.
  { intros Hf. apply H6 in Hf. unfold f in Hf. lia. }
  split; [split|split; [split|split]].
  - done.
  - intros q [Hq | [_ ->]]%Hch'; [by apply (H2 q)|unfold f in Hr; lia].
  - intros q c Hq [Hc | [_ ->]]%Hch'; [by apply (H3 q c)|done].
  - intros c cd q Hc Hcd Hq. specialize (Hst' _ _ Hcd). case_decide.
    + destruct Hst' as (_ & _ & Hp & _). congruence.
    + destruct Hst' as (md & Hmd & _ & Hp & _). apply (H4 c md q Hc Hmd). congruence.
  - intros p1 p2 c Hp1 Hp2 [Hc1 | [-> ->]]%Hch' [Hc2 | [-> ?]]%Hch'; subst.
    + by apply (H5 p1 p2 c).
    + by destruct (Hold _ _ Hc1).
    + by destruct (Hold _ _ Hc2).
    + done.
  - intros n Hn. apply H6 in Hn. lia.
  - intros n nd' e Hn' Hc. specialize (Hst' _ _ Hn'). case_decide.
    + destruct Hst' as (Hct & _ & _ & Hbb). apply Hbb. congruence.
    + destruct Hst' as (md & Hmd & Hbb & _ & Hcase). rewrite Hbb.
      destruct (decide (n = this)); [destruct Hcase; congruence|].
      destruct Hcase as [Hct _]. apply (b_leaf _ _ _ Hb n md e Hmd). congruence.
  - intros L e (ld' & Hld' & Hc) N ndN' HN HNr Hpath HlN.
    pose proof (Hst' _ _ Hld') as HL. pose proof (Hst' _ _ HlN) as HN'.
    pose proof (rtc_child_map _ _ φ _ _ Hφ Hpath) as Hpath0.
    destruct (decide (L = f)) as [-> | HLf]; destruct (decide (N = f)) as [-> | HNf].
    + destruct HL as (Hct & _ & _ & Hbb).
      destruct HN' as (_ & _ & _ & Hbb'). rewrite (Hbb' e) by congruence.
      apply containsRect_refl.
    + destruct HL as (Hct & _ & _ & Hbb).
      destruct HN' as (md & Hmd & Hbb' & _). rewrite Hbb'.
      unfold φ in Hpath0. rewrite decide_False, decide_True in Hpath0 by done.
      apply (Hpre e ltac:(congruence) N md); done.
    + by destruct HLf; rewrite (rtc_from_childless _ _ _ Hfno Hpath).
    + destruct HL as (ld & Hld & _ & _ & HcaseL).
      assert (L ≠ this ∧ content ld = Some e) as [HLt Hlc].
      { destruct (decide (L = this)); [destruct HcaseL; congruence|].
        destruct HcaseL. split; [done|congruence]. }
      destruct HN' as (md & Hmd & Hbb' & _). rewrite Hbb'.
      unfold φ in Hpath0. rewrite !decide_False in Hpath0 by done.
      assert (holds st L e) as Hh by by exists ld.
      apply (b_cover _ _ _ Hb L e Hh N md); done.
  - intros t B Htf Hcov N ndN' HN HNr Hpath HlN.
    pose proof (rtc_child_map _ _ φ _ _ Hφ Hpath) as Hpath0.
    pose proof (Hst' _ _ HlN) as HN'.
    destruct (decide (N = f)) as [-> | HNf].
    { by destruct Htf; rewrite (rtc_from_childless _ _ _ Hfno Hpath). }
    destruct HN' as (md & Hmd & Hbb' & _). rewrite Hbb'.
    unfold φ in Hpath0. rewrite !decide_False in Hpath0 by done.
    by apply (Hcov N md).
  - intros N HNf Hpath.
    pose proof (rtc_child_map _ _ φ _ _ Hφ Hpath) as Hpath0.
    unfold φ in Hpath0. by rewrite decide_False, decide_True in Hpath0.
Qed.

Lemma coverOf_sub G st st' r L B :
  (∀ x y, child st' x y → rtc (child st) x y) →
  (∀ n nd', nodes st' !! n = Some nd' →
     ∃ nd, nodes st !! n = Some nd ∧ bbox nd' = bbox nd) →
  coverOf G st r L B → coverOf G st' r L B.
Proof.
  intros Hsub Hl Hcov N ndN' HN HNr Hpath HlN.
  destruct (Hl _ _ HlN) as (ndN & HlN0 & ->).
  apply (Hcov N ndN); [done|done| |done]. by eapply rtc_child_sub.
Qed.

Lemma set_parents_Inv G st r g cs :
  TreeInv G st r → BoxInv G st r → g ∉ G →
  let st' := foldl (λ s child, update child (set_parent (Some g)) s) st cs in
  TreeInv G st' r ∧ BoxInv G st' r.
Proof.
  intros Ht Hb Hg st'.
  assert (Hlen : length (nodes st') = length (nodes st)) by apply length_set_parents.
  assert (Hlook : ∀ m, nodes st' !! m =
     if decide (m ∈ cs) then set_parent (Some g) <$> nodes st !! m
     else nodes st !! m) by (intros; apply lookup_set_parents).
  clearbody st'.
  assert (∀ a b, child st' a b → child st a b) as Hsub.
  { intros a b (nd' & Hnd' & Hb'). rewrite Hlook in Hnd'. case_decide.
    - apply fmap_Some in Hnd' as (md & Hmd & ->). by exists md.
    - by exists nd'. }
  destruct Ht as [H1 H2 H3 H4 H5 H6]. split; [split|].
  - done.
  - intros q Hq. by apply (H2 q), Hsub.
  - intros q c Hq Hc. by apply (H3 q c Hq), Hsub.
  - intros c cd q Hc. rewrite Hlook. case_decide.
    + intros (md & Hmd & ->)%fmap_Some. simpl. by intros [= <-].
    + by apply H4.
  - intros p1 p2 c Hp1 Hp2 Hc1 Hc2. apply (H5 p1 p2 c Hp1 Hp2); by apply Hsub.
  - intros n Hn. rewrite Hlen. by apply H6.
  - eapply (BoxInv_sub G); [done| | |exact Hb].
    + intros x y Hxy. by apply rtc_once, Hsub.
    + intros n nd'. rewrite Hlook. case_decide.
      * intros (md & Hmd & ->)%fmap_Some. exists md. split; [done|].
        split; [done|by left].
      * intros Hn. exists nd'. split; [done|]. split; [done|by left].
Qed.

(** The children of [this] move under a new node [g], beside a new
    node [f]; once the box of [g] is computed the boxes are in order. *)
Lemma split_Inv rk G st r this nd :
  WFr rk [] st → TreeInv G st r → BoxInv G st r → r < length (nodes st) →
  this ∉ G → nodes st !! this = Some nd → content nd = None →
  let f := length (nodes st) in
  let g := S (length (nodes st)) in
  let st1 := (new_ImageNode (Some this) st).2 in
  let st2 := (new_ImageNode (Some this) st1).2 in
  let st' := update this (set_children [f; g])
               (update g (set_children (children nd)) st2) in
  TreeInv G st' r ∧
  (∀ gd bbg, nodes st' !! g = Some gd → computeBBox st' gd = Some bbg →
     BoxInv G (update g (set_bbox bbg) st') r) ∧
  (∀ B, coverOf G st r this B →
     ∀ N ndN, N ∉ G → N ≠ r → N ≠ g → rtc (child st') N g →
       nodes st' !! N = Some ndN → rect_containsRect (bbox ndN) B = true) ∧
  (∀ st3 B, shapeEq st' st3 → coversAbove G st3 r g B →
     coversAbove G
       (foldl (λ s child, update child (set_parent (Some g)) s) st3 (children nd))
       r f B).
Proof.
  intros Hwf Ht Hb Hr HG Hnd Hc f g st1 st2 st'.
  assert (this < length (nodes st)) as Hthis by by eapply lookup_lt_Some.
  assert (Hlen : length (nodes st') = S (S (length (nodes st)))).
  { unfold st', st2, st1. by rewrite !length_update, !length_new_ImageNode. }
  assert (Hlook : ∀ m, nodes st' !! m =
     if decide (m = this) then Some (set_children [f; g] nd)
     else if decide (m = g) then
       Some (mkImageNode None rect_empty (children nd) (Some this) (S (idCounter st)))
     else if decide (m = f) then
       Some (mkImageNode None rect_empty [] (Some this) (idCounter st))
     else nodes st !! m).
  { intros m. unfold st', st2, st1.
    rewrite !lookup_update, !lookup_new_ImageNode, !length_new_ImageNode.
    fold f g. repeat case_decide; simplify_eq; try lia; rewrite ?Hnd; done. }
  clearbody st'.
  assert (∀ a b, child st a b → a < f ∧ b < f) as Hold.
  { intros a b Hab. by destruct (child_valid _ _ _ _ _ Hwf Hab). }
  assert (∀ c, c ∈ children nd → child st this c) as Htc by (intros c Hin; by exists nd).
  assert (∀ a b, child st' a b →
            (a = this ∧ (b = f ∨ b = g)) ∨ (a = g ∧ b ∈ children nd) ∨
            (a ≠ this ∧ a ≠ g ∧ child st a b)) as Hch'.
  { intros a b (nd' & Hnd' & Hb'). rewrite Hlook in Hnd'.
    repeat case_decide; simplify_eq; simpl in Hb'.
    - left. set_solver.
    - right. by left.
    - set_solver.
    - right. right. split; [done|]. split; [done|]. by exists nd'. }
  set (φ := λ x : ref, if decide (x < f) then x else this).
  assert (∀ a b, child st' a b → rtc (child st) (φ a) (φ b)) as Hφ.
  { intros a b [[-> Hb'] | [[-> Hb'] | (_ & _ & Hab)]]%Hch'; unfold φ.
    - rewrite decide_True by done. rewrite decide_False; [done|].
      unfold g, f in *. destruct Hb' as [-> | ->]; lia.
    - rewrite decide_False by (unfold g, f; lia).
      destruct (Hold _ _ (Htc _ Hb')). rewrite decide_True by done.
      by apply rtc_once, Htc.
    - destruct (Hold _ _ Hab). rewrite !decide_True by done. by apply rtc_once. }
  pose proof Ht as [H1 H2 H3 H4 H5 H6].
  assert (f ∉ G) as HfG by (intros Hf; apply H6 in Hf; unfold f in Hf; lia).
  assert (g ∉ G) as HgG by (intros Hf; apply H6 in Hf; unfold g in Hf; lia).
  assert (TreeInv G st' r) as Ht'.
  { split.
    - done.
    - intros q [[_ [-> | ->]] | [[_ Hq] | (_ & _ & Hq)]]%Hch'.
      + unfold f in Hr. lia.
      + unfold g in Hr. lia.
      + by apply (H2 this), Htc.
      + by apply (H2 q).
    - intros q c Hq [[_ [-> | ->]] | [[_ Hq'] | (_ & _ & Hq')]]%Hch'; try done.
      + by apply (H3 this c HG), Htc.
      + by apply (H3 q c).
    - intros c cd q Hcg. rewrite Hlook. repeat case_decide; simplify_eq.
      + intros [= <-]. simpl. by apply (H4 this nd).
      + intros [= <-]. simpl. by intros [= <-].
      + intros [= <-]. simpl. by intros [= <-].
      + by apply (H4 c cd).
    - intros p1 p2 c Hp1 Hp2
        [[-> Hc1] | [[-> Hc1] | (Hn1 & Hn1' & Hc1)]]%Hch'
        [[-> Hc2] | [[-> Hc2] | (Hn2 & Hn2' & Hc2)]]%Hch'; try done.
      + destruct (Hold _ _ (Htc _ Hc2)). unfold g, f in *.
        destruct Hc1 as [-> | ->]; lia.
      + destruct (Hold _ _ Hc2). unfold g, f in *. destruct Hc1 as [-> | ->]; lia.
      + destruct (Hold _ _ (Htc _ Hc1)). unfold g, f in *.
        destruct Hc2 as [-> | ->]; lia.
      + destruct Hn2. by apply (H5 p2 this c Hp2 HG), Htc.
      + destruct (Hold _ _ Hc1). unfold g, f in *. destruct Hc2 as [-> | ->]; lia.
      + destruct Hn1. by apply (H5 p1 this c Hp1 HG), Htc.
      + by apply (H5 p1 p2 c).
    - intros n Hn. apply H6 in Hn. lia. }
  assert (∀ c, c ∈ children nd → ¬ rtc (child st') c this) as Hcyc.
  { intros c Hin Hpath. pose proof (rtc_child_map _ _ φ _ _ Hφ Hpath) as Hpath0.
    destruct (Hold _ _ (Htc _ Hin)). unfold φ in Hpath0.
    rewrite !decide_True in Hpath0 by done.
    destruct (child_rank _ _ _ _ _ Hwf (Htc _ Hin)).
    destruct (rtc_child_rank _ _ _ _ _ Hwf Hpath0) as [-> | ?]; lia. }
  assert (child st' this f ∧ child st' this g) as [Htf Htg].
  { split; (eexists; split; [by rewrite Hlook, decide_True|]); simpl; set_solver. }
  assert (∀ q b, (b = f ∨ b = g) → child st' q b → q = this) as Hfg.
  { intros q b Hb' [[-> _] | [[_ Hq] | (_ & _ & Hq)]]%Hch'; [done| |].
    - destruct (Hold _ _ (Htc _ Hq)). unfold g, f in *. destruct Hb' as [-> | ->]; lia.
    - destruct (Hold _ _ Hq). unfold g, f in *. destruct Hb' as [-> | ->]; lia. }
  split; [done|]. split; [|split].
  2:{ intros B Hcov N ndN HN HNr HNg Hpath HlN.
      pose proof (rtc_child_map _ _ φ _ _ Hφ Hpath) as Hpath0.
      unfold φ in Hpath0 at 2. rewrite decide_False in Hpath0 by (unfold g, f; lia).
      rewrite Hlook in HlN.
      destruct (decide (N = this)) as [-> | ?]; [injection HlN as <-|
        destruct (decide (N = g)) as [-> | ?]; [done|
          destruct (decide (N = f)) as [-> | ?]; [injection HlN as <-|]]].
      - unfold φ in Hpath0. rewrite decide_True in Hpath0 by done.
        by apply (Hcov this nd).
      - apply rtc_inv in Hpath as [Heq | (c & Hfc & _)]; [unfold g, f in *; lia|].
        apply Hch' in Hfc as [[? _] | [[? _] | (_ & _ & Hfc)]];
          [unfold f in *; lia|unfold g, f in *; lia|].
        destruct (Hold _ _ Hfc). lia.
      - assert (N < f) as HNf by by eapply lookup_lt_Some.
        unfold φ in Hpath0. rewrite decide_True in Hpath0 by done.
        by apply (Hcov N ndN). }
  2:{ intros st3 B Hs3 Hcov3. set (st4 := foldl _ st3 _).
      assert (Hlook4 : ∀ m, nodes st4 !! m =
         if decide (m ∈ children nd) then set_parent (Some g) <$> nodes st3 !! m
         else nodes st3 !! m) by (intros; apply lookup_set_parents).
      clearbody st4.
      assert (∀ m nd4, nodes st4 !! m = Some nd4 →
                ∃ nd3, nodes st3 !! m = Some nd3 ∧ bbox nd4 = bbox nd3 ∧
                  children nd4 = children nd3 ∧ content nd4 = content nd3) as H43.
      { intros m nd4. rewrite Hlook4. case_decide.
        - intros (nd3 & Hnd3 & ->)%fmap_Some. by exists nd3.
        - intros Hnd3. by exists nd4. }
      assert (∀ m nd3, nodes st3 !! m = Some nd3 →
                ∃ nd4, nodes st4 !! m = Some nd4 ∧ bbox nd4 = bbox nd3 ∧
                  children nd4 = children nd3) as H34.
      { intros m nd3 Hnd3. rewrite Hlook4, Hnd3. case_decide; eexists; done. }
      assert (∀ a b, child st4 a b → child st' a b) as Hc4.
      { intros a b (nd4 & Hnd4 & Hb'). destruct (H43 _ _ Hnd4) as (nd3 & Hnd3 & _ & Hch & _).
        apply (child_shapeEq _ _ _ _ Hs3). exists nd3. split; [done|]. by rewrite <- Hch. }
      assert (∀ a b, child st' a b → child st4 a b) as Hc4'.
      { intros a b (nd3 & Hnd3 & Hb')%(child_shapeEq _ _ _ _ Hs3).
        destruct (H34 _ _ Hnd3) as (nd4 & Hnd4 & _ & Hch).
        exists nd4. split; [done|]. by rewrite Hch. }
      intros N ndN4 HN HNr HNf Hpath HlN4.
      assert (rtc (child st') N f) as Hpath'
        by (eapply rtc_child_sub; [|exact Hpath]; intros; by apply rtc_once, Hc4).
      assert (rtc (child st') N this) as HNthis.
      { apply rtc_inv_r in Hpath' as [-> | (q & HNq & Hqf)]; [done|].
        by rewrite <- (Hfg q f (or_introl eq_refl) Hqf). }
      destruct (H43 _ _ HlN4) as (ndN3 & HlN3 & Hbb & Hchn & Hctn).
      assert (computeBBox st4 ndN4 = computeBBox st3 ndN3) as Hcomp.
      { rewrite (computeBBox_children st4 ndN3 ndN4) by done.
        apply computeBBox_ext. intros c _. rewrite Hlook4.
        case_decide; [|done]. by destruct (nodes st3 !! c). }
      assert (N ≠ g) as HNg.
      { intros ->. apply rtc_inv in HNthis as [Heq | (c & Hgc & Hcth)];
          [unfold g in *; lia|].
        apply Hch' in Hgc as [[? _] | [[_ Hin] | (_ & ? & _)]]; [unfold g in *; lia| |done].
        by apply (Hcyc c). }
      assert (rtc (child st3) N g) as HNg3.
      { apply (rtc_child_shapeEq _ _ _ _ Hs3). etrans; [exact HNthis|]. by apply rtc_once. }
      destruct (Hcov3 N ndN3 HN HNr HNg HNg3 HlN3)
        as [Hl | (Hexact & c & cd3 & Hc1 & Hc2 & Hc3 & Hc4p)].
      { left. by rewrite Hbb. }
      right. split; [by rewrite Hcomp, Hbb|].
      destruct (decide (N = this)) as [-> | HNt].
      - assert (nodes st' !! f = Some (mkImageNode None rect_empty [] (Some this)
                                          (idCounter st))) as Hf'.
        { rewrite Hlook. unfold g, f in *. rewrite !decide_False by lia.
          by rewrite decide_True. }
        destruct (shapeEq_lookup _ _ _ _ Hs3 Hf') as (fd3 & Hfd3 & _ & _ & Hfp).
        exists f, fd3. split; [by apply Hc4'|]. split; [done|]. split; [|done].
        rewrite Hlook4, decide_False; [done|].
        intros Hin. destruct (Hold _ _ (Htc _ Hin)). lia.
      - assert (c ≠ g) as Hcg.
        { intros ->. apply HNt. apply (Hfg N g (or_intror eq_refl)).
          by apply (child_shapeEq _ _ _ _ Hs3). }
        assert (rtc (child st') c this) as Hcthis.
        { apply (rtc_child_shapeEq _ _ _ _ Hs3) in Hc2.
          apply rtc_inv_r in Hc2 as [-> | (q & Hcq & Hqg)]; [done|].
          by rewrite <- (Hfg q g (or_intror eq_refl) Hqg). }
        exists c, cd3. split; [by apply Hc4', (child_shapeEq _ _ _ _ Hs3)|].
        split; [|split; [|done]].
        + eapply rtc_child_sub; [|etrans; [exact Hcthis|by apply rtc_once]].
          intros; by apply rtc_once, Hc4'.
        + rewrite Hlook4, decide_False; [done|]. intros Hin. by apply (Hcyc c). }
  intros gd bbg Hgd Hbbg.
  rewrite Hlook in Hgd. rewrite decide_False in Hgd by (unfold g; lia).
  rewrite decide_True in Hgd by done. injection Hgd as <-.
  pose proof (shapeEq_set_bbox st' g bbg) as Hs.
  assert (Hlook3 : ∀ m, nodes (update g (set_bbox bbg) st') !! m =
     if decide (m = this) then Some (set_children [f; g] nd)
     else if decide (m = g) then
       Some (mkImageNode None bbg (children nd) (Some this) (S (idCounter st)))
     else if decide (m = f) then
       Some (mkImageNode None rect_empty [] (Some this) (idCounter st))
     else nodes st !! m).
  { intros m. rewrite lookup_update, Hlook.
    destruct (decide (m = g)) as [-> | ?]; [|done].
    rewrite !decide_False by (unfold g; lia). done. }
  split.
  - intros n nd' e. rewrite Hlook3.
    destruct (decide (n = this)) as [-> | ?]; [intros [= <-]; simpl; congruence|].
    destruct (decide (n = g)) as [-> | ?]; [by intros [= <-]|].
    destruct (decide (n = f)) as [-> | ?]; [by intros [= <-]|].
    apply (b_leaf _ _ _ Hb).
  - intros L e (ld' & Hld' & Hce) N ndN' HN HNr Hpath HlN.
    apply (rtc_child_shapeEq _ _ _ _ Hs) in Hpath.
    assert (holds st L e ∧ L < f) as [Hh HLf].
    { rewrite Hlook3 in Hld'.
      destruct (decide (L = this)) as [-> | ?];
        [injection Hld' as <-; simpl in Hce; congruence|].
      destruct (decide (L = g)) as [-> | ?]; [by injection Hld' as <-|].
      destruct (decide (L = f)) as [-> | ?]; [by injection Hld' as <-|].
      split; [by exists ld'|]. by eapply lookup_lt_Some. }
    pose proof (rtc_child_map _ _ φ _ _ Hφ Hpath) as Hpath0.
    unfold φ in Hpath0 at 2. rewrite decide_True in Hpath0 by done.
    rewrite Hlook3 in HlN.
    destruct (decide (N = this)) as [-> | ?]; [injection HlN as <-|
      destruct (decide (N = g)) as [-> | ?]; [injection HlN as <-|
        destruct (decide (N = f)) as [-> | ?]; [injection HlN as <-|]]].
    + unfold φ in Hpath0. rewrite decide_True in Hpath0 by done.
      apply (b_cover _ _ _ Hb L e Hh this nd); done.
    + simpl. apply rtc_inv in Hpath as [Heq | (c & Hgc & HcL)];
        [rewrite <- Heq in HLf; unfold g in HLf; lia|].
      apply Hch' in Hgc as [[? _] | [[_ Hin] | (_ & ? & _)]]; [done| |done].
      destruct (Hold _ _ (Htc _ Hin)) as [_ Hcf].
      destruct (lookup_lt_is_Some_2 (nodes st) c Hcf) as [cd Hcd].
      assert (c ≠ this) as Hct.
      { intros ->. destruct (child_rank _ _ _ _ _ Hwf (Htc _ Hin)). lia. }
      assert (nodes st' !! c = Some cd) as Hcd'.
      { rewrite Hlook. unfold g, f in *. rewrite !decide_False by lia. done. }
      eapply containsRect_trans;
        [by eapply (computeBBox_contains_child st' _ bbg c cd); [|exact Hbbg| |]|].
      pose proof (rtc_child_map _ _ φ _ _ Hφ HcL) as HcL0.
      unfold φ in HcL0. rewrite !decide_True in HcL0 by done.
      apply (b_cover _ _ _ Hb L e Hh c cd); [|by eapply child_not_root, Htc|done|done].
      by apply (H3 this c HG), Htc.
    + apply rtc_inv in Hpath as [Heq | (c & Hfc & _)];
        [rewrite <- Heq in HLf; unfold f in HLf; lia|].
      apply Hch' in Hfc as [[? _] | [[? _] | (_ & _ & Hfc)]];
        [unfold f in *; lia|unfold g, f in *; lia|].
      destruct (Hold _ _ Hfc). lia.
    + assert (N < f) as HNf by by eapply lookup_lt_Some.
      unfold φ in Hpath0. rewrite decide_True in Hpath0 by done.
      apply (b_cover _ _ _ Hb L e Hh N ndN'); done.
Qed.

End TreeGrowth.

Section RebalanceSound.

(** *** [rebalance] *)

Context {R : Type} `{Rect2 R} `{!Rect2Laws R}.
Local Opaque update pushChild onContentChange new_ImageNode.
Implicit Types (st : Store R) (nd : ImageNode R) (n m this c p : ref).
Implicit Types (G : list ref).

Lemma leafContent_update st n (f : ImageNode R → ImageNode R) m :
  (∀ nd, content (f nd) = content nd) →
  leafContent (update n f st) m = leafContent st m.
Proof.
  intros Hf. unfold leafContent. rewrite lookup_update. case_decide; [|done].
  destruct (nodes st !! m); simpl; [apply Hf|done].
Qed.

Lemma leafContent_pushChild st this c m :
  leafContent (pushChild this c st) m = leafContent st m.
Proof.
  unfold leafContent. rewrite lookup_pushChild. case_decide; [|done].
  by destruct (nodes st !! m).
Qed.

Lemma leafContent_set_parents st p cs m :
  leafContent (foldl (λ s child, update child (set_parent (Some p)) s) st cs) m
  = leafContent st m.
Proof.
  unfold leafContent. rewrite lookup_set_parents. case_decide; [|done].
  by destruct (nodes st !! m).
Qed.

Lemma leafContent_shapeEq st st' m :
  shapeEq st st' → leafContent st' m = leafContent st m.
Proof.
  intros Hs. unfold leafContent.
  destruct (nodes st !! m) as [nd|] eqn:Hn.
  - destruct (shapeEq_lookup _ _ _ _ Hs Hn) as (nd' & -> & Hc & _). done.
  - destruct (nodes st' !! m) as [nd'|] eqn:Hn'; [|done].
    destruct Hs as [_ Hs]. destruct (Hs _ _ Hn') as (nd & Hnd & _). congruence.
Qed.

(** [rebalance] keeps the tree and the boxes in order; a node it merges
    into its parent leaves the tree, and that node has no content. *)
Lemma rebalance_Inv rk ex G st r this st' :
  WFr rk ex st → leavingParent rk ex st → (∀ e, e ∈ ex → e ∈ G) →
  TreeInv G st r → BoxInv G st r → this ∉ G →
  rebalance this st = Some st' →
  ∃ G', TreeInv G' st' r ∧ BoxInv G' st' r ∧ (∀ n, n ∈ G → n ∈ G') ∧
    (leafContent st this ≠ None → G' = G) ∧
    (∀ n, leafContent st' n = leafContent st n).
Proof.
  intros Hwf Hlv HexG Ht Hb HG. unfold rebalance.
  assert (this ∉ ex) as Hnex by (intros Hx; by apply HG, HexG).
  destruct (nodes st !! this) as [nd|] eqn:Hnd; [|done]. simpl.
  destruct (parent nd) as [p|] eqn:Hpar.
  2:{ intros [= <-]. by exists G. }
  destruct (ok_parent _ _ _ _ _ (Hwf _ _ Hnd) p Hpar) as [Hpl Hk].
  destruct (Hk Hnex) as (pnd & Hpnd & Hin). rewrite Hpnd. simpl.
  case_bool_decide as Hlen1.
  2:{ intros [= <-]. by exists G. }
  pose proof (singleton_of_length_1 _ _ Hin Hlen1) as Hch.
  destruct (parent pnd) as [gp|] eqn:Hgp.
  - assert (p ∉ ex) as Hpex.
    { intros Hx. destruct (Hlv _ _ Hx Hpnd) as [Hnil _]. congruence. }
    destruct (ok_parent _ _ _ _ _ (Hwf _ _ Hpnd) gp Hgp) as [Hgl Hgk].
    destruct (Hgk Hpex) as (gpnd & Hgpnd & Hpin).
    pose proof (rebalance_lift_WFr rk ex st this nd p pnd gp gpnd
                  Hwf Hlv Hnex Hnd Hpar Hpnd Hch Hgp Hgpnd Hpin) as Hwf'.
    pose proof (rebalance_lift_Inv rk ex G st r this nd p pnd gp gpnd
                  Hwf Ht Hb HG Hnd Hpar Hpnd Hch Hgp Hgpnd Hpin) as Hinv'.
    simpl in Hwf', Hinv'.
    set (stL := update p _ _) in *.
    assert (∀ n, leafContent stL n = leafContent st n) as HlcL.
    { intros n. unfold stL.
      rewrite leafContent_update, leafContent_pushChild, !leafContent_update; done. }
    clearbody stL. destruct Hwf' as [Hwf' _]. destruct Hinv' as [Ht' Hb'].
    intros Hr. destruct (recomputeBBox_shapeEq _ _ _ _ _ Hr) as [Hs _].
    exists G. split; [by eapply TreeInv_shapeEq|].
    split; [by eapply recomputeBBox_BoxInv|]. split; [done|]. split; [done|].
    intros n. by rewrite (leafContent_shapeEq _ _ _ Hs).
  - destruct (content nd) eqn:Hc.
    { intros [= <-]. by exists G. }
    unfold updateParents. rewrite lookup_update.
    rewrite decide_True by done. rewrite Hpnd. simpl. intros [= <-].
    destruct (rebalance_absorb_Inv rk ex G st r this nd p pnd) as [Ht' Hb']; try done.
    exists (this :: G). split; [done|]. split; [done|].
    split; [intros n Hn; by right|]. split.
    + unfold leafContent. rewrite Hnd. simpl. by rewrite Hc.
    + intros n. by rewrite leafContent_update, leafContent_set_parents,
        leafContent_update.
Qed.

End RebalanceSound.

Section AddLeafBlocksSound.

(** *** The blocks of [addLeaf] *)

Context {R : Type} `{Rect2 R} `{!Rect2Laws R}.
Local Opaque update pushChild onContentChange new_ImageNode.
Implicit Types (st : Store R) (nd : ImageNode R) (n m this c p : ref).
Implicit Types (G : list ref).

Lemma addLeaf_unfold fuel this (leaf : AbstractComponent R) st :
  addLeaf (S fuel) this leaf st =
  (let st := onContentChange this st in
   nd ← nodes st !! this;
   if isEmptyNode nd then
     st ← recomputeBBox fuel this true (update this (set_content (Some leaf)) st);
     Some (this, st)
   else
     st ← pushDownContent fuel this nd st;
     nd ← nodes st !! this;
     if rect_containsRect (getBBox leaf) (bbox nd) then
       '(nodeForNewLeaf, st) ← makeRoomForLeaf fuel this nd st;
       addLeaf fuel nodeForNewLeaf leaf st
     else
       containing ← containingNodes st nd leaf;
       if bool_decide (0 < length containing)
          && bool_decide (targetChildCount ≤ length (children nd))
       then
         first ← head (sortByArea st containing);
         '(result, st) ← addLeaf fuel first leaf st;
         st ← rebalance result st;
         Some (result, st)
       else appendLeaf fuel this leaf st).
Proof. done. Qed.

(** [addLeaf] on a node without content and without children: the
    boxes above the node are brought up to date as far as they change. *)
Lemma addLeaf_empty_Inv rk G st r this nd leaf fuel res st' :
  WFr rk [] st → TreeInv G st r → BoxInv G st r → this ∉ G →
  nodes st !! this = Some nd → content nd = None → children nd = [] →
  coversAbove G st r this (getBBox leaf) →
  addLeaf fuel this leaf st = Some (res, st') →
  TreeInv G st' r ∧ BoxInv G st' r ∧ holds st' this leaf ∧ res = this.
Proof.
  intros Hwf Ht Hb HG Hnd Hc Hch Hcov.
  destruct fuel as [|fuel]; [intros Ha; discriminate Ha|].
  rewrite addLeaf_unfold. cbv zeta.
  set (st1 := onContentChange this st).
  assert (nodes st1 !! this = Some (set_node_id (idCounter st) nd)) as Hnd1.
  { unfold st1. rewrite lookup_onContentChange, decide_True by done. by rewrite Hnd. }
  rewrite Hnd1. simpl. rewrite isEmptyNode_set_node_id.
  rewrite (proj2 (isEmptyNode_true nd)) by done.
  set (st5 := update this (set_content (Some leaf)) st1).
  destruct (recomputeBBox fuel this true st5) as [st''|] eqn:Hr; [|done].
  simpl. intros [= <- <-].
  set (nd5 := set_content (Some leaf) (set_node_id (idCounter st) nd)).
  assert (Hlook5 : ∀ m, nodes st5 !! m =
            if decide (m = this) then Some nd5 else nodes st !! m).
  { intros m. unfold st5, st1. rewrite lookup_update, lookup_onContentChange.
    case_decide; subst; [by rewrite Hnd|done]. }
  assert (WFr rk [] st5) as Hwf5.
  { eapply set_content_WFr; [by apply WFr_onContentChange|done|done]. }
  assert (length (nodes st5) = length (nodes st)) as Hlen5.
  { unfold st5, st1. by rewrite length_update, length_onContentChange. }
  clearbody st5. clear Hnd1. clearbody st1.
  assert (∀ a b, child st5 a b ↔ child st a b) as Hc5.
  { intros a b. split.
    - intros (nd' & Hnd' & Hb'). rewrite Hlook5 in Hnd'. case_decide; simplify_eq.
      + by exists nd.
      + by exists nd'.
    - intros (nd' & Hnd' & Hb'). destruct (decide (a = this)) as [-> | Hne].
      + simplify_eq. rewrite Hch in Hb'. set_solver.
      + exists nd'. by rewrite Hlook5, decide_False. }
  assert (∀ a b, rtc (child st5) a b ↔ rtc (child st) a b) as Hrtc5.
  { intros a b. split; apply rtc_child_sub; intros x y Hxy; apply rtc_once;
      by apply Hc5. }
  assert (∀ m, bbox <$> nodes st5 !! m = bbox <$> nodes st !! m) as Hbb5.
  { intros m. rewrite Hlook5. case_decide; subst; [by rewrite Hnd|done]. }
  assert (TreeInv G st5 r) as Ht5.
  { eapply TreeInv_links; [done| |done]. intros n nd'. rewrite Hlook5.
    case_decide; subst.
    - intros [= <-]. exists nd. split; [done|]. split; [done|by left].
    - intros Hn. exists nd'. split; [done|]. split; [done|by left]. }
  assert (coversAbove G st5 r this (getBBox leaf)) as Hcov5.
  { intros N ndN HN HNr HNt Hpath. rewrite Hlook5, decide_False by done. intros HlN.
    destruct (Hcov N ndN HN HNr HNt (proj1 (Hrtc5 _ _) Hpath) HlN)
      as [Hl | (Hexact & c & cd & Hc1 & Hc2 & Hc3 & Hc4)]; [by left|].
    right. split.
    - rewrite <- Hexact. by apply computeBBox_ext.
    - destruct (decide (c = this)) as [-> | Hct].
      + simplify_eq. exists this, nd5. split; [by apply Hc5|]. split; [done|].
        split; [by rewrite Hlook5, decide_True|done].
      + exists c, cd. split; [by apply Hc5|]. split; [by apply Hrtc5|].
        split; [|done]. by rewrite Hlook5, decide_False. }
  assert (nodes st5 !! this = Some nd5) as Hnd5 by by rewrite Hlook5, decide_True.
  assert (computeBBox st5 nd5 = Some (getBBox leaf)) as Hcomp by done.
  pose proof (recomputeBBox_covers rk [] G r (getBBox leaf) fuel st5 this st'' nd5
                (getBBox leaf) Hwf5 ltac:(set_solver) Ht5 HG Hr Hnd5 Hcomp
                (containsRect_refl _) Hcov5) as Hcovers.
  destruct (recomputeBBox_shapeEq _ _ _ _ _ Hr) as [Hs _].
  assert (holds st5 this leaf) as Hh5 by by exists nd5.
  split; [by eapply TreeInv_shapeEq|]. split; [|split; [|done]].
  2:{ by apply (holds_shapeEq _ _ _ _ Hs). }
  split.
  - eapply recomputeBBox_b_leaf; [exact Hr|].
    intros n nd' e Hne. rewrite Hlook5, decide_False by done.
    apply (b_leaf _ _ _ Hb).
  - intros L e Hl. apply (holds_shapeEq _ _ _ _ Hs) in Hl.
    destruct (decide (L = this)) as [-> | HLt].
    + rewrite (holds_inj _ _ _ _ Hl Hh5). exact Hcovers.
    + eapply recomputeBBox_coverOf; [exact Hwf5|exact Ht5|exact Hr|exact Hl|].
      assert (holds st L e) as Hl0.
      { destruct Hl as (ld & Hld & Hce). rewrite Hlook5, decide_False in Hld by done.
        by exists ld. }
      eapply coverOf_sub; [| |by apply (b_cover _ _ _ Hb)].
      * intros x y Hxy. by apply rtc_once, Hc5.
      * intros n nd'. rewrite Hlook5. case_decide; subst.
        -- intros [= <-]. by exists nd.
        -- intros Hn. by exists nd'.
Qed.

(** The content of a leaf moved into a new child. *)
Lemma pushDownContent_Inv rk G st r this nd fuel st' :
  WFr rk [] st → TreeInv G st r → BoxInv G st r → r < length (nodes st) →
  this ∉ G → nodes st !! this = Some nd →
  pushDownContent fuel this nd st = Some st' →
  TreeInv G st' r ∧ BoxInv G st' r ∧
  (∀ t B, t < length (nodes st) → coverOf G st r t B → coverOf G st' r t B).
Proof.
  intros Hwf Ht Hb Hr HG Hnd. unfold pushDownContent.
  assert (this < length (nodes st)) as Hthis by by eapply lookup_lt_Some.
  destruct (content nd) as [c|] eqn:Hc.
  2:{ intros [= <-]. done. }
  rewrite new_ImageNode_eq.
  set (cn := length (nodes st)).
  set (st4 := pushChild this cn _).
  assert (nodes st4 !! cn
          = Some (mkImageNode (Some c) rect_empty [] (Some this) (idCounter st))) as Hcn.
  { unfold st4. store_lookup. fold cn. rewrite decide_False by lia.
    rewrite decide_False by lia. by rewrite !decide_True by done. }
  intros (cnd & bb & Hcn' & Hbb & ->)%recomputeBBox_false.
  rewrite Hcn in Hcn'. injection Hcn' as <-.
  assert (bb = getBBox c) as -> by (by injection Hbb).
  destruct (attach_Inv rk G st (update cn (set_bbox (getBBox c)) st4) r this nd (Some c)
              Hwf Ht Hb Hr HG Hnd) as (Ht' & Hb' & Hcov' & _).
  - unfold st4. by store_lookup.
  - intros m nd'. unfold st4. store_lookup. fold cn.
    repeat case_decide; simplify_eq; try lia.
    + intros [= <-]. simpl. repeat split. by intros e [= <-].
    + rewrite Hnd. intros [= <-]. exists nd. done.
    + intros Hm. exists nd'. done.
  - intros e [= <-]. apply (b_cover _ _ _ Hb this c). by exists nd.
  - split; [done|]. split; [done|]. intros t B Htl. apply Hcov'. lia.
Qed.

(** A new last child that holds the leaf. *)
Lemma appendLeaf_Inv rk G st r this nd leaf fuel res st' :
  WFr rk [] st → TreeInv G st r → BoxInv G st r → r < length (nodes st) →
  this ∉ G → nodes st !! this = Some nd → content nd = None →
  coverOf G st r this (getBBox leaf) →
  appendLeaf fuel this leaf st = Some (res, st') →
  TreeInv G st' r ∧ BoxInv G st' r ∧ holds st' res leaf ∧ res ∉ G.
Proof.
  intros Hwf Ht Hb Hr HG Hnd Hc Hcov. unfold appendLeaf.
  assert (this < length (nodes st)) as Hthis by by eapply lookup_lt_Some.
  rewrite new_ImageNode_eq.
  set (f := length (nodes st)).
  set (st3 := update f _ _).
  destruct (recomputeBBox fuel f true st3) as [st''|] eqn:Hrc; [|done].
  simpl. intros [= <- <-].
  assert (length (nodes st3) = S (length (nodes st))) as Hlen.
  { unfold st3. by store_lookup. }
  assert (WFr (λ x, if decide (x = f) then 0 else S (rk x)) [] st3) as Hwf3.
  { eapply (attach_WFr rk st st3 this nd (Some leaf)); [done|done|done|].
    intros m nd'. unfold st3. store_lookup. fold f.
    repeat case_decide; simplify_eq; try lia.
    + intros [= <-]. done.
    + rewrite Hnd. intros [= <-]. done.
    + intros Hm. exists nd'. by repeat split. }
  assert (nodes st3 !! f
          = Some (mkImageNode (Some leaf) rect_empty [] (Some this) (idCounter st))) as Hf3.
  { unfold st3. store_lookup. fold f. rewrite decide_True by done.
    rewrite decide_False by lia. by rewrite !decide_True by done. }
  destruct (recomputeBBox_step _ _ _ _ Hrc)
    as (fuel' & fd & bb & -> & Hfd & Hbb & Hcase).
  rewrite Hf3 in Hfd. injection Hfd as <-.
  assert (bb = getBBox leaf) as -> by (by injection Hbb).
  destruct (attach_Inv rk G st (update f (set_bbox (getBBox leaf)) st3) r this nd
              (Some leaf) Hwf Ht Hb Hr HG Hnd) as (Ht' & Hb' & _ & _).
  { by rewrite length_update. }
  { intros m nd'. unfold st3. store_lookup. fold f.
    repeat case_decide; simplify_eq; try lia.
    + intros [= <-]. simpl. repeat split. by intros e [= <-].
    + rewrite Hnd. intros [= <-]. exists nd. simpl. by rewrite Hc.
    + intros Hm. exists nd'. done. }
  { by intros e [= <-]. }
  pose proof (shapeEq_set_bbox st3 f (getBBox leaf)) as Hs1.
  destruct (recomputeBBox_shapeEq _ _ _ _ _ Hrc) as [Hs _].
  assert (f ∉ G) as HfG.
  { intros Hf. apply (t_valid _ _ _ Ht) in Hf. unfold f in Hf. lia. }
  assert (holds st'' f leaf) as Hh.
  { apply (holds_shapeEq _ _ _ _ Hs). eexists. split; [exact Hf3|done]. }
  destruct Hcase as [[_ ->] | (p & Hp & _ & Hr')]; [done|].
  destruct (recomputeBBox_shapeEq _ _ _ _ _ Hr') as [Hs' _].
  split; [by eapply TreeInv_shapeEq|]. split; [|done].
  eapply recomputeBBox_BoxInv; [| | |exact Hr']; [|done|done].
  eapply WFr_shapeEq; [exact Hs1|exact Hwf3].
Qed.

(** A new child for the leaf, beside the children of the node or beside
    one new node that takes them all. *)
Lemma makeRoomForLeaf_Inv rk G st r this nd fuel f st' B :
  WFr rk [] st → TreeInv G st r → BoxInv G st r → r < length (nodes st) →
  this ∉ G → nodes st !! this = Some nd → content nd = None →
  coverOf G st r this B →
  makeRoomForLeaf fuel this nd st = Some (f, st') →
  TreeInv G st' r ∧ BoxInv G st' r ∧ coversAbove G st' r f B ∧
  (f ∉ G) ∧ f = length (nodes st).
Proof.
  intros Hwf Ht Hb Hr HG Hnd Hc Hcov. unfold makeRoomForLeaf.
  assert (this < length (nodes st)) as Hthis by by eapply lookup_lt_Some.
  rewrite new_ImageNode_eq.
  set (f0 := length (nodes st)).
  assert (f0 ∉ G) as HfG.
  { intros Hf. apply (t_valid _ _ _ Ht) in Hf. unfold f0 in Hf. lia. }
  case_bool_decide as Hfew.
  - simpl. intros [= <- <-].
    set (st' := pushChild this f0 _).
    assert (Hspec : ∀ m nd', nodes st' !! m = Some nd' →
       if decide (m = length (nodes st)) then
         content nd' = None ∧ children nd' = [] ∧ parent nd' = Some this ∧
         (∀ e, None = Some e → bbox nd' = getBBox e)
       else ∃ md, nodes st !! m = Some md ∧ bbox nd' = bbox md ∧
         parent nd' = parent md ∧
         if decide (m = this)
         then content nd' = None ∧ children nd' = children md ++ [length (nodes st)]
         else content nd' = content md ∧ children nd' = children md).
    { intros m nd'. unfold st'. store_lookup. fold f0.
      repeat case_decide; simplify_eq; try lia.
      + rewrite Hnd. intros [= <-]. exists nd. simpl. by rewrite Hc.
      + intros [= <-]. done.
      + intros Hm. exists nd'. done. }
    destruct (attach_Inv rk G st st' r this nd None Hwf Ht Hb Hr HG Hnd)
      as (Ht' & Hb' & _ & Hpaths); [unfold st'; by store_lookup|done|done|].
    split; [done|]. split; [done|]. split; [|done].
    intros N ndN HN HNr HNf Hpath HlN. left.
    specialize (Hspec _ _ HlN). fold f0 in Hspec.
    rewrite decide_False in Hspec by done.
    destruct Hspec as (md & Hmd & -> & _).
    apply (Hcov N md); [done|done| |done]. by apply Hpaths.
  - rewrite new_ImageNode_eq. rewrite length_new_ImageNode. fold f0.
    set (g := S f0).
    pose proof (split_WFr rk st this nd Hwf Hnd Hc) as Hwf2.
    pose proof (split_Inv rk G st r this nd Hwf Ht Hb Hr HG Hnd Hc) as Hinv2.
    cbv zeta in Hwf2, Hinv2. fold f0 g in Hwf2, Hinv2.
    set (st2 := update this _ _) in *.
    assert (nodes st2 !! g = Some (mkImageNode None rect_empty (children nd)
                                     (Some this) (S (idCounter st)))) as Hg2.
    { unfold st2. store_lookup. fold f0 g.
      repeat case_decide; try (unfold f0, g in *; lia); done. }
    clearbody st2.
    destruct Hinv2 as (Ht2 & Hb2 & Hpre2 & Hconv).
    destruct (recomputeBBox fuel g true st2) as [st3|] eqn:Hrc; [|done]. simpl.
    destruct (recomputeBBox_shapeEq _ _ _ _ _ Hrc) as [Hs _].
    destruct (shapeEq_lookup _ _ _ _ Hs Hg2) as (gnd & Hg3 & _ & Hgch & _).
    simpl in Hgch. unfold updateParents. rewrite Hg3. simpl. rewrite Hgch.
    intros [= <- <-].
    assert (g ∉ G) as HgG.
    { intros Hf. apply (t_valid _ _ _ Ht) in Hf. unfold g, f0 in Hf. lia. }
    assert (∀ e, e ∈ children nd →
              (if decide (e = f0) then 0
               else if decide (e = g) then 2 * rk this else 2 * rk e + 1)
              < (if decide (g = f0) then 0
                 else if decide (g = g) then 2 * rk this else 2 * rk g + 1)) as Hex.
    { intros x Hx. destruct (ok_children _ _ _ _ _ (Hwf _ _ Hnd) x Hx).
      repeat case_decide; unfold g, f0 in *; lia. }
    pose proof (recomputeBBox_coversAbove _ _ G r B fuel st2 g st3 Hwf2 Hex Ht2 HgG Hrc
                  (Hpre2 B Hcov)) as Hcov3.
    assert (TreeInv G st3 r ∧ BoxInv G st3 r) as [Ht3 Hb3].
    { split; [by eapply TreeInv_shapeEq|].
      destruct (recomputeBBox_step _ _ _ _ Hrc)
        as (fuel' & gd & bbg & -> & Hgd & Hbbg & Hcase).
      specialize (Hb2 gd bbg Hgd Hbbg).
      destruct Hcase as [[_ ->] | (p & Hp & _ & Hr')]; [done|].
      eapply recomputeBBox_BoxInv; [| | |exact Hr']; [| |done].
      - eapply WFr_shapeEq; [apply shapeEq_set_bbox|exact Hwf2].
      - eapply TreeInv_shapeEq; [apply shapeEq_set_bbox|exact Ht2]. }
    destruct (set_parents_Inv G st3 r g (children nd) Ht3 Hb3 HgG) as [Ht4 Hb4].
    split; [done|]. split; [done|]. split; [|done].
    by apply Hconv.
Qed.

End AddLeafBlocksSound.

Section AddLeafSound.

(** *** [addLeaf] *)

Context {R : Type} `{Rect2 R} `{!Rect2Laws R}.
Local Opaque update pushChild onContentChange new_ImageNode.
Implicit Types (st : Store R) (nd : ImageNode R) (n m this c p : ref).
Implicit Types (G : list ref).

Lemma holds_leafContent st n (e : AbstractComponent R) :
  holds st n e ↔ leafContent st n = Some e.
Proof.
  unfold holds, leafContent. split.
  - intros (nd & -> & Hc). done.
  - destruct (nodes st !! n) as [nd|]; [|done]. simpl. intros Hc. by exists nd.
Qed.

Lemma Inv_onContentChange G st r this :
  TreeInv G st r → BoxInv G st r →
  TreeInv G (onContentChange this st) r ∧ BoxInv G (onContentChange this st) r ∧
  ∀ t B, coverOf G st r t B → coverOf G (onContentChange this st) r t B.
Proof.
  intros Ht Hb. pose proof (shapeEq_onContentChange st this) as Hs.
  assert (∀ n nd', nodes (onContentChange this st) !! n = Some nd' →
            ∃ nd, nodes st !! n = Some nd ∧ bbox nd' = bbox nd ∧
              content nd' = content nd) as Hl.
  { intros n nd'. rewrite lookup_onContentChange. case_decide; subst.
    - intros (nd & Hnd & ->)%fmap_Some. by exists nd.
    - intros Hn. by exists nd'. }
  assert (∀ x y, child (onContentChange this st) x y → rtc (child st) x y) as Hsub.
  { intros x y Hxy. by apply rtc_once, (child_shapeEq _ _ _ _ Hs). }
  split; [by eapply TreeInv_shapeEq|]. split.
  - eapply (BoxInv_sub G); [done|done| |done].
    intros n nd' Hn'. destruct (Hl _ _ Hn') as (nd & ? & ? & ?).
    exists nd. split; [done|]. split; [done|by left].
  - intros t B. apply coverOf_sub; [done|].
    intros n nd' Hn'. destruct (Hl _ _ Hn') as (nd & ? & ? & ?). by exists nd.
Qed.

(** [addLeaf] returns and leaves the tree and the boxes in order, when
    the nodes above the node it is called on, and that node, contain the
    box of the leaf. *)
Lemma addLeaf_sound k rk G st r this leaf :
  WFr rk [] st → TreeInv G st r → BoxInv G st r → r < length (nodes st) →
  this ∉ G → this < length (nodes st) → rk this ≤ k →
  coverOf G st r this (getBBox leaf) →
  ∃ fuel0 res st' rk',
    (∀ fuel, fuel0 ≤ fuel → addLeaf fuel this leaf st = Some (res, st')) ∧
    WFr rk' [] st' ∧ TreeInv G st' r ∧ BoxInv G st' r ∧
    length (nodes st) ≤ length (nodes st') ∧ res < length (nodes st') ∧
    (res ∉ G) ∧ holds st' res leaf.
Proof.
  revert rk st this. induction k as [k IH] using lt_wf_ind.
  intros rk st this Hwf Ht Hb Hr HG Hthis Hrk Hcov.
  destruct (lookup_lt_is_Some_2 _ _ Hthis) as [nd Hnd].
  destruct (isEmptyNode nd) eqn:Hempty.
  { apply isEmptyNode_true in Hempty as [Hc Hch].
    destruct (addLeaf_empty_returns rk st this nd leaf Hwf Hnd Hc Hch)
      as (fuel0 & st' & Hal & Hwf' & Hlen).
    destruct (addLeaf_empty_Inv rk G st r this nd leaf fuel0 this st'
                Hwf Ht Hb HG Hnd Hc Hch) as (Ht' & Hb' & Hh' & _).
    { intros N ndN HN HNr _ Hpath HlN. left. by apply (Hcov N ndN). }
    { by apply Hal. }
    exists fuel0, this, st', rk. split; [done|]. split; [done|].
    split; [done|]. split; [done|]. split; [lia|]. split; [lia|]. done. }
  set (st1 := onContentChange this st).
  assert (nodes st1 !! this = Some (set_node_id (idCounter st) nd)) as Hnd1.
  { unfold st1. rewrite lookup_onContentChange, decide_True by done. by rewrite Hnd. }
  assert (length (nodes st1) = length (nodes st)) as Hlen1
    by apply length_onContentChange.
  pose proof (WFr_onContentChange rk [] st this Hwf) as Hwf1. fold st1 in Hwf1.
  destruct (Inv_onContentChange G st r this Ht Hb) as (Ht1 & Hb1 & Hcov1).
  fold st1 in Ht1, Hb1, Hcov1. specialize (Hcov1 _ _ Hcov).
  destruct (pushDownContent_returns rk st1 this _ Hwf1 Hnd1)
    as (st2 & rk2 & nd2 & Hpd & Hwf2 & Hlen2 & Hnd2 & Hc2 & Hsame & Hone).
  destruct (pushDownContent_Inv rk G st1 r this _ 1 st2 Hwf1 Ht1 Hb1
              ltac:(lia) HG Hnd1 (Hpd 1 ltac:(lia))) as (Ht2 & Hb2 & Htrans).
  assert (coverOf G st2 r this (getBBox leaf)) as Hcov2.
  { apply Htrans; [lia|done]. }
  destruct (rect_containsRect (getBBox leaf) (bbox nd2)) eqn:Hcontains.
  { destruct (makeRoomForLeaf_returns rk2 st2 this nd2 Hwf2 Hnd2 Hc2)
      as (fuel_a & st4 & rk4 & fd & Hmr & Hwf4 & Hlen4 & Hfd & Hfc & Hfch).
    destruct (makeRoomForLeaf_Inv rk2 G st2 r this nd2 fuel_a _ st4 (getBBox leaf)
                Hwf2 Ht2 Hb2 ltac:(lia) HG Hnd2 Hc2 Hcov2 (Hmr fuel_a ltac:(lia)))
      as (Ht4 & Hb4 & Hcov4 & HfG & _).
    destruct (addLeaf_empty_returns rk4 st4 _ fd leaf Hwf4 Hfd Hfc Hfch)
      as (fuel_b & st5 & Hal & Hwf5 & Hlen5).
    destruct (addLeaf_empty_Inv rk4 G st4 r _ fd leaf fuel_b _ st5
                Hwf4 Ht4 Hb4 HfG Hfd Hfc Hfch Hcov4 (Hal fuel_b ltac:(lia)))
      as (Ht5 & Hb5 & Hh5 & _).
    exists (S (S (fuel_a + fuel_b))), (length (nodes st2)), st5, rk4.
    split; [|split; [done|split; [done|split; [done|split; [lia|split; [lia|done]]]]]].
    intros [|fuel] Hle; [lia|]. rewrite addLeaf_unfold. cbv zeta. fold st1.
    rewrite Hnd1. simpl.
    rewrite isEmptyNode_set_node_id, Hempty.
    rewrite Hpd by lia. simpl. rewrite Hnd2. simpl. rewrite Hcontains.
    rewrite Hmr by lia. simpl. apply Hal. lia. }
  assert (is_Some (containingNodes st2 nd2 leaf)) as [containing Hcont].
  { apply filterNodes_is_Some. intros c Hc.
    by destruct (ok_children _ _ _ _ _ (Hwf2 _ _ Hnd2) c Hc). }
  destruct (bool_decide (0 < length containing)
            && bool_decide (targetChildCount ≤ length (children nd2))) eqn:Hcond.
  - apply andb_true_iff in Hcond as [Hpos Hmany].
    apply bool_decide_eq_true in Hpos. apply bool_decide_eq_true in Hmany.
    assert (content nd = None) as Hc.
    { destruct (content nd) eqn:Hc; [|done].
      rewrite Hone in Hmany; [unfold targetChildCount in Hmany; lia|].
      simpl. by rewrite Hc. }
    destruct Hsame as [-> ->]; [done|].
    destruct (head_jsSort_is_Some
                (λ a b, Number.sub (nodeArea st1 a) (nodeArea st1 b)) containing Hpos)
      as (first & Hhead & Hin).
    apply (filterNodes_Some _ _ _ _ Hcont) in Hin as [Hin (fnd & Hfnd & Hfits)].
    destruct (ok_children _ _ _ _ _ (Hwf1 _ _ Hnd2) first Hin) as [Hfl Hfr].
    assert (child st1 this first) as Htf by by exists nd2.
    assert (first ∉ G) as HfG by by apply (t_closed _ _ _ Ht1 this first).
    assert (coverOf G st1 r first (getBBox leaf)) as Hcovf.
    { intros N ndN HN HNr Hpath HlN.
      destruct (decide (N = first)) as [-> | HNf]; [by simplify_eq|].
      apply (Hcov2 N ndN); [done|done| |done].
      by eapply rtc_parent_edge. }
    destruct (IH (rk first) ltac:(lia) rk st1 first Hwf1 Ht1 Hb1 ltac:(lia) HfG Hfl
                ltac:(lia) Hcovf)
      as (fuel1 & res & st3 & rk3 & Hal & Hwf3 & Ht3 & Hb3 & Hlen3 & Hr3 & HresG & Hh3).
    destruct (rebalance_WFr rk3 [] st3 res Hwf3 (leavingParent_nil _ _)
                ltac:(set_solver) Hr3)
      as (st4 & Hreb & Hwf4 & _ & Hlen4 & _).
    destruct (rebalance_Inv rk3 [] G st3 r res st4 Hwf3 (leavingParent_nil _ _)
                ltac:(set_solver) Ht3 Hb3 HresG Hreb)
      as (G' & Ht4 & Hb4 & _ & HGeq & Hlc).
    apply holds_leafContent in Hh3.
    rewrite HGeq in Ht4, Hb4 by (by rewrite Hh3).
    exists (S (S fuel1)), res, st4, rk3.
    split; [|split; [done|split; [done|split; [done|split; [lia|split; [lia|]]]]]].
    2:{ split; [done|]. apply holds_leafContent. by rewrite Hlc. }
    intros [|fuel] Hle; [lia|]. rewrite addLeaf_unfold. cbv zeta. fold st1.
    rewrite Hnd1. simpl.
    rewrite isEmptyNode_set_node_id, Hempty.
    rewrite Hpd by lia. simpl. rewrite Hnd2. simpl. rewrite Hcontains.
    rewrite Hcont. simpl.
    rewrite (bool_decide_eq_true_2 _ Hpos), (bool_decide_eq_true_2 _ Hmany). simpl.
    unfold sortByArea. rewrite Hhead. simpl.
    rewrite Hal by lia. simpl. rewrite Hreb. done.
  - destruct (appendLeaf_returns rk2 st2 this nd2 leaf Hwf2 Hnd2 Hc2)
      as (fuel_a & st3 & rk3 & Hap & Hwf3 & Hlen3).
    destruct (appendLeaf_Inv rk2 G st2 r this nd2 leaf fuel_a _ st3
                Hwf2 Ht2 Hb2 ltac:(lia) HG Hnd2 Hc2 Hcov2 (Hap fuel_a ltac:(lia)))
      as (Ht3 & Hb3 & Hh3 & HresG).
    exists (S (S fuel_a)), (length (nodes st2)), st3, rk3.
    split; [|split; [done|split; [done|split; [done|split; [lia|split; [lia|done]]]]]].
    intros [|fuel] Hle; [lia|]. rewrite addLeaf_unfold. cbv zeta. fold st1.
    rewrite Hnd1. simpl.
    rewrite isEmptyNode_set_node_id, Hempty.
    rewrite Hpd by lia. simpl. rewrite Hnd2. simpl. rewrite Hcontains.
    rewrite Hcont. simpl. rewrite Hcond. apply Hap. lia.
Qed.

End AddLeafSound.

Section RemoveSound.

(** *** [remove] *)

Context {R : Type} `{Rect2 R} `{!Rect2Laws R}.
Local Opaque update pushChild onContentChange new_ImageNode.
Implicit Types (st : Store R) (nd : ImageNode R) (n m this c p : ref).
Implicit Types (G : list ref).

(** [rebalance] does nothing on a node that has siblings. *)
Lemma rebalance_noop st c cd :
  nodes st !! c = Some cd →
  (∀ p, parent cd = Some p →
     ∃ pnd, nodes st !! p = Some pnd ∧ length (children pnd) ≠ 1) →
  rebalance c st = Some st.
Proof.
  intros Hc Hp. unfold rebalance. rewrite Hc. simpl.
  destruct (parent cd) as [p|]; [|done].
  destruct (Hp p eq_refl) as (pnd & -> & Hlen). simpl.
  by rewrite bool_decide_eq_false_2.
Qed.

Lemma rebalance_all_noop st l :
  (∀ c, c ∈ l → ∃ cd, nodes st !! c = Some cd ∧
     ∀ p, parent cd = Some p →
       ∃ pnd, nodes st !! p = Some pnd ∧ length (children pnd) ≠ 1) →
  foldl (λ s child, (s ← s; rebalance child s)) (Some st) l = Some st.
Proof.
  induction l as [|c l IH]; intros Hl; simpl; [done|].
  destruct (Hl c) as (cd & Hcd & Hp); [by left|].
  rewrite (rebalance_noop _ _ _ Hcd Hp). apply IH. intros c' Hc'. apply Hl. by right.
Qed.

(** [remove], called on a leaf of the tree, returns and leaves the tree
    and the boxes in order. *)
Lemma remove_sound rk G st r this nd :
  WFr rk [] st → TreeInv G st r → BoxInv G st r → this ∉ G →
  nodes st !! this = Some nd → content nd ≠ None →
  ∃ fuel0 st' G',
    (∀ fuel, fuel0 ≤ fuel → remove fuel this st = Some st') ∧
    WFr rk [] st' ∧ TreeInv G' st' r ∧ BoxInv G' st' r ∧
    length (nodes st') = length (nodes st).
Proof.
  intros Hwf Ht Hb HG Hnd Hc. unfold remove.
  assert (this < length (nodes st)) as Hthis by by eapply lookup_lt_Some.
  assert (children nd = []) as Hch by by apply (ok_leaf _ _ _ _ _ (Hwf _ _ Hnd)).
  destruct (parent nd) as [p|] eqn:Hpar.
  - destruct (ok_parent _ _ _ _ _ (Hwf _ _ Hnd) p Hpar) as [Hpl Hk].
    destruct Hk as (pnd & Hpnd & Hin); [set_solver|].
    destruct (removeChild_WFr rk st this nd p pnd Hwf Hnd Hch Hpar Hpnd Hin)
      as [Hwf1 Hlv1].
    destruct (removeChild_Inv rk G st r this nd p pnd Hwf Ht Hb HG Hnd Hch Hpar Hpnd Hin)
      as [Ht1 Hb1].
    assert (p ∉ G) as HpG by by eapply (t_parent _ _ _ Ht this nd p).
    assert (this ≠ p) as Hne.
    { intros ->. destruct (ok_children _ _ _ _ _ (Hwf _ _ Hpnd) p Hin). lia. }
    set (remaining := filter (λ node, node ≠ this) (children pnd)) in *.
    set (st1 := update p (set_children remaining) st) in *.
    assert (Hlen1 : length (nodes st1) = length (nodes st)) by apply length_update.
    assert (Hlook1 : ∀ m, nodes st1 !! m =
       if decide (m = p) then Some (set_children remaining pnd) else nodes st !! m).
    { intros m. unfold st1. rewrite lookup_update. case_decide; subst; [|done].
      by rewrite Hpnd. }
    destruct (rebalance_all_WFr rk [this] remaining st1 Hwf1 Hlv1)
      as (st2 & Hfold & Hwf2 & Hlv2 & Hlen2 & Hid2).
    { intros c [Hne' Hc']%list_elem_of_filter. split; [set_solver|].
      rewrite Hlen1. by destruct (ok_children _ _ _ _ _ (Hwf _ _ Hpnd) c Hc'). }
    assert (∃ G2, TreeInv G2 st2 r ∧ BoxInv G2 st2 r) as (G2 & Ht2 & Hb2).
    { destruct (decide (length remaining = 1)) as [Hone | Hmany].
      - destruct remaining as [|x [|]] eqn:Hrem; simpl in Hone; try lia.
        simpl in Hfold.
        assert (x ∈ filter (λ node, node ≠ this) (children pnd)) as Hx.
        { fold remaining. rewrite Hrem. by left. }
        apply list_elem_of_filter in Hx as [Hxne Hxin].
        destruct (rebalance_Inv rk [this] (this :: G) st1 r x st2 Hwf1 Hlv1)
          as (G2 & Ht2 & Hb2 & _); try done.
        + intros e ->%list_elem_of_singleton. by left.
        + apply not_elem_of_cons. split; [done|].
          apply (t_closed _ _ _ Ht p x HpG). by exists pnd.
        + by exists G2.
      - rewrite rebalance_all_noop in Hfold.
        + injection Hfold as <-. by exists (this :: G).
        + intros c [Hcne Hcin]%list_elem_of_filter.
          assert (child st p c) as Hpc by by exists pnd.
          destruct (child_rank _ _ _ _ _ Hwf Hpc) as [Hcl Hcr].
          destruct (lookup_lt_is_Some_2 _ _ Hcl) as [cd Hcd].
          exists cd. split.
          { rewrite Hlook1, decide_False; [done|]. intros ->. lia. }
          intros q Hq.
          destruct (parent_child _ _ _ _ _ _ Hwf (not_elem_of_nil _) Hcd Hq) as [Hqc _].
          assert (c ∉ G) as HcG by by apply (t_closed _ _ _ Ht p c HpG).
          assert (q ∉ G) as HqG by by eapply (t_parent _ _ _ Ht c cd q).
          rewrite (t_unique _ _ _ Ht q p c HqG HpG Hqc Hpc).
          exists (set_children remaining pnd). split; [|done].
          by rewrite Hlook1, decide_True. }
    assert (this < length (nodes st2)) as Hthis2 by lia.
    destruct (lookup_lt_is_Some_2 _ _ Hthis2) as [nd2 Hnd2].
    destruct (Hlv2 this nd2) as (Hch2 & p' & Hpar2 & Hrk2); [set_solver|done|].
    destruct (ok_parent _ _ _ _ _ (Hwf2 _ _ Hnd2) p' Hpar2) as [Hpl' _].
    destruct (recomputeBBox_returns_from rk [this] st2 p' true Hwf2)
      as (fuel0 & st3 & Hrc & Hs & Hid3); [|done|].
    { intros x ->%list_elem_of_singleton. done. }
    pose proof (WFr_shapeEq _ _ _ _ Hs Hwf2) as Hwf3.
    pose proof (leavingParent_shapeEq _ _ _ _ Hs Hlv2) as Hlv3.
    pose proof (detach_WFr rk st3 this Hwf3 Hlv3) as Hwf4.
    destruct (shapeEq_lookup _ _ _ _ Hs Hnd2) as (nd3 & Hnd3 & _ & Hch3 & _).
    pose proof (TreeInv_shapeEq _ _ _ _ Hs Ht2) as Ht3.
    pose proof (recomputeBBox_BoxInv _ _ _ _ _ _ _ _ _ Hwf2 Ht2 Hb2 (Hrc fuel0 ltac:(lia)))
      as Hb3.
    eexists fuel0, _, G2. split.
    { intros fuel Hle. rewrite Hnd. simpl. rewrite Hpar, Hpnd. simpl.
      fold remaining st1. rewrite Hfold. simpl. rewrite Hnd2. simpl.
      rewrite Hpar2. rewrite Hrc by done. done. }
    set (st4 := update this (set_children []) _) in *.
    assert (Hlook4 : ∀ m, nodes st4 !! m =
       if decide (m = this)
       then Some (set_children [] (set_parent None (set_content None nd3)))
       else nodes st3 !! m).
    { intros m. unfold st4. rewrite !lookup_update. case_decide; subst; [|done].
      by rewrite Hnd3. }
    assert (length (nodes st4) = length (nodes st3)) as Hlen4.
    { unfold st4. by rewrite !length_update. }
    clearbody st4.
    split; [done|split; [|split]].
    + eapply TreeInv_links; [done| |exact Ht3]. intros n nd'. rewrite Hlook4.
      case_decide; subst.
      * intros [= <-]. exists nd3. split; [done|]. simpl.
        split; [congruence|by right].
      * intros Hn. exists nd'. split; [done|]. split; [done|by left].
    + eapply (BoxInv_sub G2); [done| | |exact Hb3].
      * intros x y (nd' & Hnd' & Hy). rewrite Hlook4 in Hnd'.
        case_decide; simplify_eq; [simpl in Hy; set_solver|].
        apply rtc_once. by exists nd'.
      * intros n nd'. rewrite Hlook4. case_decide; subst.
        -- intros [= <-]. exists nd3. split; [done|]. split; [done|by right].
        -- intros Hn. exists nd'. split; [done|]. split; [done|by left].
    + destruct Hs as [Hl3 _]. lia.
  - set (st' := update this (set_children []) (update this (set_content None) st)).
    assert (Hlook' : ∀ m, nodes st' !! m =
       if decide (m = this) then Some (set_children [] (set_content None nd))
       else nodes st !! m).
    { intros m. unfold st'. rewrite !lookup_update. case_decide; subst; [|done].
      by rewrite Hnd. }
    assert (length (nodes st') = length (nodes st)) as Hlen'.
    { unfold st'. by rewrite !length_update. }
    clearbody st'.
    eexists 0, st', G. split; [|split; [|split; [|split]]].
    + intros fuel _. rewrite Hnd. simpl. rewrite Hpar. done.
    + intros n nd'. rewrite Hlook'. case_decide; subst.
      * intros [= <-]. destruct (Hwf _ _ Hnd) as [Hn1 Hn2 Hn3].
        split; rewrite ?Hlen'; simpl; [set_solver| |done].
        intros q Hq. congruence.
      * intros Hn. eapply nodeOK_frame; [by apply Hwf|by rewrite Hlen'|].
        intros q qnd Hq Hqn Hqin. rewrite Hlook'.
        case_decide; simplify_eq; [|by eexists].
        rewrite Hch in Hqin. set_solver.
    + eapply TreeInv_links; [done| |exact Ht]. intros n nd'. rewrite Hlook'.
      case_decide; subst.
      * intros [= <-]. exists nd. split; [done|]. simpl. split; [congruence|by left].
      * intros Hn. exists nd'. split; [done|]. split; [done|by left].
    + eapply (BoxInv_sub G); [done| | |exact Hb].
      * intros x y (nd' & Hnd' & Hy). rewrite Hlook' in Hnd'.
        case_decide; simplify_eq; [simpl in Hy; set_solver|].
        apply rtc_once. by exists nd'.
      * intros n nd'. rewrite Hlook'. case_decide; subst.
        -- intros [= <-]. exists nd. split; [done|]. split; [done|by right].
        -- intros Hn. exists nd'. split; [done|]. split; [done|by left].
    + done.
Qed.

End RemoveSound.

Section Query.

(** *** What the query returns *)

Context {R : Type} `{Rect2 R} `{!Rect2Laws R}.
Local Opaque update pushChild onContentChange new_ImageNode.
Implicit Types (st : Store R) (nd : ImageNode R) (n m this c p : ref).
Implicit Types (img : EditorImage R) (elem : AbstractComponent R).
Implicit Types (G : list ref).

(** What the loop of [getLeavesIntersectingRegion] adds to its result:
    the nodes with content and an overlap that it reaches from the work
    list through children whose box intersects the region. *)
Lemma getLeavesIntersectingRegion_loop_elem_of fuel st region workList result res :
  getLeavesIntersectingRegion_loop fuel st region None workList result = Some res →
  ∀ n, n ∈ res ↔
    n ∈ result ∨
    ∃ w, w ∈ workList ∧ rtc (descends st region) w n ∧ overlaps st region n.
Proof.
  revert workList result. induction fuel as [|fuel IH]; intros workList result.
  - destruct workList; simpl; [|done]. intros [= <-] n. set_solver.
  - destruct workList as [|next rest]; simpl; [intros [= <-] n; set_solver|].
    destruct (nodes st !! next) as [nd|] eqn:Hnd; [|done]. simpl.
    destruct (getChildrenIntersectingRegion st next region) as [cs|] eqn:Hcs; [|done].
    simpl. intros Hloop n. rewrite (IH _ _ Hloop n).
    destruct (getChildrenIntersectingRegion_Some _ _ _ _ Hcs) as (nd' & Hnd' & Hcsx).
    simplify_eq.
    assert (∀ x, x ∈ cs ↔ descends st region next x) as Hdesc.
    { intros x. rewrite Hcsx. unfold descends, child. split.
      - intros [Hin Hx]. split; [|done]. by exists nd.
      - intros [(nd' & Hnd' & Hin) Hx]. by simplify_eq. }
    assert (n ∈ (if bool_decide (content nd ≠ None)
                    && bool_decide (is_Some (rect_intersection (bbox nd) region))
                 then result ++ [next] else result)
            ↔ n ∈ result ∨ (n = next ∧ overlaps st region next)) as ->.
    { destruct (bool_decide (content nd ≠ None)
                && bool_decide (is_Some (rect_intersection (bbox nd) region))) eqn:Hb.
      - apply andb_true_iff in Hb as [Hb1%bool_decide_eq_true Hb2%bool_decide_eq_true].
        rewrite elem_of_app, list_elem_of_singleton. split; [|tauto].
        intros [?| ->]; [by left|]. right. split; [done|]. by exists nd.
      - split; [by left|]. intros [?|[-> (nd' & Hnd' & Hc & Hi)]]; [done|].
        simplify_eq. apply andb_false_iff in Hb as [Hb%bool_decide_eq_false
                                                  |Hb%bool_decide_eq_false]; done. }
    split.
    + intros [[Hn | [-> Ho]] | (w & Hw & Hpath & Ho)].
      * by left.
      * right. exists next. split; [by left|]. done.
      * right. apply elem_of_app in Hw as [Hw | Hw].
        -- rewrite elem_of_reverse in Hw. exists next. split; [by left|].
           split; [|done]. eapply rtc_l; [by apply Hdesc|done].
        -- exists w. split; [by right|]. done.
    + intros [Hn | (w & Hw & Hpath & Ho)]; [by left; left|].
      apply elem_of_cons in Hw as [-> | Hw].
      * apply rtc_inv in Hpath as [-> | (c & Hc & Hpath)].
        -- left. right. done.
        -- right. exists c. split; [|done].
           apply elem_of_app. left. rewrite elem_of_reverse. by apply Hdesc.
      * right. exists w. split; [|done]. apply elem_of_app. by right.
Qed.

Lemma rtc_descends_child st region a b :
  rtc (descends st region) a b → rtc (child st) a b.
Proof. apply rtc_subrel. by intros x y [? _]. Qed.

(** In a sound store, the query reaches every leaf of the tree whose
    element has a box that intersects the region. *)
Lemma inTree_descends rk G st r region a n e :
  WFr rk [] st → TreeInv G st r → BoxInv G st r →
  holds st n e → rect_intersects (getBBox e) region = true →
  a ∉ G → rtc (child st) a n → rtc (descends st region) a n.
Proof.
  intros Hwf Ht Hb Hh Hint Ha Hpath. revert Ha.
  induction Hpath as [|a b n Hab Hbn IH]; intros Ha; [done|].
  assert (b ∉ G) as HbG by by apply (t_closed _ _ _ Ht a b).
  eapply rtc_l; [|by apply IH]. split; [done|].
  destruct (child_rank _ _ _ _ _ Hwf Hab) as [Hbl _].
  destruct (lookup_lt_is_Some_2 _ _ Hbl) as [bd Hbd].
  exists bd. split; [done|].
  eapply intersects_contains; [|exact Hint].
  apply (b_cover _ _ _ Hb n e Hh b bd); [done| |done|done].
  by eapply child_not_root.
Qed.

Lemma Sound_new_EditorImage :
  Sound (new_EditorImage (R:=R) emptyStore).2
        (root (new_EditorImage (R:=R) emptyStore).1).
Proof.
  unfold new_EditorImage. rewrite new_ImageNode_eq. simpl.
  assert (∀ m nd, nodes (new_ImageNode None (emptyStore (R:=R))).2 !! m = Some nd →
            content nd = None ∧ children nd = [] ∧ parent nd = None) as Hl.
  { intros m nd. rewrite lookup_new_ImageNode. simpl. case_decide; [|done].
    by intros [= <-]. }
  assert (∀ a b, ¬ child (new_ImageNode None (emptyStore (R:=R))).2 a b) as Hno.
  { intros a b (nd & Hnd & Hin). destruct (Hl _ _ Hnd) as (_ & Hch & _).
    rewrite Hch in Hin. set_solver. }
  exists (λ _, 0), []. split; [|split].
  - intros n nd Hn. destruct (Hl _ _ Hn) as (Hc & Hch & Hp).
    split; [rewrite Hch; set_solver|by rewrite Hp|done].
  - split.
    + set_solver.
    + intros p Hp. by destruct (Hno _ _ Hp).
    + intros p c _ Hc. by destruct (Hno p c).
    + intros c cd q _ Hcd Hq. destruct (Hl _ _ Hcd) as (_ & _ & Hp). congruence.
    + intros p1 p2 c _ _ Hc. by destruct (Hno p1 c).
    + intros n Hn. set_solver.
  - split.
    + intros n nd e Hn Hc. destruct (Hl _ _ Hn) as (Hc' & _). congruence.
    + intros L e (nd & Hn & Hc). destruct (Hl _ _ Hn) as (Hc' & _). congruence.
Qed.

Lemma findParent_inTree fuel st img elem c :
  findParent fuel st img elem = Some (Some c) →
  rtc (child st) (root img) c ∧ holds st c elem.
Proof.
  unfold findParent, getLeavesIntersectingRegion.
  destruct (getLeavesIntersectingRegion_loop _ _ _ _ _ _) as [candidates|] eqn:Hl;
    [|done].
  simpl. intros [= Hhead].
  apply head_Some_elem_of, list_elem_of_filter in Hhead as [Hc Hin].
  apply (getLeavesIntersectingRegion_loop_elem_of _ _ _ _ _ _ Hl) in Hin
    as [Hin | (w & ->%list_elem_of_singleton & Hpath & _)]; [set_solver|].
  split; [by eapply rtc_descends_child|by apply holds_leafContent].
Qed.

(** Every state that can be reached is sound. *)
Lemma reachable_Sound st img :
  reachable st img → Sound st (root img) ∧ root img < length (nodes st).
Proof.
  induction 1 as [|fuel elem st img r st' img' Hreach [Hsound Hroot] Hins
                  |fuel elem st img st' img' Hreach [Hsound Hroot] Hrm
                  |elem st img _ IH].
  - split; [apply Sound_new_EditorImage|apply WF_new_EditorImage].
  - unfold insert in Hins. destruct (new_AddElementCommand elem) as [t|cmd].
    { by injection Hins as <- <- <-. }
    unfold AddElementCommand_apply, addElementDirectly in Hins. simpl in Hins.
    destruct (addLeaf fuel (root img) (element cmd) st) as [[l s]|] eqn:Ha; [|done].
    simpl in Hins. injection Hins as <- <- <-. simpl.
    destruct Hsound as (rk & G & Hwf & Ht & Hb).
    destruct (addLeaf_sound (rk (root img)) rk G st (root img) (root img) (element cmd)
                Hwf Ht Hb Hroot (t_root _ _ _ Ht) Hroot ltac:(done))
      as (fuel0 & res & st0 & rk' & Hal & Hwf' & Ht' & Hb' & Hlen & _).
    { intros N ndN HN HNr Hpath. by destruct HNr; eapply rtc_to_root. }
    pose proof (Hal (fuel `max` fuel0) ltac:(lia)) as Hal'.
    rewrite (addLeaf_mono _ (fuel `max` fuel0) _ _ _ _ Ha) in Hal' by lia.
    injection Hal' as -> ->. split; [by exists rk', G|lia].
  - unfold removeElement, AddElementCommand_unapply in Hrm. simpl in Hrm.
    destruct (findParent fuel st img elem) as [[c|]|] eqn:Hfp; simpl in Hrm; [| |done].
    2:{ by injection Hrm as <- <-. }
    destruct (remove fuel c st) as [s|] eqn:Hrem; [|done].
    simpl in Hrm. injection Hrm as <- <-.
    destruct (findParent_inTree _ _ _ _ _ Hfp) as [Hpath (nd & Hnd & Hc)].
    destruct Hsound as (rk & G & Hwf & Ht & Hb).
    assert (c ∉ G) as HcG by exact (rtc_notin _ _ _ _ _ Ht (t_root _ _ _ Ht) Hpath).
    destruct (remove_sound rk G st (root img) c nd Hwf Ht Hb HcG Hnd)
      as (fuel0 & st0 & G' & Hrm0 & Hwf' & Ht' & Hb' & Hlen); [by rewrite Hc|].
    pose proof (Hrm0 (fuel `max` fuel0) ltac:(lia)) as Hrm'.
    rewrite (remove_mono _ (fuel `max` fuel0) _ _ _ Hrem) in Hrm' by lia.
    injection Hrm' as ->. split; [by exists rk, G'|lia].
  - done.
Qed.

Lemma mapM_Some_elem_of {A B} (f : A → option B) (l : list A) (k : list B) y :
  mapM f l = Some k → y ∈ k ↔ ∃ x, x ∈ l ∧ f x = Some y.
Proof.
  intros HF%mapM_Some. induction HF as [|x y' l k Hxy HF IH].
  - set_solver.
  - rewrite elem_of_cons, IH. split.
    + intros [-> | (x' & Hx' & Hf)]; [exists x; split; [by left|done]|].
      exists x'. split; [by right|done].
    + intros (x' & [-> | Hx']%elem_of_cons & Hf); [left; congruence|].
      right. by exists x'.
Qed.

(** C1, amended: the query returns, and it returns an element exactly
    when a leaf of the tree holds it and its box has an overlap with the
    region, whatever the area of the overlap.  Every node above such a
    leaf, the root apart, has a box that intersects the region: no
    returned element lies in a subtree, other than the whole tree, whose
    box misses the region. *)
Theorem query_returns_overlapping st img region :
  reachable st img →
  ∃ fuel0 res,
    (∀ fuel, fuel0 ≤ fuel →
       getElementsIntersectingRegion fuel st img region = Some res) ∧
    (∀ E, E ∈ res ↔
       ∃ n, inTree st (root img) n ∧ holds st n E ∧
         is_Some (rect_intersection (getBBox E) region)) ∧
    (∀ E n N ndN, E ∈ res → holds st n E →
       inTree st (root img) N → N ≠ root img → rtc (child st) N n →
       nodes st !! N = Some ndN → rect_intersects (bbox ndN) region = true).
Proof.
  intros [(rk & G & Hwf & Ht & Hb) Hroot]%reachable_Sound.
  destruct (getLeavesIntersectingRegion_loop_returns rk [] st region None
              Hwf [root img] ltac:(set_solver) [])
    as (fuel0 & leaves & Hleaves).
  pose proof (getLeavesIntersectingRegion_loop_hasContent _ _ _ _ _ _ _
                (Hleaves fuel0 ltac:(done)) ltac:(constructor)) as Hcontent.
  pose proof (getLeavesIntersectingRegion_loop_elem_of _ _ _ _ _ _
                (Hleaves fuel0 ltac:(done))) as Hmem.
  destruct (hasContent_leafZIndex _ _ Hcontent) as [zs Hzs].
  set (sorted := jsSort (λ a b, Num (zIndexOrZero st a - zIndexOrZero st b)) leaves).
  assert (sortLeavesByZIndex st leaves = Some sorted) as Hsort.
  { unfold sortLeavesByZIndex. by rewrite Hzs. }
  destruct (sortLeavesByZIndex_Some _ _ _ Hsort) as [Hperm _].
  assert (Forall (hasContent st) sorted) as Hcontent' by by rewrite Hperm.
  destruct (hasContent_leafContent _ _ Hcontent') as [res Hres].
  assert (∀ E, E ∈ res ↔
            ∃ n, inTree st (root img) n ∧ holds st n E ∧
              is_Some (rect_intersection (getBBox E) region)) as Hiff.
  { intros E. rewrite (mapM_Some_elem_of _ _ _ _ Hres). split.
    - intros (n & Hn & Hlc). rewrite Hperm in Hn.
      apply Hmem in Hn as [Hn | (w & ->%list_elem_of_singleton & Hpath & Ho)];
        [set_solver|].
      apply holds_leafContent in Hlc. exists n.
      split; [by apply rtc_descends_child in Hpath|]. split; [done|].
      destruct Ho as (nd & Hnd & _ & Hi). destruct Hlc as (nd' & Hnd' & Hc).
      simplify_eq. by rewrite <- (b_leaf _ _ _ Hb n nd E Hnd Hc).
    - intros (n & Hin & Hh & Hi). exists n.
      split; [|by apply holds_leafContent]. rewrite Hperm. apply Hmem. right.
      exists (root img). split; [by left|]. split.
      + eapply inTree_descends; [done|done|done|done| |by apply (t_root _ _ _ Ht)|done].
        by apply intersection_is_Some.
      + destruct Hh as (nd & Hnd & Hc). exists nd. split; [done|].
        split; [by rewrite Hc|]. by rewrite (b_leaf _ _ _ Hb n nd E Hnd Hc). }
  exists fuel0, res. split; [|split; [done|]].
  - intros fuel Hle. unfold getElementsIntersectingRegion, getLeavesIntersectingRegion.
    rewrite Hleaves by done. simpl. rewrite Hsort. done.
  - intros E n N ndN HE Hh HN HNr Hpath HlN.
    apply Hiff in HE as (n' & _ & _ & Hi). apply intersection_is_Some in Hi.
    eapply intersects_contains; [|exact Hi].
    apply (b_cover _ _ _ Hb n E Hh N ndN); [|done|done|done].
    exact (rtc_notin _ _ _ _ _ Ht (t_root _ _ _ Ht) HN).
Qed.

End Query.

Section ReachableShape.

(** *** What holds of every reachable state *)

Context {R : Type} `{Rect2 R}.
Local Opaque update pushChild onContentChange new_ImageNode.
Implicit Types (st : Store R) (nd : ImageNode R) (n m this c p : ref).
Implicit Types (img : EditorImage R) (elem : AbstractComponent R).
Implicit Types (G : list ref).

Lemma tc_child_rank rk ex st a b :
  WFr rk ex st → tc (child st) a b → rk b < rk a.
Proof.
  intros Hwf. induction 1 as [a b Hab|a b c Hab _ IH].
  - by destruct (child_rank _ _ _ _ _ Hwf Hab).
  - destruct (child_rank _ _ _ _ _ Hwf Hab). lia.
Qed.

(** X1: in every reachable state a node with content has no children
    (the assertion of [addLeaf]), the children of a node exist, the
    parent field of a node names a node that lists it among its
    children, and no node is below itself. *)
Theorem reachable_wellformed st img n nd :
  reachable st img →
  nodes st !! n = Some nd →
  (content nd ≠ None → children nd = []) ∧
  (∀ c, c ∈ children nd → c < length (nodes st)) ∧
  (∀ q, parent nd = Some q → child st q n) ∧
  ¬ tc (child st) n n.
Proof.
  intros [[rk Hwf] _]%reachable_WF Hn.
  destruct (Hwf n nd Hn) as [H1 H2 H3]. split; [done|]. split; [|split].
  - intros c Hc. by destruct (H1 c Hc).
  - intros q Hq. destruct (H2 q Hq) as [_ Hin]. apply Hin. set_solver.
  - intros Htc. pose proof (tc_child_rank _ _ _ _ _ Hwf Htc). lia.
Qed.

(** No assignment gives the registry object a property of its own
    under the name [__proto__]. *)
Lemma reachable_own_proto st img :
  reachable st img → ownProperties (componentsById img) !! protoKey = None.
Proof.
  induction 1 as [|fuel elem st img r st' img' _ IH Hins
                  |fuel elem st img st' img' _ IH Hrm
                  |elem st img _ IH].
  - done.
  - unfold insert in Hins.
    destruct (new_AddElementCommand elem); [by injection Hins as _ _ <-|].
    unfold AddElementCommand_apply, addElementDirectly in Hins. simpl in Hins.
    destruct (addLeaf _ _ _ _) as [[l s]|]; [|done]. simpl in Hins.
    injection Hins as _ _ <-. simpl. unfold setProperty.
    case_bool_decide; simpl; [done|]. by rewrite lookup_insert_ne.
  - unfold removeElement, AddElementCommand_unapply in Hrm. simpl in Hrm.
    destruct (findParent _ _ _ _) as [[c|]|]; simpl in Hrm;
      [|by injection Hrm as _ <-|done].
    destruct (remove _ _ _); [|done]. by injection Hrm as _ <-.
  - simpl. by apply lookup_delete_None; right.
Qed.

(** X4: on every reachable state an insertion returns.  It leaves the
    root of the image as it was; when the area of the box of the element
    is not [NaN] the lookup of the id of the element returns the
    element.  The lookups of the other ids answer as before, unless the
    id of the element is [__proto__]: the element is then the prototype
    of the registry object, the ids that the object holds itself answer
    as before, and every other id is looked up in the element. *)
Theorem insert_returns_and_registers st img elem :
  reachable st img →
  ∃ fuel0 r st' img',
    (∀ fuel, fuel0 ≤ fuel → insert fuel elem st img = Some (r, st', img')) ∧
    root img' = root img ∧
    (Number.isNaN (rect_area (getBBox elem)) = false →
       r = inr () ∧
       lookupElement img' (getId elem) = FoundElement elem ∧
       (getId elem ≠ protoKey →
          ∀ i, i ≠ getId elem → lookupElement img' i = lookupElement img i) ∧
       (getId elem = protoKey →
          ∀ i, i ≠ getId elem →
            lookupElement img' i
            = match ownProperties (componentsById img) !! i with
              | Some e => FoundElement e
              | None => ThroughElement elem i
              end)).
Proof.
  intros Hreach. pose proof (reachable_own_proto _ _ Hreach) as Hown.
  apply reachable_WF in Hreach as [[rk Hwf] Hroot].
  unfold insert, new_AddElementCommand.
  destruct (Number.isNaN (rect_area (getBBox elem))) eqn:Hnan.
  - exists 0, (inl NaNBoundingBox), st, img. by repeat split.
  - destruct (addLeaf_returns (rk (root img)) rk st (root img) elem Hwf Hroot ltac:(done))
      as (fuel0 & l & st' & Hal & _).
    exists fuel0, (inr ()), st',
      (mkEditorImage (root img) (setProperty (getId elem) elem (componentsById img))).
    split; [|split; [done|]].
    + intros fuel Hle. unfold AddElementCommand_apply, addElementDirectly. simpl.
      by rewrite (Hal fuel Hle).
    + intros _. split; [done|]. unfold lookupElement, getProperty, setProperty. simpl.
      split; [|split].
      * case_bool_decide as Hid; simpl.
        -- by rewrite Hid, Hown.
        -- by rewrite lookup_insert_eq.
      * intros Hid i Hi. rewrite bool_decide_false by done. simpl.
        by rewrite lookup_insert_ne.
      * intros Hid i Hi. rewrite bool_decide_true by done. simpl.
        destruct (ownProperties (componentsById img) !! i); [done|].
        rewrite bool_decide_false; [done|congruence].
Qed.

End ReachableShape.

Section Reachable.

Context {R : Type} `{Rect2 R} `{!Rect2Laws R}.
Local Opaque update pushChild onContentChange new_ImageNode.
Implicit Types (st : Store R) (nd : ImageNode R) (n m this c p : ref).
Implicit Types (img : EditorImage R) (elem : AbstractComponent R).
Implicit Types (G : list ref).

Lemma root_parent_None rk G st r rd :
  WFr rk [] st → TreeInv G st r → nodes st !! r = Some rd → parent rd = None.
Proof.
  intros Hwf Ht Hrd. destruct (parent rd) as [q|] eqn:Hq; [|done].
  destruct (parent_child _ _ _ _ _ _ Hwf (not_elem_of_nil _) Hrd Hq) as [Hc _].
  by destruct (t_rootchild _ _ _ Ht q).
Qed.

(** X2: in every reachable state the nodes under the root form a tree:
    the root is a child of no node and has no parent, a node of the
    tree is a child of one node of the tree only, and the parent field
    of a node of the tree names the node of the tree that lists it. *)
Theorem reachable_tree_shape st img :
  reachable st img →
  (∀ p, ¬ child st p (root img)) ∧
  (∃ rd, nodes st !! root img = Some rd ∧ parent rd = None) ∧
  (∀ p1 p2 c, inTree st (root img) p1 → inTree st (root img) p2 →
     child st p1 c → child st p2 c → p1 = p2) ∧
  (∀ c cd q, inTree st (root img) c → nodes st !! c = Some cd →
     parent cd = Some q → inTree st (root img) q ∧ child st q c).
Proof.
  intros [(rk & G & Hwf & Ht & Hb) Hroot]%reachable_Sound.
  assert (∀ x, inTree st (root img) x → x ∉ G) as HinG.
  { intros x Hx. exact (rtc_notin _ _ _ _ _ Ht (t_root _ _ _ Ht) Hx). }
  destruct (lookup_lt_is_Some_2 _ _ Hroot) as [rd Hrd].
  pose proof (root_parent_None _ _ _ _ _ Hwf Ht Hrd) as Hrp.
  split; [exact (t_rootchild _ _ _ Ht)|]. split; [by exists rd|]. split.
  - intros p1 p2 c H1 H2. apply (t_unique _ _ _ Ht); by apply HinG.
  - intros c cd q Hc Hcd Hq.
    destruct (parent_child _ _ _ _ _ _ Hwf (not_elem_of_nil _) Hcd Hq) as [Hqc _].
    split; [|done].
    apply rtc_inv_r in Hc as [Heq | (p' & Hp' & Hp'c)].
    { rewrite <- Heq in Hcd. simplify_eq. }
    assert (q ∉ G) as HqG by exact (t_parent _ _ _ Ht c cd q (HinG _ (rtc_r _ _ _ Hp' Hp'c)) Hcd Hq).
    by rewrite (t_unique _ _ _ Ht q p' c HqG (HinG _ Hp') Hqc Hp'c).
Qed.

(** X3: in every reachable state a leaf of the tree caches the box of
    its element, and every node of the tree above it, the root apart,
    caches a box that contains the box of the element. *)
Theorem reachable_boxes_cover st img n E :
  reachable st img →
  inTree st (root img) n → holds st n E →
  nodeBBox st n = Some (getBBox E) ∧
  ∀ N ndN, inTree st (root img) N → N ≠ root img → rtc (child st) N n →
    nodes st !! N = Some ndN → rect_containsRect (bbox ndN) (getBBox E) = true.
Proof.
  intros [(rk & G & Hwf & Ht & Hb) Hroot]%reachable_Sound Hn Hh. split.
  - destruct Hh as (nd & Hnd & Hc). unfold nodeBBox. rewrite Hnd. simpl.
    by rewrite (b_leaf _ _ _ Hb n nd E Hnd Hc).
  - intros N ndN HN HNr Hpath HlN.
    apply (b_cover _ _ _ Hb n E Hh N ndN); [|done|done|done].
    exact (rtc_notin _ _ _ _ _ Ht (t_root _ _ _ Ht) HN).
Qed.

End Reachable.

Section LinkSteps.

(** *** The nodes of the tree and their contents, step by step *)

Context {R : Type} `{Rect2 R} `{!Rect2Laws R}.
Local Opaque update pushChild onContentChange new_ImageNode.
Implicit Types (st : Store R) (nd : ImageNode R) (n m this c p : ref).
Implicit Types (G : list ref).

Lemma omap_ext_in {A B} (f g : A → option B) (l : list A) :
  (∀ x, x ∈ l → f x = g x) → omap f l = omap g l.
Proof.
  induction l as [|x l IH]; intros Hfg; csimpl; [done|].
  rewrite (Hfg x) by by left. rewrite IH; [done|].
  intros y Hy. apply Hfg. by right.
Qed.

(** The entry at one index taken out of the list. *)
Lemma omap_seq_point {B} (f : nat → option B) len i :
  i < len →
  omap f (seq 0 len)
  ≡ₚ option_list (f i) ++ omap (λ j, if decide (j = i) then None else f j) (seq 0 len).
Proof.
  intros Hi. replace len with (i + S (len - S i)) by lia.
  rewrite seq_app. simpl seq. rewrite !omap_app. simpl omap.
  rewrite decide_True by done.
  rewrite (omap_ext_in (λ j, if decide (j = i) then None else f j) f (seq 0 i)).
  2:{ intros x Hx%elem_of_seq. rewrite decide_False; [done|lia]. }
  rewrite (omap_ext_in (λ j, if decide (j = i) then None else f j) f (seq (S i) _)).
  2:{ intros x Hx%elem_of_seq. rewrite decide_False; [done|lia]. }
  destruct (f i) as [y|]; simpl; [|done].
  by rewrite <- Permutation_middle.
Qed.

Lemma contentsOf_same G G' st st' :
  length (nodes st') = length (nodes st) →
  (∀ n, n < length (nodes st) →
     (if decide (n ∈ G') then None else leafContent st' n)
     = (if decide (n ∈ G) then None else leafContent st n)) →
  contentsOf G' st' = contentsOf G st.
Proof.
  intros Hlen Hf. unfold contentsOf. rewrite Hlen. apply omap_ext_in.
  intros x Hx%elem_of_seq. apply Hf. lia.
Qed.

Lemma contentsOf_ext G st st' :
  length (nodes st') = length (nodes st) →
  (∀ n, n ∉ G → leafContent st' n = leafContent st n) →
  contentsOf G st' = contentsOf G st.
Proof.
  intros Hlen Hf. apply contentsOf_same; [done|]. intros n _.
  case_decide; [done|by apply Hf].
Qed.

(** A node without content may leave the tree. *)
Lemma contentsOf_cons_None G st x :
  leafContent st x = None → contentsOf (x :: G) st = contentsOf G st.
Proof.
  intros Hx. apply contentsOf_same; [done|]. intros n _.
  destruct (decide (n = x)) as [-> | Hne].
  - rewrite decide_True by by left. rewrite Hx. by case_decide.
  - destruct (decide (n ∈ G)) as [Hin | Hin].
    + rewrite decide_True; [done|by right].
    + rewrite decide_False; [done|]. by apply not_elem_of_cons.
Qed.

(** A node that leaves the tree takes its content with it. *)
Lemma contentsOf_leave G st x :
  x < length (nodes st) → x ∉ G →
  contentsOf G st ≡ₚ option_list (leafContent st x) ++ contentsOf (x :: G) st.
Proof.
  intros Hx HG. unfold contentsOf at 1.
  rewrite (omap_seq_point _ _ x Hx). rewrite decide_False by done.
  apply Permutation_app_head. unfold contentsOf.
  erewrite omap_ext_in; [done|]. intros n _. simpl.
  destruct (decide (n = x)) as [-> | Hne].
  - rewrite decide_True; [done|by left].
  - destruct (decide (n ∈ G)) as [Hin | Hin].
    + rewrite decide_True; [done|by right].
    + rewrite decide_False; [done|]. by apply not_elem_of_cons.
Qed.

(** The content of one node changes. *)
Lemma contentsOf_point G st st' x :
  length (nodes st') = length (nodes st) → x < length (nodes st) → x ∉ G →
  (∀ n, n ≠ x → n ∉ G → leafContent st' n = leafContent st n) →
  option_list (leafContent st x) ++ contentsOf G st'
  ≡ₚ option_list (leafContent st' x) ++ contentsOf G st.
Proof.
  intros Hlen Hx HG Hf. unfold contentsOf. rewrite Hlen.
  rewrite (omap_seq_point (λ n, if decide (n ∈ G) then None else leafContent st' n) _ x Hx).
  rewrite (omap_seq_point (λ n, if decide (n ∈ G) then None else leafContent st n) _ x Hx).
  rewrite !decide_False by done.
  rewrite (omap_ext_in
    (λ j, if decide (j = x) then None
          else if decide (j ∈ G) then None else leafContent st' j)
    (λ j, if decide (j = x) then None
          else if decide (j ∈ G) then None else leafContent st j)).
  2:{ intros n _. repeat case_decide; try done. by apply Hf. }
  rewrite !(assoc_L (++)). apply Permutation_app_tail. apply Permutation_app_comm.
Qed.

(** A new node under [this], which hands its content over or has none. *)
Lemma contentsOf_attach G st st' this copt :
  length (nodes st') = S (length (nodes st)) →
  this < length (nodes st) → this ∉ G → length (nodes st) ∉ G →
  (∀ n, n < length (nodes st) → n ≠ this → n ∉ G →
     leafContent st' n = leafContent st n) →
  leafContent st' this = None → leafContent st' (length (nodes st)) = copt →
  contentsOf G st' ++ option_list (leafContent st this)
  ≡ₚ contentsOf G st ++ option_list copt.
Proof.
  intros Hlen Hthis HG HnG Hf Hnone Hnew. unfold contentsOf. rewrite Hlen.
  rewrite seq_S, omap_app. simpl. rewrite decide_False by done. rewrite Hnew.
  replace (match copt with Some y => [y] | None => [] end) with (option_list copt)
    by by destruct copt.
  rewrite (omap_seq_point (λ n, if decide (n ∈ G) then None else leafContent st' n)
             _ this Hthis).
  rewrite (omap_seq_point (λ n, if decide (n ∈ G) then None else leafContent st n)
             _ this Hthis).
  rewrite !decide_False by done. rewrite Hnone. simpl.
  rewrite (omap_ext_in
    (λ j, if decide (j = this) then None
          else if decide (j ∈ G) then None else leafContent st' j)
    (λ j, if decide (j = this) then None
          else if decide (j ∈ G) then None else leafContent st j)).
  2:{ intros n Hn%elem_of_seq. repeat case_decide; try done. apply Hf; [lia|done|done]. }
  set (rest := omap _ _).
  set (T := option_list (leafContent st this)). set (C := option_list copt).
  clearbody rest T C. rewrite (Permutation_app_comm T rest).
  rewrite <- !(assoc_L (++)). apply Permutation_app_head, Permutation_app_comm.
Qed.

(** Steps that leave the lists of children as they are. *)
Lemma LinkInv_links G st st' r :
  length (nodes st') = length (nodes st) →
  (∀ n nd', nodes st' !! n = Some nd' →
     ∃ nd, nodes st !! n = Some nd ∧ children nd' = children nd) →
  LinkInv G st r → LinkInv G st' r.
Proof.
  intros Hlen Hl [Ha Hn].
  assert (∀ a b, child st a b → child st' a b) as Hsup.
  { intros a b (nd & Hnd & Hin).
    assert (a < length (nodes st')) as Hlt.
    { rewrite Hlen. by eapply lookup_lt_Some. }
    destruct (lookup_lt_is_Some_2 _ _ Hlt) as [nd' Hnd'].
    destruct (Hl _ _ Hnd') as (nd0 & Hnd0 & Hch). simplify_eq.
    exists nd'. split; [done|]. by rewrite Hch. }
  split.
  - intros n Hlt HG Hr. rewrite Hlen in Hlt.
    destruct (Ha n Hlt HG Hr) as (q & Hq & Hc). exists q. split; [done|by apply Hsup].
  - intros n nd' Hnd'. destruct (Hl _ _ Hnd') as (nd & Hnd & ->).
    by apply (Hn n nd).
Qed.

Lemma LinkInv_shapeEq G st st' r : shapeEq st st' → LinkInv G st r → LinkInv G st' r.
Proof.
  intros [Hlen Hs]. apply LinkInv_links; [done|].
  intros n nd' Hn'. destruct (Hs _ _ Hn') as (nd & Hnd & _ & Hch & Hp).
  exists nd. split; [done|]. done.
Qed.

(** A leaf taken out of the children of its parent. *)
Lemma removeChild_Link rk G st r this nd p pnd :
  WFr rk [] st → TreeInv G st r → LinkInv G st r → this ∉ G →
  nodes st !! this = Some nd → children nd = [] →
  parent nd = Some p → nodes st !! p = Some pnd → this ∈ children pnd →
  let st1 := update p (set_children (filter (λ node, node ≠ this) (children pnd))) st in
  LinkInv (this :: G) st1 r.
Proof.
  intros Hwf Ht [Ha Hn] HG Hnd Hch Hpar Hpnd Hin st1.
  assert (Hlen : length (nodes st1) = length (nodes st)) by apply length_update.
  assert (Hlook : ∀ m, nodes st1 !! m =
     if decide (m = p)
     then Some (set_children (filter (λ node, node ≠ this) (children pnd)) pnd)
     else nodes st !! m).
  { intros m. unfold st1. rewrite lookup_update. case_decide; subst; [|done].
    by rewrite Hpnd. }
  clearbody st1. split.
  - intros n Hlt [Hne HnG]%not_elem_of_cons Hr. rewrite Hlen in Hlt.
    destruct (Ha n Hlt HnG Hr) as (q & Hq & (qd & Hqd & Hqin)).
    exists q. split.
    + apply not_elem_of_cons. split; [|done]. intros ->. simplify_eq.
      rewrite Hch in Hqin. set_solver.
    + destruct (decide (q = p)) as [-> | Hqp].
      * simplify_eq. eexists. rewrite Hlook, decide_True by done. split; [done|].
        simpl. by apply list_elem_of_filter.
      * exists qd. by rewrite Hlook, decide_False.
  - intros n nd'. rewrite Hlook. case_decide; subst.
    + intros [= <-]. simpl. apply NoDup_filter. by apply (Hn p pnd).
    + apply Hn.
Qed.

(** An only child lifted to its grandparent. *)
Lemma rebalance_lift_Link rk ex G st r this nd p pnd gp gpnd :
  WFr rk ex st → TreeInv G st r → LinkInv G st r → this ∉ G →
  nodes st !! this = Some nd → parent nd = Some p →
  nodes st !! p = Some pnd → children pnd = [this] → parent pnd = Some gp →
  nodes st !! gp = Some gpnd → p ∈ children gpnd →
  let st' := update p (set_parent None)
       (pushChild gp this
          (update this (set_parent (Some gp))
             (update p (set_children []) st))) in
  LinkInv G st' r.
Proof.
  intros Hwf Ht [Ha Hn] HG Hnd Hpar Hpnd Hch Hgp Hgpnd Hin st'.
  assert (child st p this) as Hpt.
  { exists pnd. split; [done|]. rewrite Hch. set_solver. }
  assert (child st gp p) as Hgpp by by exists gpnd.
  destruct (child_rank _ _ _ _ _ Hwf Hpt) as [_ Hr1].
  destruct (child_rank _ _ _ _ _ Hwf Hgpp) as [_ Hr2].
  assert (this ≠ p) as Hne1 by (intros ->; lia).
  assert (this ≠ gp) as Hne2 by (intros ->; lia).
  assert (p ≠ gp) as Hne3 by (intros ->; lia).
  assert (p ∉ G) as HpG by by eapply (t_parent _ _ _ Ht this nd p).
  assert (gp ∉ G) as HgG by by eapply (t_parent _ _ _ Ht p pnd gp).
  assert (Hlen : length (nodes st') = length (nodes st)).
  { unfold st'. by rewrite length_update, length_pushChild, !length_update. }
  assert (Hlook : ∀ m, nodes st' !! m =
     if decide (m = p) then Some (set_parent None (set_children [] pnd))
     else if decide (m = this) then Some (set_parent (Some gp) nd)
     else if decide (m = gp) then Some (set_children (children gpnd ++ [this]) gpnd)
     else nodes st !! m).
  { intros m. unfold st'. rewrite lookup_update, lookup_pushChild, !lookup_update.
    repeat case_decide; simplify_eq; rewrite ?Hnd, ?Hpnd, ?Hgpnd; done. }
  clearbody st'. split.
  - intros n Hlt HnG Hr. rewrite Hlen in Hlt.
    destruct (Ha n Hlt HnG Hr) as (q & Hq & (qd & Hqd & Hqin)).
    destruct (decide (q = p)) as [-> | Hqp].
    + simplify_eq. rewrite Hch in Hqin. apply list_elem_of_singleton in Hqin as ->.
      exists gp. split; [done|]. eexists.
      rewrite Hlook, decide_False, decide_False, decide_True by done.
      split; [done|]. simpl. set_solver.
    + exists q. split; [done|].
      destruct (decide (q = this)) as [-> | Hqt];
        [|destruct (decide (q = gp)) as [-> | Hqg]].
      * simplify_eq. eexists. rewrite Hlook, decide_False, decide_True by done.
        split; [done|]. done.
      * simplify_eq. eexists.
        rewrite Hlook, decide_False, decide_False, decide_True by done.
        split; [done|]. simpl. set_solver.
      * exists qd. by rewrite Hlook, !decide_False.
  - intros n nd'. rewrite Hlook. repeat case_decide; subst.
    + intros [= <-]. simpl. constructor.
    + intros [= <-]. simpl. by apply (Hn this nd).
    + intros [= <-]. simpl. apply NoDup_app. split; [by apply (Hn gp gpnd)|].
      split; [|apply NoDup_singleton].
      intros x Hx ->%list_elem_of_singleton. apply Hne3.
      apply (t_unique _ _ _ Ht p gp this HpG HgG Hpt). by exists gpnd.
    + apply Hn.
Qed.

(** An only child without content merged into its parent. *)
Lemma rebalance_absorb_Link rk ex G st r this nd p pnd :
  WFr rk ex st → TreeInv G st r → LinkInv G st r → this ∉ G →
  nodes st !! this = Some nd → parent nd = Some p →
  nodes st !! p = Some pnd → children pnd = [this] →
  let st' := update this (set_parent None)
       (foldl (λ s child, update child (set_parent (Some p)) s)
          (update p (set_children (children nd)) st) (children nd)) in
  LinkInv (this :: G) st' r.
Proof.
  intros Hwf Ht [Ha Hn] HG Hnd Hpar Hpnd Hch st'.
  assert (child st p this) as Hpt.
  { exists pnd. split; [done|]. rewrite Hch. set_solver. }
  destruct (child_rank _ _ _ _ _ Hwf Hpt) as [Hthis Hr1].
  assert (this ≠ p) as Hne1 by (intros ->; lia).
  assert (∀ c, c ∈ children nd → child st this c) as Htc by (intros c Hc; by exists nd).
  assert (this ∉ children nd) as Hself.
  { intros Hin. destruct (child_rank _ _ _ _ _ Hwf (Htc _ Hin)). lia. }
  assert (p ∉ children nd) as Hpself.
  { intros Hin. destruct (child_rank _ _ _ _ _ Hwf (Htc _ Hin)). lia. }
  assert (p ∉ G) as HpG by by eapply (t_parent _ _ _ Ht this nd p).
  assert (Hlen : length (nodes st') = length (nodes st)).
  { unfold st'. by rewrite length_update, length_set_parents, length_update. }
  assert (Hlook : ∀ m, nodes st' !! m =
     if decide (m = this) then Some (set_parent None nd)
     else if decide (m ∈ children nd) then set_parent (Some p) <$> nodes st !! m
     else if decide (m = p) then Some (set_children (children nd) pnd)
     else nodes st !! m).
  { intros m. unfold st'. rewrite lookup_update, lookup_set_parents, lookup_update.
    repeat case_decide; simplify_eq; rewrite ?Hnd, ?Hpnd; done. }
  clearbody st'.
  assert (∀ q qd, q ≠ p → nodes st !! q = Some qd →
            ∃ qd', nodes st' !! q = Some qd' ∧ children qd' = children qd) as Hsame.
  { intros q qd Hqp Hqd. rewrite Hlook. repeat case_decide; simplify_eq.
    - by eexists.
    - rewrite Hqd. by eexists.
    - by eexists. }
  split.
  - intros n Hlt [Hne HnG]%not_elem_of_cons Hr. rewrite Hlen in Hlt.
    destruct (Ha n Hlt HnG Hr) as (q & Hq & (qd & Hqd & Hqin)).
    destruct (decide (q = this)) as [-> | Hqt]; [|destruct (decide (q = p)) as [-> | Hqp]].
    + simplify_eq. exists p. split; [by apply not_elem_of_cons|].
      eexists. rewrite Hlook, decide_False, decide_False, decide_True by done.
      split; [done|]. done.
    + simplify_eq. rewrite Hch in Hqin. by apply list_elem_of_singleton in Hqin.
    + exists q. split; [by apply not_elem_of_cons|].
      destruct (Hsame q qd Hqp Hqd) as (qd' & Hqd' & Hcq). exists qd'.
      split; [done|]. by rewrite Hcq.
  - intros n nd'. destruct (decide (n = p)) as [-> | Hnp].
    + rewrite Hlook, decide_False, decide_False, decide_True by done.
      intros [= <-]. simpl. by apply (Hn this nd).
    + intros Hnd'. assert (n < length (nodes st)) as Hlt.
      { rewrite <- Hlen. by eapply lookup_lt_Some. }
      destruct (lookup_lt_is_Some_2 _ _ Hlt) as [nd0 Hnd0].
      destruct (Hsame n nd0 Hnp Hnd0) as (qd' & Hqd' & Hcq). simplify_eq.
      rewrite Hcq. by apply (Hn n nd0).
Qed.

(** A new last child of [this]. *)
Lemma attach_Link rk G st st' r this nd copt :
  WFr rk [] st → TreeInv G st r → LinkInv G st r →
  this ∉ G → nodes st !! this = Some nd →
  length (nodes st') = S (length (nodes st)) →
  (∀ m nd', nodes st' !! m = Some nd' →
     if decide (m = length (nodes st)) then content nd' = copt ∧ children nd' = []
     else ∃ md, nodes st !! m = Some md ∧
       if decide (m = this)
       then content nd' = None ∧ children nd' = children md ++ [length (nodes st)]
       else content nd' = content md ∧ children nd' = children md) →
  LinkInv G st' r ∧
  contentsOf G st' ++ option_list (content nd) ≡ₚ contentsOf G st ++ option_list copt.
Proof.
  intros Hwf Ht [Ha Hn] HG Hnd Hlen Hl.
  assert (this < length (nodes st)) as Hthis by by eapply lookup_lt_Some.
  assert (length (nodes st) ∉ G) as HfG.
  { intros Hf. apply (t_valid _ _ _ Ht) in Hf. lia. }
  assert (∀ m, m < length (nodes st) → ∃ md md', nodes st !! m = Some md ∧
            nodes st' !! m = Some md' ∧
            if decide (m = this)
            then content md' = None ∧ children md' = children md ++ [length (nodes st)]
            else content md' = content md ∧ children md' = children md) as Hold.
  { intros m Hm. destruct (lookup_lt_is_Some_2 (nodes st') m ltac:(lia)) as [md' Hmd'].
    pose proof (Hl _ _ Hmd') as Hspec. rewrite decide_False in Hspec by lia.
    destruct Hspec as (md & Hmd & Hrest). by exists md, md'. }
  destruct (lookup_lt_is_Some_2 (nodes st') (length (nodes st)) ltac:(lia)) as [fd Hfd].
  pose proof (Hl _ _ Hfd) as Hf. rewrite decide_True in Hf by done.
  destruct Hf as (Hfc & Hfch).
  split; [split|].
  - intros n Hlt HnG Hr. rewrite Hlen in Hlt.
    destruct (decide (n = length (nodes st))) as [-> | Hne].
    + exists this. split; [done|].
      destruct (Hold this Hthis) as (md & md' & Hmd & Hmd' & Hrest).
      rewrite decide_True in Hrest by done. destruct Hrest as [_ Hc].
      exists md'. split; [done|]. rewrite Hc. set_solver.
    + destruct (Ha n ltac:(lia) HnG Hr) as (q & Hq & (qd & Hqd & Hqin)).
      exists q. split; [done|].
      destruct (Hold q ltac:(by eapply lookup_lt_Some))
        as (md & md' & Hmd & Hmd' & Hrest).
      simplify_eq. exists md'. split; [done|].
      case_decide; destruct Hrest as [_ ->]; set_solver.
  - intros n nd' Hnd'. pose proof (Hl _ _ Hnd') as Hspec. case_decide.
    + destruct Hspec as (_ & ->). constructor.
    + destruct Hspec as (md & Hmd & Hrest). case_decide.
      * destruct Hrest as [_ ->]. apply NoDup_app. split; [by apply (Hn n md)|].
        split; [|apply NoDup_singleton].
        intros x Hx ->%list_elem_of_singleton.
        destruct (ok_children _ _ _ _ _ (Hwf _ _ Hmd) _ Hx). lia.
      * destruct Hrest as [_ ->]. by apply (Hn n md).
  - replace (content nd) with (leafContent st this)
      by (unfold leafContent; by rewrite Hnd).
    apply contentsOf_attach; [done|done|done|done| | |].
    + intros n Hlt Hne _. destruct (Hold n Hlt) as (md & md' & Hmd & Hmd' & Hrest).
      rewrite decide_False in Hrest by done. destruct Hrest as [Hc _].
      unfold leafContent. by rewrite Hmd, Hmd'.
    + destruct (Hold this Hthis) as (md & md' & Hmd & Hmd' & Hrest).
      rewrite decide_True in Hrest by done. destruct Hrest as [Hc _].
      unfold leafContent. by rewrite Hmd'.
    + unfold leafContent. by rewrite Hfd.
Qed.

(** The children of [this] moved under a new node, beside a new node
    for the leaf. *)
Lemma split_Link rk G st r this nd :
  WFr rk [] st → TreeInv G st r → LinkInv G st r →
  this ∉ G → nodes st !! this = Some nd → content nd = None →
  let f := length (nodes st) in
  let g := S (length (nodes st)) in
  let st1 := (new_ImageNode (Some this) st).2 in
  let st2 := (new_ImageNode (Some this) st1).2 in
  let st' := update this (set_children [f; g])
               (update g (set_children (children nd)) st2) in
  LinkInv G st' r ∧ contentsOf G st' = contentsOf G st.
Proof.
  intros Hwf Ht [Ha Hn] HG Hnd Hc f g st1 st2 st'.
  assert (this < length (nodes st)) as Hthis by by eapply lookup_lt_Some.
  assert (f ∉ G) as HfG.
  { intros Hf. apply (t_valid _ _ _ Ht) in Hf. unfold f in Hf. lia. }
  assert (g ∉ G) as HgG.
  { intros Hf. apply (t_valid _ _ _ Ht) in Hf. unfold g in Hf. lia. }
  assert (Hlen : length (nodes st') = S (S (length (nodes st)))).
  { unfold st', st2, st1. by store_lookup. }
  assert (Hlook : ∀ m, nodes st' !! m =
     if decide (m = this) then Some (set_children [f; g] nd)
     else if decide (m = g)
     then Some (mkImageNode None rect_empty (children nd) (Some this) (S (idCounter st)))
     else if decide (m = f)
     then Some (mkImageNode None rect_empty [] (Some this) (idCounter st))
     else nodes st !! m).
  { intros m. unfold st', st2, st1.
    rewrite !lookup_update, !lookup_new_ImageNode, !length_new_ImageNode.
    fold f g. repeat case_decide; simplify_eq; try lia; rewrite ?Hnd; done. }
  clearbody st'. split; [split|].
  - intros n Hlt HnG Hr. rewrite Hlen in Hlt.
    destruct (decide (n = f)) as [-> | Hnf]; [|destruct (decide (n = g)) as [-> | Hng]].
    + exists this. split; [done|]. eexists. rewrite Hlook, decide_True by done.
      split; [done|]. simpl. set_solver.
    + exists this. split; [done|]. eexists. rewrite Hlook, decide_True by done.
      split; [done|]. simpl. set_solver.
    + assert (n < length (nodes st)) as Hlt0 by (unfold f, g in *; lia).
      destruct (Ha n Hlt0 HnG Hr) as (q & Hq & (qd & Hqd & Hqin)).
      destruct (decide (q = this)) as [-> | Hqt].
      * simplify_eq. exists g. split; [done|]. eexists.
        rewrite Hlook, decide_False, decide_True by (unfold g; lia || done).
        split; [done|]. simpl. done.
      * exists q. split; [done|]. exists qd. split; [|done].
        apply lookup_lt_Some in Hqd as Hql.
        rewrite Hlook, !decide_False by (unfold f, g; lia || done). done.
  - intros n nd'. rewrite Hlook. repeat case_decide; subst.
    + intros [= <-]. simpl. apply NoDup_cons. split; [|apply NoDup_singleton].
      apply not_elem_of_cons. split; [unfold f, g; lia|apply not_elem_of_nil].
    + intros [= <-]. simpl. by apply (Hn this nd).
    + intros [= <-]. simpl. constructor.
    + apply Hn.
  - unfold contentsOf. rewrite Hlen, !seq_S, !omap_app. simpl.
    fold f g. rewrite !decide_False by done.
    unfold leafContent at 2 3. rewrite !Hlook.
    rewrite (decide_False (P := f = this)) by (unfold f; lia).
    rewrite (decide_False (P := f = g)) by (unfold f, g; lia).
    rewrite (decide_True (P := f = f)) by done.
    rewrite (decide_False (P := g = this)) by (unfold g; lia).
    rewrite (decide_True (P := g = g)) by done. simpl. rewrite !app_nil_r.
    apply omap_ext_in. intros n Hn'%elem_of_seq. case_decide; [done|].
    unfold leafContent. rewrite Hlook. repeat case_decide; subst;
      try (unfold f, g in *; lia); [|done].
    rewrite Hnd. simpl. by rewrite Hc.
Qed.

End LinkSteps.

Section LinkBlocks.

(** *** [rebalance] and the blocks of [addLeaf]: nodes and contents *)

Context {R : Type} `{Rect2 R} `{!Rect2Laws R}.
Local Opaque update pushChild onContentChange new_ImageNode.
Implicit Types (st : Store R) (nd : ImageNode R) (n m this c p : ref).
Implicit Types (G : list ref).

(** [rebalance] keeps every node that stays in the tree attached, and
    the contents of the tree as they are. *)
Lemma rebalance_Inv2 rk ex G st r this st' :
  WFr rk ex st → leavingParent rk ex st → (∀ e, e ∈ ex → e ∈ G) →
  TreeInv G st r → BoxInv G st r → LinkInv G st r → this ∉ G →
  rebalance this st = Some st' →
  ∃ G', TreeInv G' st' r ∧ BoxInv G' st' r ∧ LinkInv G' st' r ∧
    (∀ n, n ∈ G → n ∈ G') ∧
    (leafContent st this ≠ None → G' = G) ∧
    (∀ n, leafContent st' n = leafContent st n) ∧
    contentsOf G' st' = contentsOf G st ∧
    (∀ n, n ∈ G' → n ∈ G ∨ leafContent st n = None).
Proof.
  intros Hwf Hlv HexG Ht Hb Hk HG Hreb.
  assert (this ∉ ex) as Hnex by (intros Hx; by apply HG, HexG).
  assert (length (nodes st') = length (nodes st)) as Hlen.
  { destruct (nodes st !! this) as [nd|] eqn:Hnd.
    - destruct (rebalance_WFr rk ex st this Hwf Hlv Hnex) as (st'' & Hr'' & _ & _ & Hl & _).
      { by eapply lookup_lt_Some. }
      congruence.
    - unfold rebalance in Hreb. by rewrite Hnd in Hreb. }
  revert Hreb. unfold rebalance.
  destruct (nodes st !! this) as [nd|] eqn:Hnd; [|done]. simpl.
  destruct (parent nd) as [p|] eqn:Hpar.
  2:{ intros [= <-]. exists G. repeat (split; [done|]). by left. }
  destruct (ok_parent _ _ _ _ _ (Hwf _ _ Hnd) p Hpar) as [Hpl Hpk].
  destruct (Hpk Hnex) as (pnd & Hpnd & Hin). rewrite Hpnd. simpl.
  case_bool_decide as Hlen1.
  2:{ intros [= <-]. exists G. repeat (split; [done|]). by left. }
  pose proof (singleton_of_length_1 _ _ Hin Hlen1) as Hch.
  destruct (parent pnd) as [gp|] eqn:Hgp.
  - assert (p ∉ ex) as Hpex.
    { intros Hx. destruct (Hlv _ _ Hx Hpnd) as [Hnil _]. congruence. }
    destruct (ok_parent _ _ _ _ _ (Hwf _ _ Hpnd) gp Hgp) as [Hgl Hgk].
    destruct (Hgk Hpex) as (gpnd & Hgpnd & Hpin).
    pose proof (rebalance_lift_WFr rk ex st this nd p pnd gp gpnd
                  Hwf Hlv Hnex Hnd Hpar Hpnd Hch Hgp Hgpnd Hpin) as Hwf'.
    pose proof (rebalance_lift_Inv rk ex G st r this nd p pnd gp gpnd
                  Hwf Ht Hb HG Hnd Hpar Hpnd Hch Hgp Hgpnd Hpin) as Hinv'.
    pose proof (rebalance_lift_Link rk ex G st r this nd p pnd gp gpnd
                  Hwf Ht Hk HG Hnd Hpar Hpnd Hch Hgp Hgpnd Hpin) as Hk'.
    simpl in Hwf', Hinv', Hk'.
    set (stL := update p _ _) in *.
    assert (∀ n, leafContent stL n = leafContent st n) as HlcL.
    { intros n. unfold stL.
      rewrite leafContent_update, leafContent_pushChild, !leafContent_update; done. }
    clearbody stL. destruct Hwf' as [Hwf' _]. destruct Hinv' as [Ht' Hb'].
    intros Hr. destruct (recomputeBBox_shapeEq _ _ _ _ _ Hr) as [Hs _].
    assert (∀ n, leafContent st' n = leafContent st n) as Hlc.
    { intros n. by rewrite (leafContent_shapeEq _ _ _ Hs). }
    exists G. split; [by eapply TreeInv_shapeEq|].
    split; [by eapply recomputeBBox_BoxInv|].
    split; [by eapply LinkInv_shapeEq|]. split; [done|]. split; [done|].
    split; [done|]. split; [|by left].
    apply contentsOf_ext; [done|]. intros n _. apply Hlc.
  - destruct (content nd) eqn:Hc.
    { intros [= <-]. exists G. repeat (split; [done|]). by left. }
    unfold updateParents. rewrite lookup_update.
    rewrite decide_True by done. rewrite Hpnd. simpl. intros [= <-].
    destruct (rebalance_absorb_Inv rk ex G st r this nd p pnd) as [Ht' Hb']; try done.
    pose proof (rebalance_absorb_Link rk ex G st r this nd p pnd
                  Hwf Ht Hk HG Hnd Hpar Hpnd Hch) as Hk'.
    simpl in Hk'.
    assert (leafContent st this = None) as Hnone.
    { unfold leafContent. rewrite Hnd. simpl. by rewrite Hc. }
    set (stA := update this _ _) in *.
    assert (∀ n, leafContent stA n = leafContent st n) as Hlc.
    { intros n. unfold stA. by rewrite leafContent_update, leafContent_set_parents,
        leafContent_update. }
    clearbody stA.
    exists (this :: G). split; [done|]. split; [done|]. split; [done|].
    split; [intros n Hn; by right|]. split; [by rewrite Hnone|]. split; [done|].
    split.
    + rewrite <- (contentsOf_cons_None G st this Hnone).
      apply contentsOf_ext; [done|]. intros n _. apply Hlc.
    + intros n [-> | Hn]%elem_of_cons; [by right|by left].
Qed.

Lemma LinkInv_onContentChange G st r this :
  LinkInv G st r → LinkInv G (onContentChange this st) r.
Proof. apply LinkInv_shapeEq, shapeEq_onContentChange. Qed.

Lemma contentsOf_shapeEq G st st' : shapeEq st st' → contentsOf G st' = contentsOf G st.
Proof.
  intros Hs. apply contentsOf_ext; [by destruct Hs|].
  intros n _. by apply leafContent_shapeEq.
Qed.

(** [addLeaf] on a node without content and without children. *)
Lemma addLeaf_empty_Link rk G st r this nd leaf fuel res st' :
  WFr rk [] st → LinkInv G st r → this ∉ G →
  nodes st !! this = Some nd → content nd = None → children nd = [] →
  addLeaf fuel this leaf st = Some (res, st') →
  LinkInv G st' r ∧ contentsOf G st' ≡ₚ leaf :: contentsOf G st.
Proof.
  intros Hwf Hk HG Hnd Hc Hch.
  destruct fuel as [|fuel]; [intros Ha; discriminate Ha|].
  rewrite addLeaf_unfold. cbv zeta.
  set (st1 := onContentChange this st).
  assert (nodes st1 !! this = Some (set_node_id (idCounter st) nd)) as Hnd1.
  { unfold st1. rewrite lookup_onContentChange, decide_True by done. by rewrite Hnd. }
  rewrite Hnd1. simpl. rewrite isEmptyNode_set_node_id.
  rewrite (proj2 (isEmptyNode_true nd)) by done.
  set (st5 := update this (set_content (Some leaf)) st1).
  destruct (recomputeBBox fuel this true st5) as [st''|] eqn:Hr; [|done].
  simpl. intros [= <- <-].
  set (nd5 := set_content (Some leaf) (set_node_id (idCounter st) nd)).
  assert (Hlook5 : ∀ m, nodes st5 !! m =
            if decide (m = this) then Some nd5 else nodes st !! m).
  { intros m. unfold st5, st1. rewrite lookup_update, lookup_onContentChange.
    case_decide; subst; [by rewrite Hnd|done]. }
  assert (length (nodes st5) = length (nodes st)) as Hlen5.
  { unfold st5, st1. by rewrite length_update, length_onContentChange. }
  clearbody st5. clear Hnd1. clearbody st1.
  destruct (recomputeBBox_shapeEq _ _ _ _ _ Hr) as [Hs _].
  split.
  - eapply LinkInv_shapeEq; [exact Hs|].
    eapply LinkInv_links; [done| |exact Hk]. intros n nd'. rewrite Hlook5.
    case_decide; subst.
    + intros [= <-]. by exists nd.
    + intros Hn. by exists nd'.
  - rewrite (contentsOf_shapeEq _ _ _ Hs).
    assert (leafContent st this = None) as Hl0.
    { unfold leafContent. rewrite Hnd. simpl. by rewrite Hc. }
    assert (leafContent st5 this = Some leaf) as Hl5.
    { unfold leafContent. by rewrite Hlook5, decide_True. }
    pose proof (contentsOf_point G st st5 this Hlen5
                  ltac:(by eapply lookup_lt_Some) HG) as Hp.
    rewrite Hl0, Hl5 in Hp. apply Hp.
    intros n Hne _. unfold leafContent. by rewrite Hlook5, decide_False.
Qed.

(** The content of a leaf moved into a new child. *)
Lemma pushDownContent_Link rk G st r this nd fuel st' :
  WFr rk [] st → TreeInv G st r → LinkInv G st r →
  this ∉ G → nodes st !! this = Some nd →
  pushDownContent fuel this nd st = Some st' →
  LinkInv G st' r ∧ contentsOf G st' ≡ₚ contentsOf G st.
Proof.
  intros Hwf Ht Hk HG Hnd. unfold pushDownContent.
  assert (this < length (nodes st)) as Hthis by by eapply lookup_lt_Some.
  destruct (content nd) as [c|] eqn:Hc.
  2:{ intros [= <-]. done. }
  rewrite new_ImageNode_eq.
  set (cn := length (nodes st)).
  set (st4 := pushChild this cn _).
  intros (cnd & bb & Hcn' & Hbb & ->)%recomputeBBox_false.
  destruct (attach_Link rk G st (update cn (set_bbox bb) st4) r this nd (Some c)
              Hwf Ht Hk HG Hnd) as (Hk' & Hperm).
  - unfold st4. by store_lookup.
  - intros m nd'. unfold st4. store_lookup. fold cn.
    repeat case_decide; simplify_eq; try lia.
    + intros [= <-]. done.
    + rewrite Hnd. intros [= <-]. exists nd. done.
    + intros Hm. exists nd'. done.
  - split; [done|]. rewrite Hc in Hperm. simpl in Hperm.
    by apply Permutation_app_inv_r in Hperm.
Qed.

(** A new last child that holds the leaf. *)
Lemma appendLeaf_Link rk G st r this nd leaf fuel res st' :
  WFr rk [] st → TreeInv G st r → LinkInv G st r →
  this ∉ G → nodes st !! this = Some nd → content nd = None →
  appendLeaf fuel this leaf st = Some (res, st') →
  LinkInv G st' r ∧ contentsOf G st' ≡ₚ leaf :: contentsOf G st.
Proof.
  intros Hwf Ht Hk HG Hnd Hc. unfold appendLeaf.
  assert (this < length (nodes st)) as Hthis by by eapply lookup_lt_Some.
  rewrite new_ImageNode_eq.
  set (f := length (nodes st)).
  set (st3 := update f _ _).
  destruct (recomputeBBox fuel f true st3) as [st''|] eqn:Hrc; [|done].
  simpl. intros [= <- <-].
  destruct (attach_Link rk G st st3 r this nd (Some leaf) Hwf Ht Hk HG Hnd)
    as (Hk' & Hperm).
  { unfold st3. by store_lookup. }
  { intros m nd'. unfold st3. store_lookup. fold f.
    repeat case_decide; simplify_eq; try lia.
    + intros [= <-]. done.
    + rewrite Hnd. intros [= <-]. exists nd. simpl. by rewrite Hc.
    + intros Hm. exists nd'. done. }
  destruct (recomputeBBox_shapeEq _ _ _ _ _ Hrc) as [Hs _].
  split; [by eapply LinkInv_shapeEq|].
  rewrite (contentsOf_shapeEq _ _ _ Hs). rewrite Hc in Hperm. simpl in Hperm.
  rewrite app_nil_r in Hperm. rewrite Hperm. by rewrite <- Permutation_cons_append.
Qed.

(** A new child for the leaf, beside the children of the node or beside
    one new node that takes them all. *)
Lemma makeRoomForLeaf_Link rk G st r this nd fuel f st' :
  WFr rk [] st → TreeInv G st r → LinkInv G st r →
  this ∉ G → nodes st !! this = Some nd → content nd = None →
  makeRoomForLeaf fuel this nd st = Some (f, st') →
  LinkInv G st' r ∧ contentsOf G st' ≡ₚ contentsOf G st.
Proof.
  intros Hwf Ht Hk HG Hnd Hc. unfold makeRoomForLeaf.
  assert (this < length (nodes st)) as Hthis by by eapply lookup_lt_Some.
  rewrite new_ImageNode_eq.
  set (f0 := length (nodes st)).
  case_bool_decide as Hfew.
  - simpl. intros [= <- <-].
    set (st' := pushChild this f0 _).
    destruct (attach_Link rk G st st' r this nd None Hwf Ht Hk HG Hnd)
      as (Hk' & Hperm).
    { unfold st'. by store_lookup. }
    { intros m nd'. unfold st'. store_lookup. fold f0.
      repeat case_decide; simplify_eq; try lia.
      + rewrite Hnd. intros [= <-]. exists nd. simpl. by rewrite Hc.
      + intros [= <-]. done.
      + intros Hm. exists nd'. done. }
    split; [done|]. rewrite Hc in Hperm. simpl in Hperm.
    by rewrite !app_nil_r in Hperm.
  - rewrite new_ImageNode_eq. rewrite length_new_ImageNode. fold f0.
    set (g := S f0).
    pose proof (split_Link rk G st r this nd Hwf Ht Hk HG Hnd Hc) as Hk2.
    cbv zeta in Hk2. fold f0 g in Hk2.
    set (st2 := update this _ _) in *.
    assert (nodes st2 !! g = Some (mkImageNode None rect_empty (children nd)
                                     (Some this) (S (idCounter st)))) as Hg2.
    { unfold st2. store_lookup. fold f0 g.
      repeat case_decide; try (unfold f0, g in *; lia); done. }
    clearbody st2.
    destruct Hk2 as (Hk2 & Hcont2).
    destruct (recomputeBBox fuel g true st2) as [st3|] eqn:Hrc; [|done]. simpl.
    destruct (recomputeBBox_shapeEq _ _ _ _ _ Hrc) as [Hs _].
    destruct (shapeEq_lookup _ _ _ _ Hs Hg2) as (gnd & Hg3 & _ & Hgch & _).
    simpl in Hgch. unfold updateParents. rewrite Hg3. simpl. rewrite Hgch.
    intros [= <- <-].
    pose proof (LinkInv_shapeEq _ _ _ _ Hs Hk2) as Hk3.
    split.
    + eapply LinkInv_links; [by rewrite length_set_parents| |exact Hk3].
      intros n nd'. rewrite lookup_set_parents. case_decide.
      * intros (md & Hmd & ->)%fmap_Some. by exists md.
      * intros Hn. by exists nd'.
    + rewrite <- Hcont2, <- (contentsOf_shapeEq G _ _ Hs).
      erewrite contentsOf_ext; [done|by rewrite length_set_parents|].
      intros n _. apply leafContent_set_parents.
Qed.

Lemma leafContent_update_ne st n (f : ImageNode R → ImageNode R) m :
  m ≠ n → leafContent (update n f st) m = leafContent st m.
Proof. intros Hne. unfold leafContent. by rewrite lookup_update, decide_False. Qed.

Lemma leafContent_new_ImageNode st (par : option ref) m :
  m < length (nodes st) → leafContent (new_ImageNode par st).2 m = leafContent st m.
Proof.
  intros Hm. unfold leafContent. rewrite lookup_new_ImageNode, decide_False; [done|lia].
Qed.

Lemma recomputeBBox_leafContent fuel x b st st' m :
  recomputeBBox fuel x b st = Some st' →
  leafContent st' m = leafContent st m ∧ length (nodes st') = length (nodes st).
Proof.
  intros [Hs _]%recomputeBBox_shapeEq. split; [by apply leafContent_shapeEq|].
  by destruct Hs.
Qed.

(** What the blocks of [addLeaf] leave as it is: the content of the
    other nodes; and how many nodes they allocate. *)
Lemma addLeaf_empty_keeps st this nd leaf fuel res st' :
  nodes st !! this = Some nd → content nd = None → children nd = [] →
  addLeaf fuel this leaf st = Some (res, st') →
  ∀ m, m ≠ this → leafContent st' m = leafContent st m.
Proof.
  intros Hnd Hc Hch.
  destruct fuel as [|fuel]; [intros Ha; discriminate Ha|].
  rewrite addLeaf_unfold. cbv zeta.
  rewrite lookup_onContentChange, decide_True, Hnd by done. simpl.
  rewrite isEmptyNode_set_node_id.
  rewrite (proj2 (isEmptyNode_true nd)) by done.
  destruct (recomputeBBox _ _ _ _) as [st''|] eqn:Hr; [|done].
  simpl. intros [= <- <-] m Hm.
  destruct (recomputeBBox_leafContent _ _ _ _ _ m Hr) as [-> _].
  rewrite leafContent_update_ne by done.
  apply leafContent_shapeEq, shapeEq_onContentChange.
Qed.

Lemma pushDownContent_keeps fuel this nd st st' :
  pushDownContent fuel this nd st = Some st' →
  (∀ m, m ≠ this → m < length (nodes st) → leafContent st' m = leafContent st m) ∧
  length (nodes st') ≤ S (length (nodes st)).
Proof.
  unfold pushDownContent. destruct (content nd) as [c|].
  2:{ intros [= <-]. split; [done|lia]. }
  rewrite new_ImageNode_eq. intros Hr. split.
  - intros m Hm Hlt. destruct (recomputeBBox_leafContent _ _ _ _ _ m Hr) as [-> _].
    rewrite leafContent_pushChild, leafContent_update_ne by done.
    rewrite leafContent_update_ne by lia. by apply leafContent_new_ImageNode.
  - destruct (recomputeBBox_leafContent _ _ _ _ _ 0 Hr) as [_ ->].
    by store_lookup.
Qed.

Lemma makeRoomForLeaf_keeps fuel this nd st f st' :
  content nd = None → nodes st !! this = Some nd →
  makeRoomForLeaf fuel this nd st = Some (f, st') →
  (∀ m, m < length (nodes st) → leafContent st' m = leafContent st m) ∧
  length (nodes st') ≤ length (nodes st) + 2.
Proof.
  intros Hc Hnd. unfold makeRoomForLeaf. rewrite new_ImageNode_eq. case_bool_decide.
  - simpl. intros [= <- <-]. split.
    + intros m Hm. rewrite leafContent_pushChild. by apply leafContent_new_ImageNode.
    + store_lookup. lia.
  - rewrite new_ImageNode_eq.
    destruct (recomputeBBox _ _ _ _) as [st3|] eqn:Hrc; [|done]. simpl.
    unfold updateParents. destruct (nodes st3 !! _) as [gnd|]; [|done]. simpl.
    intros [= <- <-]. split.
    + intros m Hm. rewrite leafContent_set_parents.
      destruct (recomputeBBox_leafContent _ _ _ _ _ m Hrc) as [-> _].
      rewrite leafContent_update by done.
      rewrite leafContent_update by done.
      rewrite leafContent_new_ImageNode by (rewrite length_new_ImageNode; lia).
      by apply leafContent_new_ImageNode.
    + rewrite length_set_parents.
      destruct (recomputeBBox_leafContent _ _ _ _ _ 0 Hrc) as [_ ->].
      store_lookup. lia.
Qed.

Lemma appendLeaf_keeps fuel this leaf st f st' :
  appendLeaf fuel this leaf st = Some (f, st') →
  (∀ m, m < length (nodes st) → leafContent st' m = leafContent st m) ∧
  length (nodes st') = S (length (nodes st)).
Proof.
  unfold appendLeaf. rewrite new_ImageNode_eq.
  destruct (recomputeBBox _ _ _ _) as [st3|] eqn:Hrc; [|done]. simpl.
  intros [= <- <-]. split.
  - intros m Hm. destruct (recomputeBBox_leafContent _ _ _ _ _ m Hrc) as [-> _].
    rewrite leafContent_update_ne by lia. rewrite leafContent_pushChild.
    by apply leafContent_new_ImageNode.
  - destruct (recomputeBBox_leafContent _ _ _ _ _ 0 Hrc) as [_ ->]. by store_lookup.
Qed.

End LinkBlocks.

Section LinkSound.

(** *** [addLeaf] and [remove]: nodes and contents *)

Context {R : Type} `{Rect2 R} `{!Rect2Laws R}.
Local Opaque update pushChild onContentChange new_ImageNode.
Implicit Types (st : Store R) (nd : ImageNode R) (n m this c p : ref).
Implicit Types (img : EditorImage R) (elem : AbstractComponent R).
Implicit Types (G : list ref).

(** [addLeaf] returns; the nodes of the tree stay attached, and the
    contents of the tree are those it had and the new leaf. *)
Lemma addLeaf_sound2 k rk G st r this leaf :
  WFr rk [] st → TreeInv G st r → BoxInv G st r → LinkInv G st r →
  r < length (nodes st) →
  this ∉ G → this < length (nodes st) → rk this ≤ k →
  coverOf G st r this (getBBox leaf) →
  ∃ fuel0 res st' rk',
    (∀ fuel, fuel0 ≤ fuel → addLeaf fuel this leaf st = Some (res, st')) ∧
    WFr rk' [] st' ∧ TreeInv G st' r ∧ BoxInv G st' r ∧ LinkInv G st' r ∧
    length (nodes st) ≤ length (nodes st') ∧ res < length (nodes st') ∧
    (res ∉ G) ∧ holds st' res leaf ∧
    contentsOf G st' ≡ₚ leaf :: contentsOf G st ∧
    (∀ n, n ∈ G → leafContent st' n = leafContent st n) ∧
    length (nodes st') ≤ length (nodes st) + 3.
Proof.
  revert rk st this. induction k as [k IH] using lt_wf_ind.
  intros rk st this Hwf Ht Hb Hk Hr HG Hthis Hrk Hcov.
  destruct (lookup_lt_is_Some_2 _ _ Hthis) as [nd Hnd].
  destruct (isEmptyNode nd) eqn:Hempty.
  { apply isEmptyNode_true in Hempty as [Hc Hch].
    destruct (addLeaf_empty_returns rk st this nd leaf Hwf Hnd Hc Hch)
      as (fuel0 & st' & Hal & Hwf' & Hlen).
    destruct (addLeaf_empty_Inv rk G st r this nd leaf fuel0 this st'
                Hwf Ht Hb HG Hnd Hc Hch) as (Ht' & Hb' & Hh' & _).
    { intros N ndN HN HNr _ Hpath HlN. left. by apply (Hcov N ndN). }
    { by apply Hal. }
    destruct (addLeaf_empty_Link rk G st r this nd leaf fuel0 this st'
                Hwf Hk HG Hnd Hc Hch (Hal fuel0 ltac:(lia))) as (Hk' & Hperm).
    exists fuel0, this, st', rk. split; [done|]. split; [done|].
    split; [done|]. split; [done|]. split; [done|]. split; [lia|]. split; [lia|].
    split; [done|]. split; [done|]. split; [done|]. split; [|lia].
    intros n Hn. eapply addLeaf_empty_keeps; [done|done|done|by apply Hal|].
    by intros ->. }
  set (st1 := onContentChange this st).
  assert (nodes st1 !! this = Some (set_node_id (idCounter st) nd)) as Hnd1.
  { unfold st1. rewrite lookup_onContentChange, decide_True by done. by rewrite Hnd. }
  assert (length (nodes st1) = length (nodes st)) as Hlen1
    by apply length_onContentChange.
  pose proof (WFr_onContentChange rk [] st this Hwf) as Hwf1. fold st1 in Hwf1.
  destruct (Inv_onContentChange G st r this Ht Hb) as (Ht1 & Hb1 & Hcov1).
  pose proof (LinkInv_onContentChange G st r this Hk) as Hk1.
  pose proof (contentsOf_shapeEq G _ _ (shapeEq_onContentChange st this)) as Hcont1.
  fold st1 in Ht1, Hb1, Hcov1, Hk1, Hcont1. specialize (Hcov1 _ _ Hcov).
  destruct (pushDownContent_returns rk st1 this _ Hwf1 Hnd1)
    as (st2 & rk2 & nd2 & Hpd & Hwf2 & Hlen2 & Hnd2 & Hc2 & Hsame & Hone).
  destruct (pushDownContent_Inv rk G st1 r this _ 1 st2 Hwf1 Ht1 Hb1
              ltac:(lia) HG Hnd1 (Hpd 1 ltac:(lia))) as (Ht2 & Hb2 & Htrans).
  destruct (pushDownContent_Link rk G st1 r this _ 1 st2 Hwf1 Ht1 Hk1
              HG Hnd1 (Hpd 1 ltac:(lia))) as (Hk2 & Hcont2).
  rewrite Hcont1 in Hcont2.
  destruct (pushDownContent_keeps _ _ _ _ _ (Hpd 1 ltac:(lia))) as [Hkeep2 Hlenle2].
  assert (∀ n, n ∈ G → n < length (nodes st) ∧ n ≠ this) as HGv.
  { intros n Hn. split; [by apply (t_valid _ _ _ Ht)|]. by intros ->. }
  assert (∀ n, n ∈ G → leafContent st2 n = leafContent st n) as HK2.
  { intros n Hn. destruct (HGv n Hn) as [Hlt Hne].
    rewrite Hkeep2 by (done || lia).
    apply leafContent_shapeEq, shapeEq_onContentChange. }
  assert (coverOf G st2 r this (getBBox leaf)) as Hcov2.
  { apply Htrans; [lia|done]. }
  destruct (rect_containsRect (getBBox leaf) (bbox nd2)) eqn:Hcontains.
  { destruct (makeRoomForLeaf_returns rk2 st2 this nd2 Hwf2 Hnd2 Hc2)
      as (fuel_a & st4 & rk4 & fd & Hmr & Hwf4 & Hlen4 & Hfd & Hfc & Hfch).
    destruct (makeRoomForLeaf_Inv rk2 G st2 r this nd2 fuel_a _ st4 (getBBox leaf)
                Hwf2 Ht2 Hb2 ltac:(lia) HG Hnd2 Hc2 Hcov2 (Hmr fuel_a ltac:(lia)))
      as (Ht4 & Hb4 & Hcov4 & HfG & _).
    destruct (makeRoomForLeaf_Link rk2 G st2 r this nd2 fuel_a _ st4
                Hwf2 Ht2 Hk2 HG Hnd2 Hc2 (Hmr fuel_a ltac:(lia)))
      as (Hk4 & Hcont4).
    destruct (addLeaf_empty_returns rk4 st4 _ fd leaf Hwf4 Hfd Hfc Hfch)
      as (fuel_b & st5 & Hal & Hwf5 & Hlen5).
    destruct (addLeaf_empty_Inv rk4 G st4 r _ fd leaf fuel_b _ st5
                Hwf4 Ht4 Hb4 HfG Hfd Hfc Hfch Hcov4 (Hal fuel_b ltac:(lia)))
      as (Ht5 & Hb5 & Hh5 & _).
    destruct (addLeaf_empty_Link rk4 G st4 r _ fd leaf fuel_b _ st5
                Hwf4 Hk4 HfG Hfd Hfc Hfch (Hal fuel_b ltac:(lia)))
      as (Hk5 & Hcont5).
    destruct (makeRoomForLeaf_keeps _ _ _ _ _ _ Hc2 Hnd2 (Hmr fuel_a ltac:(lia)))
      as [Hkeep4 Hlenle4].
    exists (S (S (fuel_a + fuel_b))), (length (nodes st2)), st5, rk4.
    split; [|split; [done|split; [done|split; [done|split; [done|
      split; [lia|split; [lia|split; [done|split; [done|split; [|split; [|lia]]]]]]]]]]].
    2:{ by rewrite Hcont5, Hcont4, Hcont2. }
    2:{ intros n Hn. destruct (HGv n Hn) as [Hlt Hne].
        rewrite (addLeaf_empty_keeps _ _ _ _ _ _ _ Hfd Hfc Hfch (Hal fuel_b ltac:(lia)))
          by lia.
        rewrite Hkeep4 by lia. by apply HK2. }
    intros [|fuel] Hle; [lia|]. rewrite addLeaf_unfold. cbv zeta. fold st1.
    rewrite Hnd1. simpl.
    rewrite isEmptyNode_set_node_id, Hempty.
    rewrite Hpd by lia. simpl. rewrite Hnd2. simpl. rewrite Hcontains.
    rewrite Hmr by lia. simpl. apply Hal. lia. }
  assert (is_Some (containingNodes st2 nd2 leaf)) as [containing Hcont].
  { apply filterNodes_is_Some. intros c Hc.
    by destruct (ok_children _ _ _ _ _ (Hwf2 _ _ Hnd2) c Hc). }
  destruct (bool_decide (0 < length containing)
            && bool_decide (targetChildCount ≤ length (children nd2))) eqn:Hcond.
  - apply andb_true_iff in Hcond as [Hpos Hmany].
    apply bool_decide_eq_true in Hpos. apply bool_decide_eq_true in Hmany.
    assert (content nd = None) as Hc.
    { destruct (content nd) eqn:Hc; [|done].
      rewrite Hone in Hmany; [unfold targetChildCount in Hmany; lia|].
      simpl. by rewrite Hc. }
    destruct Hsame as [-> ->]; [done|].
    destruct (head_jsSort_is_Some
                (λ a b, Number.sub (nodeArea st1 a) (nodeArea st1 b)) containing Hpos)
      as (first & Hhead & Hin).
    apply (filterNodes_Some _ _ _ _ Hcont) in Hin as [Hin (fnd & Hfnd & Hfits)].
    destruct (ok_children _ _ _ _ _ (Hwf1 _ _ Hnd2) first Hin) as [Hfl Hfr].
    assert (child st1 this first) as Htf by by exists nd2.
    assert (first ∉ G) as HfG by by apply (t_closed _ _ _ Ht1 this first).
    assert (coverOf G st1 r first (getBBox leaf)) as Hcovf.
    { intros N ndN HN HNr Hpath HlN.
      destruct (decide (N = first)) as [-> | HNf]; [by simplify_eq|].
      apply (Hcov2 N ndN); [done|done| |done].
      by eapply rtc_parent_edge. }
    destruct (IH (rk first) ltac:(lia) rk st1 first Hwf1 Ht1 Hb1 Hk1 ltac:(lia) HfG Hfl
                ltac:(lia) Hcovf)
      as (fuel1 & res & st3 & rk3 & Hal & Hwf3 & Ht3 & Hb3 & Hk3 & Hlen3 & Hr3
          & HresG & Hh3 & Hcont3 & HK3 & Hlenle3).
    destruct (rebalance_WFr rk3 [] st3 res Hwf3 (leavingParent_nil _ _)
                ltac:(set_solver) Hr3)
      as (st4 & Hreb & Hwf4 & _ & Hlen4 & _).
    destruct (rebalance_Inv2 rk3 [] G st3 r res st4 Hwf3 (leavingParent_nil _ _)
                ltac:(set_solver) Ht3 Hb3 Hk3 HresG Hreb)
      as (G' & Ht4 & Hb4 & Hk4 & _ & HGeq & Hlc & Hcont4 & _).
    apply holds_leafContent in Hh3.
    rewrite HGeq in Ht4, Hb4, Hk4, Hcont4 by (by rewrite Hh3).
    exists (S (S fuel1)), res, st4, rk3.
    split; [|split; [done|split; [done|split; [done|split; [done|
      split; [lia|split; [lia|split; [done|split; [|split; [|split; [|lia]]]]]]]]]]].
    2:{ apply holds_leafContent. by rewrite Hlc. }
    2:{ by rewrite Hcont4, Hcont3, Hcont1. }
    2:{ intros n Hn. rewrite Hlc, (HK3 n Hn).
        apply leafContent_shapeEq, shapeEq_onContentChange. }
    intros [|fuel] Hle; [lia|]. rewrite addLeaf_unfold. cbv zeta. fold st1.
    rewrite Hnd1. simpl.
    rewrite isEmptyNode_set_node_id, Hempty.
    rewrite Hpd by lia. simpl. rewrite Hnd2. simpl. rewrite Hcontains.
    rewrite Hcont. simpl.
    rewrite (bool_decide_eq_true_2 _ Hpos), (bool_decide_eq_true_2 _ Hmany). simpl.
    unfold sortByArea. rewrite Hhead. simpl.
    rewrite Hal by lia. simpl. rewrite Hreb. done.
  - destruct (appendLeaf_returns rk2 st2 this nd2 leaf Hwf2 Hnd2 Hc2)
      as (fuel_a & st3 & rk3 & Hap & Hwf3 & Hlen3).
    destruct (appendLeaf_Inv rk2 G st2 r this nd2 leaf fuel_a _ st3
                Hwf2 Ht2 Hb2 ltac:(lia) HG Hnd2 Hc2 Hcov2 (Hap fuel_a ltac:(lia)))
      as (Ht3 & Hb3 & Hh3 & HresG).
    destruct (appendLeaf_Link rk2 G st2 r this nd2 leaf fuel_a _ st3
                Hwf2 Ht2 Hk2 HG Hnd2 Hc2 (Hap fuel_a ltac:(lia)))
      as (Hk3 & Hcont3).
    destruct (appendLeaf_keeps _ _ _ _ _ _ (Hap fuel_a ltac:(lia))) as [Hkeep3 _].
    exists (S (S fuel_a)), (length (nodes st2)), st3, rk3.
    split; [|split; [done|split; [done|split; [done|split; [done|
      split; [lia|split; [lia|split; [done|split; [done|split; [|split; [|lia]]]]]]]]]]].
    2:{ by rewrite Hcont3, Hcont2. }
    2:{ intros n Hn. destruct (HGv n Hn) as [Hlt Hne].
        rewrite Hkeep3 by lia. by apply HK2. }
    intros [|fuel] Hle; [lia|]. rewrite addLeaf_unfold. cbv zeta. fold st1.
    rewrite Hnd1. simpl.
    rewrite isEmptyNode_set_node_id, Hempty.
    rewrite Hpd by lia. simpl. rewrite Hnd2. simpl. rewrite Hcontains.
    rewrite Hcont. simpl. rewrite Hcond. apply Hap. lia.
Qed.

(** [remove], called on a leaf of the tree, returns; the nodes that stay
    in the tree stay attached, and the contents of the tree are those it
    had without the element of the leaf. *)
Lemma remove_sound2 rk G st r this nd e :
  WFr rk [] st → TreeInv G st r → BoxInv G st r → LinkInv G st r → this ∉ G →
  nodes st !! this = Some nd → content nd = Some e →
  ∃ fuel0 st' G',
    (∀ fuel, fuel0 ≤ fuel → remove fuel this st = Some st') ∧
    WFr rk [] st' ∧ TreeInv G' st' r ∧ BoxInv G' st' r ∧ LinkInv G' st' r ∧
    length (nodes st') = length (nodes st) ∧
    contentsOf G st ≡ₚ e :: contentsOf G' st' ∧
    (∀ n, n ∈ G' → n ∈ G ∨ leafContent st' n = None) ∧
    (∀ n, n ∈ G → leafContent st' n = leafContent st n).
Proof.
  intros Hwf Ht Hb Hk HG Hnd Hc. unfold remove.
  assert (this < length (nodes st)) as Hthis by by eapply lookup_lt_Some.
  assert (children nd = []) as Hch.
  { apply (ok_leaf _ _ _ _ _ (Hwf _ _ Hnd)). by rewrite Hc. }
  assert (leafContent st this = Some e) as Hlce.
  { unfold leafContent. by rewrite Hnd. }
  destruct (parent nd) as [p|] eqn:Hpar.
  - destruct (ok_parent _ _ _ _ _ (Hwf _ _ Hnd) p Hpar) as [Hpl Hpk].
    destruct Hpk as (pnd & Hpnd & Hin); [set_solver|].
    destruct (removeChild_WFr rk st this nd p pnd Hwf Hnd Hch Hpar Hpnd Hin)
      as [Hwf1 Hlv1].
    destruct (removeChild_Inv rk G st r this nd p pnd Hwf Ht Hb HG Hnd Hch Hpar Hpnd Hin)
      as [Ht1 Hb1].
    pose proof (removeChild_Link rk G st r this nd p pnd Hwf Ht Hk HG Hnd Hch Hpar
                  Hpnd Hin) as Hk1.
    simpl in Hk1.
    assert (p ∉ G) as HpG by by eapply (t_parent _ _ _ Ht this nd p).
    assert (this ≠ p) as Hne.
    { intros ->. destruct (ok_children _ _ _ _ _ (Hwf _ _ Hpnd) p Hin). lia. }
    set (remaining := filter (λ node, node ≠ this) (children pnd)) in *.
    set (st1 := update p (set_children remaining) st) in *.
    assert (Hlen1 : length (nodes st1) = length (nodes st)) by apply length_update.
    assert (Hlook1 : ∀ m, nodes st1 !! m =
       if decide (m = p) then Some (set_children remaining pnd) else nodes st !! m).
    { intros m. unfold st1. rewrite lookup_update. case_decide; subst; [|done].
      by rewrite Hpnd. }
    assert (contentsOf G st ≡ₚ e :: contentsOf (this :: G) st1) as Hcont1.
    { rewrite (contentsOf_leave G st this Hthis HG), Hlce. simpl. f_equiv.
      erewrite (contentsOf_ext _ st st1); [done|done|].
      intros n _. unfold st1. by rewrite leafContent_update. }
    destruct (rebalance_all_WFr rk [this] remaining st1 Hwf1 Hlv1)
      as (st2 & Hfold & Hwf2 & Hlv2 & Hlen2 & Hid2).
    { intros c [Hne' Hc']%list_elem_of_filter. split; [set_solver|].
      rewrite Hlen1. by destruct (ok_children _ _ _ _ _ (Hwf _ _ Hpnd) c Hc'). }
    assert (∃ G2, TreeInv G2 st2 r ∧ BoxInv G2 st2 r ∧ LinkInv G2 st2 r ∧
              this ∈ G2 ∧ contentsOf G2 st2 = contentsOf (this :: G) st1 ∧
              (∀ n, n ∈ G2 → n = this ∨ n ∈ G ∨ leafContent st2 n = None) ∧
              (∀ n, leafContent st2 n = leafContent st n))
      as (G2 & Ht2 & Hb2 & Hk2 & HthisG2 & Hcont2 & Hgarb2 & Hlc2).
    { destruct (decide (length remaining = 1)) as [Hone | Hmany].
      - destruct remaining as [|x [|]] eqn:Hrem; simpl in Hone; try lia.
        simpl in Hfold.
        assert (x ∈ filter (λ node, node ≠ this) (children pnd)) as Hx.
        { fold remaining. rewrite Hrem. by left. }
        apply list_elem_of_filter in Hx as [Hxne Hxin].
        destruct (rebalance_Inv2 rk [this] (this :: G) st1 r x st2 Hwf1 Hlv1)
          as (G2 & Ht2 & Hb2 & Hk2 & Hsub & _ & Hlcr & Hcont2 & Hgarb); try done.
        + intros e' ->%list_elem_of_singleton. by left.
        + apply not_elem_of_cons. split; [done|].
          apply (t_closed _ _ _ Ht p x HpG). by exists pnd.
        + exists G2. split; [done|]. split; [done|]. split; [done|].
          split; [apply Hsub; by left|]. split; [done|]. split.
          * intros n Hn. destruct (Hgarb n Hn) as [[-> | Hn']%elem_of_cons | Hn'];
              [by left|by right; left|].
            right. right. by rewrite Hlcr.
          * intros n. rewrite Hlcr. unfold st1. by rewrite leafContent_update.
      - rewrite rebalance_all_noop in Hfold.
        + injection Hfold as <-. exists (this :: G).
          split; [done|]. split; [done|]. split; [done|]. split; [by left|].
          split; [done|]. split.
          * intros n [-> | Hn]%elem_of_cons; [by left|by right; left].
          * intros n. unfold st1. by rewrite leafContent_update.
        + intros c [Hcne Hcin]%list_elem_of_filter.
          assert (child st p c) as Hpc by by exists pnd.
          destruct (child_rank _ _ _ _ _ Hwf Hpc) as [Hcl Hcr].
          destruct (lookup_lt_is_Some_2 _ _ Hcl) as [cd Hcd].
          exists cd. split.
          { rewrite Hlook1, decide_False; [done|]. intros ->. lia. }
          intros q Hq.
          destruct (parent_child _ _ _ _ _ _ Hwf (not_elem_of_nil _) Hcd Hq) as [Hqc _].
          assert (c ∉ G) as HcG by by apply (t_closed _ _ _ Ht p c HpG).
          assert (q ∉ G) as HqG by by eapply (t_parent _ _ _ Ht c cd q).
          rewrite (t_unique _ _ _ Ht q p c HqG HpG Hqc Hpc).
          exists (set_children remaining pnd). split; [|done].
          by rewrite Hlook1, decide_True. }
    assert (this < length (nodes st2)) as Hthis2 by lia.
    destruct (lookup_lt_is_Some_2 _ _ Hthis2) as [nd2 Hnd2].
    destruct (Hlv2 this nd2) as (Hch2 & p' & Hpar2 & Hrk2); [set_solver|done|].
    destruct (ok_parent _ _ _ _ _ (Hwf2 _ _ Hnd2) p' Hpar2) as [Hpl' _].
    destruct (recomputeBBox_returns_from rk [this] st2 p' true Hwf2)
      as (fuel0 & st3 & Hrc & Hs & Hid3); [|done|].
    { intros x ->%list_elem_of_singleton. done. }
    pose proof (WFr_shapeEq _ _ _ _ Hs Hwf2) as Hwf3.
    pose proof (leavingParent_shapeEq _ _ _ _ Hs Hlv2) as Hlv3.
    pose proof (detach_WFr rk st3 this Hwf3 Hlv3) as Hwf4.
    destruct (shapeEq_lookup _ _ _ _ Hs Hnd2) as (nd3 & Hnd3 & _ & Hch3 & _).
    pose proof (TreeInv_shapeEq _ _ _ _ Hs Ht2) as Ht3.
    pose proof (LinkInv_shapeEq _ _ _ _ Hs Hk2) as Hk3.
    pose proof (recomputeBBox_BoxInv _ _ _ _ _ _ _ _ _ Hwf2 Ht2 Hb2 (Hrc fuel0 ltac:(lia)))
      as Hb3.
    pose proof (contentsOf_shapeEq G2 _ _ Hs) as Hcont3.
    eexists fuel0, _, G2. split.
    { intros fuel Hle. rewrite Hnd. simpl. rewrite Hpar, Hpnd. simpl.
      fold remaining st1. rewrite Hfold. simpl. rewrite Hnd2. simpl.
      rewrite Hpar2. rewrite Hrc by done. done. }
    set (st4 := update this (set_children []) _) in *.
    assert (Hlook4 : ∀ m, nodes st4 !! m =
       if decide (m = this)
       then Some (set_children [] (set_parent None (set_content None nd3)))
       else nodes st3 !! m).
    { intros m. unfold st4. rewrite !lookup_update. case_decide; subst; [|done].
      by rewrite Hnd3. }
    assert (length (nodes st4) = length (nodes st3)) as Hlen4.
    { unfold st4. by rewrite !length_update. }
    clearbody st4.
    assert (∀ n, n ≠ this → leafContent st4 n = leafContent st n) as Hlc4.
    { intros n Hne'. unfold leafContent at 1. rewrite Hlook4, decide_False by done.
      fold (leafContent st3 n). by rewrite (leafContent_shapeEq _ _ _ Hs). }
    assert (leafContent st4 this = None) as Hlc4this.
    { unfold leafContent. by rewrite Hlook4, decide_True. }
    split; [done|split; [|split; [|split; [|split; [|split; [|split]]]]]].
    + eapply TreeInv_links; [done| |exact Ht3]. intros n nd'. rewrite Hlook4.
      case_decide; subst.
      * intros [= <-]. exists nd3. split; [done|]. simpl.
        split; [congruence|by right].
      * intros Hn. exists nd'. split; [done|]. split; [done|by left].
    + eapply (BoxInv_sub G2); [done| | |exact Hb3].
      * intros x y (nd' & Hnd' & Hy). rewrite Hlook4 in Hnd'.
        case_decide; simplify_eq; [simpl in Hy; set_solver|].
        apply rtc_once. by exists nd'.
      * intros n nd'. rewrite Hlook4. case_decide; subst.
        -- intros [= <-]. exists nd3. split; [done|]. split; [done|by right].
        -- intros Hn. exists nd'. split; [done|]. split; [done|by left].
    + eapply LinkInv_links; [done| |exact Hk3]. intros n nd'. rewrite Hlook4.
      case_decide; subst.
      * intros [= <-]. exists nd3. split; [done|]. simpl. congruence.
      * intros Hn. by exists nd'.
    + destruct Hs as [Hl3 _]. lia.
    + rewrite Hcont1, <- Hcont2, <- Hcont3. f_equiv.
      erewrite (contentsOf_ext G2 st3 st4); [done|done|].
      intros n HnG. unfold leafContent. rewrite Hlook4, decide_False; [done|].
      by intros ->.
    + intros n Hn. destruct (decide (n = this)) as [-> | Hne']; [by right|].
      destruct (Hgarb2 n Hn) as [-> | [Hn' | Hn']]; [done|by left|].
      right. by rewrite Hlc4, <- Hlc2.
    + intros n Hn. apply Hlc4. by intros ->.
  - set (st' := update this (set_children []) (update this (set_content None) st)).
    assert (Hlook' : ∀ m, nodes st' !! m =
       if decide (m = this) then Some (set_children [] (set_content None nd))
       else nodes st !! m).
    { intros m. unfold st'. rewrite !lookup_update. case_decide; subst; [|done].
      by rewrite Hnd. }
    assert (length (nodes st') = length (nodes st)) as Hlen'.
    { unfold st'. by rewrite !length_update. }
    clearbody st'.
    eexists 0, st', G.
    split; [|split; [|split; [|split; [|split; [|split; [|split; [|split]]]]]]].
    + intros fuel _. rewrite Hnd. simpl. rewrite Hpar. done.
    + intros n nd'. rewrite Hlook'. case_decide; subst.
      * intros [= <-]. destruct (Hwf _ _ Hnd) as [Hn1 Hn2 Hn3].
        split; rewrite ?Hlen'; simpl; [set_solver| |done].
        intros q Hq. congruence.
      * intros Hn. eapply nodeOK_frame; [by apply Hwf|by rewrite Hlen'|].
        intros q qnd Hq Hqn Hqin. rewrite Hlook'.
        case_decide; simplify_eq; [|by eexists].
        rewrite Hch in Hqin. set_solver.
    + eapply TreeInv_links; [done| |exact Ht]. intros n nd'. rewrite Hlook'.
      case_decide; subst.
      * intros [= <-]. exists nd. split; [done|]. simpl. split; [congruence|by left].
      * intros Hn. exists nd'. split; [done|]. split; [done|by left].
    + eapply (BoxInv_sub G); [done| | |exact Hb].
      * intros x y (nd' & Hnd' & Hy). rewrite Hlook' in Hnd'.
        case_decide; simplify_eq; [simpl in Hy; set_solver|].
        apply rtc_once. by exists nd'.
      * intros n nd'. rewrite Hlook'. case_decide; subst.
        -- intros [= <-]. exists nd. split; [done|]. split; [done|by right].
        -- intros Hn. exists nd'. split; [done|]. split; [done|by left].
    + eapply LinkInv_links; [done| |exact Hk]. intros n nd'. rewrite Hlook'.
      case_decide; subst.
      * intros [= <-]. exists nd. split; [done|]. simpl. congruence.
      * intros Hn. by exists nd'.
    + done.
    + pose proof (contentsOf_point G st st' this Hlen' Hthis HG) as Hp.
      rewrite Hlce in Hp.
      assert (leafContent st' this = None) as Hl'.
      { unfold leafContent. by rewrite Hlook', decide_True. }
      rewrite Hl' in Hp. simpl in Hp. symmetry. apply Hp.
      intros n Hne _. unfold leafContent. by rewrite Hlook', decide_False.
    + intros n Hn. by left.
    + intros n Hn. unfold leafContent. rewrite Hlook', decide_False; [done|].
      by intros ->.
Qed.

(** The initial image. *)
Lemma LinkInv_new_EditorImage :
  LinkInv [] (new_EditorImage (R:=R) emptyStore).2
          (root (new_EditorImage (R:=R) emptyStore).1).
Proof.
  unfold new_EditorImage. rewrite new_ImageNode_eq. simpl. split.
  - intros n. rewrite length_new_ImageNode. simpl. lia.
  - intros n nd. rewrite lookup_new_ImageNode. simpl. case_decide; [|done].
    intros [= <-]. constructor.
Qed.

End LinkSound.

Section Leaves.

(** *** The leaves of the tree and what [renderAll] draws *)

Context {R : Type} `{Rect2 R} `{!Rect2Laws R}.
Local Opaque update pushChild onContentChange new_ImageNode.
Implicit Types (st : Store R) (nd : ImageNode R) (n m this c p : ref).
Implicit Types (img : EditorImage R) (elem : AbstractComponent R).
Implicit Types (G : list ref).

(** A node that has not left the tree is under the root. *)
Lemma attached_inTree rk G st r n :
  WFr rk [] st → TreeInv G st r → LinkInv G st r →
  n < length (nodes st) → n ∉ G → inTree st r n.
Proof.
  intros Hwf Ht Hk.
  set (M := max_list (rk <$> seq 0 (length (nodes st)))).
  assert (∀ k n, M - rk n ≤ k → n < length (nodes st) → n ∉ G → inTree st r n) as Hind.
  { induction k as [|k IH]; intros x Hk' Hx HxG.
    - destruct (decide (x = r)) as [-> | Hxr]; [apply rtc_refl|].
      destruct (l_attached _ _ _ Hk x Hx HxG Hxr) as (q & HqG & Hqx).
      destruct (child_valid _ _ _ _ _ Hwf Hqx) as [Hq _].
      destruct (child_rank _ _ _ _ _ Hwf Hqx) as [_ Hrk].
      pose proof (rank_le_max rk _ _ Hq). fold M in H0. lia.
    - destruct (decide (x = r)) as [-> | Hxr]; [apply rtc_refl|].
      destruct (l_attached _ _ _ Hk x Hx HxG Hxr) as (q & HqG & Hqx).
      destruct (child_valid _ _ _ _ _ Hwf Hqx) as [Hq _].
      destruct (child_rank _ _ _ _ _ Hwf Hqx) as [_ Hrk].
      eapply rtc_r; [|exact Hqx]. apply IH; [lia|done|done]. }
  intros Hn HnG. by apply (Hind (M - rk n)).
Qed.

Lemma inTree_iff rk G st r n :
  WFr rk [] st → TreeInv G st r → LinkInv G st r → r < length (nodes st) →
  inTree st r n ↔ n < length (nodes st) ∧ n ∉ G.
Proof.
  intros Hwf Ht Hk Hr. split.
  - intros Hn. split; [by eapply rtc_child_valid|].
    exact (rtc_notin _ _ _ _ _ Ht (t_root _ _ _ Ht) Hn).
  - intros [Hn HnG]. by eapply attached_inTree.
Qed.

(** Two nodes of the tree above the same node are one above the other. *)
Lemma ancestors_comparable G st r a b n :
  TreeInv G st r → a ∉ G → b ∉ G →
  rtc (child st) a n → rtc (child st) b n →
  rtc (child st) a b ∨ rtc (child st) b a.
Proof.
  intros Ht Ha Hb Han. revert b Hb. revert n Han.
  apply (rtc_ind_r (λ n, ∀ b, b ∉ G → rtc (child st) b n →
                      rtc (child st) a b ∨ rtc (child st) b a)).
  { intros b Hb Hbn. by right. }
  intros p n Hap Hpn IH b Hb Hbn.
  destruct (decide (b = n)) as [-> | Hne].
  - left. by eapply rtc_r.
  - apply IH; [done|].
    apply (rtc_parent_edge G st r b p n Ht Hb); [|done|done|done].
    exact (rtc_notin _ _ _ _ _ Ht Ha Hap).
Qed.

(** The subtrees of two children of a node have no node in common. *)
Lemma subtrees_disjoint rk G st r x c1 c2 n :
  WFr rk [] st → TreeInv G st r → x ∉ G →
  child st x c1 → child st x c2 → c1 ≠ c2 →
  rtc (child st) c1 n → rtc (child st) c2 n → False.
Proof.
  intros Hwf Ht Hx H1 H2 Hne Hn1 Hn2.
  assert (c1 ∉ G) as Hc1 by by apply (t_closed _ _ _ Ht x c1).
  assert (c2 ∉ G) as Hc2 by by apply (t_closed _ _ _ Ht x c2).
  assert (∀ a b, a ∉ G → child st x a → child st x b → a ≠ b →
            ¬ rtc (child st) a b) as Hno.
  { intros a b Ha Hxa Hxb Hab Hpath.
    pose proof (rtc_parent_edge G st r a x b Ht Ha Hx Hxb Hpath Hab) as Hax.
    destruct (child_rank _ _ _ _ _ Hwf Hxa) as [_ Hrk].
    destruct (rtc_child_rank _ _ _ _ _ Hwf Hax) as [-> | Hrk']; lia. }
  destruct (ancestors_comparable G st r c1 c2 n Ht Hc1 Hc2 Hn1 Hn2) as [Hp | Hp].
  - by apply (Hno c1 c2).
  - by apply (Hno c2 c1).
Qed.

(** [getLeaves] returns the nodes with content below the node. *)
Lemma getLeaves_elem_of rk ex st fuel x l :
  WFr rk ex st → getLeaves fuel st x = Some l →
  ∀ n, n ∈ l ↔ rtc (child st) x n ∧ hasContent st n.
Proof.
  intros Hwf. revert x l. induction fuel as [|fuel IH]; intros x l; [done|].
  simpl. destruct (nodes st !! x) as [nd|] eqn:Hnd; [|done]. simpl.
  destruct (content nd) as [e|] eqn:Hc.
  - intros [= <-] n. rewrite list_elem_of_singleton. split.
    + intros ->. split; [done|]. exists nd. split; [done|]. by rewrite Hc.
    + intros [Hpath _]. symmetry. eapply rtc_from_childless; [|exact Hpath].
      intros c (nd' & Hnd' & Hin). simplify_eq.
      rewrite (ok_leaf _ _ _ _ _ (Hwf _ _ Hnd)) in Hin by by rewrite Hc.
      set_solver.
  - destruct (mapM (getLeaves fuel st) (children nd)) as [ls|] eqn:Hls; [|done].
    simpl. intros [= <-] n. rewrite list_elem_of_join.
    apply mapM_Some in Hls. split.
    + intros (l' & Hn & Hl').
      apply list_elem_of_lookup in Hl' as [i Hi].
      destruct (Forall2_lookup_r _ _ _ _ _ Hls Hi) as (c & Hci & Hcl).
      apply (IH _ _ Hcl) in Hn as [Hpath Hcont]. split; [|done].
      eapply rtc_l; [|exact Hpath]. exists nd. split; [done|].
      by eapply list_elem_of_lookup_2.
    + intros [Hpath Hcont].
      apply rtc_inv in Hpath as [-> | (c & (nd' & Hnd' & Hin) & Hpath)].
      { destruct Hcont as (nd' & Hnd' & Hc'). simplify_eq. }
      simplify_eq. apply list_elem_of_lookup in Hin as [i Hi].
      destruct (Forall2_lookup_l _ _ _ _ _ Hls Hi) as (l' & Hli & Hcl).
      exists l'. split; [|by eapply list_elem_of_lookup_2].
      by apply (IH _ _ Hcl).
Qed.

(** ... each of them once. *)
Lemma getLeaves_NoDup rk G st r fuel x l :
  WFr rk [] st → TreeInv G st r → LinkInv G st r → x ∉ G →
  getLeaves fuel st x = Some l → NoDup l.
Proof.
  intros Hwf Ht Hk. revert x l. induction fuel as [|fuel IH]; intros x l Hx; [done|].
  simpl. destruct (nodes st !! x) as [nd|] eqn:Hnd; [|done]. simpl.
  destruct (content nd) as [e|] eqn:Hc.
  { intros [= <-]. apply NoDup_singleton. }
  destruct (mapM (getLeaves fuel st) (children nd)) as [ls|] eqn:Hls; [|done].
  simpl. intros [= <-]. apply mapM_Some in Hls.
  pose proof (l_nodup _ _ _ Hk x nd Hnd) as Hnodup.
  assert (∀ c, c ∈ children nd → child st x c) as Hxc by (intros c Hin; by exists nd).
  revert Hnodup Hxc. generalize dependent (children nd). intros cs0 Hls.
  induction Hls as [|c l' cs ls Hcl Hls IHls]; intros Hnodup Hxc; simpl.
  { constructor. }
  apply NoDup_cons in Hnodup as [Hnc Hnodup].
  apply NoDup_app. split; [|split].
  - apply (IH c l'); [|done]. apply (t_closed _ _ _ Ht x c Hx), Hxc. by left.
  - intros n Hn1 Hn2. apply (getLeaves_elem_of _ _ _ _ _ _ Hwf Hcl) in Hn1 as [Hp1 _].
    apply list_elem_of_join in Hn2 as (l2 & Hn2 & Hl2).
    apply list_elem_of_lookup in Hl2 as [i Hi].
    destruct (Forall2_lookup_r _ _ _ _ _ Hls Hi) as (c2 & Hci & Hcl2).
    apply (getLeaves_elem_of _ _ _ _ _ _ Hwf Hcl2) in Hn2 as [Hp2 _].
    apply list_elem_of_lookup_2 in Hci.
    apply (subtrees_disjoint rk G st r x c c2 n Hwf Ht Hx); [| | |done|done].
    + apply Hxc. by left.
    + apply Hxc. by right.
    + by intros ->.
  - apply IHls; [done|]. intros c' Hc'. apply Hxc. by right.
Qed.

Lemma omap_filter_Some {A B} (f g : A → option B) (P : A → Prop)
    `{∀ x, Decision (P x)} (l : list A) :
  (∀ x, P x → g x = f x) → (∀ x, ¬ P x → g x = None) →
  omap f (filter P l) = omap g l.
Proof.
  intros HP HnP. induction l as [|x l IH]; [done|].
  rewrite filter_cons. csimpl. destruct (decide (P x)) as [Hx | Hx].
  - csimpl. by rewrite IH, (HP x Hx).
  - by rewrite IH, (HnP x Hx).
Qed.

(** The elements of the leaves that [getLeaves] returns from the root
    are the contents of the tree. *)
Lemma getLeaves_contents rk G st r fuel l :
  WFr rk [] st → TreeInv G st r → LinkInv G st r → r < length (nodes st) →
  getLeaves fuel st r = Some l →
  omap (leafContent st) l ≡ₚ contentsOf G st.
Proof.
  intros Hwf Ht Hk Hr Hl.
  pose proof (getLeaves_NoDup rk G st r fuel r l Hwf Ht Hk (t_root _ _ _ Ht) Hl)
    as Hnodup.
  pose proof (getLeaves_elem_of _ _ _ _ _ _ Hwf Hl) as Hmem.
  set (P := λ n, (n ∉ G) ∧ is_Some (leafContent st n)).
  assert (l ≡ₚ filter P (seq 0 (length (nodes st)))) as ->.
  { apply NoDup_Permutation; [done|apply NoDup_filter, NoDup_seq|].
    intros n. rewrite Hmem, list_elem_of_filter, elem_of_seq. unfold P.
    fold (inTree st r n). rewrite (inTree_iff rk G st r n Hwf Ht Hk Hr).
    assert (hasContent st n ↔ is_Some (leafContent st n)) as ->.
    { unfold hasContent, leafContent. split.
      - intros (nd & -> & Hc). simpl. by destruct (content nd).
      - intros [e He]. destruct (nodes st !! n) as [nd|]; [|done].
        exists nd. split; [done|]. simpl in He. by rewrite He. }
    split; [intros [[? ?] ?]|intros [[? ?] ?]]; repeat split; try done; lia. }
  unfold contentsOf. erewrite omap_filter_Some; [done| |].
  - intros n [HnG _]. simpl. by rewrite decide_False.
  - intros n HnP. simpl. case_decide; [done|].
    destruct (leafContent st n) eqn:Hlc; [|done].
    destruct HnP. split; [done|]. by rewrite Hlc.
Qed.

(** What [renderAll] asks the renderer to draw: every element of the
    tree, once for every leaf that holds it, with the box of the element,
    by increasing z-index. *)
Lemma renderAll_calls rk G st img renderer :
  WFr rk [] st → TreeInv G st (root img) → BoxInv G st (root img) →
  LinkInv G st (root img) → root img < length (nodes st) →
  ∃ fuel0 calls,
    (∀ fuel, fuel0 ≤ fuel → renderAll fuel st img renderer = Some calls) ∧
    calls ≡ₚ (λ e, (e, getBBox e)) <$> contentsOf G st ∧
    StronglySorted (λ a b, (getZIndex a.1 ≤ getZIndex b.1)%Z) calls.
Proof.
  intros Hwf Ht Hb Hk Hroot.
  destruct (getLeaves_returns rk [] st (root img) Hwf Hroot) as (fuel0 & leaves & Hlv).
  pose proof (Hlv fuel0 ltac:(done)) as Hlv0.
  pose proof (getLeaves_hasContent _ _ _ _ Hlv0) as Hcontent.
  destruct (hasContent_leafZIndex _ _ Hcontent) as [zs Hzs].
  set (sorted := jsSort (λ a b, Num (zIndexOrZero st a - zIndexOrZero st b)) leaves).
  assert (sortLeavesByZIndex st leaves = Some sorted) as Hsort.
  { unfold sortLeavesByZIndex. by rewrite Hzs. }
  destruct (sortLeavesByZIndex_Some _ _ _ Hsort) as [Hperm Hsorted].
  assert (Forall (hasContent st) sorted) as Hcontent' by by rewrite Hperm.
  set (F := λ leaf : ref, nd ← nodes st !! leaf; c ← content nd; Some (c, bbox nd)).
  assert (∀ l, Forall (hasContent st) l →
            Forall2 (λ n call, F n = Some call ∧ zIndexOrZero st n = getZIndex call.1)
              l ((λ e, (e, getBBox e)) <$> omap (leafContent st) l)) as HF.
  { induction 1 as [|n l (nd & Hnd & Hc) _ IH]; csimpl; [constructor|].
    destruct (content nd) as [e|] eqn:He; [|done].
    unfold leafContent at 1. rewrite Hnd. simpl. rewrite He. csimpl.
    constructor; [|done]. split.
    - unfold F. rewrite Hnd. simpl. rewrite He. simpl.
      by rewrite (b_leaf _ _ _ Hb n nd e Hnd He).
    - unfold zIndexOrZero, leafZIndex. rewrite Hnd. simpl. by rewrite He. }
  specialize (HF sorted Hcontent').
  exists fuel0, ((λ e, (e, getBBox e)) <$> omap (leafContent st) sorted).
  split; [|split].
  - intros fuel Hle. unfold renderAll. rewrite (Hlv fuel Hle). simpl.
    rewrite Hsort. simpl. fold F. apply mapM_Some.
    eapply Forall2_impl; [exact HF|]. by intros n call [? _].
  - rewrite Hperm. f_equiv. by eapply getLeaves_contents.
  - eapply StronglySorted_Forall2; [|exact HF|exact Hsorted].
    intros a b a' b' [_ Ha] [_ Hb'] Hab. simpl. by rewrite <- Ha, <- Hb'.
Qed.

(** An element is stored when it is among the contents of the tree. *)
Lemma stored_contents rk G st r e :
  WFr rk [] st → TreeInv G st r → LinkInv G st r → r < length (nodes st) →
  stored st r e ↔ e ∈ contentsOf G st.
Proof.
  intros Hwf Ht Hk Hr. unfold stored, contentsOf. rewrite list_elem_of_omap. split.
  - intros (n & Hn & Hh). apply (inTree_iff rk G st r n Hwf Ht Hk Hr) in Hn as [Hlt HnG].
    exists n. split; [apply elem_of_seq; lia|]. rewrite decide_False by done.
    by apply holds_leafContent.
  - intros (n & Hn%elem_of_seq & Hlc). case_decide; [done|].
    exists n. split; [|by apply holds_leafContent].
    apply (inTree_iff rk G st r n Hwf Ht Hk Hr). split; [lia|done].
Qed.

(** [findParent] finds a leaf exactly when the element is stored. *)
Lemma findParent_None rk G st img elem fuel :
  WFr rk [] st → TreeInv G st (root img) → BoxInv G st (root img) →
  findParent fuel st img elem = Some None → ¬ stored st (root img) elem.
Proof.
  intros Hwf Ht Hb. unfold findParent, getLeavesIntersectingRegion.
  destruct (getLeavesIntersectingRegion_loop _ _ _ _ _ _) as [candidates|] eqn:Hl;
    [|done].
  simpl. intros [= Hhead] (n & Hn & Hh).
  apply head_None in Hhead.
  assert (n ∈ filter (λ candidate, leafContent st candidate = Some elem) candidates)
    as Hin; [|rewrite Hhead in Hin; set_solver].
  apply list_elem_of_filter. split; [by apply holds_leafContent|].
  apply (getLeavesIntersectingRegion_loop_elem_of _ _ _ _ _ _ Hl). right.
  exists (root img). split; [by left|].
  pose proof Hh as (nd & Hnd & Hc). split.
  - eapply inTree_descends; [done|done|done|exact Hh| |by apply (t_root _ _ _ Ht)|done].
    apply intersects_refl.
  - exists nd. split; [done|]. split; [by rewrite Hc|].
    rewrite (b_leaf _ _ _ Hb n nd elem Hnd Hc).
    apply intersection_is_Some, intersects_refl.
Qed.

End Leaves.

Section Operations.

(** *** Insertion and removal, seen through what the image draws *)

Context {R : Type} `{Rect2 R} `{!Rect2Laws R}.
Local Opaque update pushChild onContentChange new_ImageNode.
Implicit Types (st : Store R) (nd : ImageNode R) (n m this c p : ref).
Implicit Types (img : EditorImage R) (elem : AbstractComponent R).
Implicit Types (G : list ref) (renderer : AbstractRenderer R).

(** The invariants of a store that holds one image. *)
Lemma Full_new_EditorImage :
  ∃ rk,
    WFr rk [] (new_EditorImage (R:=R) emptyStore).2 ∧
    TreeInv [] (new_EditorImage (R:=R) emptyStore).2
      (root (new_EditorImage (R:=R) emptyStore).1) ∧
    BoxInv [] (new_EditorImage (R:=R) emptyStore).2
      (root (new_EditorImage (R:=R) emptyStore).1) ∧
    LinkInv [] (new_EditorImage (R:=R) emptyStore).2
      (root (new_EditorImage (R:=R) emptyStore).1).
Proof.
  exists (λ _, 0). split; [|split; [|split]]; [| | |apply LinkInv_new_EditorImage].
  all: unfold new_EditorImage; rewrite new_ImageNode_eq; simpl.
  all: assert (∀ m nd, nodes (new_ImageNode None (emptyStore (R:=R))).2 !! m = Some nd →
            content nd = None ∧ children nd = [] ∧ parent nd = None) as Hl
    by (intros m nd; rewrite lookup_new_ImageNode; simpl; case_decide; [|done];
        by intros [= <-]).
  all: assert (∀ a b, ¬ child (new_ImageNode None (emptyStore (R:=R))).2 a b) as Hno
    by (intros a b (nd & Hnd & Hin); destruct (Hl _ _ Hnd) as (_ & Hch & _);
        rewrite Hch in Hin; set_solver).
  - intros n nd Hn. destruct (Hl _ _ Hn) as (Hc & Hch & Hp).
    split; [rewrite Hch; set_solver|by rewrite Hp|done].
  - split.
    + set_solver.
    + intros p Hp. by destruct (Hno _ _ Hp).
    + intros p c _ Hc. by destruct (Hno p c).
    + intros c cd q _ Hcd Hq. destruct (Hl _ _ Hcd) as (_ & _ & Hp). congruence.
    + intros p1 p2 c _ _ Hc. by destruct (Hno p1 c).
    + intros n Hn. set_solver.
  - split.
    + intros n nd e Hn Hc. destruct (Hl _ _ Hn) as (Hc' & _). congruence.
    + intros L e (nd & Hn & Hc). destruct (Hl _ _ Hn) as (Hc' & _). congruence.
Qed.

(** An insertion that is accepted. *)
Lemma insert_Full rk G st img elem :
  WFr rk [] st → TreeInv G st (root img) → BoxInv G st (root img) →
  LinkInv G st (root img) → root img < length (nodes st) →
  Number.isNaN (rect_area (getBBox elem)) = false →
  ∃ fuel0 st' rk',
    (∀ fuel, fuel0 ≤ fuel →
       insert fuel elem st img
       = Some (inr (), st',
               mkEditorImage (root img) (setProperty (getId elem) elem (componentsById img)))) ∧
    WFr rk' [] st' ∧ TreeInv G st' (root img) ∧ BoxInv G st' (root img) ∧
    LinkInv G st' (root img) ∧ root img < length (nodes st') ∧
    contentsOf G st' ≡ₚ elem :: contentsOf G st ∧
    (∀ n, n ∈ G → leafContent st' n = leafContent st n) ∧
    length (nodes st) ≤ length (nodes st') ≤ length (nodes st) + 3.
Proof.
  intros Hwf Ht Hb Hk Hroot Hnan.
  destruct (addLeaf_sound2 (rk (root img)) rk G st (root img) (root img) elem
              Hwf Ht Hb Hk Hroot (t_root _ _ _ Ht) Hroot ltac:(done))
    as (fuel0 & res & st' & rk' & Hal & Hwf' & Ht' & Hb' & Hk' & Hlen & _ & _ & _
        & Hcont & Hkeep & Hlen3).
  { intros N ndN HN HNr Hpath. by destruct HNr; eapply rtc_to_root. }
  exists fuel0, st', rk'.
  split; [|split; [done|split; [done|split; [done|split; [done|split; [lia|
    split; [done|split; [done|lia]]]]]]]].
  intros fuel Hle. unfold insert, new_AddElementCommand. rewrite Hnan.
  unfold AddElementCommand_apply, addElementDirectly. simpl. by rewrite (Hal fuel Hle).
Qed.

(** The removal of an element that is stored. *)
Lemma removeElement_Full rk G st img elem :
  WFr rk [] st → TreeInv G st (root img) → BoxInv G st (root img) →
  LinkInv G st (root img) → root img < length (nodes st) →
  stored st (root img) elem →
  ∃ fuel0 st' G',
    (∀ fuel, fuel0 ≤ fuel → removeElement fuel elem st img = Some (st', img)) ∧
    WFr rk [] st' ∧ TreeInv G' st' (root img) ∧ BoxInv G' st' (root img) ∧
    LinkInv G' st' (root img) ∧ root img < length (nodes st') ∧
    contentsOf G st ≡ₚ elem :: contentsOf G' st' ∧
    (∀ n, n ∈ G' → n ∈ G ∨ leafContent st' n = None) ∧
    (∀ n, n ∈ G → leafContent st' n = leafContent st n).
Proof.
  intros Hwf Ht Hb Hk Hroot Hst.
  destruct (findParent_returns st img elem ltac:(by exists rk) Hroot)
    as (fuel1 & container & Hfp).
  destruct container as [c|].
  2:{ by destruct (findParent_None rk G st img elem fuel1 Hwf Ht Hb
                     (Hfp fuel1 ltac:(done))). }
  destruct (findParent_inTree _ _ _ _ _ (Hfp fuel1 ltac:(done)))
    as [Hpath (nd & Hnd & Hc)].
  assert (c ∉ G) as HcG by exact (rtc_notin _ _ _ _ _ Ht (t_root _ _ _ Ht) Hpath).
  destruct (remove_sound2 rk G st (root img) c nd elem Hwf Ht Hb Hk HcG Hnd Hc)
    as (fuel2 & st' & G' & Hrm & Hwf' & Ht' & Hb' & Hk' & Hlen & Hcont & Hgarb & Hkeep).
  exists (fuel1 `max` fuel2), st', G'.
  split; [|split; [done|split; [done|split; [done|split; [done|split; [lia|done]]]]]].
  intros fuel Hle. unfold removeElement, AddElementCommand_unapply. simpl.
  rewrite (Hfp fuel) by lia. simpl. by rewrite (Hrm fuel) by lia.
Qed.

(** The removal of an element that is not stored changes nothing. *)
Lemma removeElement_absent st img elem :
  WF st → root img < length (nodes st) → ¬ stored st (root img) elem →
  ∃ fuel0, ∀ fuel, fuel0 ≤ fuel → removeElement fuel elem st img = Some (st, img).
Proof.
  intros Hwf Hroot Hst.
  destruct (findParent_returns st img elem Hwf Hroot) as (fuel1 & container & Hfp).
  destruct container as [c|].
  { destruct Hst. exists c. by apply (findParent_inTree fuel1 st img elem c), Hfp. }
  exists fuel1. intros fuel Hle.
  unfold removeElement, AddElementCommand_unapply. simpl. by rewrite (Hfp fuel Hle).
Qed.

(** Every state that can be reached satisfies the invariants; the nodes
    that left the tree hold no content. *)
Lemma reachable_Full st img :
  reachable st img →
  ∃ rk G, WFr rk [] st ∧ TreeInv G st (root img) ∧ BoxInv G st (root img) ∧
    LinkInv G st (root img) ∧ root img < length (nodes st) ∧
    (∀ n, n ∈ G → leafContent st n = None) ∧
    Forall (λ e, Number.isNaN (rect_area (getBBox e)) = false) (contentsOf G st).
Proof.
  induction 1 as [|fuel elem st img r st' img' Hreach IH Hins
                  |fuel elem st img st' img' Hreach IH Hrm
                  |elem st img _ IH].
  - destruct Full_new_EditorImage as (rk & ? & ? & ? & ?).
    exists rk, []. split; [done|]. split; [done|]. split; [done|]. split; [done|].
    split; [apply WF_new_EditorImage|]. split; [intros n Hn; set_solver|].
    apply Forall_forall. intros e (n & _ & Hlc)%list_elem_of_omap.
    revert Hlc. simpl. unfold leafContent, new_EditorImage.
    rewrite new_ImageNode_eq. simpl. rewrite lookup_new_ImageNode.
    case_decide; [|done]. done.
  - destruct IH as (rk & G & Hwf & Ht & Hb & Hk & Hroot & Hge & Harea).
    destruct (Number.isNaN (rect_area (getBBox elem))) eqn:Hnan.
    { unfold insert, new_AddElementCommand in Hins. rewrite Hnan in Hins.
      injection Hins as <- <- <-. by exists rk, G. }
    destruct (insert_Full rk G st img elem Hwf Ht Hb Hk Hroot Hnan)
      as (fuel0 & st0 & rk' & Hi & Hwf' & Ht' & Hb' & Hk' & Hroot' & Hcont & Hkeep & _).
    pose proof (Hi (fuel `max` fuel0) ltac:(lia)) as Hi'.
    assert (insert (fuel `max` fuel0) elem st img = Some (r, st', img')) as Hi''.
    { revert Hins. unfold insert. destruct (new_AddElementCommand elem) as [t|cmd];
        [done|].
      unfold AddElementCommand_apply, addElementDirectly. simpl.
      destruct (addLeaf fuel (root img) (element cmd) st) as [[l s]|] eqn:Ha; [|done].
      rewrite (addLeaf_mono _ (fuel `max` fuel0) _ _ _ _ Ha) by lia. done. }
    rewrite Hi' in Hi''. injection Hi'' as <- <- <-. exists rk', G.
    split; [done|]. split; [done|]. split; [done|]. split; [done|]. split; [done|].
    split.
    + intros n Hn. rewrite (Hkeep n Hn). by apply Hge.
    + rewrite Hcont. by constructor.
  - destruct IH as (rk & G & Hwf & Ht & Hb & Hk & Hroot & Hge & Harea).
    destruct (decide (elem ∈ contentsOf G st)) as [Hst | Hst];
      rewrite <- (stored_contents rk G st (root img) elem Hwf Ht Hk Hroot) in Hst.
    + destruct (removeElement_Full rk G st img elem Hwf Ht Hb Hk Hroot Hst)
        as (fuel0 & st0 & G' & Hr & Hwf' & Ht' & Hb' & Hk' & Hroot' & Hcont & Hgarb
            & Hkeep).
      pose proof (Hr (fuel `max` fuel0) ltac:(lia)) as Hr'.
      unfold removeElement in Hr', Hrm.
      rewrite (AddElementCommand_unapply_mono _ (fuel `max` fuel0) _ _ _ _ Hrm) in Hr'
        by lia.
      injection Hr' as <- <-. exists rk, G'.
      split; [done|]. split; [done|]. split; [done|]. split; [done|]. split; [done|].
      split.
      * intros n Hn. destruct (Hgarb n Hn) as [Hn' | Hn']; [|done].
        rewrite (Hkeep n Hn'). by apply Hge.
      * rewrite Hcont in Harea. by apply Forall_cons in Harea as [_ ?].
    + destruct (removeElement_absent st img elem ltac:(by exists rk) Hroot Hst)
        as (fuel0 & Hr).
      pose proof (Hr (fuel `max` fuel0) ltac:(lia)) as Hr'.
      unfold removeElement in Hr', Hrm.
      rewrite (AddElementCommand_unapply_mono _ (fuel `max` fuel0) _ _ _ _ Hrm) in Hr'
        by lia.
      injection Hr' as <- <-. by exists rk, G.
  - done.
Qed.

End Operations.

Section Drawing.

(** *** What the image draws, before and after an operation *)

Context {R : Type} `{Rect2 R} `{!Rect2Laws R}.
Local Opaque update pushChild onContentChange new_ImageNode.
Implicit Types (st : Store R) (nd : ImageNode R) (n m this c p : ref).
Implicit Types (img : EditorImage R) (elem : AbstractComponent R).
Implicit Types (G : list ref) (renderer : AbstractRenderer R).

Lemma elem_of_calls (l : list (AbstractComponent R)) E (B : R) :
  (E, B) ∈ (λ e, (e, getBBox e)) <$> l ↔ E ∈ l ∧ B = getBBox E.
Proof.
  rewrite list_elem_of_fmap. split.
  - intros (e & [= -> ->] & He). done.
  - intros [He ->]. by exists E.
Qed.

(** X5: on every reachable state [renderAll] returns; it asks the
    renderer to draw the elements held by the leaves of the tree and
    nothing else, each with its own box, by increasing z-index. *)
Theorem renderAll_draws_stored st img renderer :
  reachable st img →
  ∃ fuel0 calls,
    (∀ fuel, fuel0 ≤ fuel → renderAll fuel st img renderer = Some calls) ∧
    StronglySorted (λ a b, (getZIndex a.1 ≤ getZIndex b.1)%Z) calls ∧
    ∀ E B, (E, B) ∈ calls ↔ stored st (root img) E ∧ B = getBBox E.
Proof.
  intros (rk & G & Hwf & Ht & Hb & Hk & Hroot & Hge)%reachable_Full.
  destruct (renderAll_calls rk G st img renderer Hwf Ht Hb Hk Hroot)
    as (fuel0 & calls & Hcalls & Hperm & Hsorted).
  exists fuel0, calls. split; [done|]. split; [done|].
  intros E B. rewrite Hperm, elem_of_calls.
  by rewrite (stored_contents rk G st (root img) E Hwf Ht Hk Hroot).
Qed.

(** X6: an insertion that is accepted adds one leaf: afterwards
    [renderAll] draws what it drew before and the new element, once
    more than before, and the stored elements are those stored before
    and the new one. *)
Theorem insert_draws_one_more st img elem renderer :
  reachable st img →
  Number.isNaN (rect_area (getBBox elem)) = false →
  ∃ fuel0 st' img' calls calls',
    (∀ fuel, fuel0 ≤ fuel →
       insert fuel elem st img = Some (inr (), st', img') ∧
       renderAll fuel st img renderer = Some calls ∧
       renderAll fuel st' img' renderer = Some calls') ∧
    calls' ≡ₚ (elem, getBBox elem) :: calls ∧
    (∀ E, stored st' (root img') E ↔ stored st (root img) E ∨ E = elem).
Proof.
  intros (rk & G & Hwf & Ht & Hb & Hk & Hroot & Hge)%reachable_Full Hnan.
  destruct (insert_Full rk G st img elem Hwf Ht Hb Hk Hroot Hnan)
    as (fuel1 & st' & rk' & Hi & Hwf' & Ht' & Hb' & Hk' & Hroot' & Hcont & _).
  set (img' := mkEditorImage (root img) (setProperty (getId elem) elem (componentsById img)))
    in *.
  destruct (renderAll_calls rk G st img renderer Hwf Ht Hb Hk Hroot)
    as (fuel2 & calls & Hcalls & Hperm & _).
  destruct (renderAll_calls rk' G st' img' renderer Hwf' Ht' Hb' Hk' Hroot')
    as (fuel3 & calls' & Hcalls' & Hperm' & _).
  exists (fuel1 `max` (fuel2 `max` fuel3)), st', img', calls, calls'.
  split; [|split].
  - intros fuel Hle. rewrite Hi, Hcalls, Hcalls' by lia. done.
  - rewrite Hperm', Hcont, Hperm. done.
  - intros E.
    rewrite (stored_contents rk' G st' (root img') E Hwf' Ht' Hk' Hroot').
    rewrite (stored_contents rk G st (root img) E Hwf Ht Hk Hroot).
    rewrite Hcont, elem_of_cons. tauto.
Qed.

(** X7: the removal of a stored element returns and takes one leaf that
    holds it out of the tree: [renderAll] drew it once more before than
    it does afterwards, and the rest is drawn as before. *)
Theorem remove_draws_one_less st img elem renderer :
  reachable st img →
  stored st (root img) elem →
  ∃ fuel0 st' calls calls',
    (∀ fuel, fuel0 ≤ fuel →
       removeElement fuel elem st img = Some (st', img) ∧
       renderAll fuel st img renderer = Some calls ∧
       renderAll fuel st' img renderer = Some calls') ∧
    calls ≡ₚ (elem, getBBox elem) :: calls'.
Proof.
  intros (rk & G & Hwf & Ht & Hb & Hk & Hroot & Hge)%reachable_Full Hst.
  destruct (removeElement_Full rk G st img elem Hwf Ht Hb Hk Hroot Hst)
    as (fuel1 & st' & G' & Hr & Hwf' & Ht' & Hb' & Hk' & Hroot' & Hcont & _).
  destruct (renderAll_calls rk G st img renderer Hwf Ht Hb Hk Hroot)
    as (fuel2 & calls & Hcalls & Hperm & _).
  destruct (renderAll_calls rk G' st' img renderer Hwf' Ht' Hb' Hk' Hroot')
    as (fuel3 & calls' & Hcalls' & Hperm' & _).
  exists (fuel1 `max` (fuel2 `max` fuel3)), st', calls, calls'. split.
  - intros fuel Hle. rewrite Hr, Hcalls, Hcalls' by lia. done.
  - rewrite Hperm, Hcont, Hperm'. done.
Qed.

(** X8: the removal of an element that no leaf of the tree holds
    returns and changes neither the store nor the image. *)
Theorem remove_absent_changes_nothing st img elem :
  reachable st img →
  ¬ stored st (root img) elem →
  (∃ fuel0, ∀ fuel, fuel0 ≤ fuel → removeElement fuel elem st img = Some (st, img)) ∧
  (∀ fuel st' img', removeElement fuel elem st img = Some (st', img') →
     st' = st ∧ img' = img).
Proof.
  intros [Hwf Hroot]%reachable_WF Hst.
  destruct (removeElement_absent st img elem Hwf Hroot Hst) as (fuel0 & Hr).
  split; [by exists fuel0|].
  intros fuel st' img' Hrm. unfold removeElement in Hrm.
  pose proof (Hr (fuel `max` fuel0) ltac:(lia)) as Hr'. unfold removeElement in Hr'.
  rewrite (AddElementCommand_unapply_mono _ (fuel `max` fuel0) _ _ _ _ Hrm) in Hr'
    by lia.
  by injection Hr' as -> ->.
Qed.

(** X9: an accepted insertion followed by the removal of the same
    element leaves the drawing as it was: [renderAll] draws the same
    elements, each as often as before the insertion. *)
Theorem insert_remove_restores_drawing st img elem renderer :
  reachable st img →
  Number.isNaN (rect_area (getBBox elem)) = false →
  ∃ fuel0 st1 img1 st2 calls calls2,
    (∀ fuel, fuel0 ≤ fuel →
       insert fuel elem st img = Some (inr (), st1, img1) ∧
       removeElement fuel elem st1 img1 = Some (st2, img1) ∧
       renderAll fuel st img renderer = Some calls ∧
       renderAll fuel st2 img1 renderer = Some calls2) ∧
    calls2 ≡ₚ calls.
Proof.
  intros (rk & G & Hwf & Ht & Hb & Hk & Hroot & Hge)%reachable_Full Hnan.
  destruct (insert_Full rk G st img elem Hwf Ht Hb Hk Hroot Hnan)
    as (fuel1 & st1 & rk1 & Hi & Hwf1 & Ht1 & Hb1 & Hk1 & Hroot1 & Hcont1 & _).
  set (img1 := mkEditorImage (root img) (setProperty (getId elem) elem (componentsById img)))
    in *.
  assert (stored st1 (root img1) elem) as Hst.
  { apply (stored_contents rk1 G st1 (root img1) elem Hwf1 Ht1 Hk1 Hroot1).
    rewrite Hcont1. by left. }
  destruct (removeElement_Full rk1 G st1 img1 elem Hwf1 Ht1 Hb1 Hk1 Hroot1 Hst)
    as (fuel2 & st2 & G2 & Hr & Hwf2 & Ht2 & Hb2 & Hk2 & Hroot2 & Hcont2 & _).
  destruct (renderAll_calls rk G st img renderer Hwf Ht Hb Hk Hroot)
    as (fuel3 & calls & Hcalls & Hperm & _).
  destruct (renderAll_calls rk1 G2 st2 img1 renderer Hwf2 Ht2 Hb2 Hk2 Hroot2)
    as (fuel4 & calls2 & Hcalls2 & Hperm2 & _).
  exists (fuel1 `max` (fuel2 `max` (fuel3 `max` fuel4))), st1, img1, st2, calls, calls2.
  split.
  - intros fuel Hle. rewrite Hi, Hr, Hcalls, Hcalls2 by lia. done.
  - rewrite Hperm2, Hperm. f_equiv.
    rewrite Hcont1 in Hcont2. by apply Permutation_cons_inv in Hcont2.
Qed.

(** What the query returns, from the invariants. *)
Lemma query_elem_of rk G st img region :
  WFr rk [] st → TreeInv G st (root img) → BoxInv G st (root img) →
  root img < length (nodes st) →
  ∃ fuel0 res,
    (∀ fuel, fuel0 ≤ fuel →
       getElementsIntersectingRegion fuel st img region = Some res) ∧
    ∀ E, E ∈ res ↔
      stored st (root img) E ∧ is_Some (rect_intersection (getBBox E) region).
Proof.
  intros Hwf Ht Hb Hroot.
  destruct (getLeavesIntersectingRegion_loop_returns rk [] st region None
              Hwf [root img] ltac:(set_solver) [])
    as (fuel0 & leaves & Hleaves).
  pose proof (getLeavesIntersectingRegion_loop_hasContent _ _ _ _ _ _ _
                (Hleaves fuel0 ltac:(done)) ltac:(constructor)) as Hcontent.
  pose proof (getLeavesIntersectingRegion_loop_elem_of _ _ _ _ _ _
                (Hleaves fuel0 ltac:(done))) as Hmem.
  destruct (hasContent_leafZIndex _ _ Hcontent) as [zs Hzs].
  set (sorted := jsSort (λ a b, Num (zIndexOrZero st a - zIndexOrZero st b)) leaves).
  assert (sortLeavesByZIndex st leaves = Some sorted) as Hsort.
  { unfold sortLeavesByZIndex. by rewrite Hzs. }
  destruct (sortLeavesByZIndex_Some _ _ _ Hsort) as [Hperm _].
  assert (Forall (hasContent st) sorted) as Hcontent' by by rewrite Hperm.
  destruct (hasContent_leafContent _ _ Hcontent') as [res Hres].
  exists fuel0, res. split.
  { intros fuel Hle. unfold getElementsIntersectingRegion, getLeavesIntersectingRegion.
    rewrite Hleaves by done. simpl. rewrite Hsort. done. }
  intros E. rewrite (mapM_Some_elem_of _ _ _ _ Hres). split.
  - intros (n & Hn & Hlc). rewrite Hperm in Hn.
    apply Hmem in Hn as [Hn | (w & ->%list_elem_of_singleton & Hpath & Ho)];
      [set_solver|].
    apply holds_leafContent in Hlc. split.
    + exists n. split; [by apply rtc_descends_child in Hpath|done].
    + destruct Ho as (nd & Hnd & _ & Hi). destruct Hlc as (nd' & Hnd' & Hc).
      simplify_eq. by rewrite <- (b_leaf _ _ _ Hb n nd E Hnd Hc).
  - intros [(n & Hin & Hh) Hi]. exists n.
    split; [|by apply holds_leafContent]. rewrite Hperm. apply Hmem. right.
    exists (root img). split; [by left|]. split.
    + eapply inTree_descends; [done|done|done|done| |by apply (t_root _ _ _ Ht)|done].
      by apply intersection_is_Some.
    + destruct Hh as (nd & Hnd & Hc). exists nd. split; [done|].
      split; [by rewrite Hc|]. by rewrite (b_leaf _ _ _ Hb n nd E Hnd Hc).
Qed.

(** X10: an element that was inserted is found: [findParent] returns a
    leaf of the tree that holds it, and the query returns it for every
    region that has an overlap with its box. *)
Theorem inserted_element_is_found st img elem :
  reachable st img →
  Number.isNaN (rect_area (getBBox elem)) = false →
  ∃ fuel0 st' img' leaf,
    (∀ fuel, fuel0 ≤ fuel →
       insert fuel elem st img = Some (inr (), st', img') ∧
       findParent fuel st' img' elem = Some (Some leaf)) ∧
    inTree st' (root img') leaf ∧ holds st' leaf elem ∧
    ∀ region, is_Some (rect_intersection (getBBox elem) region) →
      ∃ fuel1 res,
        (∀ fuel, fuel1 ≤ fuel →
           getElementsIntersectingRegion fuel st' img' region = Some res) ∧
        elem ∈ res.
Proof.
  intros (rk & G & Hwf & Ht & Hb & Hk & Hroot & Hge)%reachable_Full Hnan.
  destruct (insert_Full rk G st img elem Hwf Ht Hb Hk Hroot Hnan)
    as (fuel1 & st' & rk' & Hi & Hwf' & Ht' & Hb' & Hk' & Hroot' & Hcont & _).
  set (img' := mkEditorImage (root img) (setProperty (getId elem) elem (componentsById img)))
    in *.
  assert (stored st' (root img') elem) as Hst.
  { apply (stored_contents rk' G st' (root img') elem Hwf' Ht' Hk' Hroot').
    rewrite Hcont. by left. }
  destruct (findParent_returns st' img' elem ltac:(by exists rk') Hroot')
    as (fuel2 & container & Hfp).
  destruct container as [leaf|].
  2:{ by destruct (findParent_None rk' G st' img' elem fuel2 Hwf' Ht' Hb'
                     (Hfp fuel2 ltac:(done))). }
  destruct (findParent_inTree _ _ _ _ _ (Hfp fuel2 ltac:(done))) as [Hpath Hh].
  exists (fuel1 `max` fuel2), st', img', leaf. split; [|split; [done|split; [done|]]].
  - intros fuel Hle. rewrite Hi, Hfp by lia. done.
  - intros region Hov.
    destruct (query_elem_of rk' G st' img' region Hwf' Ht' Hb' Hroot')
      as (fuel3 & res & Hq & Hres).
    exists fuel3, res. split; [done|]. by apply Hres.
Qed.

Lemma filter_ne_id (l : list ref) (x : ref) :
  x ∉ l → filter (λ node, node ≠ x) l = l.
Proof.
  induction l as [|y l IH]; [done|]. intros [Hne Hx]%not_elem_of_cons.
  rewrite filter_cons, decide_True by done. by rewrite IH.
Qed.

Lemma filter_ne_length (l : list ref) (x : ref) :
  NoDup l → x ∈ l → S (length (filter (λ node, node ≠ x) l)) = length l.
Proof.
  induction 1 as [|y l Hy Hl IH]; [set_solver|].
  rewrite filter_cons. intros [-> | Hx]%elem_of_cons.
  - rewrite decide_False by (by intros ?). simpl. by rewrite filter_ne_id.
  - rewrite decide_True by (by intros ->). simpl. by rewrite IH.
Qed.

(** X11: in every reachable state a node that names a parent is listed
    exactly once among the children of that parent: taking it out of
    the list shortens the list by one, as [remove] asserts. *)
Theorem parent_lists_child_once st img n nd p :
  reachable st img →
  nodes st !! n = Some nd → parent nd = Some p →
  ∃ pnd, nodes st !! p = Some pnd ∧ NoDup (children pnd) ∧
    S (length (filter (λ node, node ≠ n) (children pnd))) = length (children pnd).
Proof.
  intros (rk & G & Hwf & Ht & Hb & Hk & Hroot & Hge)%reachable_Full Hnd Hp.
  destruct (parent_child _ _ _ _ _ _ Hwf (not_elem_of_nil _) Hnd Hp)
    as [(pnd & Hpnd & Hin) _].
  exists pnd. split; [done|].
  pose proof (l_nodup _ _ _ Hk p pnd Hpnd) as Hnodup. split; [done|].
  by apply filter_ne_length.
Qed.

(** X16: in every reachable state a node that holds an element is a
    node of the tree: the nodes that [remove] and [rebalance] take out
    of the tree hold no content. *)
Theorem content_only_in_tree st img n E :
  reachable st img →
  holds st n E →
  inTree st (root img) n.
Proof.
  intros (rk & G & Hwf & Ht & Hb & Hk & Hroot & Hge & _)%reachable_Full Hh.
  apply (attached_inTree rk G st (root img) n Hwf Ht Hk).
  - destruct Hh as (nd & Hnd & _). by eapply lookup_lt_Some.
  - intros Hn. apply holds_leafContent in Hh. rewrite (Hge n Hn) in Hh. done.
Qed.

(** X17: an insertion allocates at most three nodes, and a removal
    allocates none; no node is ever freed. *)
Theorem operations_allocate_little st img elem :
  reachable st img →
  (∀ fuel r st' img', insert fuel elem st img = Some (r, st', img') →
     length (nodes st) ≤ length (nodes st') ≤ length (nodes st) + 3) ∧
  (∀ fuel st' img', removeElement fuel elem st img = Some (st', img') →
     length (nodes st') = length (nodes st)).
Proof.
  intros Hreach.
  pose proof (reachable_Full _ _ Hreach) as (rk & G & Hwf & Ht & Hb & Hk & Hroot & Hge).
  split.
  - intros fuel r st' img' Hins.
    destruct (Number.isNaN (rect_area (getBBox elem))) eqn:Hnan.
    { unfold insert, new_AddElementCommand in Hins. rewrite Hnan in Hins.
      injection Hins as <- <- <-. lia. }
    destruct (insert_Full rk G st img elem Hwf Ht Hb Hk Hroot Hnan)
      as (fuel0 & st0 & rk' & Hi & _ & _ & _ & _ & _ & _ & _ & Hlen).
    pose proof (Hi (fuel `max` fuel0) ltac:(lia)) as Hi'.
    assert (insert (fuel `max` fuel0) elem st img = Some (r, st', img')) as Hi''.
    { revert Hins. unfold insert. destruct (new_AddElementCommand elem) as [t|cmd];
        [done|].
      unfold AddElementCommand_apply, addElementDirectly. simpl.
      destruct (addLeaf fuel (root img) (element cmd) st) as [[l s]|] eqn:Ha; [|done].
      rewrite (addLeaf_mono _ (fuel `max` fuel0) _ _ _ _ Ha) by lia. done. }
    rewrite Hi' in Hi''. by injection Hi'' as <- <- <-.
  - intros fuel st' img' Hrm.
    destruct (AddElementCommand_unapply_returns st img elem ltac:(by exists rk) Hroot)
      as (fuel0 & st0 & Hr & _ & Hlen & _).
    pose proof (Hr (fuel `max` fuel0) ltac:(lia)) as Hr'.
    unfold removeElement in Hrm.
    rewrite (AddElementCommand_unapply_mono _ (fuel `max` fuel0) _ _ _ _ Hrm) in Hr'
      by lia.
    by injection Hr' as <- <-.
Qed.


(** X22: the removal of a stored element followed by its insertion
    (undo, then redo) returns and leaves the drawing as it was:
    [renderAll] draws the same elements, each as often as before. *)
Theorem remove_insert_restores_drawing st img elem renderer :
  reachable st img →
  stored st (root img) elem →
  ∃ fuel0 st1 st2 img2 calls calls2,
    (∀ fuel, fuel0 ≤ fuel →
       removeElement fuel elem st img = Some (st1, img) ∧
       insert fuel elem st1 img = Some (inr (), st2, img2) ∧
       renderAll fuel st img renderer = Some calls ∧
       renderAll fuel st2 img2 renderer = Some calls2) ∧
    calls2 ≡ₚ calls.
Proof.
  intros (rk & G & Hwf & Ht & Hb & Hk & Hroot & _ & Harea)%reachable_Full Hst.
  assert (Number.isNaN (rect_area (getBBox elem)) = false) as Hnan.
  { apply (stored_contents rk G st (root img) elem Hwf Ht Hk Hroot) in Hst.
    by apply (proj1 (Forall_forall _ _) Harea). }
  destruct (removeElement_Full rk G st img elem Hwf Ht Hb Hk Hroot Hst)
    as (fuel1 & st1 & G1 & Hr & Hwf1 & Ht1 & Hb1 & Hk1 & Hroot1 & Hcont1 & _).
  destruct (insert_Full rk G1 st1 img elem Hwf1 Ht1 Hb1 Hk1 Hroot1 Hnan)
    as (fuel2 & st2 & rk2 & Hi & Hwf2 & Ht2 & Hb2 & Hk2 & Hroot2 & Hcont2 & _).
  set (img2 := mkEditorImage (root img) (setProperty (getId elem) elem (componentsById img)))
    in *.
  destruct (renderAll_calls rk G st img renderer Hwf Ht Hb Hk Hroot)
    as (fuel3 & calls & Hcalls & Hperm & _).
  destruct (renderAll_calls rk2 G1 st2 img2 renderer Hwf2 Ht2 Hb2 Hk2 Hroot2)
    as (fuel4 & calls2 & Hcalls2 & Hperm2 & _).
  exists (fuel1 `max` (fuel2 `max` (fuel3 `max` fuel4))), st1, st2, img2, calls, calls2.
  split.
  - intros fuel Hle. rewrite Hr, Hi, Hcalls, Hcalls2 by lia. done.
  - rewrite Hperm2, Hperm. f_equiv. by rewrite Hcont2, Hcont1.
Qed.

End Drawing.

Section Render.

(** *** What [render] draws *)

Context {R : Type} `{Rect2 R} `{!Rect2Laws R}.
Local Opaque update pushChild onContentChange new_ImageNode.
Implicit Types (st : Store R) (nd : ImageNode R) (n m this c p : ref).
Implicit Types (img : EditorImage R) (elem : AbstractComponent R).
Implicit Types (G : list ref) (renderer : AbstractRenderer R).

(** What the loop of [getLeavesIntersectingRegion] adds to its result
    under a size test: the nodes with content and an overlap that are
    not too small and that it reaches from the work list through nodes
    that are not too small. *)
Lemma getLeavesIntersectingRegion_loop_visible fuel st region small workList result res :
  getLeavesIntersectingRegion_loop fuel st region (Some small) workList result
  = Some res →
  ∀ n, n ∈ res ↔
    n ∈ result ∨
    ∃ w, w ∈ workList ∧ rtc (descendsVisible st region small) w n ∧
      (∃ nd, nodes st !! n = Some nd ∧ small (bbox nd) = false) ∧
      overlaps st region n.
Proof.
  revert workList result. induction fuel as [|fuel IH]; intros workList result.
  - destruct workList; simpl; [|done]. intros [= <-] n. set_solver.
  - destruct workList as [|next rest]; simpl; [intros [= <-] n; set_solver|].
    destruct (nodes st !! next) as [nd|] eqn:Hnd; [|done]. simpl.
    destruct (small (bbox nd)) eqn:Hsmall.
    { intros Hloop n. rewrite (IH _ _ Hloop n). split.
      - intros [Hn | (w & Hw & Hrest)]; [by left|]. right. exists w.
        split; [by right|done].
      - intros [Hn | (w & [-> | Hw]%elem_of_cons & Hpath & Hvis & Ho)]; [by left| |].
        + apply rtc_inv in Hpath as [-> | (c & [(ad & Had & Hs) _] & _)].
          * destruct Hvis as (nd' & Hnd' & Hs). congruence.
          * congruence.
        + right. by exists w. }
    destruct (getChildrenIntersectingRegion st next region) as [cs|] eqn:Hcs; [|done].
    simpl. intros Hloop n. rewrite (IH _ _ Hloop n).
    destruct (getChildrenIntersectingRegion_Some _ _ _ _ Hcs) as (nd' & Hnd' & Hcsx).
    simplify_eq.
    assert (∀ x, x ∈ cs ↔ descendsVisible st region small next x) as Hdesc.
    { intros x. rewrite Hcsx. unfold descendsVisible, descends, child. split.
      - intros [Hin Hx]. split; [by exists nd|]. split; [|done]. by exists nd.
      - intros [_ [(nd' & Hnd' & Hin) Hx]]. by simplify_eq. }
    assert (n ∈ (if bool_decide (content nd ≠ None)
                    && bool_decide (is_Some (rect_intersection (bbox nd) region))
                 then result ++ [next] else result)
            ↔ n ∈ result ∨ (n = next ∧ overlaps st region next)) as ->.
    { destruct (bool_decide (content nd ≠ None)
                && bool_decide (is_Some (rect_intersection (bbox nd) region))) eqn:Hb.
      - apply andb_true_iff in Hb as [Hb1%bool_decide_eq_true Hb2%bool_decide_eq_true].
        rewrite elem_of_app, list_elem_of_singleton. split; [|tauto].
        intros [?| ->]; [by left|]. right. split; [done|]. by exists nd.
      - split; [by left|]. intros [?|[-> (nd' & Hnd' & Hc & Hi)]]; [done|].
        simplify_eq. apply andb_false_iff in Hb as [Hb%bool_decide_eq_false
                                                  |Hb%bool_decide_eq_false]; done. }
    split.
    + intros [[Hn | [-> Ho]] | (w & Hw & Hpath & Hvis & Ho)].
      * by left.
      * right. exists next. split; [by left|]. split; [done|]. split; [|done].
        by exists nd.
      * right. apply elem_of_app in Hw as [Hw | Hw].
        -- rewrite elem_of_reverse in Hw. exists next. split; [by left|].
           split; [|done]. eapply rtc_l; [by apply Hdesc|done].
        -- exists w. split; [by right|]. done.
    + intros [Hn | (w & Hw & Hpath & Hvis & Ho)]; [by left; left|].
      apply elem_of_cons in Hw as [-> | Hw].
      * apply rtc_inv in Hpath as [-> | (c & Hc & Hpath)].
        -- left. right. done.
        -- right. exists c. split; [|done].
           apply elem_of_app. left. rewrite elem_of_reverse. by apply Hdesc.
      * right. exists w. split; [|done]. apply elem_of_app. by right.
Qed.

Lemma rtc_descendsVisible_child st region small a b :
  rtc (descendsVisible st region small) a b → rtc (child st) a b.
Proof. apply rtc_subrel. by intros x y [_ [? _]]. Qed.

(** No node on the way to a leaf that the query has reached is too
    small. *)
Lemma descendsVisible_path rk G st r region small a n :
  WFr rk [] st → TreeInv G st r → a ∉ G →
  rtc (descendsVisible st region small) a n →
  (∃ nd, nodes st !! n = Some nd ∧ small (bbox nd) = false) →
  ∀ N, N ∉ G → rtc (child st) N n → rtc (child st) a N →
    ∃ Nd, nodes st !! N = Some Nd ∧ small (bbox Nd) = false.
Proof.
  intros Hwf Ht Ha Hpath. revert n Hpath.
  apply (rtc_ind_r (λ n,
    (∃ nd, nodes st !! n = Some nd ∧ small (bbox nd) = false) →
    ∀ N, N ∉ G → rtc (child st) N n → rtc (child st) a N →
      ∃ Nd, nodes st !! N = Some Nd ∧ small (bbox Nd) = false)).
  - intros Hvis N HN HNa HaN.
    assert (N = a) as ->; [|done].
    destruct (rtc_child_rank _ _ _ _ _ Hwf HNa) as [-> | H1]; [done|].
    destruct (rtc_child_rank _ _ _ _ _ Hwf HaN) as [-> | H2]; [done|]. lia.
  - intros p n Hap [Hpvis [Hpn _]] IH Hvis N HN HNn HaN.
    destruct (decide (N = n)) as [-> | Hne]; [done|].
    apply (IH Hpvis N HN); [|done].
    apply (rtc_parent_edge G st r N p n Ht HN); [|done|done|done].
    apply (rtc_notin _ _ _ _ _ Ht Ha). by eapply rtc_descendsVisible_child.
Qed.

(** The query with a size test reaches every leaf of the tree whose
    element has a box that intersects the region, when no node on the
    way is too small. *)
Lemma inTree_descendsVisible rk G st r region small a n e :
  WFr rk [] st → TreeInv G st r → BoxInv G st r →
  holds st n e → rect_intersects (getBBox e) region = true →
  (∀ N Nd, rtc (child st) a N → rtc (child st) N n → nodes st !! N = Some Nd →
     small (bbox Nd) = false) →
  a ∉ G → rtc (child st) a n → rtc (descendsVisible st region small) a n.
Proof.
  intros Hwf Ht Hb Hh Hint Hvis Ha Hpath. revert Ha Hvis.
  induction Hpath as [|a b n Hab Hbn IH]; intros Ha Hvis; [done|].
  assert (b ∉ G) as HbG by by apply (t_closed _ _ _ Ht a b).
  eapply rtc_l.
  2:{ apply IH; [done|done|]. intros N Nd HbN HNn. apply Hvis; [|done].
      by eapply rtc_l. }
  destruct (child_rank _ _ _ _ _ Hwf Hab) as [Hbl _].
  destruct (lookup_lt_is_Some_2 _ _ Hbl) as [bd Hbd].
  destruct Hab as (ad & Had & Hin).
  split.
  - exists ad. split; [done|]. apply (Hvis a ad); [done| |done].
    eapply rtc_l; [|exact Hbn]. by exists ad.
  - split; [by exists ad|]. exists bd. split; [done|].
    eapply intersects_contains; [|exact Hint].
    apply (b_cover _ _ _ Hb n e Hh b bd); [done| |done|done].
    eapply child_not_root; [done|]. by exists ad.
Qed.

(** X12: on every reachable state [render] returns; it asks the
    renderer to draw, each with the visible rectangle and by increasing
    z-index, the elements of the tree that have an overlap with the
    visible rectangle and lie under no node, from the root to their
    leaf, whose box the renderer finds too small. *)
Theorem render_draws_visible st img renderer visibleRect :
  reachable st img →
  ∃ fuel0 calls,
    (∀ fuel, fuel0 ≤ fuel → render fuel st img renderer visibleRect = Some calls) ∧
    StronglySorted (λ a b, (getZIndex a.1 ≤ getZIndex b.1)%Z) calls ∧
    ∀ E B, (E, B) ∈ calls ↔
      B = visibleRect ∧
      ∃ n, inTree st (root img) n ∧ holds st n E ∧
        is_Some (rect_intersection (getBBox E) visibleRect) ∧
        ∀ N Nd, inTree st (root img) N → rtc (child st) N n →
          nodes st !! N = Some Nd → isTooSmallToRender renderer (bbox Nd) = false.
Proof.
  intros [(rk & G & Hwf & Ht & Hb) Hroot]%reachable_Sound.
  set (small := isTooSmallToRender renderer).
  destruct (getLeavesIntersectingRegion_loop_returns rk [] st visibleRect (Some small)
              Hwf [root img] ltac:(set_solver) [])
    as (fuel0 & leaves & Hleaves).
  pose proof (getLeavesIntersectingRegion_loop_hasContent _ _ _ _ _ _ _
                (Hleaves fuel0 ltac:(done)) ltac:(constructor)) as Hcontent.
  pose proof (getLeavesIntersectingRegion_loop_visible _ _ _ _ _ _ _
                (Hleaves fuel0 ltac:(done))) as Hmem.
  destruct (hasContent_leafZIndex _ _ Hcontent) as [zs Hzs].
  set (sorted := jsSort (λ a b, Num (zIndexOrZero st a - zIndexOrZero st b)) leaves).
  assert (sortLeavesByZIndex st leaves = Some sorted) as Hsort.
  { unfold sortLeavesByZIndex. by rewrite Hzs. }
  destruct (sortLeavesByZIndex_Some _ _ _ Hsort) as [Hperm Hsorted].
  assert (Forall (hasContent st) sorted) as Hcontent' by by rewrite Hperm.
  set (F := λ leaf : ref, c ← leafContent st leaf; Some (c, visibleRect)).
  assert (∀ l, Forall (hasContent st) l →
            Forall2 (λ n call, F n = Some call ∧ leafContent st n = Some call.1 ∧
                       call.2 = visibleRect ∧
                       zIndexOrZero st n = getZIndex call.1)
              l ((λ e, (e, visibleRect)) <$> omap (leafContent st) l)) as HF.
  { induction 1 as [|n l (nd & Hnd & Hc) _ IH]; csimpl; [constructor|].
    destruct (content nd) as [e|] eqn:He; [|done].
    assert (leafContent st n = Some e) as Hlc.
    { unfold leafContent. rewrite Hnd. done. }
    rewrite Hlc. csimpl. constructor; [|done]. split; [|split; [done|split; [done|]]].
    - unfold F. by rewrite Hlc.
    - unfold zIndexOrZero, leafZIndex. rewrite Hnd. simpl. by rewrite He. }
  specialize (HF sorted Hcontent').
  exists fuel0, ((λ e, (e, visibleRect)) <$> omap (leafContent st) sorted).
  split; [|split].
  - intros fuel Hle. unfold render, ImageNode_render, getLeavesIntersectingRegion.
    fold small. rewrite (Hleaves fuel Hle). simpl. rewrite Hsort. simpl. fold F.
    apply mapM_Some. eapply Forall2_impl; [exact HF|]. by intros n call [? _].
  - eapply StronglySorted_Forall2; [|exact HF|exact Hsorted].
    intros a b a' b' (_ & _ & _ & Ha) (_ & _ & _ & Hb') Hab. simpl.
    by rewrite <- Ha, <- Hb'.
  - intros E B. rewrite list_elem_of_fmap. split.
    + intros (e & [= -> ->] & (n & Hn & Hlc)%list_elem_of_omap). split; [done|].
      rewrite Hperm in Hn.
      apply Hmem in Hn as [Hn | (w & ->%list_elem_of_singleton & Hpath & Hvis & Ho)];
        [set_solver|].
      apply holds_leafContent in Hlc. exists n.
      split; [by apply rtc_descendsVisible_child in Hpath|]. split; [done|]. split.
      * destruct Ho as (nd & Hnd & _ & Hi). destruct Hlc as (nd' & Hnd' & Hc).
        simplify_eq. by rewrite <- (b_leaf _ _ _ Hb n nd e Hnd Hc).
      * intros N Nd HN HNn HNd.
        destruct (descendsVisible_path rk G st (root img) visibleRect small
                    (root img) n Hwf Ht (t_root _ _ _ Ht) Hpath Hvis N)
          as (Nd' & HNd' & Hs); [|done|done|congruence].
        exact (rtc_notin _ _ _ _ _ Ht (t_root _ _ _ Ht) HN).
    + intros [-> (n & Hin & Hh & Hi & Hvis)]. exists E. split; [done|].
      apply list_elem_of_omap. exists n. split; [|by apply holds_leafContent].
      rewrite Hperm. apply Hmem. right. exists (root img). split; [by left|].
      pose proof Hh as (nd & Hnd & Hc). split; [|split].
      * eapply inTree_descendsVisible;
          [done|done|done|exact Hh| | |by apply (t_root _ _ _ Ht)|done].
        -- by apply intersection_is_Some.
        -- intros N Nd HN HNn HNd. by apply (Hvis N Nd).
      * exists nd. split; [done|]. by apply (Hvis n nd).
      * exists nd. split; [done|]. split; [by rewrite Hc|].
        by rewrite (b_leaf _ _ _ Hb n nd E Hnd Hc).
Qed.

End Render.

Section Stamps.

(** *** Version stamps *)

Context {R : Type} `{Rect2 R}.
Local Opaque update pushChild onContentChange new_ImageNode.
Implicit Types (st : Store R) (nd : ImageNode R) (n m this c p : ref).
Implicit Types (img : EditorImage R) (elem : AbstractComponent R).

Lemma getId_Some st n i :
  ImageNode_getId st n = Some i ↔ ∃ nd, nodes st !! n = Some nd ∧ node_id nd = i.
Proof.
  unfold ImageNode_getId. rewrite fmap_Some. split; intros (nd & ? & ?); by exists nd.
Qed.

Lemma sameStamps_refl st : sameStamps st st.
Proof. by split. Qed.

Lemma sameStamps_trans st1 st2 st3 :
  sameStamps st1 st2 → sameStamps st2 st3 → sameStamps st1 st3.
Proof.
  intros [Hc1 Hi1] [Hc2 Hi2]. split; [congruence|]. intros n. by rewrite Hi2, Hi1.
Qed.

Lemma sameStamps_update st n (f : ImageNode R → ImageNode R) :
  (∀ nd, node_id (f nd) = node_id nd) → sameStamps st (update n f st).
Proof.
  intros Hf. split; [done|]. intros m. unfold ImageNode_getId.
  rewrite lookup_update. case_decide; [|done].
  destruct (nodes st !! m); simpl; [by rewrite Hf|done].
Qed.

Lemma sameStamps_pushChild st this c : sameStamps st (pushChild this c st).
Proof.
  split; [done|]. intros m. unfold ImageNode_getId.
  rewrite lookup_pushChild. case_decide; [|done]. by destruct (nodes st !! m).
Qed.

Lemma sameStamps_set_parents st p cs :
  sameStamps st (foldl (λ s child, update child (set_parent (Some p)) s) st cs).
Proof.
  split; [by rewrite idCounter_set_parents|]. intros m. unfold ImageNode_getId.
  rewrite lookup_set_parents. case_decide; [|done]. by destruct (nodes st !! m).
Qed.

Lemma recomputeBBox_sameStamps fuel x b st st' :
  recomputeBBox fuel x b st = Some st' → sameStamps st st'.
Proof.
  revert x b st. induction fuel as [|fuel IH]; intros x b st; [intros Hr; discriminate Hr|].
  simpl. unfold recomputeBBox; fold (recomputeBBox (R:=R)).
  destruct (nodes st !! x) as [nd|]; [|done]. simpl.
  destruct (computeBBox st nd) as [bb|]; [|done]. simpl.
  pose proof (sameStamps_update st x (set_bbox bb) ltac:(done)) as Hs.
  destruct (b && negb (rect_eq (bbox nd) bb)).
  - destruct (parent nd) as [q|].
    + intros Hr. eapply sameStamps_trans; [exact Hs|]. by eapply IH.
    + by intros [= <-].
  - by intros [= <-].
Qed.

Lemma rebalance_sameStamps this st st' :
  rebalance this st = Some st' → sameStamps st st'.
Proof.
  unfold rebalance.
  destruct (nodes st !! this) as [nd|]; [|done]. simpl.
  destruct (parent nd) as [p|]; [|intros [= <-]; apply sameStamps_refl].
  destruct (nodes st !! p) as [pnd|]; [|done]. simpl.
  case_bool_decide; [|intros [= <-]; apply sameStamps_refl].
  destruct (parent pnd) as [gp|].
  - intros Hr%recomputeBBox_sameStamps.
    eapply sameStamps_trans; [|exact Hr].
    eapply sameStamps_trans; [|by apply sameStamps_update].
    eapply sameStamps_trans; [|by apply sameStamps_pushChild].
    eapply sameStamps_trans; by apply sameStamps_update.
  - destruct (content nd); [intros [= <-]; apply sameStamps_refl|].
    unfold updateParents.
    destruct (nodes (update p (set_children (children nd)) st) !! p) as [pnd'|]; [|done].
    simpl. intros [= <-].
    eapply sameStamps_trans; [|by apply sameStamps_update].
    eapply sameStamps_trans; [|by apply sameStamps_set_parents].
    by apply sameStamps_update.
Qed.

Lemma rebalance_all_sameStamps l st st' :
  foldl (λ s child, (s ← s; rebalance child s)) (Some st) l = Some st' →
  sameStamps st st'.
Proof.
  revert st. induction l as [|c l IH]; intros st; simpl.
  - intros [= <-]. apply sameStamps_refl.
  - destruct (rebalance c st) as [st1|] eqn:Hr.
    + intros Hf. eapply sameStamps_trans; [by eapply rebalance_sameStamps|by apply IH].
    + intros Hf. exfalso. clear -Hf. induction l as [|x l IHl]; simpl in Hf; [done|].
      by apply IHl.
Qed.

(** [remove] changes no stamp. *)
Lemma remove_sameStamps fuel this st st' :
  remove fuel this st = Some st' → sameStamps st st'.
Proof.
  unfold remove.
  destruct (nodes st !! this) as [nd|]; [|done]. simpl.
  destruct (parent nd) as [p|].
  2:{ intros [= <-]. eapply sameStamps_trans; by apply sameStamps_update. }
  destruct (nodes st !! p) as [pnd|]; [|done]. simpl.
  destruct (foldl _ _ _) as [st2|] eqn:Hfold; [|done]. simpl.
  destruct (nodes st2 !! this) as [nd2|]; [|done]. simpl.
  destruct (parent nd2) as [p'|]; [|done].
  destruct (recomputeBBox fuel p' true st2) as [st3|] eqn:Hrc; [|done]. simpl.
  intros [= <-].
  eapply sameStamps_trans; [|by apply sameStamps_update].
  eapply sameStamps_trans; [|by apply sameStamps_update].
  eapply sameStamps_trans; [|by apply sameStamps_update].
  eapply sameStamps_trans; [|by eapply recomputeBBox_sameStamps].
  eapply sameStamps_trans; [|by eapply rebalance_all_sameStamps].
  by apply sameStamps_update.
Qed.

Lemma StampInv_sameStamps st st' : sameStamps st st' → StampInv st → StampInv st'.
Proof.
  intros [Hc Hi] [Hb Hd].
  assert (∀ n nd', nodes st' !! n = Some nd' →
            ∃ nd, nodes st !! n = Some nd ∧ node_id nd = node_id nd') as Hl.
  { intros n nd' Hn'. apply getId_Some. rewrite <- Hi. apply getId_Some. by exists nd'. }
  split.
  - intros n nd' Hn'. destruct (Hl _ _ Hn') as (nd & Hn & <-). rewrite Hc. by eapply Hb.
  - intros n m nd' md' Hn' Hm' Heq.
    destruct (Hl _ _ Hn') as (nd & Hn & Hnid). destruct (Hl _ _ Hm') as (md & Hm & Hmid).
    apply (Hd n m nd md Hn Hm). congruence.
Qed.

Lemma stampStep_refl st : stampStep st st.
Proof. split; [done|]. split; [done|]. intros n i Hi. exists i. split; [done|by left]. Qed.

Lemma stampStep_trans st1 st2 st3 :
  stampStep st1 st2 → stampStep st2 st3 → stampStep st1 st3.
Proof.
  intros [Hi1 [Hc1 Ha1]] [Hi2 [Hc2 Ha2]]. split; [by intros ?%Hi1%Hi2|].
  split; [lia|]. intros n i Hn.
  destruct (Ha1 n i Hn) as (i' & Hn' & Hi').
  destruct (Ha2 n i' Hn') as (i'' & Hn'' & Hi'').
  exists i''. split; [done|]. destruct Hi' as [-> | Hi'], Hi'' as [-> | Hi'']; [by left|..];
    right; lia.
Qed.

Lemma stampStep_same st st' : sameStamps st st' → stampStep st st'.
Proof.
  intros Hs. split; [by apply StampInv_sameStamps|]. destruct Hs as [Hc Hi].
  split; [lia|]. intros n i Hn. exists i. split; [by rewrite Hi|by left].
Qed.

Lemma stampStep_new_ImageNode st (par : option ref) :
  stampStep st (new_ImageNode par st).2.
Proof.
  split; [|split].
  - intros [Hb Hd]. split.
    + intros n nd. rewrite lookup_new_ImageNode, idCounter_new_ImageNode.
      case_decide.
      * intros [= <-]. simpl. lia.
      * intros Hn. specialize (Hb n nd Hn). lia.
    + intros n m nd md. rewrite !lookup_new_ImageNode.
      repeat case_decide; subst; try done.
      * intros [= <-] Hm. simpl. intros Heq. specialize (Hb m md Hm). lia.
      * intros Hn [= <-]. simpl. intros Heq. specialize (Hb n nd Hn). lia.
      * apply Hd.
  - rewrite idCounter_new_ImageNode. lia.
  - intros n i (nd & Hn & Hi)%getId_Some. exists i. split; [|by left].
    apply getId_Some. exists nd. split; [|done].
    rewrite lookup_new_ImageNode, decide_False; [done|].
    apply lookup_lt_Some in Hn. lia.
Qed.

Lemma stampStep_onContentChange st this : stampStep st (onContentChange this st).
Proof.
  split; [|split].
  - intros [Hb Hd]. split.
    + intros n nd. rewrite lookup_onContentChange, idCounter_onContentChange.
      case_decide.
      * intros (nd0 & Hn & ->)%fmap_Some. simpl. lia.
      * intros Hn. specialize (Hb n nd Hn). lia.
    + intros n m nd md. rewrite !lookup_onContentChange.
      repeat case_decide; subst; try done.
      * intros (nd0 & Hn & ->)%fmap_Some Hm. simpl. intros Heq.
        specialize (Hb m md Hm). lia.
      * intros Hn (md0 & Hm & ->)%fmap_Some. simpl. intros Heq.
        specialize (Hb n nd Hn). lia.
      * apply Hd.
  - rewrite idCounter_onContentChange. lia.
  - intros n i (nd & Hn & Hi)%getId_Some.
    destruct (decide (n = this)) as [-> | Hne].
    + exists (idCounter st). split; [|by right]. apply getId_Some.
      exists (set_node_id (idCounter st) nd). split; [|done].
      by rewrite lookup_onContentChange, decide_True, Hn.
    + exists i. split; [|by left]. apply getId_Some. exists nd. split; [|done].
      by rewrite lookup_onContentChange, decide_False.
Qed.

Lemma stampStep_update st n (f : ImageNode R → ImageNode R) :
  (∀ nd, node_id (f nd) = node_id nd) → stampStep st (update n f st).
Proof. intros Hf. by apply stampStep_same, sameStamps_update. Qed.

Lemma stampStep_pushChild st this c : stampStep st (pushChild this c st).
Proof. apply stampStep_same, sameStamps_pushChild. Qed.

Lemma stampStep_recomputeBBox fuel x b st st' :
  recomputeBBox fuel x b st = Some st' → stampStep st st'.
Proof. intros Hr. by eapply stampStep_same, recomputeBBox_sameStamps. Qed.

Lemma pushDownContent_stampStep fuel this nd st st' :
  pushDownContent fuel this nd st = Some st' → stampStep st st'.
Proof.
  unfold pushDownContent. destruct (content nd) as [c|].
  2:{ intros [= <-]. apply stampStep_refl. }
  rewrite new_ImageNode_eq. intros Hr%stampStep_recomputeBBox.
  eapply stampStep_trans; [|exact Hr].
  eapply stampStep_trans; [|apply stampStep_pushChild].
  eapply stampStep_trans; [|by apply stampStep_update].
  eapply stampStep_trans; [|by apply stampStep_update].
  apply stampStep_new_ImageNode.
Qed.

Lemma makeRoomForLeaf_stampStep fuel this nd st f st' :
  makeRoomForLeaf fuel this nd st = Some (f, st') → stampStep st st'.
Proof.
  unfold makeRoomForLeaf. rewrite new_ImageNode_eq. case_bool_decide.
  - simpl. intros [= <- <-].
    eapply stampStep_trans; [|apply stampStep_pushChild]. apply stampStep_new_ImageNode.
  - rewrite new_ImageNode_eq.
    destruct (recomputeBBox _ _ _ _) as [st3|] eqn:Hrc; [|done]. simpl.
    unfold updateParents. destruct (nodes st3 !! _) as [gnd|]; [|done]. simpl.
    intros [= <- <-].
    eapply stampStep_trans; [|apply stampStep_same, sameStamps_set_parents].
    eapply stampStep_trans; [|by eapply stampStep_recomputeBBox].
    eapply stampStep_trans; [|by apply stampStep_update].
    eapply stampStep_trans; [|by apply stampStep_update].
    eapply stampStep_trans; apply stampStep_new_ImageNode.
Qed.

Lemma appendLeaf_stampStep fuel this leaf st f st' :
  appendLeaf fuel this leaf st = Some (f, st') → stampStep st st'.
Proof.
  unfold appendLeaf. rewrite new_ImageNode_eq.
  destruct (recomputeBBox _ _ _ _) as [st3|] eqn:Hrc; [|done]. simpl.
  intros [= <- <-].
  eapply stampStep_trans; [|by eapply stampStep_recomputeBBox].
  eapply stampStep_trans; [|by apply stampStep_update].
  eapply stampStep_trans; [|apply stampStep_pushChild].
  apply stampStep_new_ImageNode.
Qed.

(** [addLeaf] keeps the stamps in order and gives the node it is called
    on a stamp that the counter had not given out before the call. *)
Lemma addLeaf_stampStep fuel this leaf st res st' :
  addLeaf fuel this leaf st = Some (res, st') →
  stampStep st st' ∧
  ∀ i, ImageNode_getId st this = Some i →
    ∃ i', ImageNode_getId st' this = Some i' ∧ idCounter st ≤ i'.
Proof.
  revert this st res st'. induction fuel as [|fuel IH]; intros this st res st';
    [intros Ha; discriminate Ha|].
  rewrite addLeaf_unfold. cbv zeta.
  pose proof (stampStep_onContentChange st this) as H1.
  set (st1 := onContentChange this st) in *.
  intros Hrest.
  assert (stampStep st1 st') as H2.
  { revert Hrest. clear H1.
    destruct (nodes st1 !! this) as [nd1|]; [|done]. simpl.
    destruct (isEmptyNode nd1).
    { destruct (recomputeBBox _ _ _ _) as [st2|] eqn:Hrc; [|done]. simpl.
      intros [= <- <-].
      eapply stampStep_trans; [|by eapply stampStep_recomputeBBox].
      by apply stampStep_update. }
    destruct (pushDownContent fuel this nd1 st1) as [st2|] eqn:Hpd; [|done]. simpl.
    pose proof (pushDownContent_stampStep _ _ _ _ _ Hpd) as Hs2.
    destruct (nodes st2 !! this) as [nd2|]; [|done]. simpl.
    destruct (rect_containsRect (getBBox leaf) (bbox nd2)).
    { destruct (makeRoomForLeaf fuel this nd2 st2) as [[f st3]|] eqn:Hmr; [|done].
      simpl. intros Ha. destruct (IH _ _ _ _ Ha) as [Hs4 _].
      eapply stampStep_trans; [exact Hs2|].
      eapply stampStep_trans; [by eapply makeRoomForLeaf_stampStep|done]. }
    destruct (containingNodes st2 nd2 leaf) as [containing|]; [|done]. simpl.
    destruct (bool_decide (0 < length containing)
              && bool_decide (targetChildCount ≤ length (children nd2))).
    - destruct (head (sortByArea st2 containing)) as [first|]; [|done]. simpl.
      destruct (addLeaf fuel first leaf st2) as [[result st3]|] eqn:Ha; [|done].
      simpl. destruct (rebalance result st3) as [st4|] eqn:Hreb; [|done]. simpl.
      intros [= <- <-]. destruct (IH _ _ _ _ Ha) as [Hs3 _].
      eapply stampStep_trans; [exact Hs2|].
      eapply stampStep_trans; [exact Hs3|].
      by eapply stampStep_same, rebalance_sameStamps.
    - intros Hap. eapply stampStep_trans; [exact Hs2|].
      by eapply appendLeaf_stampStep. }
  split; [by eapply stampStep_trans|].
  intros i (nd & Hn & Hi)%getId_Some.
  assert (ImageNode_getId st1 this = Some (idCounter st)) as Hid1.
  { apply getId_Some. exists (set_node_id (idCounter st) nd). split; [|done].
    unfold st1. by rewrite lookup_onContentChange, decide_True, Hn. }
  destruct H2 as [_ [_ Hadv]]. destruct (Hadv _ _ Hid1) as (i' & Hi' & Hcase).
  exists i'. split; [done|]. destruct Hcase as [-> | Hge]; [done|].
  unfold st1 in Hge. rewrite idCounter_onContentChange in Hge. lia.
Qed.

Lemma StampInv_new_EditorImage : StampInv (new_EditorImage (R:=R) emptyStore).2.
Proof.
  unfold new_EditorImage. rewrite new_ImageNode_eq. simpl.
  apply stampStep_new_ImageNode. split.
  - intros n nd Hn. done.
  - intros n m nd md Hn. done.
Qed.

(** The stamps of every reachable state are in order. *)
Lemma reachable_StampInv st img : reachable st img → StampInv st.
Proof.
  induction 1 as [|fuel elem st img r st' img' Hreach IH Hins
                  |fuel elem st img st' img' Hreach IH Hrm
                  |elem st img _ IH].
  - apply StampInv_new_EditorImage.
  - revert Hins. unfold insert. destruct (new_AddElementCommand elem) as [t|cmd].
    { by intros [= <- <- <-]. }
    unfold AddElementCommand_apply, addElementDirectly. simpl.
    destruct (addLeaf fuel (root img) (element cmd) st) as [[l s]|] eqn:Ha; [|done].
    simpl. intros [= <- <- <-].
    destruct (addLeaf_stampStep _ _ _ _ _ _ Ha) as [[Hs _] _]. by apply Hs.
  - revert Hrm. unfold removeElement, AddElementCommand_unapply. simpl.
    destruct (findParent fuel st img elem) as [[c|]|]; simpl; [| |done].
    2:{ by intros [= <- <-]. }
    destruct (remove fuel c st) as [s|] eqn:Hrem; [|done]. simpl.
    intros [= <- <-]. eapply StampInv_sameStamps; [|exact IH].
    by eapply remove_sameStamps.
  - done.
Qed.

(** X13: in every reachable state the version stamps are in order:
    the stamp of every node is below the counter, and no two nodes
    carry the same stamp. *)
Theorem reachable_stamps_distinct st img :
  reachable st img →
  (∀ n i, ImageNode_getId st n = Some i → i < idCounter st) ∧
  (∀ n m i, ImageNode_getId st n = Some i → ImageNode_getId st m = Some i → n = m).
Proof.
  intros [Hb Hd]%reachable_StampInv. split.
  - intros n i (nd & Hn & <-)%getId_Some. by eapply Hb.
  - intros n m i (nd & Hn & Hi)%getId_Some (md & Hm & Hj)%getId_Some.
    apply (Hd n m nd md Hn Hm). congruence.
Qed.

(** X14: an insertion that is accepted gives the root a version stamp
    that the counter had not given out before: it is at least the value
    of the counter before the insertion, hence larger than every stamp
    that a node carried then. *)
Theorem insert_restamps_root fuel st img elem st' img' :
  reachable st img →
  insert fuel elem st img = Some (inr (), st', img') →
  ∃ i, ImageNode_getId st' (root img') = Some i ∧
    idCounter st ≤ i ∧ i < idCounter st' ∧
    ∀ n j, ImageNode_getId st n = Some j → j < i.
Proof.
  intros Hreach Hins.
  destruct (reachable_WF _ _ Hreach) as [_ Hroot].
  pose proof (reachable_StampInv _ _ Hreach) as Hinv.
  revert Hins. unfold insert. destruct (new_AddElementCommand elem) as [t|cmd]; [done|].
  unfold AddElementCommand_apply, addElementDirectly. simpl.
  destruct (addLeaf fuel (root img) (element cmd) st) as [[l s]|] eqn:Ha; [|done].
  simpl. intros [= <- <-]. simpl.
  destruct (addLeaf_stampStep _ _ _ _ _ _ Ha) as [[Hs _] Hrootid].
  destruct (lookup_lt_is_Some_2 _ _ Hroot) as [rd Hrd].
  destruct (Hrootid (node_id rd)) as (i & Hi & Hge).
  { apply getId_Some. by exists rd. }
  exists i. split; [done|]. split; [done|]. split.
  - destruct (Hs Hinv) as [Hb' _].
    apply getId_Some in Hi as (rd' & Hrd' & <-). by eapply Hb'.
  - intros n j (nd & Hn & <-)%getId_Some. pose proof (s_below _ Hinv n nd Hn). lia.
Qed.

(** X15: a removal changes no version stamp: afterwards the counter
    and the stamp of every node, the root and the parent of the removed
    leaf included, are as before. *)
Theorem remove_keeps_stamps fuel st img elem st' img' :
  removeElement fuel elem st img = Some (st', img') →
  idCounter st' = idCounter st ∧
  ∀ n, ImageNode_getId st' n = ImageNode_getId st n.
Proof.
  unfold removeElement, AddElementCommand_unapply. simpl.
  destruct (findParent fuel st img elem) as [[c|]|]; simpl; [| |done].
  2:{ by intros [= <- <-]. }
  destruct (remove fuel c st) as [s|] eqn:Hrem; [|done]. simpl.
  intros [= <- <-]. by eapply remove_sameStamps.
Qed.

End Stamps.

Section QueryOnce.

(** *** The query visits every leaf once *)

Context {R : Type} `{Rect2 R} `{!Rect2Laws R}.
Local Opaque update pushChild onContentChange new_ImageNode.
Implicit Types (st : Store R) (nd : ImageNode R) (n m this c p : ref).
Implicit Types (img : EditorImage R) (elem : AbstractComponent R).
Implicit Types (G : list ref) (renderer : AbstractRenderer R).

Lemma filterNodes_NoDup st (pr : ImageNode R → bool) cs l :
  filterNodes st pr cs = Some l → NoDup cs → NoDup l.
Proof.
  revert l. induction cs as [|c cs IH]; intros l; simpl.
  { intros [= <-]. constructor. }
  destruct (nodes st !! c) as [nd|]; [|done]. simpl.
  destruct (filterNodes st pr cs) as [r|] eqn:Hr; [|done]. simpl.
  intros [= <-] [Hc Hcs]%NoDup_cons. destruct (pr nd); [|by apply IH].
  apply NoDup_cons. split; [|by apply IH].
  intros Hin. apply Hc. by apply (filterNodes_Some _ _ _ _ Hr) in Hin as [? _].
Qed.

(** The loop of [getLeavesIntersectingRegion] adds no node twice, when
    the nodes of the work list are nodes of the tree whose subtrees have
    no node in common and hold no node of the result. *)
Lemma getLeavesIntersectingRegion_loop_NoDup rk G st r region fuel :
  WFr rk [] st → TreeInv G st r → LinkInv G st r →
  ∀ workList result res,
    getLeavesIntersectingRegion_loop fuel st region None workList result = Some res →
    NoDup result → NoDup workList → (∀ w, w ∈ workList → w ∉ G) →
    (∀ a b n, a ∈ workList → b ∈ workList → a ≠ b →
       rtc (child st) a n → rtc (child st) b n → False) →
    (∀ w n, w ∈ workList → n ∈ result → ¬ rtc (child st) w n) →
    NoDup res.
Proof.
  intros Hwf Ht Hk. induction fuel as [|fuel IH]; intros workList result res.
  { destruct workList; simpl; [|done]. by intros [= <-]. }
  destruct workList as [|next rest]; simpl; [by intros [= <-]|].
  destruct (nodes st !! next) as [nd|] eqn:Hnd; [|done]. simpl.
  destruct (getChildrenIntersectingRegion st next region) as [cs|] eqn:Hcs; [|done].
  simpl. intros Hloop Hres Hwl HwG Hdisj Hfresh.
  apply NoDup_cons in Hwl as [Hnext Hrest].
  assert (next ∉ G) as HnextG by (apply HwG; by left).
  assert (∀ c, c ∈ cs → child st next c) as Hchild.
  { intros c Hc. destruct (getChildrenIntersectingRegion_Some _ _ _ _ Hcs)
      as (nd' & Hnd' & Hcsx). destruct (proj1 (Hcsx c) Hc) as [Hin _]. by exists nd'. }
  assert (NoDup cs) as Hcsnd.
  { revert Hcs. unfold getChildrenIntersectingRegion. rewrite Hnd. simpl.
    intros Hf. eapply filterNodes_NoDup; [exact Hf|]. by apply (l_nodup _ _ _ Hk next nd). }
  assert (∀ w, w ∈ rest → w ≠ next) as Hrne by (intros w Hw ->; done).
  apply (IH _ _ _ Hloop).
  - destruct (bool_decide (content nd ≠ None) && _); [|done].
    apply NoDup_app. split; [done|]. split; [|apply NoDup_singleton].
    intros x Hx ->%list_elem_of_singleton.
    apply (Hfresh next next); [by left|done|done].
  - apply NoDup_app. split; [by rewrite reverse_Permutation|]. split; [|done].
    intros x Hx Hxr. rewrite elem_of_reverse in Hx.
    apply (Hdisj next x x); [by left|by right|by apply not_eq_sym, Hrne|
                             by apply rtc_once, Hchild|done].
  - intros w [Hw | Hw]%elem_of_app; rewrite ?elem_of_reverse in Hw.
    + by apply (t_closed _ _ _ Ht next w HnextG), Hchild.
    + apply HwG. by right.
  - intros a b n [Ha | Ha]%elem_of_app [Hb | Hb]%elem_of_app Hab Han Hbn;
      rewrite ?elem_of_reverse in Ha; rewrite ?elem_of_reverse in Hb.
    + apply (subtrees_disjoint rk G st r next a b n Hwf Ht HnextG); try done;
        by apply Hchild.
    + apply (Hdisj next b n); [by left|by right|by apply not_eq_sym, Hrne| |done].
      eapply rtc_l; [by apply Hchild|done].
    + apply (Hdisj a next n); [by right|by left|by apply Hrne|done|].
      eapply rtc_l; [by apply Hchild|done].
    + apply (Hdisj a b n); [by right|by right|done|done|done].
  - intros w n [Hw | Hw]%elem_of_app Hn Hwn; rewrite ?elem_of_reverse in Hw.
    + assert (n ∈ result ∨ n = next) as [Hn' | ->].
      { destruct (bool_decide (content nd ≠ None) && _); [|by left].
        apply elem_of_app in Hn as [?| ->%list_elem_of_singleton]; [by left|by right]. }
      * apply (Hfresh next n); [by left|done|].
        eapply rtc_l; [by apply Hchild|done].
      * destruct (child_rank _ _ _ _ _ Hwf (Hchild w Hw)) as [_ Hrk].
        destruct (rtc_child_rank _ _ _ _ _ Hwf Hwn) as [-> | Hrk']; lia.
    + assert (n ∈ result ∨ n = next) as [Hn' | ->].
      { destruct (bool_decide (content nd ≠ None) && _); [|by left].
        apply elem_of_app in Hn as [?| ->%list_elem_of_singleton]; [by left|by right]. }
      * apply (Hfresh w n); [by right|done|done].
      * apply (Hdisj w next next); [by right|by left|by apply Hrne|done|done].
Qed.

Lemma omap_filter_comm {A B} (f : A → option B) (P : A → Prop) (Q : B → Prop)
    `{∀ x, Decision (P x)} `{∀ y, Decision (Q y)} (l : list A) :
  (∀ x y, x ∈ l → f x = Some y → (P x ↔ Q y)) →
  omap f (filter P l) = filter Q (omap f l).
Proof.
  induction l as [|x l IH]; intros HPQ; [done|].
  rewrite filter_cons. csimpl.
  assert (omap f (filter P l) = filter Q (omap f l)) as IH'.
  { apply IH. intros x' y Hx'. apply HPQ. by right. }
  destruct (f x) as [y|] eqn:Hfx.
  - rewrite filter_cons. destruct (decide (P x)) as [HP | HP].
    + csimpl. rewrite Hfx.
      rewrite decide_True by (by apply (HPQ x y); [left|done|]). by rewrite IH'.
    + rewrite decide_False; [done|]. intros HQ. apply HP.
      by apply (HPQ x y); [left|done|].
  - destruct (decide (P x)); csimpl; by rewrite ?Hfx.
Qed.

Lemma mapM_Some_omap {A B} (f : A → option B) (l : list A) (k : list B) :
  mapM f l = Some k → omap f l = k.
Proof.
  intros HF%mapM_Some. induction HF as [|x y l k Hxy HF IH]; [done|].
  csimpl. by rewrite Hxy, IH.
Qed.

Lemma fmap_fst_pair {A B} (h : A → B) (l : list A) : ((λ e, (e, h e)) <$> l).*1 = l.
Proof. induction l as [|x l IH]; [done|]. csimpl. by rewrite IH. Qed.

(** X18: the query returns an element once for every leaf of the tree
    that holds it and overlaps the region, never more often: its result
    is a permutation of the elements that [renderAll] draws whose box
    has an overlap with the region. *)
Theorem query_returns_each_leaf_once st img region renderer :
  reachable st img →
  ∃ fuel0 res calls,
    (∀ fuel, fuel0 ≤ fuel →
       getElementsIntersectingRegion fuel st img region = Some res ∧
       renderAll fuel st img renderer = Some calls) ∧
    res ≡ₚ filter (λ e, is_Some (rect_intersection (getBBox e) region)) (calls.*1).
Proof.
  intros (rk & G & Hwf & Ht & Hb & Hk & Hroot & Hge)%reachable_Full.
  destruct (getLeavesIntersectingRegion_loop_returns rk [] st region None
              Hwf [root img] ltac:(set_solver) [])
    as (fuel0 & leaves & Hleaves).
  pose proof (getLeavesIntersectingRegion_loop_hasContent _ _ _ _ _ _ _
                (Hleaves fuel0 ltac:(done)) ltac:(constructor)) as Hcontent.
  pose proof (getLeavesIntersectingRegion_loop_elem_of _ _ _ _ _ _
                (Hleaves fuel0 ltac:(done))) as Hmem.
  assert (NoDup leaves) as Hnodup.
  { eapply (getLeavesIntersectingRegion_loop_NoDup rk G st (root img) region fuel0
              Hwf Ht Hk [root img] []); [by apply Hleaves|constructor|
              apply NoDup_singleton| | |].
    - intros w ->%list_elem_of_singleton. by apply (t_root _ _ _ Ht).
    - intros a b n ->%list_elem_of_singleton ->%list_elem_of_singleton. done.
    - intros w n _ Hn. set_solver. }
  destruct (hasContent_leafZIndex _ _ Hcontent) as [zs Hzs].
  set (sorted := jsSort (λ a b, Num (zIndexOrZero st a - zIndexOrZero st b)) leaves).
  assert (sortLeavesByZIndex st leaves = Some sorted) as Hsort.
  { unfold sortLeavesByZIndex. by rewrite Hzs. }
  destruct (sortLeavesByZIndex_Some _ _ _ Hsort) as [Hperm _].
  assert (Forall (hasContent st) sorted) as Hcontent' by by rewrite Hperm.
  destruct (hasContent_leafContent _ _ Hcontent') as [res Hres].
  destruct (getLeaves_returns rk [] st (root img) Hwf Hroot) as (fuel1 & allLeaves & Hall).
  pose proof (Hall fuel1 ltac:(done)) as Hall1.
  pose proof (getLeaves_NoDup rk G st (root img) fuel1 (root img) allLeaves
                Hwf Ht Hk (t_root _ _ _ Ht) Hall1) as Hallnd.
  pose proof (getLeaves_elem_of _ _ _ _ _ _ Hwf Hall1) as Hallmem.
  destruct (renderAll_calls rk G st img renderer Hwf Ht Hb Hk Hroot)
    as (fuel2 & calls & Hcalls & Hcperm & _).
  exists (fuel0 `max` fuel2), res, calls. split.
  { intros fuel Hle. split; [|apply Hcalls; lia].
    unfold getElementsIntersectingRegion, getLeavesIntersectingRegion.
    rewrite Hleaves by lia. simpl. rewrite Hsort. done. }
  set (ovN := λ n : ref,
         is_Some (nd ← nodes st !! n; rect_intersection (bbox nd) region)).
  assert (leaves ≡ₚ filter ovN allLeaves) as Hlv.
  { apply NoDup_Permutation; [done|by apply NoDup_filter|].
    intros n. rewrite list_elem_of_filter, Hallmem, Hmem. split.
    - intros [Hn | (w & ->%list_elem_of_singleton & Hpath & (nd & Hnd & Hc & Hi))];
        [set_solver|].
      split; [|split].
      + unfold ovN. by rewrite Hnd.
      + by eapply rtc_descends_child.
      + by exists nd.
    - intros (Hov & Hpath & (nd & Hnd & Hc)). right. exists (root img).
      split; [by left|].
      unfold ovN in Hov. rewrite Hnd in Hov. simpl in Hov.
      destruct (content nd) as [e|] eqn:He; [|done].
      split; [|exists nd; split; [done|]; split; [by rewrite He|done]].
      eapply (inTree_descends rk G st (root img) region (root img) n e);
        [done|done|done|by exists nd| |by apply (t_root _ _ _ Ht)|done].
      apply intersection_is_Some.
      by rewrite <- (b_leaf _ _ _ Hb n nd e Hnd He). }
  rewrite <- (mapM_Some_omap _ _ _ Hres), Hperm, Hlv, Hcperm.
  rewrite fmap_fst_pair.
  rewrite <- (getLeaves_contents rk G st (root img) fuel1 allLeaves Hwf Ht Hk Hroot Hall1).
  rewrite (omap_filter_comm (leafContent st) ovN
             (λ e, is_Some (rect_intersection (getBBox e) region))); [done|].
  intros n e _ Hlc. apply holds_leafContent in Hlc as (nd & Hnd & Hc).
  unfold ovN. rewrite Hnd. simpl. by rewrite (b_leaf _ _ _ Hb n nd e Hnd Hc).
Qed.

(** X19: the pruning step of the query loses no leaf: on a node of the
    tree [getChildrenOrSelfIntersectingRegion] returns the node itself
    or some of its children, and every leaf below the node whose element
    has a box that intersects the region is below one of the nodes
    returned. *)
Theorem pruning_keeps_matching_leaves st img this region :
  reachable st img →
  inTree st (root img) this →
  ∃ cs, getChildrenOrSelfIntersectingRegion st this region = Some cs ∧
    (∀ c, c ∈ cs → c = this ∨ child st this c) ∧
    ∀ n E, rtc (child st) this n → holds st n E →
      rect_intersects (getBBox E) region = true →
      ∃ c, c ∈ cs ∧ rtc (child st) c n.
Proof.
  intros (rk & G & Hwf & Ht & Hb & Hk & Hroot & Hge)%reachable_Full Hthis.
  pose proof (rtc_child_valid _ _ _ _ _ Hwf Hthis Hroot) as Hvalid.
  pose proof (rtc_notin _ _ _ _ _ Ht (t_root _ _ _ Ht) Hthis) as HthisG.
  destruct (lookup_lt_is_Some_2 _ _ Hvalid) as [nd Hnd].
  unfold getChildrenOrSelfIntersectingRegion. rewrite Hnd. simpl.
  destruct (content nd) as [e|] eqn:Hc.
  - exists [this]. split; [done|]. split.
    + intros c ->%list_elem_of_singleton. by left.
    + intros n E Hpath Hh Hint. exists this. split; [by left|done].
  - destruct (getChildrenIntersectingRegion_is_Some rk [] st this region Hwf Hvalid)
      as [cs Hcs].
    destruct (getChildrenIntersectingRegion_Some _ _ _ _ Hcs) as (nd' & Hnd' & Hcsx).
    simplify_eq. exists cs. split; [done|]. split.
    + intros c [Hin _]%Hcsx. right. by exists nd.
    + intros n E Hpath Hh Hint.
      apply rtc_inv in Hpath as [-> | (c & Hcc & Hpath)].
      { destruct Hh as (nd' & Hnd' & Hc'). simplify_eq. }
      exists c. split; [|done]. apply Hcsx.
      destruct Hcc as (nd' & Hnd' & Hin). simplify_eq. split; [done|].
      assert (child st this c) as Hchild by by exists nd.
      destruct (child_rank _ _ _ _ _ Hwf Hchild) as [Hcl _].
      destruct (lookup_lt_is_Some_2 _ _ Hcl) as [cd Hcd].
      exists cd. split; [done|].
      eapply intersects_contains; [|exact Hint].
      apply (b_cover _ _ _ Hb n E Hh c cd); [|by eapply child_not_root|done|done].
      by apply (t_closed _ _ _ Ht this c).
Qed.

End QueryOnce.

Section Recompute.

(** *** [recomputeBBox] on a reachable state *)

Context {R : Type} `{Rect2 R}.
Local Opaque update pushChild onContentChange new_ImageNode.
Implicit Types (st : Store R) (nd : ImageNode R) (n m this c p : ref).
Implicit Types (img : EditorImage R).

(** X21: on every reachable state [recomputeBBox], called on any node,
    returns; it changes nothing but cached boxes (content, children,
    parent fields, version stamps and the counter are as before), and
    afterwards the node it was called on caches the box of its content
    or the union of the boxes its children cache. *)
Theorem recomputeBBox_brings_box_up_to_date st img this bubbleUp :
  reachable st img →
  this < length (nodes st) →
  ∃ fuel0 st',
    (∀ fuel, fuel0 ≤ fuel → recomputeBBox fuel this bubbleUp st = Some st') ∧
    shapeEq st st' ∧ sameStamps st st' ∧
    bboxUpToDate st' this = true.
Proof.
  intros [[rk Hwf] _]%reachable_WF Hthis.
  destruct (recomputeBBox_returns_from rk [] st this bubbleUp Hwf
              ltac:(set_solver) Hthis) as (fuel0 & st' & Hrc & Hs & _).
  pose proof (Hrc fuel0 ltac:(done)) as Hrc0.
  exists fuel0, st'. split; [done|]. split; [done|].
  split; [by eapply recomputeBBox_sameStamps|].
  destruct (lookup_lt_is_Some_2 _ _ Hthis) as [nd Hnd].
  destruct (computeBBox_is_Some _ _ _ _ _ Hwf Hnd) as [bb Hbb].
  assert (nodes st' !! this = Some (set_bbox bb nd) ∧
          ∀ c, c ∈ children nd → nodes st' !! c = nodes st !! c) as [Hnd' Hch].
  { destruct bubbleUp.
    - split; [by eapply (recomputeBBox_start rk [] st this fuel0 st' nd bb);
                [|set_solver|..]|].
      intros c Hc. eapply (recomputeBBox_frame rk [] st this fuel0 st' c);
        [done|set_solver|done|].
      by destruct (ok_children _ _ _ _ _ (Hwf _ _ Hnd) c Hc).
    - destruct (recomputeBBox_false _ _ _ _ Hrc0) as (nd0 & bb0 & Hnd0 & Hbb0 & ->).
      simplify_eq. split; [by rewrite lookup_update, decide_True, Hnd|].
      intros c Hc. rewrite lookup_update, decide_False; [done|]. intros ->.
      destruct (ok_children _ _ _ _ _ (Hwf _ _ Hnd) this Hc). lia. }
  unfold bboxUpToDate. rewrite Hnd'. apply bool_decide_eq_true.
  transitivity (computeBBox st nd); [|by rewrite Hbb].
  rewrite (computeBBox_children st' nd (set_bbox bb nd)) by done.
  apply computeBBox_ext. intros c Hc. by rewrite Hch.
Qed.

End Recompute.

Section Acceptance.

(** *** What an insertion accepts, and what a removal leaves *)

Context {R : Type} `{Rect2 R}.
Local Opaque update pushChild onContentChange new_ImageNode.
Implicit Types (st : Store R) (nd : ImageNode R) (n m this c p : ref).
Implicit Types (img : EditorImage R) (elem : AbstractComponent R).
Implicit Types (G : list ref).

Lemma leafContent_set_content st n e :
  n < length (nodes st) →
  leafContent (update n (set_content (Some e)) st) n = Some e.
Proof.
  intros Hn. unfold leafContent. rewrite lookup_update, decide_True by done.
  by destruct (lookup_lt_is_Some_2 _ _ Hn) as [nd ->].
Qed.

Lemma rebalance_leafContent this st st' m :
  rebalance this st = Some st' → leafContent st' m = leafContent st m.
Proof.
  unfold rebalance. intros Hr.
  destruct (nodes st !! this) as [nd|]; [|done]. simpl in Hr.
  destruct (parent nd) as [p|]; [|by injection Hr as <-].
  destruct (nodes st !! p) as [pnd|]; [|done]. simpl in Hr.
  case_bool_decide; [|by injection Hr as <-].
  destruct (parent pnd) as [gp|].
  - destruct (recomputeBBox_leafContent _ _ _ _ _ m Hr) as [-> _].
    rewrite leafContent_update by done. rewrite leafContent_pushChild.
    by rewrite !leafContent_update by done.
  - destruct (content nd); [by injection Hr as <-|].
    unfold updateParents in Hr.
    destruct (nodes _ !! p) as [pnd'|]; [|done]. simpl in Hr.
    injection Hr as <-. rewrite leafContent_update by done.
    rewrite leafContent_set_parents. by rewrite leafContent_update by done.
Qed.

(** The node that [addLeaf] returns holds the new element. *)
Lemma addLeaf_holds fuel this (leaf : AbstractComponent R) st res st' :
  addLeaf fuel this leaf st = Some (res, st') → holds st' res leaf.
Proof.
  revert this st res st'. induction fuel as [|fuel IH]; intros this st res st'; [done|].
  rewrite addLeaf_unfold. cbv zeta. intros Ha.
  destruct (nodes (onContentChange this st) !! this) as [nd|] eqn:Hnd; [|done].
  simpl in Ha.
  assert (this < length (nodes (onContentChange this st))) as Hthis
    by by eapply lookup_lt_Some.
  destruct (isEmptyNode nd).
  { destruct (recomputeBBox fuel this true _) as [st1|] eqn:Hr; [|done].
    injection Ha as <- <-. apply holds_leafContent.
    destruct (recomputeBBox_leafContent _ _ _ _ _ this Hr) as [-> _].
    apply leafContent_set_content. done. }
  destruct (pushDownContent fuel this nd _) as [st2|] eqn:Hpd; [|done]. simpl in Ha.
  destruct (nodes st2 !! this) as [nd2|] eqn:Hnd2; [|done]. simpl in Ha.
  destruct (rect_containsRect (getBBox leaf) (bbox nd2)).
  { destruct (makeRoomForLeaf fuel this nd2 st2) as [[f st4]|] eqn:Hmr; [|done].
    simpl in Ha. by apply IH in Ha. }
  destruct (containingNodes st2 nd2 leaf) as [containing|]; [|done]. simpl in Ha.
  destruct (bool_decide (0 < length containing)
            && bool_decide (targetChildCount ≤ length (children nd2))).
  - destruct (head (sortByArea st2 containing)) as [first|]; [|done]. simpl in Ha.
    destruct (addLeaf fuel first leaf st2) as [[r3 st3]|] eqn:Hal; [|done].
    apply IH in Hal. simpl in Ha.
    destruct (rebalance r3 st3) as [st4|] eqn:Hreb; [|done].
    injection Ha as <- <-. apply holds_leafContent.
    rewrite (rebalance_leafContent _ _ _ _ Hreb). by apply holds_leafContent.
  - unfold appendLeaf in Ha. rewrite new_ImageNode_eq in Ha.
    destruct (recomputeBBox fuel _ true _) as [st3|] eqn:Hr; [|done].
    injection Ha as <- <-. apply holds_leafContent.
    destruct (recomputeBBox_leafContent _ _ _ _ _ (length (nodes st2)) Hr) as [-> _].
    apply leafContent_set_content.
    rewrite length_pushChild, length_new_ImageNode. lia.
Qed.



(** C7, amended: on every reachable state the removal of an element
    through [unapply] returns, in one way only, and leaves the image,
    its registry included, as it was: every lookup answers as before.
    The leaf that [findParent] finds ends without content, without
    parent and without children; over rectangles that keep the laws of
    [Rect2Laws] the leaf of an element that is stored in the tree is
    found.  Only [onDestroyElement] removes the property that the
    registry object holds under the id of the element, and the lookups
    of the other ids answer as before it; the lookup of the id itself
    then answers from the prototype of the registry object: [null] when
    that is [Object.prototype] and the id names none of its members, the
    member that the id names otherwise. *)
Theorem remove_disconnects_leaf_keeps_registry st img elem :
  reachable st img →
  ∃ fuel0 st',
    (∀ fuel, fuel0 ≤ fuel → removeElement fuel elem st img = Some (st', img)) ∧
    (∀ fuel st'' img'',
       removeElement fuel elem st img = Some (st'', img'') →
       st'' = st' ∧ img'' = img ∧
       ∀ i, lookupElement img'' i = lookupElement img i) ∧
    (∀ fuel leaf, findParent fuel st img elem = Some (Some leaf) →
       holds st leaf elem ∧
       ∃ nd', nodes st' !! leaf = Some nd' ∧
         content nd' = None ∧ parent nd' = None ∧ children nd' = []) ∧
    (Rect2Laws R → stored st (root img) elem →
       ∃ leaf, inTree st (root img) leaf ∧
         ∀ fuel, fuel0 ≤ fuel → findParent fuel st img elem = Some (Some leaf)) ∧
    (∀ i, i ≠ getId elem →
       lookupElement (onDestroyElement img elem) i = lookupElement img i) ∧
    lookupElement (onDestroyElement img elem) (getId elem)
    = match prototype (componentsById img) with
      | ObjectPrototype =>
          if bool_decide (getId elem ∈ protoKey :: objectPrototypeMembers)
          then FoundBuiltin (getId elem) else NotFound
      | ElementPrototype e =>
          if bool_decide (getId elem = protoKey) then FoundElement e
          else ThroughElement e (getId elem)
      end.
Proof.
  intros Hreach. destruct (reachable_WF _ _ Hreach) as [Hwf Hroot].
  destruct (AddElementCommand_unapply_returns st img elem Hwf Hroot)
    as (fuel0 & st' & Hu & _ & _ & Hleaf).
  destruct (findParent_returns st img elem Hwf Hroot) as (fuel1 & container & Hfp).
  exists (fuel0 `max` fuel1), st'.
  split; [|split; [|split; [|split; [|split]]]].
  - intros fuel Hle. apply Hu. lia.
  - intros fuel st'' img'' Hrm. unfold removeElement in Hrm.
    pose proof (AddElementCommand_unapply_mono _ (fuel `max` fuel0) _ _ _ _ Hrm
                  ltac:(lia)) as H1.
    rewrite Hu in H1 by lia. by injection H1 as <- <-.
  - intros fuel leaf Hf. split; [|by eapply Hleaf].
    by apply (findParent_Some fuel st img).
  - intros L Hst. destruct container as [c|].
    + exists c.
      destruct (findParent_inTree _ _ _ _ _ (Hfp fuel1 ltac:(done))) as [Hin _].
      split; [done|]. intros fuel Hle. apply Hfp. lia.
    + destruct (reachable_Full _ _ Hreach) as (rk & G & Hwf' & Ht & Hb & _).
      by destruct (findParent_None rk G st img elem fuel1 Hwf' Ht Hb
                     (Hfp fuel1 ltac:(done))).
  - intros i Hi. unfold lookupElement, onDestroyElement, getProperty, deleteProperty.
    simpl. by rewrite lookup_delete_ne.
  - unfold lookupElement, onDestroyElement, getProperty, deleteProperty. simpl.
    by rewrite lookup_delete_eq.
Qed.

End Acceptance.

Section Splitting.

(** *** Where an insertion puts the nodes that were there *)

Context {R : Type} `{Rect2 R}.
Local Opaque update pushChild onContentChange new_ImageNode.
Implicit Types (st : Store R) (nd : ImageNode R) (n m this c p g : ref).
Implicit Types (img : EditorImage R) (elem : AbstractComponent R).

Lemma child_lt st g c : child st g c → g < length (nodes st).
Proof. intros (gd & Hg & _). by eapply lookup_lt_Some. Qed.

Lemma child_update_keep st n f g c :
  (∀ nd, children (f nd) = children nd) →
  child (update n f st) g c → child st g c.
Proof.
  intros Hf (gd & Hg & Hc).
  rewrite lookup_update in Hg. case_decide; [|by exists gd].
  destruct (nodes st !! g) as [nd|] eqn:Hnd; [|done]. injection Hg as <-.
  exists nd. by rewrite <- (Hf nd).
Qed.

Lemma child_set_children st n l g c :
  child (update n (set_children l) st) g c →
  (g = n ∧ c ∈ l) ∨ (g ≠ n ∧ child st g c).
Proof.
  intros (gd & Hg & Hc). rewrite lookup_update in Hg. case_decide as Hgn.
  - left. destruct (nodes st !! g); [|done]. by injection Hg as <-.
  - right. split; [done|]. by exists gd.
Qed.

Lemma child_pushChild st this x g c :
  child (pushChild this x st) g c → child st g c ∨ g = this.
Proof.
  intros (gd & Hg & Hc). rewrite lookup_pushChild in Hg. case_decide as Hgn.
  - by right.
  - left. by exists gd.
Qed.

Lemma child_new_ImageNode st par g c :
  child (new_ImageNode par st).2 g c → child st g c.
Proof.
  intros (gd & Hg & Hc). rewrite lookup_new_ImageNode in Hg. case_decide.
  - injection Hg as <-. simpl in Hc. by apply not_elem_of_nil in Hc.
  - by exists gd.
Qed.

Lemma child_set_parents st p cs g c :
  child (foldl (λ s child, update child (set_parent (Some p)) s) st cs) g c →
  child st g c.
Proof.
  intros (gd & Hg & Hc). rewrite lookup_set_parents in Hg. case_decide; [|by exists gd].
  destruct (nodes st !! g) as [nd|] eqn:Hnd; [|done]. injection Hg as <-. by exists nd.
Qed.

Lemma pushDownContent_edges fuel this nd st st' :
  pushDownContent fuel this nd st = Some st' →
  ∀ g c, child st' g c → child st g c ∨ g = this.
Proof.
  unfold pushDownContent. destruct (content nd) as [c0|]; [|intros [= <-]; by left].
  rewrite new_ImageNode_eq. intros [Hs _]%recomputeBBox_shapeEq g c Hgc.
  apply (child_shapeEq _ _ _ _ Hs) in Hgc.
  apply child_pushChild in Hgc as [Hgc|Hgc]; [left|by right].
  apply child_update_keep in Hgc; [|done].
  apply child_update_keep in Hgc; [|done].
  by apply child_new_ImageNode in Hgc.
Qed.

Lemma makeRoomForLeaf_edges fuel this nd st f st' :
  makeRoomForLeaf fuel this nd st = Some (f, st') →
  ∀ g c, child st' g c →
    child st g c ∨ g = this ∨
    (length (nodes st) ≤ g ∧ c ∈ children nd ∧
     targetChildCount ≤ length (children nd)).
Proof.
  unfold makeRoomForLeaf. rewrite new_ImageNode_eq. case_bool_decide as Hfull.
  - simpl. intros [= <- <-] g c Hgc.
    apply child_pushChild in Hgc as [Hgc|Hgc]; [left|by right; left].
    by apply child_new_ImageNode in Hgc.
  - rewrite new_ImageNode_eq. intros Hm.
    destruct (recomputeBBox fuel _ true _) as [st3|] eqn:Hr; [|done].
    apply recomputeBBox_shapeEq in Hr as [Hs _]. simpl in Hm.
    unfold updateParents in Hm. destruct (nodes st3 !! _); [|done]. simpl in Hm.
    injection Hm as <- <-. intros g c Hgc.
    apply child_set_parents in Hgc. apply (child_shapeEq _ _ _ _ Hs) in Hgc.
    apply child_set_children in Hgc as [[-> _]|[_ Hgc]]; [by right; left|].
    apply child_set_children in Hgc as [[-> Hc]|[_ Hgc]].
    + right; right. rewrite length_new_ImageNode. split; [lia|]. split; [done|lia].
    + left. by apply child_new_ImageNode, child_new_ImageNode in Hgc.
Qed.

Lemma appendLeaf_edges fuel this (leaf : AbstractComponent R) st res st' :
  appendLeaf fuel this leaf st = Some (res, st') →
  res = length (nodes st) ∧ length (nodes st) < length (nodes st') ∧
  ∀ g c, child st' g c → child st g c ∨ g = this.
Proof.
  unfold appendLeaf. rewrite new_ImageNode_eq. intros Hm.
  destruct (recomputeBBox fuel _ true _) as [st3|] eqn:Hr; [|done].
  apply recomputeBBox_shapeEq in Hr as [Hs _]. injection Hm as <- <-.
  split; [done|]. split.
  - destruct Hs as [-> _].
    rewrite length_update, length_pushChild, length_new_ImageNode. lia.
  - intros g c Hgc. apply (child_shapeEq _ _ _ _ Hs) in Hgc.
    apply child_update_keep in Hgc; [|done].
    apply child_pushChild in Hgc as [Hgc|Hgc]; [left|by right].
    by apply child_new_ImageNode in Hgc.
Qed.

Lemma addLeaf_empty_edges fuel this (leaf : AbstractComponent R) st nd res st' :
  nodes st !! this = Some nd → content nd = None → children nd = [] →
  addLeaf fuel this leaf st = Some (res, st') →
  res = this ∧ length (nodes st') = length (nodes st) ∧
  ∀ g c, child st' g c → child st g c.
Proof.
  intros Hnd Hc Hch.
  destruct fuel as [|fuel]; [intros Ha; discriminate Ha|].
  rewrite addLeaf_unfold. cbv zeta.
  rewrite lookup_onContentChange, decide_True, Hnd by done. simpl.
  rewrite isEmptyNode_set_node_id.
  rewrite (proj2 (isEmptyNode_true nd)) by done.
  destruct (recomputeBBox _ _ _ _) as [st''|] eqn:Hr; [|done].
  apply recomputeBBox_shapeEq in Hr as [Hs _].
  simpl. intros [= <- <-]. split; [done|]. split.
  - destruct Hs as [-> _]. by rewrite length_update, length_onContentChange.
  - intros g c Hgc. apply (child_shapeEq _ _ _ _ Hs) in Hgc.
    apply child_update_keep in Hgc; [|done].
    by apply (child_shapeEq _ _ _ _ (shapeEq_onContentChange st this)).
Qed.

Lemma rebalance_edges this st st' nd :
  nodes st !! this = Some nd → content nd ≠ None →
  rebalance this st = Some st' →
  length (nodes st') = length (nodes st) ∧
  ∀ g c, child st' g c → child st g c ∨ c = this.
Proof.
  intros Hnd Hc. unfold rebalance. rewrite Hnd. simpl.
  destruct (parent nd) as [p|]; [|intros [= <-]; split; [done|by left]].
  destruct (nodes st !! p) as [pnd|]; [|done]. simpl.
  case_bool_decide; [|intros [= <-]; split; [done|by left]].
  destruct (parent pnd) as [gp|].
  - intros [Hs _]%recomputeBBox_shapeEq. split.
    + destruct Hs as [-> _].
      by rewrite length_update, length_pushChild, !length_update.
    + intros g c Hgc. apply (child_shapeEq _ _ _ _ Hs) in Hgc.
      apply child_update_keep in Hgc; [|done].
      destruct Hgc as (gd & Hg & Hin). rewrite lookup_pushChild in Hg.
      assert (child (update this (set_parent (Some gp))
                       (update p (set_children []) st)) g c ∨ c = this) as [Hgc|Hgc].
      { case_decide; [|left; by exists gd].
        destruct (nodes _ !! g) as [gd0|] eqn:Hg0; [|done]. injection Hg as <-.
        simpl in Hin. apply elem_of_app in Hin as [Hin|Hin].
        - left. by exists gd0.
        - right. by apply list_elem_of_singleton in Hin. }
      2: by right.
      apply child_update_keep in Hgc; [|done].
      apply child_set_children in Hgc as [[_ Hin']|[_ Hgc]]; [|by left].
      by apply not_elem_of_nil in Hin'.
  - destruct (content nd); [|done]. intros [= <-]. split; [done|by left].
Qed.

Lemma underFullNodeWithin_onContentChange this (leaf : AbstractComponent R) st c :
  underFullNodeWithin (onContentChange this st) leaf c → underFullNodeWithin st leaf c.
Proof.
  intros (x & xd & Hx & Hc & Hlen & Hbox). rewrite lookup_onContentChange in Hx.
  case_decide; [|by exists x, xd].
  destruct (nodes st !! x) as [xd0|] eqn:Hx0; [|done]. injection Hx as <-.
  by exists x, xd0.
Qed.

(** [addLeaf] allocates when the node it returns is new, and puts the
    nodes that were there under a new node only where it splits. *)
Lemma addLeaf_moves fuel rk this (leaf : AbstractComponent R) st res st' :
  WFr rk [] st →
  addLeaf fuel this leaf st = Some (res, st') →
  length (nodes st) ≤ length (nodes st') ∧
  (res < length (nodes st) → length (nodes st') = length (nodes st)) ∧
  ∀ c g, movedUnderNew st st' c g → underFullNodeWithin st leaf c.
Proof.
  revert rk this st res st'.
  induction fuel as [|fuel IH]; intros rk this st res st' Hwf; [done|].
  rewrite addLeaf_unfold. cbv zeta. intros Ha.
  pose proof (WFr_onContentChange _ _ _ this Hwf) as Hwf1.
  pose proof (length_onContentChange st this) as Hlen1.
  set (st1 := onContentChange this st) in *.
  destruct (nodes st1 !! this) as [nd|] eqn:Hnd; [|done]. simpl in Ha.
  assert (this < length (nodes st)) as Hthis
    by (rewrite <- Hlen1; by eapply lookup_lt_Some).
  assert (∀ g c, child st1 g c → g < length (nodes st)) as Hold.
  { intros g c Hgc. rewrite <- Hlen1. by eapply child_lt. }
  destruct (isEmptyNode nd) eqn:Hempty.
  { destruct (recomputeBBox fuel this true _) as [st2|] eqn:Hr; [|done].
    injection Ha as <- <-. apply recomputeBBox_shapeEq in Hr as [[Hl _] _].
    rewrite length_update in Hl. split; [lia|]. split; [lia|].
    intros c g (_ & Hg & Hgc%child_lt). lia. }
  destruct (pushDownContent fuel this nd st1) as [st2|] eqn:Hpd; [|done]. simpl in Ha.
  pose proof (pushDownContent_edges _ _ _ _ _ Hpd) as Hedges2.
  destruct (pushDownContent_returns rk st1 this nd Hwf1 Hnd)
    as (st2' & rk2 & nd2 & Hpd' & Hwf2 & Hlen2 & Hnd2 & Hc2 & Hsame & Hone).
  pose proof (pushDownContent_mono _ (fuel `max` 1) _ _ _ _ Hpd ltac:(lia)) as Hx.
  rewrite Hpd' in Hx by lia. injection Hx as ->.
  rewrite Hnd2 in Ha. simpl in Ha.
  assert (targetChildCount ≤ length (children nd2) → st2 = st1 ∧ nd2 = nd) as Hfull.
  { intros Hle. destruct (content nd) eqn:Hc.
    - rewrite Hone in Hle by done. unfold targetChildCount in Hle. lia.
    - destruct Hsame as [-> _]; [done|]. split; [done|]. congruence. }
  destruct (rect_containsRect (getBBox leaf) (bbox nd2)) eqn:Hcontains.
  { destruct (makeRoomForLeaf fuel this nd2 st2) as [[f st4]|] eqn:Hmr; [|done].
    simpl in Ha.
    pose proof (makeRoomForLeaf_edges _ _ _ _ _ _ Hmr) as Hedges4.
    destruct (makeRoomForLeaf_returns rk2 st2 this nd2 Hwf2 Hnd2 Hc2)
      as (fuelm & st4' & rk4 & fd & Hmr' & Hwf4 & Hlen4 & Hfd & Hfc & Hfch).
    pose proof (makeRoomForLeaf_mono _ (fuel `max` fuelm) _ _ _ _ Hmr ltac:(lia)) as Hx.
    rewrite Hmr' in Hx by lia. injection Hx as <- <-.
    destruct (addLeaf_empty_edges _ _ _ _ _ _ _ Hfd Hfc Hfch Ha) as (-> & Hlen5 & Hedges5).
    split; [lia|]. split; [lia|].
    intros c g (Hc & Hg & Hgc).
    apply Hedges5, Hedges4 in Hgc as [Hgc|[->|(_ & Hin & Hle)]]; [|lia|].
    - apply Hedges2 in Hgc as [Hgc%Hold| ->]; lia.
    - destruct (Hfull Hle) as [-> ->].
      apply underFullNodeWithin_onContentChange with (this := this).
      fold st1. by exists this, nd. }
  destruct (containingNodes st2 nd2 leaf) as [containing|]; [|done]. simpl in Ha.
  destruct (bool_decide (0 < length containing)
            && bool_decide (targetChildCount ≤ length (children nd2))) eqn:Hdeep.
  - apply andb_true_iff in Hdeep as [_ Hle%bool_decide_eq_true].
    destruct (Hfull Hle) as [-> ->].
    destruct (head (sortByArea st1 containing)) as [first|]; [|done]. simpl in Ha.
    destruct (addLeaf fuel first leaf st1) as [[r3 st3]|] eqn:Hal; [|done].
    pose proof (addLeaf_holds _ _ _ _ _ _ Hal) as (rd & Hrd & Hrc).
    destruct (IH _ _ _ _ _ Hwf1 Hal) as (Hlen3 & Hres3 & Hmoved3). simpl in Ha.
    destruct (rebalance r3 st3) as [st4|] eqn:Hreb; [|done].
    injection Ha as <- <-.
    destruct (rebalance_edges _ _ _ _ Hrd ltac:(by rewrite Hrc) Hreb) as [Hlen4 Hedges4].
    split; [lia|]. split; [lia|].
    intros c g (Hc & Hg & Hgc). pose proof (child_lt _ _ _ Hgc) as Hg4.
    apply Hedges4 in Hgc as [Hgc| ->].
    + apply underFullNodeWithin_onContentChange with (this := this). fold st1.
      apply (Hmoved3 c g). unfold movedUnderNew. split; [lia|]. split; [lia|done].
    + lia.
  - destruct (appendLeaf_edges _ _ _ _ _ _ Ha) as (-> & Hlen3 & Hedges3).
    split; [lia|]. split; [lia|].
    intros c g (Hc & Hg & Hgc).
    apply Hedges3 in Hgc as [Hgc| ->]; [|lia].
    apply Hedges2 in Hgc as [Hgc%Hold| ->]; lia.
Qed.

(** An insertion puts the nodes that were there under a node it
    allocates only where it splits a node. *)
Lemma insert_moves fuel elem st img r st' img' c g :
  reachable st img →
  insert fuel elem st img = Some (r, st', img') →
  movedUnderNew st st' c g → underFullNodeWithin st elem c.
Proof.
  intros [[rk Hwf] _]%reachable_WF. unfold insert, new_AddElementCommand.
  destruct (Number.isNaN (rect_area (getBBox elem))).
  { intros [= <- <- <-] (Hc & Hg & Hgc%child_lt). lia. }
  unfold AddElementCommand_apply, addElementDirectly. simpl.
  destruct (addLeaf fuel (root img) elem st) as [[l s]|] eqn:Ha; simpl; [|done].
  intros [= <- <- <-].
  destruct (addLeaf_moves _ _ _ _ _ _ _ Hwf Ha) as (_ & _ & Hm). apply Hm.
Qed.

End Splitting.

(** C5, amended: the forty unit squares lie side by side and every one
    of them becomes a leaf directly under the root: the root has 31
    leaf children and no internal child after the thirty-first
    insertion, 40 and none after the last.  On every reachable state of
    an image, an insertion puts a node that was there under a node that
    it allocates only where it splits: the node was a child of a node
    that had [targetChildCount] children or more and whose box the box
    of the new element contains. *)
Theorem squares_stay_flat_under_root :
  ((∃ st img,
      squaresInserted 31 = Some (st, img) ∧
      length (leafChildren st (root img)) = 31 ∧
      internalChildren st (root img) = []) ∧
   (∃ st img,
      squaresInserted 40 = Some (st, img) ∧
      length (leafChildren st (root img)) = 40 ∧
      internalChildren st (root img) = [])) ∧
  (∀ (R : Type) (H : Rect2 R) fuel (elem : AbstractComponent R)
     (st st' : Store R) (img img' : EditorImage R) r c g,
     reachable st img →
     insert fuel elem st img = Some (r, st', img') →
     movedUnderNew st st' c g → underFullNodeWithin st elem c).
Proof.
  split; [exact squares_flat_after_31_and_40|].
  intros R H fuel elem st st' img img' r c g Hreach Hins Hmoved.
  by eapply insert_moves.
Qed.

(** ** Witnesses *)

Lemma threeSquares_reachable : reachable threeSquares.1 threeSquares.2.
Proof.
  apply (insertAll_reachable 64 (unitSquareAt <$> seq 0 3) freshImage.1 freshImage.2).
  - exact reachable_new.
  - vm_compute. reflexivity.
Qed.

Lemma dotInserted_reachable : reachable dotInserted.1 dotInserted.2.
Proof.
  apply (insertAll_reachable 8 [loneElement; dotElement] freshImage.1 freshImage.2).
  - exact reachable_new.
  - vm_compute. reflexivity.
Qed.

Lemma query_returns_overlapping_witness :
  reachable dotInserted.1 dotInserted.2 ∧
  ∃ fuel0 res,
    (∀ fuel, fuel0 ≤ fuel →
       getElementsIntersectingRegion fuel dotInserted.1 dotInserted.2
         (mkZRect (-1) (-1) 2 2) = Some res) ∧
    (∀ E, E ∈ res ↔
       ∃ n, inTree dotInserted.1 (root dotInserted.2) n ∧
         holds dotInserted.1 n E ∧
         is_Some (rect_intersection (getBBox E) (mkZRect (-1) (-1) 2 2))) ∧
    (∀ E n N ndN, E ∈ res → holds dotInserted.1 n E →
       inTree dotInserted.1 (root dotInserted.2) N → N ≠ root dotInserted.2 →
       rtc (child dotInserted.1) N n →
       nodes dotInserted.1 !! N = Some ndN →
       rect_intersects (bbox ndN) (mkZRect (-1) (-1) 2 2) = true).
Proof.
  split; [exact dotInserted_reachable|].
  apply (query_returns_overlapping dotInserted.1 dotInserted.2 (mkZRect (-1) (-1) 2 2)).
  exact dotInserted_reachable.
Defined.

Lemma query_sorted_by_zIndex_witness :
  reachable threeSquares.1 threeSquares.2 ∧
  ∃ fuel0 res,
    (∀ fuel, fuel0 ≤ fuel →
       getElementsIntersectingRegion fuel threeSquares.1 threeSquares.2
         (mkZRect 0 0 5 5) = Some res) ∧
    StronglySorted (λ a b, (getZIndex a ≤ getZIndex b)%Z) res ∧
    (∀ fuel res',
       getElementsIntersectingRegion fuel threeSquares.1 threeSquares.2
         (mkZRect 0 0 5 5) = Some res' → res' = res).
Proof.
  split; [exact threeSquares_reachable|].
  apply (query_sorted_by_zIndex threeSquares.1 threeSquares.2 (mkZRect 0 0 5 5)).
  exact threeSquares_reachable.
Defined.

Lemma returned_leaves_have_content_witness :
  (getLeavesIntersectingRegion 8 threeSquares.1 (root threeSquares.2)
     (mkZRect 0 0 5 5) None = Some [3; 2; 1] ∨
   getLeaves 8 threeSquares.1 (root threeSquares.2) = Some [3; 2; 1]) ∧
  (Forall (hasContent threeSquares.1) [3; 2; 1] ∧
   ∃ sorted, sortLeavesByZIndex threeSquares.1 [3; 2; 1] = Some sorted ∧
     is_Some (mapM (leafContent threeSquares.1) sorted) ∧
     is_Some (mapM (leafContent threeSquares.1) [3; 2; 1])).
Proof.
  split; [left; vm_compute; reflexivity|].
  apply (returned_leaves_have_content 8 threeSquares.1 (root threeSquares.2)
           (mkZRect 0 0 5 5) None [3; 2; 1]).
  left. vm_compute. reflexivity.
Defined.

Lemma thirtySquares_reachable : reachable thirtySquares.1 thirtySquares.2.
Proof.
  apply (insertAll_reachable 64 (unitSquareAt <$> seq 0 30) freshImage.1 freshImage.2).
  - exact reachable_new.
  - vm_compute. reflexivity.
Qed.

Lemma thirtySquares_moved : movedUnderNew thirtySquares.1 coveringInserted.1 1 32.
Proof.
  split; [vm_compute; lia|]. split; [vm_compute; lia|].
  exists (mkImageNode None (mkZRect 0 0 30 1) (seq 1 30) (Some 0) 63).
  split; [vm_compute; reflexivity|]. simpl. set_solver.
Qed.

Lemma squares_stay_flat_under_root_witness :
  reachable thirtySquares.1 thirtySquares.2 ∧
  insert 64 coveringElement thirtySquares.1 thirtySquares.2
  = Some (inr (), coveringInserted.1, coveringInserted.2) ∧
  movedUnderNew thirtySquares.1 coveringInserted.1 1 32 ∧
  underFullNodeWithin thirtySquares.1 coveringElement 1.
Proof.
  split; [exact thirtySquares_reachable|]. split; [vm_compute; reflexivity|].
  split; [exact thirtySquares_moved|].
  apply (proj2 squares_stay_flat_under_root ZRect _ 64 coveringElement
           thirtySquares.1 coveringInserted.1 thirtySquares.2 coveringInserted.2
           (inr ()) 1 32).
  - exact thirtySquares_reachable.
  - vm_compute. reflexivity.
  - exact thirtySquares_moved.
Defined.

Lemma remove_disconnects_leaf_keeps_registry_witness :
  reachable threeSquares.1 threeSquares.2 ∧
  ∃ fuel0 st',
    (∀ fuel, fuel0 ≤ fuel →
       removeElement fuel (unitSquareAt 1) threeSquares.1 threeSquares.2
       = Some (st', threeSquares.2)) ∧
    (∀ fuel st'' img'',
       removeElement fuel (unitSquareAt 1) threeSquares.1 threeSquares.2
       = Some (st'', img'') →
       st'' = st' ∧ img'' = threeSquares.2 ∧
       ∀ i, lookupElement img'' i = lookupElement threeSquares.2 i) ∧
    (∀ fuel leaf,
       findParent fuel threeSquares.1 threeSquares.2 (unitSquareAt 1)
       = Some (Some leaf) →
       holds threeSquares.1 leaf (unitSquareAt 1) ∧
       ∃ nd', nodes st' !! leaf = Some nd' ∧
         content nd' = None ∧ parent nd' = None ∧ children nd' = []) ∧
    (Rect2Laws ZRect → stored threeSquares.1 (root threeSquares.2) (unitSquareAt 1) →
       ∃ leaf, inTree threeSquares.1 (root threeSquares.2) leaf ∧
         ∀ fuel, fuel0 ≤ fuel →
           findParent fuel threeSquares.1 threeSquares.2 (unitSquareAt 1)
           = Some (Some leaf)) ∧
    (∀ i, i ≠ getId (unitSquareAt 1) →
       lookupElement (onDestroyElement threeSquares.2 (unitSquareAt 1)) i
       = lookupElement threeSquares.2 i) ∧
    lookupElement (onDestroyElement threeSquares.2 (unitSquareAt 1))
      (getId (unitSquareAt 1))
    = match prototype (componentsById threeSquares.2) with
      | ObjectPrototype =>
          if bool_decide (getId (unitSquareAt 1) ∈ protoKey :: objectPrototypeMembers)
          then FoundBuiltin (getId (unitSquareAt 1)) else NotFound
      | ElementPrototype e =>
          if bool_decide (getId (unitSquareAt 1) = protoKey) then FoundElement e
          else ThroughElement e (getId (unitSquareAt 1))
      end.
Proof.
  split; [exact threeSquares_reachable|].
  apply (remove_disconnects_leaf_keeps_registry threeSquares.1 threeSquares.2
           (unitSquareAt 1)).
  exact threeSquares_reachable.
Defined.


Lemma addLeaf_advances_shared_counter_witness :
  addLeaf 8 (root freshImage.2) loneElement freshImage.1
  = Some (0, loneInserted.1) ∧
  idCounter freshImage.1 < idCounter loneInserted.1.
Proof.
  split; [vm_compute; reflexivity|].
  apply (addLeaf_advances_shared_counter 8 (root freshImage.2) loneElement
           freshImage.1 0 loneInserted.1).
  vm_compute. reflexivity.
Defined.

Lemma loneInserted_reachable : reachable loneInserted.1 loneInserted.2.
Proof.
  apply (reachable_insert 8 loneElement freshImage.1 freshImage.2 (inr ())).
  - exact reachable_new.
  - vm_compute. reflexivity.
Qed.

Lemma threeSquares_second_inTree : inTree threeSquares.1 (root threeSquares.2) 2.
Proof.
  apply rtc_once. exists threeSquaresRoot. split; [vm_compute; reflexivity|].
  vm_compute. set_solver.
Qed.

Lemma threeSquares_second_holds : holds threeSquares.1 2 (unitSquareAt 1).
Proof. exists threeSquaresSecondLeaf. split; vm_compute; reflexivity. Qed.

Lemma threeSquares_second_stored :
  stored threeSquares.1 (root threeSquares.2) (unitSquareAt 1).
Proof.
  exists 2. split; [exact threeSquares_second_inTree|exact threeSquares_second_holds].
Qed.

Lemma freshImage_nothing_stored : ¬ stored freshImage.1 (root freshImage.2) loneElement.
Proof.
  intros (n & _ & nd & Hnd & Hc).
  assert (n = 0) as ->.
  { apply lookup_lt_Some in Hnd. vm_compute in Hnd. lia. }
  vm_compute in Hnd. injection Hnd as <-. discriminate Hc.
Qed.

Lemma reachable_wellformed_witness :
  (reachable threeSquares.1 threeSquares.2 ∧
   nodes threeSquares.1 !! 0 = Some threeSquaresRoot) ∧
  ((content threeSquaresRoot ≠ None → children threeSquaresRoot = []) ∧
   (∀ c, c ∈ children threeSquaresRoot → c < length (nodes threeSquares.1)) ∧
   (∀ q, parent threeSquaresRoot = Some q → child threeSquares.1 q 0) ∧
   ¬ tc (child threeSquares.1) 0 0).
Proof.
  split; [split; [exact threeSquares_reachable|vm_compute; reflexivity]|].
  apply (reachable_wellformed threeSquares.1 threeSquares.2 0 threeSquaresRoot).
  - exact threeSquares_reachable.
  - vm_compute. reflexivity.
Defined.

Lemma reachable_tree_shape_witness :
  reachable threeSquares.1 threeSquares.2 ∧
  ((∀ p, ¬ child threeSquares.1 p (root threeSquares.2)) ∧
   (∃ rd, nodes threeSquares.1 !! root threeSquares.2 = Some rd ∧ parent rd = None) ∧
   (∀ p1 p2 c, inTree threeSquares.1 (root threeSquares.2) p1 →
      inTree threeSquares.1 (root threeSquares.2) p2 →
      child threeSquares.1 p1 c → child threeSquares.1 p2 c → p1 = p2) ∧
   (∀ c cd q, inTree threeSquares.1 (root threeSquares.2) c →
      nodes threeSquares.1 !! c = Some cd → parent cd = Some q →
      inTree threeSquares.1 (root threeSquares.2) q ∧ child threeSquares.1 q c)).
Proof.
  split; [exact threeSquares_reachable|].
  apply (reachable_tree_shape threeSquares.1 threeSquares.2).
  exact threeSquares_reachable.
Defined.

Lemma reachable_boxes_cover_witness :
  (reachable threeSquares.1 threeSquares.2 ∧
   inTree threeSquares.1 (root threeSquares.2) 2 ∧
   holds threeSquares.1 2 (unitSquareAt 1)) ∧
  (nodeBBox threeSquares.1 2 = Some (getBBox (unitSquareAt 1)) ∧
   ∀ N ndN, inTree threeSquares.1 (root threeSquares.2) N →
     N ≠ root threeSquares.2 → rtc (child threeSquares.1) N 2 →
     nodes threeSquares.1 !! N = Some ndN →
     rect_containsRect (bbox ndN) (getBBox (unitSquareAt 1)) = true).
Proof.
  split.
  { split; [exact threeSquares_reachable|].
    split; [exact threeSquares_second_inTree|exact threeSquares_second_holds]. }
  apply (reachable_boxes_cover threeSquares.1 threeSquares.2 2 (unitSquareAt 1)).
  - exact threeSquares_reachable.
  - exact threeSquares_second_inTree.
  - exact threeSquares_second_holds.
Defined.

Lemma insert_returns_and_registers_witness :
  reachable threeSquares.1 threeSquares.2 ∧
  ∃ fuel0 r st' img',
    (∀ fuel, fuel0 ≤ fuel →
       insert fuel loneElement threeSquares.1 threeSquares.2 = Some (r, st', img')) ∧
    root img' = root threeSquares.2 ∧
    (Number.isNaN (rect_area (getBBox loneElement)) = false →
       r = inr () ∧
       lookupElement img' (getId loneElement) = FoundElement loneElement ∧
       (getId loneElement ≠ protoKey →
          ∀ i, i ≠ getId loneElement →
            lookupElement img' i = lookupElement threeSquares.2 i) ∧
       (getId loneElement = protoKey →
          ∀ i, i ≠ getId loneElement →
            lookupElement img' i
            = match ownProperties (componentsById threeSquares.2) !! i with
              | Some e => FoundElement e
              | None => ThroughElement loneElement i
              end)).
Proof.
  split; [exact threeSquares_reachable|].
  apply (insert_returns_and_registers threeSquares.1 threeSquares.2 loneElement).
  exact threeSquares_reachable.
Defined.

Lemma renderAll_draws_stored_witness :
  reachable threeSquares.1 threeSquares.2 ∧
  ∃ fuel0 calls,
    (∀ fuel, fuel0 ≤ fuel →
       renderAll fuel threeSquares.1 threeSquares.2 pointSkippingRenderer
       = Some calls) ∧
    StronglySorted (λ a b, (getZIndex a.1 ≤ getZIndex b.1)%Z) calls ∧
    ∀ E B, (E, B) ∈ calls ↔
      stored threeSquares.1 (root threeSquares.2) E ∧ B = getBBox E.
Proof.
  split; [exact threeSquares_reachable|].
  apply (renderAll_draws_stored threeSquares.1 threeSquares.2 pointSkippingRenderer).
  exact threeSquares_reachable.
Defined.

Lemma insert_draws_one_more_witness :
  (reachable threeSquares.1 threeSquares.2 ∧
   Number.isNaN (rect_area (getBBox loneElement)) = false) ∧
  ∃ fuel0 st' img' calls calls',
    (∀ fuel, fuel0 ≤ fuel →
       insert fuel loneElement threeSquares.1 threeSquares.2
       = Some (inr (), st', img') ∧
       renderAll fuel threeSquares.1 threeSquares.2 pointSkippingRenderer
       = Some calls ∧
       renderAll fuel st' img' pointSkippingRenderer = Some calls') ∧
    calls' ≡ₚ (loneElement, getBBox loneElement) :: calls ∧
    (∀ E, stored st' (root img') E ↔
       stored threeSquares.1 (root threeSquares.2) E ∨ E = loneElement).
Proof.
  split; [split; [exact threeSquares_reachable|reflexivity]|].
  apply (insert_draws_one_more threeSquares.1 threeSquares.2 loneElement
           pointSkippingRenderer).
  - exact threeSquares_reachable.
  - reflexivity.
Defined.

Lemma remove_draws_one_less_witness :
  (reachable threeSquares.1 threeSquares.2 ∧
   stored threeSquares.1 (root threeSquares.2) (unitSquareAt 1)) ∧
  ∃ fuel0 st' calls calls',
    (∀ fuel, fuel0 ≤ fuel →
       removeElement fuel (unitSquareAt 1) threeSquares.1 threeSquares.2
       = Some (st', threeSquares.2) ∧
       renderAll fuel threeSquares.1 threeSquares.2 pointSkippingRenderer
       = Some calls ∧
       renderAll fuel st' threeSquares.2 pointSkippingRenderer = Some calls') ∧
    calls ≡ₚ (unitSquareAt 1, getBBox (unitSquareAt 1)) :: calls'.
Proof.
  split; [split; [exact threeSquares_reachable|exact threeSquares_second_stored]|].
  apply (remove_draws_one_less threeSquares.1 threeSquares.2 (unitSquareAt 1)
           pointSkippingRenderer).
  - exact threeSquares_reachable.
  - exact threeSquares_second_stored.
Defined.

Lemma remove_absent_changes_nothing_witness :
  (reachable freshImage.1 freshImage.2 ∧
   ¬ stored freshImage.1 (root freshImage.2) loneElement) ∧
  ((∃ fuel0, ∀ fuel, fuel0 ≤ fuel →
      removeElement fuel loneElement freshImage.1 freshImage.2
      = Some (freshImage.1, freshImage.2)) ∧
   (∀ fuel st' img',
      removeElement fuel loneElement freshImage.1 freshImage.2 = Some (st', img') →
      st' = freshImage.1 ∧ img' = freshImage.2)).
Proof.
  split; [split; [exact reachable_new|exact freshImage_nothing_stored]|].
  apply (remove_absent_changes_nothing freshImage.1 freshImage.2 loneElement).
  - exact reachable_new.
  - exact freshImage_nothing_stored.
Defined.

Lemma insert_remove_restores_drawing_witness :
  (reachable threeSquares.1 threeSquares.2 ∧
   Number.isNaN (rect_area (getBBox loneElement)) = false) ∧
  ∃ fuel0 st1 img1 st2 calls calls2,
    (∀ fuel, fuel0 ≤ fuel →
       insert fuel loneElement threeSquares.1 threeSquares.2
       = Some (inr (), st1, img1) ∧
       removeElement fuel loneElement st1 img1 = Some (st2, img1) ∧
       renderAll fuel threeSquares.1 threeSquares.2 pointSkippingRenderer
       = Some calls ∧
       renderAll fuel st2 img1 pointSkippingRenderer = Some calls2) ∧
    calls2 ≡ₚ calls.
Proof.
  split; [split; [exact threeSquares_reachable|reflexivity]|].
  apply (insert_remove_restores_drawing threeSquares.1 threeSquares.2 loneElement
           pointSkippingRenderer).
  - exact threeSquares_reachable.
  - reflexivity.
Defined.

Lemma inserted_element_is_found_witness :
  (reachable threeSquares.1 threeSquares.2 ∧
   Number.isNaN (rect_area (getBBox loneElement)) = false) ∧
  ∃ fuel0 st' img' leaf,
    (∀ fuel, fuel0 ≤ fuel →
       insert fuel loneElement threeSquares.1 threeSquares.2
       = Some (inr (), st', img') ∧
       findParent fuel st' img' loneElement = Some (Some leaf)) ∧
    inTree st' (root img') leaf ∧ holds st' leaf loneElement ∧
    ∀ region, is_Some (rect_intersection (getBBox loneElement) region) →
      ∃ fuel1 res,
        (∀ fuel, fuel1 ≤ fuel →
           getElementsIntersectingRegion fuel st' img' region = Some res) ∧
        loneElement ∈ res.
Proof.
  split; [split; [exact threeSquares_reachable|reflexivity]|].
  apply (inserted_element_is_found threeSquares.1 threeSquares.2 loneElement).
  - exact threeSquares_reachable.
  - reflexivity.
Defined.

Lemma parent_lists_child_once_witness :
  (reachable threeSquares.1 threeSquares.2 ∧
   nodes threeSquares.1 !! 2 = Some threeSquaresSecondLeaf ∧
   parent threeSquaresSecondLeaf = Some 0) ∧
  ∃ pnd, nodes threeSquares.1 !! 0 = Some pnd ∧ NoDup (children pnd) ∧
    S (length (filter (λ node, node ≠ 2) (children pnd))) = length (children pnd).
Proof.
  split.
  { split; [exact threeSquares_reachable|]. split; vm_compute; reflexivity. }
  apply (parent_lists_child_once threeSquares.1 threeSquares.2 2
           threeSquaresSecondLeaf 0).
  - exact threeSquares_reachable.
  - vm_compute. reflexivity.
  - vm_compute. reflexivity.
Defined.

Lemma content_only_in_tree_witness :
  (reachable threeSquares.1 threeSquares.2 ∧
   holds threeSquares.1 2 (unitSquareAt 1)) ∧
  inTree threeSquares.1 (root threeSquares.2) 2.
Proof.
  split; [split; [exact threeSquares_reachable|exact threeSquares_second_holds]|].
  apply (content_only_in_tree threeSquares.1 threeSquares.2 2 (unitSquareAt 1)).
  - exact threeSquares_reachable.
  - exact threeSquares_second_holds.
Defined.

Lemma operations_allocate_little_witness :
  reachable threeSquares.1 threeSquares.2 ∧
  ((∀ fuel r st' img',
      insert fuel loneElement threeSquares.1 threeSquares.2 = Some (r, st', img') →
      length (nodes threeSquares.1) ≤ length (nodes st')
      ≤ length (nodes threeSquares.1) + 3) ∧
   (∀ fuel st' img',
      removeElement fuel loneElement threeSquares.1 threeSquares.2
      = Some (st', img') →
      length (nodes st') = length (nodes threeSquares.1))).
Proof.
  split; [exact threeSquares_reachable|].
  apply (operations_allocate_little threeSquares.1 threeSquares.2 loneElement).
  exact threeSquares_reachable.
Defined.

Lemma render_draws_visible_witness :
  reachable dotInserted.1 dotInserted.2 ∧
  ∃ fuel0 calls,
    (∀ fuel, fuel0 ≤ fuel →
       render fuel dotInserted.1 dotInserted.2 pointSkippingRenderer
         (mkZRect 0 0 10 10) = Some calls) ∧
    StronglySorted (λ a b, (getZIndex a.1 ≤ getZIndex b.1)%Z) calls ∧
    ∀ E B, (E, B) ∈ calls ↔
      B = mkZRect 0 0 10 10 ∧
      ∃ n, inTree dotInserted.1 (root dotInserted.2) n ∧ holds dotInserted.1 n E ∧
        is_Some (rect_intersection (getBBox E) (mkZRect 0 0 10 10)) ∧
        ∀ N Nd, inTree dotInserted.1 (root dotInserted.2) N →
          rtc (child dotInserted.1) N n →
          nodes dotInserted.1 !! N = Some Nd →
          isTooSmallToRender pointSkippingRenderer (bbox Nd) = false.
Proof.
  split; [exact dotInserted_reachable|].
  apply (render_draws_visible dotInserted.1 dotInserted.2 pointSkippingRenderer
           (mkZRect 0 0 10 10)).
  exact dotInserted_reachable.
Defined.

Lemma reachable_stamps_distinct_witness :
  reachable threeSquares.1 threeSquares.2 ∧
  ((∀ n i, ImageNode_getId threeSquares.1 n = Some i → i < idCounter threeSquares.1) ∧
   (∀ n m i, ImageNode_getId threeSquares.1 n = Some i →
      ImageNode_getId threeSquares.1 m = Some i → n = m)).
Proof.
  split; [exact threeSquares_reachable|].
  apply (reachable_stamps_distinct threeSquares.1 threeSquares.2).
  exact threeSquares_reachable.
Defined.

Lemma insert_restamps_root_witness :
  (reachable freshImage.1 freshImage.2 ∧
   insert 8 loneElement freshImage.1 freshImage.2
   = Some (inr (), loneInserted.1, loneInserted.2)) ∧
  ∃ i, ImageNode_getId loneInserted.1 (root loneInserted.2) = Some i ∧
    idCounter freshImage.1 ≤ i ∧ i < idCounter loneInserted.1 ∧
    ∀ n j, ImageNode_getId freshImage.1 n = Some j → j < i.
Proof.
  split; [split; [exact reachable_new|vm_compute; reflexivity]|].
  apply (insert_restamps_root 8 freshImage.1 freshImage.2 loneElement
           loneInserted.1 loneInserted.2).
  - exact reachable_new.
  - vm_compute. reflexivity.
Defined.

Lemma remove_keeps_stamps_witness :
  removeElement 8 (unitSquareAt 1) threeSquares.1 threeSquares.2
  = Some (secondSquareRemoved.1, secondSquareRemoved.2) ∧
  (idCounter secondSquareRemoved.1 = idCounter threeSquares.1 ∧
   ∀ n, ImageNode_getId secondSquareRemoved.1 n = ImageNode_getId threeSquares.1 n).
Proof.
  split; [vm_compute; reflexivity|].
  apply (remove_keeps_stamps 8 threeSquares.1 threeSquares.2 (unitSquareAt 1)
           secondSquareRemoved.1 secondSquareRemoved.2).
  vm_compute. reflexivity.
Defined.

Lemma threeSquares_root_inTree :
  inTree threeSquares.1 (root threeSquares.2) (root threeSquares.2).
Proof. apply rtc_refl. Qed.

Lemma query_returns_each_leaf_once_witness :
  reachable dotInserted.1 dotInserted.2 ∧
  ∃ fuel0 res calls,
    (∀ fuel, fuel0 ≤ fuel →
       getElementsIntersectingRegion fuel dotInserted.1 dotInserted.2
         (mkZRect (-1) (-1) 2 2) = Some res ∧
       renderAll fuel dotInserted.1 dotInserted.2 pointSkippingRenderer
       = Some calls) ∧
    res ≡ₚ filter (λ e, is_Some (rect_intersection (getBBox e) (mkZRect (-1) (-1) 2 2)))
             (calls.*1).
Proof.
  split; [exact dotInserted_reachable|].
  apply (query_returns_each_leaf_once dotInserted.1 dotInserted.2
           (mkZRect (-1) (-1) 2 2) pointSkippingRenderer).
  exact dotInserted_reachable.
Defined.

Lemma pruning_keeps_matching_leaves_witness :
  (reachable threeSquares.1 threeSquares.2 ∧
   inTree threeSquares.1 (root threeSquares.2) (root threeSquares.2)) ∧
  ∃ cs,
    getChildrenOrSelfIntersectingRegion threeSquares.1 (root threeSquares.2)
      (mkZRect 0 0 1 1) = Some cs ∧
    (∀ c, c ∈ cs →
       c = root threeSquares.2 ∨ child threeSquares.1 (root threeSquares.2) c) ∧
    ∀ n E, rtc (child threeSquares.1) (root threeSquares.2) n →
      holds threeSquares.1 n E →
      rect_intersects (getBBox E) (mkZRect 0 0 1 1) = true →
      ∃ c, c ∈ cs ∧ rtc (child threeSquares.1) c n.
Proof.
  split; [split; [exact threeSquares_reachable|exact threeSquares_root_inTree]|].
  apply (pruning_keeps_matching_leaves threeSquares.1 threeSquares.2
           (root threeSquares.2) (mkZRect 0 0 1 1)).
  - exact threeSquares_reachable.
  - exact threeSquares_root_inTree.
Defined.


Lemma remove_insert_restores_drawing_witness :
  (reachable threeSquares.1 threeSquares.2 ∧
   stored threeSquares.1 (root threeSquares.2) (unitSquareAt 1)) ∧
  ∃ fuel0 st1 st2 img2 calls calls2,
    (∀ fuel, fuel0 ≤ fuel →
       removeElement fuel (unitSquareAt 1) threeSquares.1 threeSquares.2
       = Some (st1, threeSquares.2) ∧
       insert fuel (unitSquareAt 1) st1 threeSquares.2 = Some (inr (), st2, img2) ∧
       renderAll fuel threeSquares.1 threeSquares.2 pointSkippingRenderer
       = Some calls ∧
       renderAll fuel st2 img2 pointSkippingRenderer = Some calls2) ∧
    calls2 ≡ₚ calls.
Proof.
  split; [split; [exact threeSquares_reachable|exact threeSquares_second_stored]|].
  apply (remove_insert_restores_drawing threeSquares.1 threeSquares.2 (unitSquareAt 1)
           pointSkippingRenderer).
  - exact threeSquares_reachable.
  - exact threeSquares_second_stored.
Defined.

Lemma recomputeBBox_brings_box_up_to_date_witness :
  (reachable threeSquares.1 threeSquares.2 ∧ 0 < length (nodes threeSquares.1)) ∧
  ∃ fuel0 st',
    (∀ fuel, fuel0 ≤ fuel → recomputeBBox fuel 0 true threeSquares.1 = Some st') ∧
    shapeEq threeSquares.1 st' ∧ sameStamps threeSquares.1 st' ∧
    bboxUpToDate st' 0 = true.
Proof.
  split; [split; [exact threeSquares_reachable|vm_compute; lia]|].
  apply (recomputeBBox_brings_box_up_to_date threeSquares.1 threeSquares.2 0 true).
  - exact threeSquares_reachable.
  - vm_compute. lia.
Defined.
